(** * BG-Removal: the heuristic segmentation pipeline, embedded and verified

    Part I is the program.  Modules [Morph], [Color], [Detect], [Compose] and
    [Pipeline] follow the boolean-mask pipeline (improvedBackgroundDetection
    and the functions it calls); [PostProcess] follows the post-processing of
    src/main.js (applyMaskToImage, removeSmallRegions, smoothEdges) and the
    two loops of the manual brush; [Heap] writes erode and dilate once more
    on a store of arrays; [Segment] follows the label-mask segmentation of
    src/main.js (removeBackgroundPro and the functions it calls); [Sobel] and
    [Blur] follow the edge detector and the loop of the background blur.
    Part II is the proofs.

    Numbers.  A JavaScript number is an IEEE-754 binary64.  Integer-valued
    expressions of the source (indices, counts, byte values) are kept in [Z];
    whatever goes through a division, a fractional constant or a square root
    is a [Js.num]: either still an exact integer ([Int]) or a binary64
    ([Flt]), computed with Rocq's primitive floats.  Sums, differences and
    products of integers, and quotients that are integers, are exact in
    binary64 below 2^53, far above anything an image gives rise to.
    [Math.floor (i / width)] on a pixel index is the integer quotient, and
    [i % width] the integer remainder.

    Arrays.  A mask is a [list bool]; reading past its end yields
    [undefined], which is falsy, and writing past its end grows it.  A typed
    byte array is a [list Z] of fixed length.  [undefined] read from a byte
    array only ever flows into arithmetic and comparisons, where it behaves
    as NaN.

    Control.  A counting loop is [Js.forZ]; a loop that leaves at the first
    hit is [forallb] or [existsb]; [continue] on cells outside the image is a
    [filter].  The unbounded [while] loops (the flood fill, and the search
    for a region in removeSmallRegions and in fillHoles) take fuel and
    return [None] if it runs out; each is proved to end within it. *)

From Stdlib Require Import ZArith List Bool Lia Floats Permutation.
Import ListNotations.
Local Open Scope Z_scope.
#[local] Set Warnings "-inexact-float".

(* ################################################################## *)
(** * Part I: the program *)
(* ################################################################## *)

(* ================================================================== *)
(** ** JavaScript numbers, arrays and loops *)
(* ================================================================== *)

Module Js.

Inductive num : Type :=
| Int (z : Z)
| Flt (f : float).

Definition ofZ (z : Z) : float :=
  if z <? 0 then PrimFloat.opp (PrimFloat.of_uint63 (Uint63.of_Z (- z)))
  else PrimFloat.of_uint63 (Uint63.of_Z z).

Definition toF (a : num) : float :=
  match a with Int z => ofZ z | Flt f => f end.

Definition undef : num := Flt PrimFloat.nan.

Definition add (a b : num) : num :=
  match a, b with
  | Int x, Int y => Int (x + y)
  | _, _ => Flt (PrimFloat.add (toF a) (toF b))
  end.

Definition sub (a b : num) : num :=
  match a, b with
  | Int x, Int y => Int (x - y)
  | _, _ => Flt (PrimFloat.sub (toF a) (toF b))
  end.

Definition mul (a b : num) : num :=
  match a, b with
  | Int x, Int y => Int (x * y)
  | _, _ => Flt (PrimFloat.mul (toF a) (toF b))
  end.

(** A quotient of two integers that is itself an integer is exact in
    binary64; any other quotient is rounded by the hardware division. *)
Definition div (a b : num) : num :=
  match a, b with
  | Int x, Int y =>
      if (negb (y =? 0)) && (x mod y =? 0) then Int (x / y)
      else Flt (PrimFloat.div (ofZ x) (ofZ y))
  | _, _ => Flt (PrimFloat.div (toF a) (toF b))
  end.

Definition sqrt (a : num) : num := Flt (PrimFloat.sqrt (toF a)).

Definition abs (a : num) : num :=
  match a with Int x => Int (Z.abs x) | Flt f => Flt (PrimFloat.abs f) end.

Definition lt (a b : num) : bool :=
  match a, b with
  | Int x, Int y => x <? y
  | _, _ => PrimFloat.ltb (toF a) (toF b)
  end.

Definition le (a b : num) : bool :=
  match a, b with
  | Int x, Int y => x <=? y
  | _, _ => PrimFloat.leb (toF a) (toF b)
  end.

Definition gt (a b : num) : bool := lt b a.
Definition ge (a b : num) : bool := le b a.

(** [===] on two numbers. *)
Definition eq (a b : num) : bool :=
  match a, b with
  | Int x, Int y => x =? y
  | _, _ => PrimFloat.eqb (toF a) (toF b)
  end.

Definition isNaN (a : num) : bool :=
  match a with Int _ => false | Flt f => PrimFloat.is_nan f end.

(** [Math.min] and [Math.max]: NaN as soon as an argument is NaN. *)
Definition min (a b : num) : num :=
  if isNaN a || isNaN b then undef else if lt b a then b else a.

Definition max (a b : num) : num :=
  if isNaN a || isNaN b then undef else if lt a b then b else a.

(** The value of a finite binary64 is [m * 2^e]; floor and round-half-up are
    taken on that exact value. *)
Definition floorSF (s : spec_float) : option Z :=
  match s with
  | S754_zero _ => Some 0
  | S754_finite sg m e =>
      let v := if sg then Z.neg m else Z.pos m in
      Some (if 0 <=? e then v * 2 ^ e else v / 2 ^ (- e))
  | _ => None
  end.

Definition roundSF (s : spec_float) : option Z :=
  match s with
  | S754_zero _ => Some 0
  | S754_finite sg m e =>
      let v := if sg then Z.neg m else Z.pos m in
      Some (if 0 <=? e then v * 2 ^ e
            else (2 * v + 2 ^ (- e)) / 2 ^ (- e + 1))
  | _ => None
  end.

(** [Math.floor] and [Math.round]; NaN and the infinities are returned as
    they are. *)
Definition floor (a : num) : num :=
  match a with
  | Int x => Int x
  | Flt f => match floorSF (Prim2SF f) with Some z => Int z | None => Flt f end
  end.

Definition round (a : num) : num :=
  match a with
  | Int x => Int x
  | Flt f => match roundSF (Prim2SF f) with Some z => Int z | None => Flt f end
  end.

(** The [%] operator: the remainder has the sign of the dividend and is
    exact.  On binary64 operands both are scaled to a common exponent. *)
Definition fmodSF (a b : spec_float) : float :=
  match a, b with
  | S754_zero _, S754_finite _ _ _ => SF2Prim a
  | S754_finite _ _ _, S754_infinity _ => SF2Prim a
  | S754_zero _, S754_infinity _ => SF2Prim a
  | S754_finite sa ma ea, S754_finite _ mb eb =>
      let e0 := Z.min ea eb in
      let x := Z.pos ma * 2 ^ (ea - e0) in
      let y := Z.pos mb * 2 ^ (eb - e0) in
      let r := Z.ldexp (ofZ (x mod y)) e0 in
      if sa then PrimFloat.opp r else r
  | _, _ => PrimFloat.nan
  end.

Definition rem (a b : num) : num :=
  match a, b with
  | Int x, Int y => if y =? 0 then undef else Int (Z.rem x y)
  | _, _ => Flt (fmodSF (Prim2SF (toF a)) (Prim2SF (toF b)))
  end.

(** A number used as an array index or as a loop bound. *)
Definition asIndex (a : num) : option Z :=
  match a with Int z => Some z | Flt _ => None end.

(** [for (i = 0; i < n; i++)] runs no iteration when [n] is NaN.  An
    infinite bound does not arise from the dimensions of an image. *)
Definition bound (a : num) : Z :=
  match a with Int z => z | Flt _ => 0 end.

(** *** Loops *)

Definition range (lo hi : Z) : list Z :=
  map (fun k => lo + Z.of_nat k) (seq 0 (Z.to_nat (hi - lo))).

(** [for (let i = lo; i < hi; i++) s = body(i, s)]. *)
Definition forZ {St : Type} (lo hi : Z) (body : Z -> St -> St) (s : St) : St :=
  fold_left (fun s i => body i s) (range lo hi) s.

(** *** Arrays of booleans ([Array], grows when written past its end)

    A hole reads as [undefined], which is falsy: masks are only ever tested
    for truthiness. *)

Definition aget (m : list bool) (i : Z) : bool :=
  if i <? 0 then false else nth (Z.to_nat i) m false.

Definition aset (m : list bool) (i : Z) (v : bool) : list bool :=
  if i <? 0 then m
  else
    let n := Z.to_nat i in
    if (n <? length m)%nat then firstn n m ++ v :: skipn (S n) m
    else m ++ repeat false (n - length m) ++ [v].

(** [new Array(n).fill(v)], for a length [n] that is not negative (the
    source throws a RangeError on a negative one). *)
Definition newArray (n : Z) (v : bool) : list bool := repeat v (Z.to_nat n).

(** *** Typed byte arrays ([Uint8ClampedArray], fixed length) *)

Definition dget (d : list Z) (i : Z) : num :=
  if i <? 0 then undef
  else match nth_error d (Z.to_nat i) with Some b => Int b | None => undef end.

Definition dgetN (d : list Z) (i : num) : num :=
  match asIndex i with Some z => dget d z | None => undef end.

Definition dset (d : list Z) (i : Z) (v : Z) : list Z :=
  if i <? 0 then d
  else
    let n := Z.to_nat i in
    if (n <? length d)%nat then firstn n d ++ v :: skipn (S n) d else d.

End Js.

Declare Scope js_scope.
Delimit Scope js_scope with js.
Notation "a + b" := (Js.add a b) : js_scope.
Notation "a - b" := (Js.sub a b) : js_scope.
Notation "a * b" := (Js.mul a b) : js_scope.
Notation "a / b" := (Js.div a b) : js_scope.
Notation "a <? b" := (Js.lt a b) : js_scope.
Notation "a <=? b" := (Js.le a b) : js_scope.
Notation "a >? b" := (Js.gt a b) : js_scope.
Notation "a >=? b" := (Js.ge a b) : js_scope.
Notation "a =? b" := (Js.eq a b) : js_scope.
Notation "# z" := (Js.Int z) (at level 1, format "# z") : js_scope.

(* ================================================================== *)
(** ** Morphological refiner: erode, dilate, ensureEdgesRemoved *)
(* ================================================================== *)

Module Morph.
Import Js.

(** The offsets [dy, dx = -1 .. 1] of the 3x3 window. *)
Definition window3 : list Z := [-1; 0; 1].

(** [allBackground] after the two inner loops of [erode]: they leave at the
    first falsy cell, which is what [forallb] computes. *)
Definition allBackground (mask : list bool) (width x y : Z) : bool :=
  forallb (fun dy =>
    forallb (fun dx => aget mask ((y + dy) * width + (x + dx))) window3)
    window3.

(** [anyBackground] after the two inner loops of [dilate]. *)
Definition anyBackground (mask : list bool) (width x y : Z) : bool :=
  existsb (fun dy =>
    existsb (fun dx => aget mask ((y + dy) * width + (x + dx))) window3)
    window3.

Definition erode (mask : list bool) (width height : Z) : list bool :=
  let result := repeat false (length mask) in
  forZ 1 (height - 1) (fun y result =>
    forZ 1 (width - 1) (fun x result =>
      let idx := y * width + x in
      aset result idx (allBackground mask width x y)) result) result.

Definition dilate (mask : list bool) (width height : Z) : list bool :=
  let result := mask in
  forZ 1 (height - 1) (fun y result =>
    forZ 1 (width - 1) (fun x result =>
      let idx := y * width + x in
      aset result idx (anyBackground mask width x y)) result) result.

Definition edgeWidth : Z := 5.

Definition ensureEdgesRemoved (mask : list bool) (width height : Z) : list bool :=
  let result := mask in
  forZ 0 height (fun y result =>
    forZ 0 width (fun x result =>
      if (x <? edgeWidth) || (x >=? width - edgeWidth)
         || (y <? edgeWidth) || (y >=? height - edgeWidth)
      then aset result (y * width + x) true
      else result) result) result.

(** The cells the loops of [erode] and [dilate] visit. *)
Definition inner (width height x y : Z) : bool :=
  (1 <=? x) && (x <? width - 1) && (1 <=? y) && (y <? height - 1).

(** The 1-pixel frame of the image. *)
Definition onFrame (width height x y : Z) : bool :=
  (0 <=? x) && (x <? width) && (0 <=? y) && (y <? height)
  && negb (inner width height x y).

Definition inBand (width height x y : Z) : bool :=
  (x <? edgeWidth) || (x >=? width - edgeWidth)
  || (y <? edgeWidth) || (y >=? height - edgeWidth).

(** Number of true cells of a mask among the cells of the grid that satisfy
    [p]. *)
Definition countTrue (p : Z -> bool) (m : list bool) (width height : Z) : nat :=
  length (filter (fun i => p i && aget m i) (range 0 (width * height))).

End Morph.

(* ================================================================== *)
(** ** Colours, the edge sampler and the dominant colour clusterer *)
(* ================================================================== *)

Module Color.
Import Js.
Local Open Scope js_scope.

Record color : Type := mkColor { r : num; g : num; b : num; a : num }.

Definition getPixelColor (data : list Z) (x y : num) (width : Z) : color :=
  let index := (y * #width + x) * #4 in
  {| r := dgetN data index;
     g := dgetN data (index + #1);
     b := dgetN data (index + #2);
     a := dgetN data (index + #3) |}.

Definition rWeight : num := Flt 0.299.
Definition gWeight : num := Flt 0.587.
Definition bWeight : num := Flt 0.114.

Definition perceptualColorDistance (color1 color2 : color) : num :=
  let rDiff := r color1 - r color2 in
  let gDiff := g color1 - g color2 in
  let bDiff := b color1 - b color2 in
  sqrt (rWeight * rDiff * rDiff + gWeight * gDiff * gDiff + bWeight * bDiff * bDiff).

Definition samplesPerEdge : Z := 80.

Definition edgeDepth (width height : Z) : num :=
  max #5 (floor (#(Z.min width height) * Flt 0.03)).

(** The four sampling loops push onto one array; [edge] is one of them, with
    [at_ pos d] the pixel read at sample position [pos] and depth [d]. *)
Definition edge (extent : Z) (depth : num) (at_ : num -> Z -> color)
    (sampledColors : list color) : list color :=
  forZ 0 samplesPerEdge (fun i sampledColors =>
    let pos := floor (#extent * (#i / #(samplesPerEdge - 1))) in
    forZ 0 (bound depth) (fun d sampledColors =>
      sampledColors ++ [at_ pos d]) sampledColors) sampledColors.

Definition sampleEdgesOnly (imageData : list Z) (width height : Z) : list color :=
  let depth := edgeDepth width height in
  let sampledColors := [] in
  let sampledColors :=
    edge width depth (fun x d => getPixelColor imageData x #d width) sampledColors in
  let sampledColors :=
    edge width depth
      (fun x d => getPixelColor imageData x #(height - 1 - d) width) sampledColors in
  let sampledColors :=
    edge height depth (fun y d => getPixelColor imageData #d y width) sampledColors in
  edge height depth
    (fun y d => getPixelColor imageData #(width - 1 - d) y width) sampledColors.

Record group : Type :=
  mkGroup { representative : color; colors : list color; count : Z }.

Definition clusterThreshold : num := #20.

(** The representative after [color] joined a group that now has
    [totalColors] members. *)
Definition average (rep c totalColors : num) : num :=
  round ((rep * (totalColors - #1) + c) / totalColors).

Definition merge (grp : group) (c : color) : group :=
  let colors' := colors grp ++ [c] in
  let totalColors := #(Z.of_nat (length colors')) in
  let rep := representative grp in
  {| representative :=
       {| r := average (r rep) (r c) totalColors;
          g := average (g rep) (g c) totalColors;
          b := average (b rep) (b c) totalColors;
          a := average (a rep) (a c) totalColors |};
     colors := colors';
     count := count grp + 1 |}.

(** The inner loop over the groups: the first group close enough takes the
    colour ([break]); when none does, a new group is pushed. *)
Fixpoint place (c : color) (colorGroups : list group) : list group :=
  match colorGroups with
  | [] => [ {| representative := c; colors := [c]; count := 1 |} ]
  | grp :: rest =>
      if perceptualColorDistance c (representative grp) <? clusterThreshold
      then merge grp c :: rest
      else grp :: place c rest
  end.

Definition groupColors (validColors : list color) : list group :=
  fold_left (fun colorGroups c => place c colorGroups) validColors [].

(** [sort((a, b) => b.count - a.count)]: stable, by descending count. *)
Fixpoint insertByCount (grp : group) (sorted : list group) : list group :=
  match sorted with
  | [] => [grp]
  | h :: t =>
      if (count h <? count grp)%Z then grp :: h :: t
      else h :: insertByCount grp t
  end.

Definition sortByCount (l : list group) : list group :=
  fold_left (fun sorted grp => insertByCount grp sorted) l [].

Definition isValid (c : color) : bool := a c >? #0.

Definition findDominantColors (sampledColors : list color) : list color :=
  let validColors := filter isValid sampledColors in
  match validColors with
  | [] => []
  | _ =>
    let colorGroups := sortByCount (groupColors validColors) in
    let totalSamples := #(Z.of_nat (length validColors)) in
    map representative
      (filter (fun grp => (#(count grp) / totalSamples) >=? Flt 0.08) colorGroups)
  end.

(** Background mask initializer. *)
Definition pixelAt (imageData : list Z) (i : Z) : color :=
  let pixelIndex := (i * 4)%Z in
  {| r := dget imageData pixelIndex;
     g := dget imageData (pixelIndex + 1)%Z;
     b := dget imageData (pixelIndex + 2)%Z;
     a := dget imageData (pixelIndex + 3)%Z |}.

Definition minDistance (pixelColor : color) (dominantColors : list color) : num :=
  fold_left (fun minDistance dominantColor =>
               min minDistance (perceptualColorDistance pixelColor dominantColor))
            dominantColors #255.

Definition createInitialBackgroundMask (imageData : list Z) (width height : Z)
    (dominantColors : list color) : list bool :=
  let totalPixels := (width * height)%Z in
  let mask := newArray totalPixels false in
  match dominantColors with
  | [] => mask
  | _ =>
    forZ 0 totalPixels (fun i mask =>
      let pixelColor := pixelAt imageData i in
      if a pixelColor =? #0 then aset mask i true
      else if minDistance pixelColor dominantColors <? #25
           then aset mask i true
           else mask) mask
  end.

End Color.

(* ================================================================== *)
(** ** Skin tone detector and clothing detector *)
(* ================================================================== *)

Module Detect.
Import Js Color Morph.
Local Open Scope js_scope.

Record hsv : Type := mkHsv { hue : num; sat : num; val : num }.

Definition rgbToHsv (r g b : num) : hsv :=
  let r := r / #255 in
  let g := g / #255 in
  let b := b / #255 in
  let max := Js.max (Js.max r g) b in
  let min := Js.min (Js.min r g) b in
  let delta := max - min in
  let h :=
    if delta =? #0 then #0
    else if max =? r then rem ((g - b) / delta) #6
    else if max =? g then (b - r) / delta + #2
    else (r - g) / delta + #4 in
  let h := round (h * #60) in
  let h := if h <? #0 then h + #360 else h in
  let s := if max =? #0 then #0 else delta / max in
  {| hue := h; sat := s; val := max |}.

(** The test [detectSkinTones] applies to a pixel that is not fully
    transparent. *)
Definition isSkinTone (r g b : num) : bool :=
  let c := rgbToHsv r g b in
  (((hue c >=? #0) && (hue c <=? #50) && (sat c >=? Flt 0.1) && (sat c <=? Flt 0.8)
     && (val c >=? Flt 0.35) && (val c <=? Flt 0.95))
   || ((hue c >=? #0) && (hue c <=? #35) && (sat c >=? Flt 0.1) && (sat c <=? Flt 0.8)
     && (val c >=? Flt 0.2) && (val c <=? Flt 0.8)))
  && ((r >? g) && (g >? b)).

(** The morphological cleanup both detectors end with, statement by
    statement. *)
Definition cleanup (mask : list bool) (width height : Z) : list bool :=
  let refined := dilate mask width height in
  let refined := erode refined width height in
  let refined := dilate refined width height in
  let refined := dilate refined width height in
  let refined := erode refined width height in
  refined.

Definition rawSkinMask (imageData : list Z) (width height : Z) : list bool :=
  let totalPixels := (width * height)%Z in
  let skinMask := newArray totalPixels false in
  forZ 0 totalPixels (fun i skinMask =>
    let p := pixelAt imageData i in
    if a p =? #0 then skinMask
    else if isSkinTone (r p) (g p) (b p) then aset skinMask i true
    else skinMask) skinMask.

Definition detectSkinTones (imageData : list Z) (width height : Z) : list bool :=
  cleanup (rawSkinMask imageData width height) width height.

Definition getPixelBrightness (imageData : list Z) (x y width : Z) : num :=
  let idx := ((y * width + x) * 4)%Z in
  (dget imageData idx + dget imageData (idx + 1)%Z + dget imageData (idx + 2)%Z) / #3.

(** The cells [(x + dx, y + dy)] a window loop of radius [rad] gets to: the
    centre is skipped and so is every cell outside the image. *)
Definition offsets (rad : Z) : list (Z * Z) :=
  flat_map (fun dy => map (fun dx => (dx, dy)) (range (- rad) (rad + 1)))
           (range (- rad) (rad + 1)).

Definition inImage (width height : Z) (p : Z * Z) : bool :=
  let '(nx, ny) := p in
  (0 <=? nx)%Z && (nx <? width)%Z && (0 <=? ny)%Z && (ny <? height)%Z.

Definition neighborhood (rad width height x y : Z) : list (Z * Z) :=
  filter (inImage width height)
    (map (fun '(dx, dy) => ((x + dx)%Z, (y + dy)%Z))
       (filter (fun '(dx, dy) => negb ((dx =? 0)%Z && (dy =? 0)%Z)) (offsets rad))).

Definition isPartOfContinuousRegion (idx : Z) (imageData : list Z)
    (width height : Z) (brightnessThreshold : num) : bool :=
  let x := Z.rem idx width in
  let y := (idx / width)%Z in
  let centerBrightness := getPixelBrightness imageData x y width in
  if centerBrightness <? brightnessThreshold then false
  else
    let '(similarCount, totalChecked) :=
      fold_left (fun '(similarCount, totalChecked) '(nx, ny) =>
          let neighborBrightness := getPixelBrightness imageData nx ny width in
          let diff := abs (centerBrightness - neighborBrightness) in
          (if diff <? #30 then (similarCount + 1)%Z else similarCount,
           (totalChecked + 1)%Z))
        (neighborhood 3 width height x y) (0%Z, 0%Z) in
    #similarCount >? #totalChecked * Flt 0.6.

Definition isTexturedRegion (idx : Z) (imageData : list Z) (width height : Z) : bool :=
  let x := Z.rem idx width in
  let y := (idx / width)%Z in
  let centerColor := getPixelColor imageData #x #y width in
  let '(varianceSum, sampleCount) :=
    fold_left (fun '(varianceSum, sampleCount) '(nx, ny) =>
        let neighborColor := getPixelColor imageData #nx #ny width in
        let colorDiff := perceptualColorDistance centerColor neighborColor in
        (varianceSum + colorDiff, (sampleCount + 1)%Z))
      (neighborhood 2 width height x y) (#0, 0%Z) in
  let avgVariance := varianceSum / #sampleCount in
  (avgVariance >? #5) && (avgVariance <? #25).

Definition isHighContrastArea (idx : Z) (imageData : list Z) (width height : Z) : bool :=
  let x := Z.rem idx width in
  let y := (idx / width)%Z in
  let centerBrightness := getPixelBrightness imageData x y width in
  let highContrastCount :=
    fold_left (fun highContrastCount '(nx, ny) =>
        let neighborBrightness := getPixelBrightness imageData nx ny width in
        let contrast := abs (centerBrightness - neighborBrightness) in
        if contrast >? #50 then (highContrastCount + 1)%Z else highContrastCount)
      (neighborhood 2 width height x y) 0%Z in
  (highContrastCount >=? 3)%Z.

(** What the first pass of [detectClothing] decides for pixel [i]. *)
Definition isClothing (i : Z) (imageData : list Z) (width height : Z) : bool :=
  let p := pixelAt imageData i in
  if a p =? #0 then false
  else
    let x := Z.rem i width in
    let y := (i / width)%Z in
    if (x <? 5)%Z || (x >=? width - 5)%Z || (y <? 5)%Z || (y >=? height - 5)%Z
    then false
    else
      let brightness := (r p + g p + b p) / #3 in
      ((brightness >? #180)
         && isPartOfContinuousRegion i imageData width height #180)
      || isTexturedRegion i imageData width height
      || isHighContrastArea i imageData width height.

Definition rawClothingMask (imageData : list Z) (width height : Z) : list bool :=
  let totalPixels := (width * height)%Z in
  let clothingMask := newArray totalPixels false in
  forZ 0 totalPixels (fun i clothingMask =>
    if isClothing i imageData width height then aset clothingMask i true
    else clothingMask) clothingMask.

Definition detectClothing (imageData : list Z) (width height : Z) : list bool :=
  cleanup (rawClothingMask imageData width height) width height.

End Detect.

(* ================================================================== *)
(** ** Mask compositor *)
(* ================================================================== *)

Module Compose.
Import Js Morph.
Local Open Scope js_scope.

(** The pixels [floodFillBackground] starts from, in the order it queues
    them. *)
Definition seeds (definiteBackground : list bool) (width height : Z) : list Z :=
  let queue := [] in
  let queue :=
    forZ 0 width (fun x queue =>
      let queue := if aget definiteBackground x then queue ++ [x] else queue in
      if aget definiteBackground ((height - 1) * width + x)%Z
      then queue ++ [((height - 1) * width + x)%Z] else queue) queue in
  forZ 0 height (fun y queue =>
    let queue :=
      if aget definiteBackground (y * width)%Z then queue ++ [(y * width)%Z]
      else queue in
    if aget definiteBackground (y * width + width - 1)%Z
    then queue ++ [(y * width + width - 1)%Z] else queue) queue.

Definition neighbors4 (x y : Z) : list (Z * Z) :=
  [((x + 1)%Z, y); ((x - 1)%Z, y); (x, (y + 1)%Z); (x, (y - 1)%Z)].

Definition inGrid (width height nx ny : Z) : bool :=
  (0 <=? nx)%Z && (nx <? width)%Z && (0 <=? ny)%Z && (ny <? height)%Z.

(** The body of the loop over the four neighbours in [floodFillBackground]. *)
Definition visit (width height : Z) (st : list bool * list Z) (n : Z * Z)
    : list bool * list Z :=
  let '(result, queue) := st in
  let '(nx, ny) := n in
  if inGrid width height nx ny then
    let neighborIdx := (ny * width + nx)%Z in
    if negb (aget result neighborIdx)
    then (aset result neighborIdx true, queue ++ [neighborIdx])
    else (result, queue)
  else (result, queue).

(** The [while (queue.length > 0)] loop; [None] when [fuel] iterations were
    not enough to empty the queue. *)
Fixpoint floodLoop (fuel : nat) (width height : Z) (result : list bool)
    (queue : list Z) : option (list bool) :=
  match queue with
  | [] => Some result
  | idx :: queue =>
      match fuel with
      | O => None
      | S fuel =>
          let x := Z.rem idx width in
          let y := (idx / width)%Z in
          let '(result, queue) :=
            fold_left (visit width height) (neighbors4 x y) (result, queue) in
          floodLoop fuel width height result queue
      end
  end.

(** Every iteration takes one index off the queue, and an index is queued
    either as a seed or when a cell of the grid turns true. *)
Definition floodFuel (definiteBackground : list bool) (width height : Z) : nat :=
  length (seeds definiteBackground width height) + Z.to_nat (width * height).

Definition floodFillBackground (definiteBackground : list bool) (width height : Z)
    : option (list bool) :=
  let result := definiteBackground in
  floodLoop (floodFuel definiteBackground width height) width height result
    (seeds definiteBackground width height).

Definition isSurroundedByBackground (idx : Z) (backgroundMask : list bool)
    (width height : Z) : bool :=
  let x := Z.rem idx width in
  let y := (idx / width)%Z in
  let '(backgroundCount, totalChecked) :=
    fold_left (fun '(backgroundCount, totalChecked) '(nx, ny) =>
        (if aget backgroundMask (ny * width + nx)%Z
         then (backgroundCount + 1)%Z else backgroundCount,
         (totalChecked + 1)%Z))
      (Detect.neighborhood 2 width height x y) (0%Z, 0%Z) in
  #backgroundCount >? #totalChecked * Flt 0.7.

(** The loop of [isPartOfLargeRegion].  It stops when the queue is empty or
    when [regionSize] reaches 500; [budget] is [500 - regionSize]. *)
Fixpoint regionLoop (budget : nat) (backgroundMask : list bool) (width height : Z)
    (visited : list bool) (queue : list (Z * Z)) (regionSize : Z) : Z :=
  match budget, queue with
  | S budget, (cx, cy) :: queue =>
      let regionSize := (regionSize + 1)%Z in
      let '(visited, queue) :=
        fold_left (fun '(visited, queue) '(nx, ny) =>
            if inGrid width height nx ny then
              let neighborIdx := (ny * width + nx)%Z in
              if negb (aget visited neighborIdx)
                 && negb (aget backgroundMask neighborIdx)
              then (aset visited neighborIdx true, queue ++ [(nx, ny)])
              else (visited, queue)
            else (visited, queue))
          (neighbors4 cx cy) (visited, queue) in
      regionLoop budget backgroundMask width height visited queue regionSize
  | _, _ => regionSize
  end.

Definition isPartOfLargeRegion (idx : Z) (backgroundMask : list bool)
    (width height : Z) : bool :=
  let x := Z.rem idx width in
  let y := (idx / width)%Z in
  if aget backgroundMask idx then false
  else
    let visited := newArray (width * height) false in
    let visited := aset visited idx true in
    let regionSize :=
      regionLoop 500 backgroundMask width height visited [(x, y)] 0 in
    (regionSize >=? 100)%Z.

(** The decision taken for pixel [i] in the combining loop. *)
Definition combine (i : Z) (skinMask clothingMask floodFilledBackground : list bool)
    (width height : Z) : bool :=
  if aget skinMask i || aget clothingMask i then false
  else if aget floodFilledBackground i then true
  else
    let x := Z.rem i width in
    let y := (i / width)%Z in
    if (x <? 10)%Z || (x >=? width - 10)%Z || (y <? 10)%Z || (y >=? height - 10)%Z
    then true
    else if isSurroundedByBackground i floodFilledBackground width height then true
    else if negb (isPartOfLargeRegion i floodFilledBackground width height) then true
    else false.

Definition refineCompositeMask (initialMask skinMask clothingMask : list bool)
    (imageData : list Z) (width height : Z) : option (list bool) :=
  let totalPixels := (width * height)%Z in
  let compositeMask := newArray totalPixels false in
  match floodFillBackground initialMask width height with
  | None => None
  | Some floodFilledBackground =>
    let compositeMask :=
      forZ 0 totalPixels (fun i compositeMask =>
        aset compositeMask i
          (combine i skinMask clothingMask floodFilledBackground width height))
        compositeMask in
    let finalMask := compositeMask in
    let finalMask := dilate finalMask width height in
    let finalMask := erode finalMask width height in
    let finalMask := erode finalMask width height in
    let finalMask := dilate finalMask width height in
    let finalMask := ensureEdgesRemoved finalMask width height in
    Some finalMask
  end.

End Compose.

(* ================================================================== *)
(** ** The pipeline *)
(* ================================================================== *)

Module Pipeline.
Import Js Color Detect Compose.
Local Open Scope js_scope.

Definition improvedBackgroundDetection (imageData : list Z) (width height : Z)
    : option (list bool) :=
  let sampledColors := sampleEdgesOnly imageData width height in
  let dominantColors := findDominantColors sampledColors in
  let initialMask := createInitialBackgroundMask imageData width height dominantColors in
  let skinToneMask := detectSkinTones imageData width height in
  let clothingMask := detectClothing imageData width height in
  refineCompositeMask initialMask skinToneMask clothingMask imageData width height.

(** The loop of [removeBackground] that applies the mask: [i] runs over the
    byte offsets of the pixels. *)
Definition applyMask (backgroundMask : list bool) (data : list Z) : list Z :=
  forZ 0 ((Z.of_nat (length data) + 3) / 4) (fun k data =>
    let i := (4 * k)%Z in
    if aget backgroundMask (i / 4)%Z then dset data (i + 3)%Z 0 else data) data.

Definition removeBackground (data : list Z) (width height : Z) : option (list Z) :=
  match improvedBackgroundDetection data width height with
  | None => None
  | Some backgroundMask => Some (applyMask backgroundMask data)
  end.

End Pipeline.

(* ================================================================== *)
(** ** The refiner on the heap: arrays are references *)
(* ================================================================== *)

(** [erode] and [dilate] receive a reference to the caller's array.  Here the
    arrays live in a store, the two functions are written with reads and
    writes on locations, and their effect on the store is compared with the
    functions on values above. *)
Module Heap.
Import Js Morph.

Definition loc : Type := nat.
Definition store : Type := list (list bool).

Definition sel (s : store) (l : loc) : list bool := nth l s [].

Definition upd (s : store) (l : loc) (arr : list bool) : store :=
  if (l <? length s)%nat then firstn l s ++ arr :: skipn (S l) s else s.

(** A fresh array ([new Array(..)] or a spread copy [[...mask]]). *)
Definition alloc (arr : list bool) (s : store) : loc * store :=
  (length s, s ++ [arr]).

Definition rd (s : store) (l : loc) (i : Z) : bool := aget (sel s l) i.

Definition wr (s : store) (l : loc) (i : Z) (v : bool) : store :=
  upd s l (aset (sel s l) i v).

Definition erodeH (mask : loc) (width height : Z) (s : store) : loc * store :=
  let '(result, s) := alloc (repeat false (length (sel s mask))) s in
  (result,
   forZ 1 (height - 1) (fun y s =>
     forZ 1 (width - 1) (fun x s =>
       let idx := y * width + x in
       let allBackground :=
         forallb (fun dy =>
           forallb (fun dx => rd s mask ((y + dy) * width + (x + dx))) window3)
           window3 in
       wr s result idx allBackground) s) s).

Definition dilateH (mask : loc) (width height : Z) (s : store) : loc * store :=
  let '(result, s) := alloc (sel s mask) s in
  (result,
   forZ 1 (height - 1) (fun y s =>
     forZ 1 (width - 1) (fun x s =>
       let idx := y * width + x in
       let anyBackground :=
         existsb (fun dy =>
           existsb (fun dx => rd s mask ((y + dy) * width + (x + dx))) window3)
           window3 in
       wr s result idx anyBackground) s) s).

End Heap.

(* ================================================================== *)
(** ** The alpha post-processor and the manual brush (src/main.js) *)
(* ================================================================== *)

Module PostProcess.
Import Js.
Local Open Scope js_scope.

(** Truthiness of a number; [undefined] is falsy as well. *)
Definition truthy (v : num) : bool :=
  match v with
  | Int z => negb (z =? 0)%Z
  | Flt f => negb (PrimFloat.is_nan f || PrimFloat.is_zero f)
  end.

(** What a typed byte array keeps of a number written to it (the numbers
    written here are integers, NaN or infinite). *)
Definition toByte (v : num) : Z :=
  match v with
  | Int z => Z.max 0 (Z.min 255 z)
  | Flt f => if PrimFloat.ltb PrimFloat.zero f then 255 else 0
  end.

(** [new Uint8Array(n)], for a length [n] that is not negative. *)
Definition newBytes (n : Z) : list Z := repeat 0%Z (Z.to_nat n).

Definition applyMaskToImage (mask data : list Z) (width height : Z) : list Z :=
  let totalPixels := (width * height)%Z in
  forZ 0 totalPixels (fun i data =>
    let pixelIdx := (i * 4)%Z in
    if dget mask i =? #0 then dset data (pixelIdx + 3)%Z 0 else data) data.

(** The mask [postProcessResult] builds: 1 where alpha is 0. *)
Definition transparentMaskOf (data : list Z) (width height : Z) : list Z :=
  let totalPixels := (width * height)%Z in
  forZ 0 totalPixels (fun i transparentMask =>
    dset transparentMask i (if dget data (i * 4 + 3)%Z =? #0 then 1%Z else 0%Z))
    (newBytes totalPixels).

Definition directions : list (Z * Z) := [(1, 0); (-1, 0); (0, 1); (0, -1)]%Z.

(** The body of the loop over the four neighbours of the pixel [(x, y)]. *)
Definition expand (transparentMask : list Z) (width height : Z)
    (isTransparent : bool) (x y : Z) (st : list Z * list Z) (d : Z * Z)
    : list Z * list Z :=
  let '(visited, queue) := st in
  let '(dx, dy) := d in
  let nx := (x + dx)%Z in
  let ny := (y + dy)%Z in
  if (nx <? 0)%Z || (nx >=? width)%Z || (ny <? 0)%Z || (ny >=? height)%Z
  then (visited, queue)
  else
    let ni := (ny * width + nx)%Z in
    if negb (truthy (dget visited ni))
       && (dget transparentMask ni =? #(if isTransparent then 1 else 0))
    then (dset visited ni 1, queue ++ [ni])
    else (visited, queue).

(** The [while (queue.length > 0)] loop of [removeSmallRegions]; [None] when
    [fuel] iterations did not empty the queue. *)
Fixpoint growRegion (fuel : nat) (transparentMask : list Z) (width height : Z)
    (isTransparent : bool) (queue visited region : list Z) (touchesEdge : bool)
    : option (list Z * list Z * bool) :=
  match queue with
  | [] => Some (visited, region, touchesEdge)
  | current :: queue =>
      match fuel with
      | O => None
      | S fuel =>
          let region := region ++ [current] in
          let x := Z.rem current width in
          let y := (current / width)%Z in
          let touchesEdge :=
            if (x =? 0)%Z || (x =? width - 1)%Z || (y =? 0)%Z || (y =? height - 1)%Z
            then true else touchesEdge in
          let '(visited, queue) :=
            fold_left (expand transparentMask width height isTransparent x y)
                      directions (visited, queue) in
          growRegion fuel transparentMask width height isTransparent
                     queue visited region touchesEdge
      end
  end.

(** The alpha written to the pixels of a small region. *)
Definition flipped (isTransparent : bool) : Z := if isTransparent then 255 else 0.

Definition threshold (isTransparent : bool) : Z := if isTransparent then 200 else 100.

(** One iteration of the outer loop, on the pair of [visited] and [data]. *)
Definition processPixel (transparentMask : list Z) (width height : Z) (i : Z)
    (st : list Z * list Z) : option (list Z * list Z) :=
  let '(visited, data) := st in
  if truthy (dget visited i) then Some (visited, data)
  else
    let isTransparent := dget transparentMask i =? #1 in
    let queue := [i] in
    let visited := dset visited i 1 in
    match growRegion (Z.to_nat (width * height)) transparentMask width height
            isTransparent queue visited [] false with
    | None => None
    | Some (visited, region, touchesEdge) =>
        if negb touchesEdge && (Z.of_nat (length region) <? threshold isTransparent)%Z
        then Some (visited,
                   fold_left (fun data idx =>
                                let pixelIdx := (idx * 4)%Z in
                                dset data (pixelIdx + 3)%Z (flipped isTransparent))
                             region data)
        else Some (visited, data)
    end.

Definition removeSmallRegions (transparentMask data : list Z) (width height : Z)
    : option (list Z) :=
  let totalPixels := (width * height)%Z in
  let visited := newBytes totalPixels in
  option_map snd
    (forZ 0 totalPixels (fun i st =>
       match st with
       | None => None
       | Some st => processPixel transparentMask width height i st
       end) (Some (visited, data))).

(** The cells of the 3x3 window around [(x, y)] that lie in the image, the
    centre included. *)
Definition window (width height x y : Z) : list (Z * Z) :=
  filter (Detect.inImage width height)
    (map (fun '(dx, dy) => ((x + dx)%Z, (y + dy)%Z)) (Detect.offsets 1)).

Definition smoothEdges (data : list Z) (width height : Z) : list Z :=
  let totalPixels := (width * height)%Z in
  let tempAlpha :=
    forZ 0 totalPixels (fun i tempAlpha =>
      dset tempAlpha i (toByte (dget data (i * 4 + 3)%Z))) (newBytes totalPixels) in
  forZ 0 height (fun y data =>
    forZ 0 width (fun x data =>
      let i := (y * width + x)%Z in
      let isEdge :=
        existsb (fun '(nx, ny) =>
            let ni := (ny * width + nx)%Z in
            ((dget tempAlpha i =? #0) && (dget tempAlpha ni >? #0))
            || ((dget tempAlpha i >? #0) && (dget tempAlpha ni =? #0)))
          (Detect.neighborhood 1 width height x y) in
      if negb isEdge then data
      else
        let '(sum, count) :=
          fold_left (fun '(sum, count) '(nx, ny) =>
              (sum + dget tempAlpha (ny * width + nx)%Z, (count + 1)%Z))
            (window width height x y) (#0, 0%Z) in
        dset data (i * 4 + 3)%Z (toByte (round (sum / #count)))) data) data.

Definition postProcessResult (data : list Z) (width height : Z) : option (list Z) :=
  let transparentMask := transparentMaskOf data width height in
  match removeSmallRegions transparentMask data width height with
  | None => None
  | Some data => Some (smoothEdges data width height)
  end.

(** The two loops of the manual brush over the byte offsets [i = 4 k]. *)
Definition brushRemove (maskData data : list Z) : list Z :=
  forZ 0 ((Z.of_nat (length data) + 3) / 4) (fun k data =>
    let i := (4 * k)%Z in
    if dget maskData (i + 3)%Z <? #128 then dset data (i + 3)%Z 0 else data) data.

Definition brushRestore (maskData origData data : list Z) : list Z :=
  forZ 0 ((Z.of_nat (length data) + 3) / 4) (fun k data =>
    let i := (4 * k)%Z in
    if dget maskData (i + 3)%Z <? #128 then
      let data := dset data i (toByte (dget origData i)) in
      let data := dset data (i + 1)%Z (toByte (dget origData (i + 1)%Z)) in
      let data := dset data (i + 2)%Z (toByte (dget origData (i + 2)%Z)) in
      dset data (i + 3)%Z (toByte (dget origData (i + 3)%Z))
    else data) data.

End PostProcess.

(* ================================================================== *)
(** ** The label-mask segmentation of src/main.js (removeBackgroundPro) *)
(* ================================================================== *)

(** [removeBackgroundPro] works on a [Uint8Array] of labels, one per pixel:
    0 is definite background, 2 probable foreground, 3 definite foreground.
    Every function below receives the mask by reference and writes into it;
    here each returns the mask it leaves behind.  The search inside
    [fillHoles] takes fuel, as the one of [removeSmallRegions] does. *)
Module Segment.
Import Js PostProcess.
Local Open Scope js_scope.

Record rgb : Type := mkRgb { r : num; g : num; b : num }.

(** The object literal [{ r: data[idx], g: data[idx + 1], b: data[idx + 2] }]. *)
Definition colorAt (data : list Z) (idx : Z) : rgb :=
  {| r := dget data idx; g := dget data (idx + 1)%Z; b := dget data (idx + 2)%Z |}.

Definition getColorDistance (color1 color2 : rgb) : num :=
  let rDiff := r color1 - r color2 in
  let gDiff := g color1 - g color2 in
  let bDiff := b color1 - b color2 in
  sqrt (rDiff * rDiff + gDiff * gDiff + bDiff * bDiff).

Record cluster : Type :=
  mkCluster { center : rgb; colors : list rgb; count : Z }.

(** [color] joins [cluster]: pushed, counted, and the centre averaged. *)
Definition addToCluster (cl : cluster) (color : rgb) : cluster :=
  let colors' := colors cl ++ [color] in
  let count' := (count cl + 1)%Z in
  {| center :=
       {| r := round ((r (center cl) * #(count' - 1) + r color) / #count');
          g := round ((g (center cl) * #(count' - 1) + g color) / #count');
          b := round ((b (center cl) * #(count' - 1) + b color) / #count') |};
     colors := colors';
     count := count' |}.

(** The loop over the clusters: the first one close enough takes the colour
    ([break]); when none does, a new cluster is pushed. *)
Fixpoint assign (threshold : num) (color : rgb) (clusters : list cluster)
    : list cluster :=
  match clusters with
  | [] => [ {| center := color; colors := [color]; count := 1 |} ]
  | cl :: rest =>
      if getColorDistance color (center cl) <? threshold
      then addToCluster cl color :: rest
      else cl :: assign threshold color rest
  end.

Definition assignAll (colors : list rgb) (threshold : num) : list cluster :=
  fold_left (fun clusters color => assign threshold color clusters) colors [].

(** [sort((a, b) => b.count - a.count)]: stable, by descending count. *)
Fixpoint insertCluster (cl : cluster) (sorted : list cluster) : list cluster :=
  match sorted with
  | [] => [cl]
  | h :: t =>
      if (count h <? count cl)%Z then cl :: h :: t
      else h :: insertCluster cl t
  end.

Definition sortClusters (l : list cluster) : list cluster :=
  fold_left (fun sorted cl => insertCluster cl sorted) l [].

(** [maxClusters] is not negative ([slice(0, maxClusters)] counts from the
    end on a negative one); the callers pass 5 and 10. *)
Definition clusterColors (colors : list rgb) (threshold : num) (maxClusters : Z)
    : list rgb :=
  match colors with
  | [] => []
  | _ =>
    let clusters := assignAll colors threshold in
    let clusters := sortClusters clusters in
    map center (firstn (Z.to_nat maxClusters) clusters)
  end.

(** [for (let i = lo; i < hi; i += step)], for a step of at least 1. *)
Definition forStep {St : Type} (lo hi step : Z) (body : Z -> St -> St) (s : St)
    : St :=
  fold_left (fun s k => body (lo + k * step)%Z s)
            (range 0 ((hi - lo + step - 1) / step)) s.

(** [edgeWidth] reaches [sampleEdgeColors] as the number computed in
    [createInitialMask]; it and [sampleStep] are integers, the latter at
    least 1. *)
Definition sampleEdgeColors (data : list Z) (width height : Z) (edgeWidth : num)
    : list rgb :=
  let edgeColors := [] in
  let sampleStep := bound (max #1 (floor (#(Z.min width height) / #30))) in
  let edgeWidth := bound edgeWidth in
  let edgeColors :=
    forStep 0 width sampleStep (fun x edgeColors =>
      let edgeColors :=
        forStep 0 edgeWidth sampleStep (fun y edgeColors =>
          let idx := ((y * width + x) * 4)%Z in
          edgeColors ++ [colorAt data idx]) edgeColors in
      forStep (height - edgeWidth) height sampleStep (fun y edgeColors =>
        let idx := ((y * width + x) * 4)%Z in
        edgeColors ++ [colorAt data idx]) edgeColors) edgeColors in
  let edgeColors :=
    forStep edgeWidth (height - edgeWidth) sampleStep (fun y edgeColors =>
      let edgeColors :=
        forStep 0 edgeWidth sampleStep (fun x edgeColors =>
          let idx := ((y * width + x) * 4)%Z in
          edgeColors ++ [colorAt data idx]) edgeColors in
      forStep (width - edgeWidth) width sampleStep (fun x edgeColors =>
        let idx := ((y * width + x) * 4)%Z in
        edgeColors ++ [colorAt data idx]) edgeColors) edgeColors in
  clusterColors edgeColors #30 5.

Definition isPartOfUniformRegion (data : list Z) (x y width height : Z) : bool :=
  let idx := ((y * width + x) * 4)%Z in
  let centerColor := colorAt data idx in
  let radius := 5%Z in
  let '(similarCount, totalChecked) :=
    fold_left (fun '(similarCount, totalChecked) '(nx, ny) =>
        let nidx := ((ny * width + nx) * 4)%Z in
        let totalChecked := (totalChecked + 1)%Z in
        let neighborColor := colorAt data nidx in
        let colorDistance := getColorDistance centerColor neighborColor in
        (if colorDistance <? #20 then (similarCount + 1)%Z else similarCount,
         totalChecked))
      (Detect.neighborhood radius width height x y) (0%Z, 0%Z) in
  (totalChecked >? 0)%Z && (#similarCount / #totalChecked >? Flt 0.75).

(** The body of the loop over the four neighbours in [fillHoles]. *)
Definition holeExpand (mask : list Z) (width height x y : Z)
    (st : list Z * list Z) (d : Z * Z) : list Z * list Z :=
  let '(visited, queue) := st in
  let '(dx, dy) := d in
  let nx := (x + dx)%Z in
  let ny := (y + dy)%Z in
  if (nx <? 0)%Z || (nx >=? width)%Z || (ny <? 0)%Z || (ny >=? height)%Z
  then (visited, queue)
  else
    let ni := (ny * width + nx)%Z in
    if negb (truthy (dget visited ni)) && (dget mask ni =? #0)
    then (dset visited ni 1, queue ++ [ni])
    else (visited, queue).

(** The [while (queue.length > 0)] loop of [fillHoles]; [None] when [fuel]
    iterations did not empty the queue. *)
Fixpoint holeLoop (fuel : nat) (mask : list Z) (width height : Z)
    (queue visited region : list Z) (touchesEdge : bool)
    : option (list Z * list Z * bool) :=
  match queue with
  | [] => Some (visited, region, touchesEdge)
  | current :: queue =>
      match fuel with
      | O => None
      | S fuel =>
          let region := region ++ [current] in
          let x := Z.rem current width in
          let y := (current / width)%Z in
          let touchesEdge :=
            if (x =? 0)%Z || (x =? width - 1)%Z || (y =? 0)%Z || (y =? height - 1)%Z
            then true else touchesEdge in
          let '(visited, queue) :=
            fold_left (holeExpand mask width height x y) directions
                      (visited, queue) in
          holeLoop fuel mask width height queue visited region touchesEdge
      end
  end.

(** One iteration of the outer loop of [fillHoles], on the pair of
    [visited] and [mask]. *)
Definition fillFrom (width height : Z) (i : Z) (st : list Z * list Z)
    : option (list Z * list Z) :=
  let '(visited, mask) := st in
  if truthy (dget visited i) || negb (dget mask i =? #0) then Some (visited, mask)
  else
    let queue := [i] in
    let visited := dset visited i 1 in
    match holeLoop (Z.to_nat (width * height)) mask width height
            queue visited [] false with
    | None => None
    | Some (visited, region, touchesEdge) =>
        if negb touchesEdge && (Z.of_nat (length region) <? 1000)%Z
        then Some (visited, fold_left (fun mask idx => dset mask idx 2) region mask)
        else Some (visited, mask)
    end.

Definition fillHoles (mask : list Z) (width height : Z) : option (list Z) :=
  let totalPixels := (width * height)%Z in
  let visited := newBytes totalPixels in
  option_map snd
    (forZ 0 totalPixels (fun i st =>
       match st with
       | None => None
       | Some st => fillFrom width height i st
       end) (Some (visited, mask))).

Definition connectForegroundRegions (mask : list Z) (width height : Z)
    : option (list Z) :=
  let tempMask := mask in
  let mask :=
    forZ 1 (height - 1) (fun y mask =>
      forZ 1 (width - 1) (fun x mask =>
        let i := (y * width + x)%Z in
        if negb (dget tempMask i =? #3) then mask
        else
          fold_left (fun mask '(dx, dy) =>
              let nx := (x + dx)%Z in
              let ny := (y + dy)%Z in
              if (nx <? 0)%Z || (nx >=? width)%Z || (ny <? 0)%Z || (ny >=? height)%Z
              then mask
              else
                let ni := (ny * width + nx)%Z in
                if negb (dget tempMask ni =? #0) then dset mask ni 2 else mask)
            directions mask) mask) mask in
  fillHoles mask width height.

Definition detectClothingAndText (mask data : list Z) (width height : Z)
    : option (list Z) :=
  let mask :=
    forZ 1 (height - 1) (fun y mask =>
      forZ 1 (width - 1) (fun x mask =>
        let i := (y * width + x)%Z in
        if dget mask i =? #0 then mask
        else
          let idx := (i * 4)%Z in
          let centerColor := colorAt data idx in
          let highContrast :=
            existsb (fun '(nx, ny) =>
                let ni := (ny * width + nx)%Z in
                let nidx := (ni * 4)%Z in
                let neighborColor := colorAt data nidx in
                let contrast := getColorDistance centerColor neighborColor in
                contrast >? #60)
              (Detect.neighborhood 1 width height x y) in
          if highContrast then
            let mask := dset mask i 3 in
            fold_left (fun mask '(nx, ny) =>
                let ni := (ny * width + nx)%Z in
                if negb (dget mask ni =? #3) then dset mask ni 2 else mask)
              (Detect.neighborhood 2 width height x y) mask
          else mask) mask) mask in
  let mask :=
    forZ 0 height (fun y mask =>
      forZ 0 width (fun x mask =>
        let i := (y * width + x)%Z in
        if (dget mask i =? #0) || (dget mask i =? #3) then mask
        else if isPartOfUniformRegion data x y width height then dset mask i 3
        else mask) mask) mask in
  connectForegroundRegions mask width height.

Definition createInitialMask (data : list Z) (width height : Z)
    : option (list Z) :=
  let totalPixels := (width * height)%Z in
  let mask := newBytes totalPixels in
  let edgeWidth := max #10 (floor (#(Z.min width height) * Flt 0.03)) in
  let mask :=
    forZ 0 height (fun y mask =>
      forZ 0 width (fun x mask =>
        let idx := (y * width + x)%Z in
        if (#x <? edgeWidth) || (#x >=? #width - edgeWidth)
           || (#y <? edgeWidth) || (#y >=? #height - edgeWidth)
        then dset mask idx 0
        else dset mask idx 2) mask) mask in
  let edgeColors := sampleEdgeColors data width height edgeWidth in
  let mask :=
    forZ 0 totalPixels (fun i mask =>
      if dget mask i =? #0 then mask
      else
        let pixelIdx := (i * 4)%Z in
        let pixelColor := colorAt data pixelIdx in
        if existsb (fun edgeColor =>
                      let colorDistance := getColorDistance pixelColor edgeColor in
                      colorDistance <? #30) edgeColors
        then dset mask i 0
        else mask) mask in
  detectClothingAndText mask data width height.

Definition infinity : num := Flt PrimFloat.infinity.

Definition applySpatialCoherence (mask data : list Z) (width height : Z)
    : list Z :=
  let tempMask := mask in
  forZ 1 (height - 1) (fun y mask =>
    forZ 1 (width - 1) (fun x mask =>
      let i := (y * width + x)%Z in
      if (dget tempMask i =? #3) || (dget tempMask i =? #0) then mask
      else
        let '(fgCount, bgCount) :=
          fold_left (fun '(fgCount, bgCount) '(nx, ny) =>
              let ni := (ny * width + nx)%Z in
              if dget tempMask ni =? #3 then ((fgCount + 1)%Z, bgCount)
              else if dget tempMask ni =? #0 then (fgCount, (bgCount + 1)%Z)
              else (fgCount, bgCount))
            (Detect.neighborhood 1 width height x y) (0%Z, 0%Z) in
        if (fgCount >? bgCount)%Z then dset mask i 3
        else if (bgCount >? fgCount)%Z then dset mask i 0
        else
          let pixelIdx := (i * 4)%Z in
          let color := colorAt data pixelIdx in
          let '(fgSimilarity, bgSimilarity) :=
            fold_left (fun '(fgSimilarity, bgSimilarity) '(nx, ny) =>
                let ni := (ny * width + nx)%Z in
                let nidx := (ni * 4)%Z in
                let neighborColor := colorAt data nidx in
                let similarity := #255 - getColorDistance color neighborColor in
                if dget tempMask ni =? #3
                then (fgSimilarity + similarity, bgSimilarity)
                else if dget tempMask ni =? #0
                then (fgSimilarity, bgSimilarity + similarity)
                else (fgSimilarity, bgSimilarity))
              (Detect.neighborhood 1 width height x y) (#0, #0) in
          if fgSimilarity >? bgSimilarity then dset mask i 3
          else dset mask i 0) mask) mask.

(** The two lists of colours [refineSegmentation] builds its models from. *)
Definition colorModels (mask data : list Z) (width height : Z)
    : list rgb * list rgb :=
  let totalPixels := (width * height)%Z in
  forZ 0 totalPixels (fun i '(fgColors, bgColors) =>
    let pixelIdx := (i * 4)%Z in
    let color := colorAt data pixelIdx in
    if dget mask i =? #3 then (fgColors ++ [color], bgColors)
    else if dget mask i =? #0 then (fgColors, bgColors ++ [color])
    else (fgColors, bgColors)) ([], []).

(** The loop of [refineSegmentation] that settles the probable pixels. *)
Definition settle (fgClusters bgClusters : list rgb) (mask data : list Z)
    (width height : Z) : list Z :=
  let totalPixels := (width * height)%Z in
  forZ 0 totalPixels (fun i mask =>
    if negb (dget mask i =? #2) then mask
    else
      let pixelIdx := (i * 4)%Z in
      let color := colorAt data pixelIdx in
      let minFgDist :=
        fold_left (fun minFgDist cluster =>
                     let dist := getColorDistance color cluster in
                     min minFgDist dist) fgClusters infinity in
      let minBgDist :=
        fold_left (fun minBgDist cluster =>
                     let dist := getColorDistance color cluster in
                     min minBgDist dist) bgClusters infinity in
      if minFgDist <? minBgDist then dset mask i 3 else dset mask i 0) mask.

Definition refineSegmentation (mask data : list Z) (width height : Z) : list Z :=
  let '(fgColors, bgColors) := colorModels mask data width height in
  let fgClusters := clusterColors fgColors #25 10 in
  let bgClusters := clusterColors bgColors #25 10 in
  let mask := settle fgClusters bgClusters mask data width height in
  applySpatialCoherence mask data width height.

Definition removeBackgroundPro (data : list Z) (width height : Z)
    : option (list Z) :=
  match createInitialMask data width height with
  | None => None
  | Some mask =>
      let mask := refineSegmentation mask data width height in
      let data := applyMaskToImage mask data width height in
      postProcessResult data width height
  end.

End Segment.

(* ================================================================== *)
(** ** The edge detector, and the loop of the background blur *)
(* ================================================================== *)

Module Sobel.
Import Js Detect.
Local Open Scope js_scope.

Definition detectEdges (imageData : list Z) (width height : Z) : list bool :=
  let totalPixels := (width * height)%Z in
  let edges := newArray totalPixels false in
  forZ 1 (height - 1) (fun y edges =>
    forZ 1 (width - 1) (fun x edges =>
      let idx := (y * width + x)%Z in
      let tl := getPixelBrightness imageData (x - 1) (y - 1) width in
      let t := getPixelBrightness imageData x (y - 1) width in
      let tr := getPixelBrightness imageData (x + 1) (y - 1) width in
      let l := getPixelBrightness imageData (x - 1) y width in
      let c := getPixelBrightness imageData x y width in
      let r := getPixelBrightness imageData (x + 1) y width in
      let bl := getPixelBrightness imageData (x - 1) (y + 1) width in
      let b := getPixelBrightness imageData x (y + 1) width in
      let br := getPixelBrightness imageData (x + 1) (y + 1) width in
      let gx := (tr + #2 * r + br) - (tl + #2 * l + bl) in
      let gy := (bl + #2 * b + br) - (tl + #2 * t + tr) in
      let g := sqrt (gx * gx + gy * gy) in
      if g >? #30 then aset edges idx true else edges) edges) edges.

End Sobel.

Module Blur.
Import Js PostProcess.
Local Open Scope js_scope.

(** The loop of [blurBackground] that puts the two renderings together:
    [combinedData] starts as a copy of [originalData], and [i] runs over the
    byte offsets of the pixels. *)
Definition combine (originalData blurredData : list Z) : list Z :=
  let combinedData := originalData in
  forZ 0 ((Z.of_nat (length originalData) + 3) / 4) (fun k combinedData =>
    let i := (4 * k)%Z in
    if dget originalData (i + 3)%Z <? #200 then
      let combinedData := dset combinedData i (toByte (dget blurredData i)) in
      let combinedData :=
        dset combinedData (i + 1)%Z (toByte (dget blurredData (i + 1)%Z)) in
      dset combinedData (i + 2)%Z (toByte (dget blurredData (i + 2)%Z))
    else combinedData) combinedData.

End Blur.

(* ################################################################## *)
(** * Part II: the proofs *)
(* ################################################################## *)

(* ================================================================== *)
(** ** Facts about arrays and loops *)
(* ================================================================== *)

Module JsFacts.
Import Js.

Lemma range_nil lo hi : hi <= lo -> range lo hi = [].
Proof.
  intros H. unfold range. replace (Z.to_nat (hi - lo)) with 0%nat by lia.
  reflexivity.
Qed.

Lemma range_snoc lo hi : lo <= hi -> range lo (hi + 1) = range lo hi ++ [hi].
Proof.
  intros H. unfold range.
  replace (Z.to_nat (hi + 1 - lo)) with (S (Z.to_nat (hi - lo))) by lia.
  rewrite seq_S, map_app. simpl. f_equal. f_equal. lia.
Qed.

Lemma range_cons lo hi : lo < hi -> range lo hi = lo :: range (lo + 1) hi.
Proof.
  intros H. unfold range.
  replace (Z.to_nat (hi - lo)) with (S (Z.to_nat (hi - (lo + 1)))) by lia.
  simpl. f_equal; [lia|].
  rewrite <- seq_shift, map_map. apply map_ext. intros k. lia.
Qed.

Lemma seq_offset k n : seq k n = map (fun j => (k + j)%nat) (seq 0 n).
Proof.
  induction n as [|n IH]; [reflexivity|].
  rewrite !seq_S, map_app, IH. reflexivity.
Qed.

Lemma range_app lo mid hi :
  lo <= mid <= hi -> range lo hi = range lo mid ++ range mid hi.
Proof.
  intros H. unfold range.
  replace (Z.to_nat (hi - lo))
    with (Z.to_nat (mid - lo) + Z.to_nat (hi - mid))%nat by lia.
  rewrite seq_app, map_app. f_equal.
  rewrite (seq_offset (0 + Z.to_nat (mid - lo))), map_map.
  apply map_ext. intros j. lia.
Qed.

Lemma in_range lo hi i : In i (range lo hi) <-> lo <= i < hi.
Proof.
  unfold range. rewrite in_map_iff. split.
  - intros (k & <- & Hk). apply in_seq in Hk. lia.
  - intros H. exists (Z.to_nat (i - lo)). split; [lia|]. apply in_seq. lia.
Qed.

(** A property checked on every integer of a range holds on the range. *)
Lemma enumerate (P : Z -> bool) lo hi :
  forallb P (range lo hi) = true ->
  forall s, lo <= s < hi -> P s = true.
Proof.
  intros H s Hs. rewrite forallb_forall in H. apply H. now apply in_range.
Qed.

Lemma length_range lo hi : length (range lo hi) = Z.to_nat (hi - lo).
Proof. unfold range. now rewrite length_map, length_seq. Qed.

Lemma forZ_nil {St} lo hi (body : Z -> St -> St) s :
  hi <= lo -> forZ lo hi body s = s.
Proof. intros H. unfold forZ. now rewrite range_nil. Qed.

Lemma forZ_snoc {St} lo hi (body : Z -> St -> St) s :
  lo <= hi -> forZ lo (hi + 1) body s = body hi (forZ lo hi body s).
Proof.
  intros H. unfold forZ. rewrite range_snoc by assumption.
  now rewrite fold_left_app.
Qed.

(** The invariant rule of a counting loop. *)
Lemma forZ_ind {St} (P : Z -> St -> Prop) lo hi (body : Z -> St -> St) s :
  lo <= hi ->
  P lo s ->
  (forall i t, lo <= i < hi -> P i t -> P (i + 1) (body i t)) ->
  P hi (forZ lo hi body s).
Proof.
  intros Hle H0 Hstep.
  assert (G : forall n : nat, lo + Z.of_nat n <= hi ->
              P (lo + Z.of_nat n) (forZ lo (lo + Z.of_nat n) body s)).
  { induction n as [|n IH]; intros Hn.
    - rewrite Z.add_0_r, forZ_nil by lia. exact H0.
    - replace (lo + Z.of_nat (S n)) with (lo + Z.of_nat n + 1) by lia.
      rewrite forZ_snoc by lia. apply Hstep; [lia|]. apply IH. lia. }
  specialize (G (Z.to_nat (hi - lo))).
  replace (lo + Z.of_nat (Z.to_nat (hi - lo))) with hi in G by lia.
  apply G. lia.
Qed.

(** An invariant that does not mention the counter. *)
Lemma forZ_inv {St} (P : St -> Prop) lo hi (body : Z -> St -> St) s :
  P s -> (forall i t, lo <= i < hi -> P t -> P (body i t)) ->
  P (forZ lo hi body s).
Proof.
  intros H0 Hstep.
  destruct (Z.le_gt_cases lo hi).
  - apply (forZ_ind (fun _ t => P t)); auto.
  - now rewrite forZ_nil by lia.
Qed.

Lemma forZ_cons {St} lo hi (body : Z -> St -> St) s :
  lo < hi -> forZ lo hi body s = forZ (lo + 1) hi body (body lo s).
Proof. intros H. unfold forZ. now rewrite (range_cons lo hi) by assumption. Qed.

Lemma forZ_ext {St} lo hi (f g : Z -> St -> St) s :
  (forall i t, lo <= i < hi -> f i t = g i t) ->
  forZ lo hi f s = forZ lo hi g s.
Proof.
  intros H. unfold forZ.
  assert (G : forall l, (forall i, In i l -> lo <= i < hi) ->
              forall t, fold_left (fun s i => f i s) l t
                        = fold_left (fun s i => g i s) l t).
  { induction l as [|a l IH]; intros Hl t; [reflexivity|].
    simpl. rewrite H by (apply Hl; now left).
    apply IH. intros i Hi. apply Hl. now right. }
  apply G. intros i Hi. now apply in_range.
Qed.

(** *** Reading what was written *)

Lemma length_aset m i v :
  0 <= i ->
  length (aset m i v) = Nat.max (length m) (S (Z.to_nat i)).
Proof.
  intros Hi. unfold aset.
  destruct (Z.ltb_spec i 0); [lia|].
  destruct (Nat.ltb_spec (Z.to_nat i) (length m)).
  - rewrite length_app, length_firstn. cbn [length]. rewrite length_skipn. lia.
  - rewrite !length_app, repeat_length. cbn [length]. lia.
Qed.

Lemma nth_aset m n v k :
  nth k (aset m (Z.of_nat n) v) false
  = if (k =? n)%nat then v else nth k m false.
Proof.
  unfold aset. destruct (Z.ltb_spec (Z.of_nat n) 0); [lia|].
  rewrite Nat2Z.id.
  destruct (Nat.ltb_spec n (length m)) as [Hlt|Hge].
  - destruct (Nat.eqb_spec k n) as [->|Hne].
    + rewrite app_nth2; rewrite length_firstn; [|lia].
      replace (n - Nat.min n (length m))%nat with 0%nat by lia. reflexivity.
    + destruct (Nat.lt_ge_cases k n) as [Hk|Hk].
      * rewrite app_nth1 by (rewrite length_firstn; lia).
        rewrite <- (firstn_skipn n m) at 2.
        rewrite app_nth1 by (rewrite length_firstn; lia). reflexivity.
      * rewrite app_nth2 by (rewrite length_firstn; lia).
        rewrite length_firstn.
        replace (Nat.min n (length m)) with n by lia.
        destruct (k - n)%nat as [|j] eqn:Ej; [lia|]. simpl.
        rewrite <- (firstn_skipn (S n) m) at 2.
        rewrite app_nth2; rewrite length_firstn; [|lia].
        f_equal. lia.
  - destruct (Nat.eqb_spec k n) as [->|Hne].
    + rewrite app_nth2 by lia.
      rewrite app_nth2; rewrite repeat_length; [|lia].
      replace (n - length m - (n - length m))%nat with 0%nat by lia.
      reflexivity.
    + destruct (Nat.lt_ge_cases k (length m)) as [Hk|Hk].
      * now rewrite app_nth1 by assumption.
      * rewrite app_nth2 by assumption.
        rewrite (nth_overflow m) by lia.
        destruct (Nat.lt_ge_cases (k - length m) (n - length m)) as [Hk'|Hk'].
        -- rewrite app_nth1 by (rewrite repeat_length; lia).
           apply nth_repeat.
        -- rewrite app_nth2 by (rewrite repeat_length; lia).
           rewrite repeat_length.
           destruct (k - length m - (n - length m))%nat as [|j] eqn:Ej; [lia|].
           simpl. now destruct j.
Qed.

Lemma aget_aset m i v j :
  0 <= i ->
  aget (aset m i v) j = if j =? i then v else aget m j.
Proof.
  intros Hi. unfold aget.
  destruct (Z.ltb_spec j 0) as [Hj|Hj].
  - destruct (Z.eqb_spec j i); [lia|reflexivity].
  - replace i with (Z.of_nat (Z.to_nat i)) at 1 by lia.
    rewrite nth_aset.
    destruct (Nat.eqb_spec (Z.to_nat j) (Z.to_nat i)) as [E|E];
      destruct (Z.eqb_spec j i) as [E'|E']; try reflexivity; lia.
Qed.

Lemma aget_repeat b n i : aget (repeat b n) i = b && (0 <=? i) && (i <? Z.of_nat n).
Proof.
  unfold aget. destruct (Z.ltb_spec i 0) as [Hi|Hi].
  - destruct (Z.leb_spec 0 i); [lia|]. now rewrite andb_false_r.
  - destruct (Z.leb_spec 0 i); [|lia]. rewrite andb_true_r.
    destruct (Z.ltb_spec i (Z.of_nat n)).
    + rewrite nth_repeat_lt by lia. now rewrite andb_true_r.
    + rewrite nth_overflow by (rewrite repeat_length; lia).
      now rewrite andb_false_r.
Qed.

(** Row-major addressing: which cell of the grid an index names. *)
Lemma row_of_index w i k :
  0 < w -> (0 <= i - k * w < w <-> i / w = k).
Proof.
  intros Hw. split.
  - intros H. symmetry. apply (Z.div_unique i w k (i - k * w)); lia.
  - intros <-. pose proof (Z.mod_pos_bound i w Hw).
    pose proof (Z.div_mod i w). rewrite Z.mul_comm. lia.
Qed.

Lemma col_of_index w i : 0 < w -> i mod w = i - (i / w) * w.
Proof. intros Hw. pose proof (Z.div_mod i w). lia. Qed.

Lemma index_div w x y : 0 <= x < w -> (y * w + x) / w = y.
Proof.
  intros H. symmetry. apply (Z.div_unique (y * w + x) w y x); lia.
Qed.

Lemma index_mod w x y : 0 <= x < w -> (y * w + x) mod w = x.
Proof.
  intros H. symmetry. apply (Z.mod_unique (y * w + x) w y x); lia.
Qed.

End JsFacts.

(* ================================================================== *)
(** ** The two representations of a number agree *)
(* ================================================================== *)

(** Where [Js] keeps an integer, binary64 arithmetic gives the same number.
    This is checked here, by computation, on the operands the pipeline
    forms from bytes. *)
Module NumAgreement.
Import Js JsFacts.

Definition sameFloat (x y : float) : bool := PrimFloat.Leibniz.eqb x y.

Lemma sameFloat_eq x y : sameFloat x y = true -> x = y.
Proof. apply FloatAxioms.Leibniz.eqb_spec. Qed.

(** Differences of two bytes, as [perceptualColorDistance] takes them. *)
Lemma byte_difference_exact a b :
  0 <= a < 256 -> 0 <= b < 256 ->
  PrimFloat.sub (ofZ a) (ofZ b) = ofZ (a - b).
Proof.
  intros Ha Hb. apply sameFloat_eq.
  assert (E : forallb (fun a =>
                forallb (fun b =>
                  sameFloat (PrimFloat.sub (ofZ a) (ofZ b)) (ofZ (a - b)))
                  (range 0 256)) (range 0 256) = true)
    by (vm_compute; reflexivity).
  pose proof (enumerate _ _ _ E a Ha) as Ea. cbv beta in Ea.
  exact (enumerate _ _ _ Ea b Hb).
Qed.

(** Sums of three bytes, as the brightness takes them. *)
Lemma byte_sum_exact a b :
  0 <= a < 511 -> 0 <= b < 256 ->
  PrimFloat.add (ofZ a) (ofZ b) = ofZ (a + b).
Proof.
  intros Ha Hb. apply sameFloat_eq.
  assert (E : forallb (fun a =>
                forallb (fun b =>
                  sameFloat (PrimFloat.add (ofZ a) (ofZ b)) (ofZ (a + b)))
                  (range 0 256)) (range 0 511) = true)
    by (vm_compute; reflexivity).
  pose proof (enumerate _ _ _ E a Ha) as Ea. cbv beta in Ea.
  exact (enumerate _ _ _ Ea b Hb).
Qed.

(** The running average of a cluster of equal bytes: the quotient
    [c * n / n] is [c], here for clusters of up to 400 samples. *)
Lemma equal_bytes_average_exact c n :
  0 <= c < 256 -> 1 <= n < 401 ->
  PrimFloat.div (PrimFloat.add (PrimFloat.mul (ofZ c) (ofZ (n - 1))) (ofZ c))
                (ofZ n)
  = ofZ c.
Proof.
  intros Hc Hn. apply sameFloat_eq.
  assert (E : forallb (fun c =>
                forallb (fun n =>
                  sameFloat
                    (PrimFloat.div
                       (PrimFloat.add (PrimFloat.mul (ofZ c) (ofZ (n - 1))) (ofZ c))
                       (ofZ n))
                    (ofZ c))
                  (range 1 401)) (range 0 256) = true)
    by (vm_compute; reflexivity).
  pose proof (enumerate _ _ _ E c Hc) as Ec. cbv beta in Ec.
  exact (enumerate _ _ _ Ec n Hn).
Qed.

End NumAgreement.

(* ================================================================== *)
(** ** The refiner, cell by cell *)
(* ================================================================== *)

Module MorphFacts.
Import Js JsFacts Morph.

(** A double loop that writes cell [(x, y)] when [g x y] says so. *)
Definition paint (w ylo yhi xlo xhi : Z) (g : Z -> Z -> option bool)
    (r : list bool) : list bool :=
  forZ ylo yhi (fun y r =>
    forZ xlo xhi (fun x r =>
      match g x y with Some v => aset r (y * w + x) v | None => r end) r) r.

Lemma paint_row_get (base xlo xhi : Z) (g : Z -> option bool) r i :
  0 <= base + xlo ->
  aget (forZ xlo xhi (fun x r =>
          match g x with Some v => aset r (base + x) v | None => r end) r) i
  = if (xlo <=? i - base) && (i - base <? xhi)
    then match g (i - base) with Some v => v | None => aget r i end
    else aget r i.
Proof.
  intros Hb.
  destruct (Z.le_gt_cases xlo xhi) as [Hle|Hgt].
  2:{ rewrite forZ_nil by lia.
      destruct (Z.leb_spec xlo (i - base)), (Z.ltb_spec (i - base) xhi);
        simpl; try reflexivity; lia. }
  revert i.
  apply (forZ_ind (fun k s => forall i, aget s i =
           if (xlo <=? i - base) && (i - base <? k)
           then match g (i - base) with Some v => v | None => aget r i end
           else aget r i)); [assumption| |].
  - intros i. destruct (Z.leb_spec xlo (i - base)), (Z.ltb_spec (i - base) xlo);
      simpl; try reflexivity; lia.
  - intros k t Hk IH i.
    destruct (g k) as [v|] eqn:Eg.
    + rewrite aget_aset by lia. rewrite IH.
      destruct (Z.eqb_spec i (base + k)) as [->|Hne].
      * replace (base + k - base) with k by lia. rewrite Eg.
        destruct (Z.leb_spec xlo k), (Z.ltb_spec k (k + 1)); simpl;
          try reflexivity; lia.
      * destruct (Z.leb_spec xlo (i - base)); simpl; [|reflexivity].
        destruct (Z.ltb_spec (i - base) k), (Z.ltb_spec (i - base) (k + 1));
          try reflexivity; lia.
    + rewrite IH.
      destruct (Z.leb_spec xlo (i - base)); simpl; [|reflexivity].
      destruct (Z.ltb_spec (i - base) k), (Z.ltb_spec (i - base) (k + 1));
        try reflexivity; try lia.
      assert (i - base = k) as -> by lia. now rewrite Eg.
Qed.

(** What a cell holds after the double loop. *)
Lemma paint_get w ylo yhi xlo xhi g r i :
  0 <= xlo -> xhi <= w -> 0 <= ylo -> 0 <= i ->
  aget (paint w ylo yhi xlo xhi g r) i
  = if (ylo <=? i / w) && (i / w <? yhi) && (xlo <=? i mod w) && (i mod w <? xhi)
    then match g (i mod w) (i / w) with Some v => v | None => aget r i end
    else aget r i.
Proof.
  intros Hx0 Hxw Hy0 Hi. unfold paint.
  destruct (Z.le_gt_cases xhi xlo) as [Hempty|Hne].
  { (* no column is visited *)
    assert (E : forall n s, forZ ylo n (fun y r0 => forZ xlo xhi (fun x r1 =>
                  match g x y with Some v => aset r1 (y * w + x) v | None => r1 end)
                  r0) s = s).
    { intros n s. unfold forZ at 1. revert s.
      induction (range ylo n) as [|a l IH]; intros s; [reflexivity|].
      simpl. rewrite forZ_nil by assumption. apply IH. }
    rewrite E.
    destruct (Z.leb_spec xlo (i mod w)), (Z.ltb_spec (i mod w) xhi);
      rewrite ?andb_false_r; simpl; try reflexivity; lia. }
  assert (Hw : 0 < w) by lia.
  destruct (Z.le_gt_cases ylo yhi) as [Hle|Hgt].
  2:{ rewrite forZ_nil by lia.
      destruct (Z.leb_spec ylo (i / w)), (Z.ltb_spec (i / w) yhi);
        simpl; try reflexivity; lia. }
  revert i Hi.
  apply (forZ_ind (fun k s => forall i, 0 <= i -> aget s i =
           if (ylo <=? i / w) && (i / w <? k) && (xlo <=? i mod w) && (i mod w <? xhi)
           then match g (i mod w) (i / w) with Some v => v | None => aget r i end
           else aget r i)); [assumption| |].
  - intros i Hi.
    destruct (Z.leb_spec ylo (i / w)), (Z.ltb_spec (i / w) ylo);
      simpl; try reflexivity; lia.
  - intros k t Hk IH i Hi.
    rewrite (paint_row_get (k * w) xlo xhi (fun x => g x k)) by nia.
    rewrite IH by assumption.
    pose proof (row_of_index w i k Hw) as Hrow.
    pose proof (col_of_index w i Hw) as Hcol.
    destruct (Z.eq_dec (i / w) k) as [E|E].
    + assert (Hik : i - k * w = i mod w) by (rewrite Hcol, E; reflexivity).
      rewrite Hik, E.
      destruct (Z.leb_spec ylo k), (Z.ltb_spec k k), (Z.ltb_spec k (k + 1));
        try lia. simpl.
      destruct ((xlo <=? i mod w) && (i mod w <? xhi)); reflexivity.
    + assert (Hout : ~ (0 <= i - k * w < w)) by (intros H; now apply Hrow in H).
      destruct (Z.leb_spec xlo (i - k * w)), (Z.ltb_spec (i - k * w) xhi);
        simpl; try lia;
        destruct (Z.leb_spec ylo (i / w)); simpl; try reflexivity;
        destruct (Z.ltb_spec (i / w) k), (Z.ltb_spec (i / w) (k + 1));
        simpl; try reflexivity; lia.
Qed.

Lemma erode_paint mask w h :
  erode mask w h
  = paint w 1 (h - 1) 1 (w - 1)
      (fun x y => Some (allBackground mask w x y)) (repeat false (length mask)).
Proof. reflexivity. Qed.

Lemma dilate_paint mask w h :
  dilate mask w h
  = paint w 1 (h - 1) 1 (w - 1) (fun x y => Some (anyBackground mask w x y)) mask.
Proof. reflexivity. Qed.

Lemma ensureEdgesRemoved_paint mask w h :
  ensureEdgesRemoved mask w h
  = paint w 0 h 0 w (fun x y => if inBand w h x y then Some true else None) mask.
Proof.
  unfold ensureEdgesRemoved, paint, inBand.
  apply forZ_ext. intros y r _. apply forZ_ext. intros x t _.
  now destruct ((x <? edgeWidth) || (x >=? w - edgeWidth)
                || (y <? edgeWidth) || (y >=? h - edgeWidth)).
Qed.

(** [erode], cell by cell. *)
Lemma erode_get mask w h i :
  0 <= i ->
  aget (erode mask w h) i
  = inner w h (i mod w) (i / w) && allBackground mask w (i mod w) (i / w).
Proof.
  intros Hi. rewrite erode_paint, paint_get by lia. unfold inner.
  rewrite aget_repeat.
  destruct (Z.leb_spec 1 (i / w)), (Z.ltb_spec (i / w) (h - 1)),
    (Z.leb_spec 1 (i mod w)), (Z.ltb_spec (i mod w) (w - 1)); reflexivity.
Qed.

(** [dilate], cell by cell. *)
Lemma dilate_get mask w h i :
  0 <= i ->
  aget (dilate mask w h) i
  = if inner w h (i mod w) (i / w)
    then anyBackground mask w (i mod w) (i / w) else aget mask i.
Proof.
  intros Hi. rewrite dilate_paint, paint_get by lia. unfold inner.
  destruct (Z.leb_spec 1 (i / w)), (Z.ltb_spec (i / w) (h - 1)),
    (Z.leb_spec 1 (i mod w)), (Z.ltb_spec (i mod w) (w - 1)); reflexivity.
Qed.

(** [ensureEdgesRemoved], cell by cell. *)
Lemma ensureEdgesRemoved_get mask w h i :
  0 <= i ->
  aget (ensureEdgesRemoved mask w h) i
  = if (0 <? w) && (i / w <? h) && inBand w h (i mod w) (i / w)
    then true else aget mask i.
Proof.
  intros Hi. rewrite ensureEdgesRemoved_paint, paint_get by lia.
  destruct (Z.ltb_spec 0 w) as [Hw|Hw].
  - pose proof (Z.mod_pos_bound i w Hw).
    assert (0 <= i / w) by (apply Z.div_pos; lia).
    destruct (Z.leb_spec 0 (i / w)), (Z.leb_spec 0 (i mod w)),
      (Z.ltb_spec (i mod w) w); try lia.
    rewrite !andb_true_r. simpl.
    destruct (i / w <? h); simpl; [|reflexivity].
    now destruct (inBand w h (i mod w) (i / w)).
  - assert (E : (i mod w <? w) = false).
    { apply Z.ltb_ge. destruct (Z.eq_dec w 0) as [->|Hn].
      - rewrite Z.mod_0_r. lia.
      - pose proof (Z.mod_neg_bound i w). lia. }
    rewrite E, !andb_false_r. reflexivity.
Qed.

End MorphFacts.

(* ================================================================== *)
(** ** The refiner on the heap computes the refiner on values *)
(* ================================================================== *)

Module HeapFacts.
Import Js JsFacts Morph MorphFacts Heap.

Lemma sel_app_old (s : store) arr l : (l < length s)%nat -> sel (s ++ [arr]) l = sel s l.
Proof. intros H. unfold sel. now rewrite app_nth1. Qed.

Lemma sel_app_new (s : store) arr : sel (s ++ [arr]) (length s) = arr.
Proof. unfold sel. rewrite app_nth2, Nat.sub_diag by lia. reflexivity. Qed.

Lemma upd_app_new (s : store) arr arr' : upd (s ++ [arr]) (length s) arr' = s ++ [arr'].
Proof.
  unfold upd.
  destruct (Nat.ltb_spec (length s) (length (s ++ [arr]))) as [_|H].
  2:{ rewrite length_app in H. simpl in H. lia. }
  rewrite skipn_all2 by (rewrite length_app; simpl; lia).
  rewrite firstn_app, Nat.sub_diag, firstn_all, firstn_O, app_nil_r.
  reflexivity.
Qed.

Lemma wr_new (s : store) arr i v :
  wr (s ++ [arr]) (length s) i v = s ++ [aset arr i v].
Proof. unfold wr. now rewrite sel_app_new, upd_app_new. Qed.

Lemma rd_old (s : store) arr l i :
  (l < length s)%nat -> rd (s ++ [arr]) l i = aget (sel s l) i.
Proof. intros H. unfold rd. now rewrite sel_app_old. Qed.

Lemma forallb_same {A} (f g : A -> bool) l :
  (forall x, f x = g x) -> forallb f l = forallb g l.
Proof. intros H. induction l as [|x l IH]; simpl; [|rewrite H, IH]; reflexivity. Qed.

Lemma existsb_same {A} (f g : A -> bool) l :
  (forall x, f x = g x) -> existsb f l = existsb g l.
Proof. intros H. induction l as [|x l IH]; simpl; [|rewrite H, IH]; reflexivity. Qed.

(** Two loops in step: the store holds the old arrays and, last, the array
    the loop on values has built so far. *)
Lemma forZ_store (s : store) lo hi (f : Z -> store -> store)
    (g : Z -> list bool -> list bool) arr :
  (forall i a, f i (s ++ [a]) = s ++ [g i a]) ->
  forZ lo hi f (s ++ [arr]) = s ++ [forZ lo hi g arr].
Proof.
  intros H. unfold forZ. revert arr.
  induction (range lo hi) as [|k l IH]; intros arr; [reflexivity|].
  simpl. rewrite H. apply IH.
Qed.

Lemma erodeH_erode (s : store) mask w h :
  (mask < length s)%nat ->
  erodeH mask w h s = (length s, s ++ [erode (sel s mask) w h]).
Proof.
  intros Hm. unfold erodeH, alloc, erode. f_equal.
  apply forZ_store. intros y arr. apply forZ_store. intros x arr'.
  rewrite wr_new. do 3 f_equal. unfold allBackground.
  apply forallb_same. intros dy. apply forallb_same. intros dx.
  now apply rd_old.
Qed.

Lemma dilateH_dilate (s : store) mask w h :
  (mask < length s)%nat ->
  dilateH mask w h s = (length s, s ++ [dilate (sel s mask) w h]).
Proof.
  intros Hm. unfold dilateH, alloc, dilate. f_equal.
  apply forZ_store. intros y arr. apply forZ_store. intros x arr'.
  rewrite wr_new. do 3 f_equal. unfold anyBackground.
  apply existsb_same. intros dy. apply existsb_same. intros dx.
  now apply rd_old.
Qed.

End HeapFacts.

(* ================================================================== *)
(** ** Properties of the morphological refiner *)
(* ================================================================== *)

Module Refiner.
Import Js JsFacts Morph MorphFacts Heap HeapFacts Detect.

Lemma in_window3 d : In d window3 <-> d = -1 \/ d = 0 \/ d = 1.
Proof. unfold window3. simpl. intuition lia. Qed.

Lemma allBackground_true mask w x y :
  allBackground mask w x y = true <->
  forall dx dy, In dx window3 -> In dy window3 ->
                aget mask ((y + dy) * w + (x + dx)) = true.
Proof.
  unfold allBackground. rewrite forallb_forall. split.
  - intros H dx dy Hdx Hdy. specialize (H dy Hdy).
    rewrite forallb_forall in H. now apply H.
  - intros H dy Hdy. apply forallb_forall. intros dx Hdx. now apply H.
Qed.

Lemma anyBackground_true mask w x y :
  anyBackground mask w x y = true <->
  exists dx dy, In dx window3 /\ In dy window3 /\
                aget mask ((y + dy) * w + (x + dx)) = true.
Proof.
  unfold anyBackground. rewrite existsb_exists. split.
  - intros (dy & Hdy & H). apply existsb_exists in H as (dx & Hdx & H).
    now exists dx, dy.
  - intros (dx & dy & Hdx & Hdy & H). exists dy. split; [assumption|].
    apply existsb_exists. now exists dx.
Qed.

(** The cell-by-cell lemmas, addressed by column and row. *)
Lemma erode_at mask w h x y :
  0 <= x < w -> 0 <= y ->
  aget (erode mask w h) (y * w + x) = inner w h x y && allBackground mask w x y.
Proof.
  intros Hx Hy. rewrite erode_get by nia.
  now rewrite index_mod, index_div by assumption.
Qed.

Lemma dilate_at mask w h x y :
  0 <= x < w -> 0 <= y ->
  aget (dilate mask w h) (y * w + x)
  = if inner w h x y then anyBackground mask w x y else aget mask (y * w + x).
Proof.
  intros Hx Hy. rewrite dilate_get by nia.
  now rewrite index_mod, index_div by assumption.
Qed.

Lemma inner_bounds w h x y :
  inner w h x y = true <-> 1 <= x < w - 1 /\ 1 <= y < h - 1.
Proof. unfold inner. rewrite !andb_true_iff. lia. Qed.

Lemma onFrame_bounds w h x y :
  onFrame w h x y = true ->
  0 <= x < w /\ 0 <= y < h /\ inner w h x y = false.
Proof.
  unfold onFrame. rewrite !andb_true_iff, negb_true_iff.
  intros ((((H1 & H2) & H3) & H4) & H5). repeat split; try assumption; lia.
Qed.

(** Opening never adds a pixel. *)
Lemma open_subset mask w h i :
  0 <= i ->
  aget (dilate (erode mask w h) w h) i = true -> aget mask i = true.
Proof.
  intros Hi. rewrite dilate_get by assumption.
  destruct (inner w h (i mod w) (i / w)) eqn:Hin.
  - apply inner_bounds in Hin. assert (Hw : 0 < w) by lia.
    intros H. apply anyBackground_true in H as (dx & dy & Hdx & Hdy & H).
    apply in_window3 in Hdx, Hdy.
    rewrite erode_at in H by lia.
    apply andb_true_iff in H as [_ H].
    rewrite allBackground_true in H.
    specialize (H (- dx) (- dy)).
    replace ((i / w + dy + - dy) * w + (i mod w + dx + - dx)) with i in H
      by (rewrite (col_of_index w i Hw); lia).
    apply H; apply in_window3; lia.
  - rewrite erode_get, Hin by assumption. discriminate.
Qed.

Definition deep (w h : Z) (i : Z) : bool :=
  (2 <=? i mod w) && (i mod w <? w - 2) && (2 <=? i / w) && (i / w <? h - 2).

(** Closing keeps every pixel that lies two cells or more inside the image. *)
Lemma close_superset_deep mask w h i :
  0 <= i -> deep w h i = true ->
  aget mask i = true -> aget (erode (dilate mask w h) w h) i = true.
Proof.
  intros Hi Hd Hm. unfold deep in Hd. rewrite !andb_true_iff in Hd.
  assert (Hw : 0 < w) by lia.
  rewrite erode_get by assumption. apply andb_true_iff. split.
  - apply inner_bounds. lia.
  - apply allBackground_true. intros dx dy Hdx Hdy.
    apply in_window3 in Hdx, Hdy.
    rewrite dilate_at by lia.
    replace (inner w h (i mod w + dx) (i / w + dy)) with true
      by (symmetry; apply inner_bounds; lia).
    apply anyBackground_true. exists (- dx), (- dy).
    split; [apply in_window3; lia|]. split; [apply in_window3; lia|].
    replace ((i / w + dy + - dy) * w + (i mod w + dx + - dx)) with i
      by (rewrite (col_of_index w i Hw); lia).
    assumption.
Qed.

Lemma filter_length_mono {A} (f g : A -> bool) l :
  (forall x, In x l -> f x = true -> g x = true) ->
  (length (filter f l) <= length (filter g l))%nat.
Proof.
  induction l as [|x l IH]; intros H; simpl; [lia|].
  assert (IH' : (length (filter f l) <= length (filter g l))%nat).
  { apply IH. intros z Hz. apply H. now right. }
  destruct (f x) eqn:Ef.
  - rewrite (H x (or_introl eq_refl) Ef). simpl. lia.
  - destruct (g x); simpl; lia.
Qed.

Lemma countTrue_le p q m m' w h :
  (forall i, 0 <= i < w * h -> p i = true -> aget m i = true ->
             q i = true /\ aget m' i = true) ->
  (countTrue p m w h <= countTrue q m' w h)%nat.
Proof.
  intros H. unfold countTrue. apply filter_length_mono.
  intros i Hi Hp. apply in_range in Hi. apply andb_true_iff in Hp as [Hp Hm].
  destruct (H i) as [Hq Hm']; try assumption; try lia.
  now rewrite Hq, Hm'.
Qed.

Definition everywhere (i : Z) : bool := true.

(** The interior of the image in the sense of the refiner: the cells its
    loops visit, all but the 1-pixel frame. *)
Definition interior (w h : Z) (i : Z) : bool := inner w h (i mod w) (i / w).

(** C7, as stated, fails on the closing: a 3x3 mask whose only true pixel is
    the centre has one true interior pixel, and closing it leaves none. *)
Lemma close_loses_interior_pixel :
  let m := [false; false; false; false; true; false; false; false; false] in
  countTrue (interior 3 3) m 3 3 = 1%nat /\
  countTrue everywhere (erode (dilate m 3 3) 3 3) 3 3 = 0%nat.
Proof. split; reflexivity. Qed.

(** C7 (amended): closing, [erode (dilate mask)], has at least as many true
    pixels as the mask has at distance two or more from the image border, and
    opening, [dilate (erode mask)], has no more true pixels than the mask. *)
Theorem close_open_monotone (mask : list bool) (w h : Z) :
  (countTrue (deep w h) mask w h
     <= countTrue everywhere (erode (dilate mask w h) w h) w h)%nat
  /\ (countTrue everywhere (dilate (erode mask w h) w h) w h
     <= countTrue everywhere mask w h)%nat.
Proof.
  split; apply countTrue_le; intros i Hi Hp Hm.
  - split; [reflexivity|]. apply close_superset_deep; [lia|assumption..].
  - split; [reflexivity|]. apply (open_subset mask w h); [lia|assumption].
Qed.

(** *** The cleanup sequence of the two detectors *)

Inductive pass : Type := Dilate | Erode.

Definition runPass (w h : Z) (m : list bool) (p : pass) : list bool :=
  match p with Dilate => dilate m w h | Erode => erode m w h end.

Definition runPasses (ps : list pass) (m : list bool) (w h : Z) : list bool :=
  fold_left (runPass w h) ps m.

(** The sequence as the specification words it: two dilations, one erosion,
    two more dilations, one erosion. *)
Definition cleanupAsSpecified (m : list bool) (w h : Z) : list bool :=
  runPasses [Dilate; Dilate; Erode; Dilate; Dilate; Erode] m w h.

(** A 9x9 grey image with one skin-coloured pixel in the middle. *)
Definition greyWithSkinDot : list Z :=
  concat (repeat [100; 100; 100; 255] 40) ++ [224; 172; 135; 255]
  ++ concat (repeat [100; 100; 100; 255] 40).

(** C2, as stated, fails: on this image the skin detector keeps the 3x3 block
    around the dot, the specified sequence would keep a 5x5 block. *)
Lemma cleanup_is_not_as_specified :
  detectSkinTones greyWithSkinDot 9 9
  <> cleanupAsSpecified (rawSkinMask greyWithSkinDot 9 9) 9 9
  /\ countTrue everywhere (detectSkinTones greyWithSkinDot 9 9) 9 9 = 9%nat
  /\ countTrue everywhere
       (cleanupAsSpecified (rawSkinMask greyWithSkinDot 9 9) 9 9) 9 9 = 25%nat.
Proof.
  split; [|split; vm_compute; reflexivity].
  intros E. apply (f_equal (fun m => countTrue everywhere m 9 9)) in E.
  vm_compute in E. discriminate.
Qed.

(** C2 (amended): the raw mask of the skin detector is cleaned by one
    dilation, one erosion, two dilations and one erosion, in this order, and
    the raw mask of the clothing detector goes through the same five passes. *)
Theorem cleanup_sequence (imageData : list Z) (w h : Z) :
  detectSkinTones imageData w h
  = runPasses [Dilate; Erode; Dilate; Dilate; Erode] (rawSkinMask imageData w h) w h
  /\ detectClothing imageData w h
  = runPasses [Dilate; Erode; Dilate; Dilate; Erode]
      (rawClothingMask imageData w h) w h.
Proof. split; reflexivity. Qed.

End Refiner.

(* ================================================================== *)
(** ** Properties of the flood fill and of the compositor *)
(* ================================================================== *)

Module Compositor.
Import Js JsFacts Morph MorphFacts Compose.

(** The cells of the grid that are still falsy. *)
Definition falsy (result : list bool) (w h : Z) : nat :=
  length (filter (fun i => negb (aget result i)) (range 0 (w * h))).

Lemma falsy_bound result w h : (falsy result w h <= Z.to_nat (w * h))%nat.
Proof.
  unfold falsy.
  etransitivity; [apply filter_length_le|].
  rewrite length_range. lia.
Qed.

Lemma falsy_aset result w h j :
  0 <= j < w * h -> aget result j = false ->
  (falsy (aset result j true) w h + 1 = falsy result w h)%nat.
Proof.
  intros Hj Hf. unfold falsy.
  rewrite (range_app 0 j (w * h)) by lia.
  rewrite (range_cons j) by lia.
  rewrite !filter_app. simpl.
  rewrite aget_aset, Z.eqb_refl, Hf by lia. simpl.
  rewrite !length_app. simpl.
  rewrite (filter_ext_in (fun i => negb (aget (aset result j true) i))
             (fun i => negb (aget result i)) (range 0 j)).
  2:{ intros i Hi. apply in_range in Hi. rewrite aget_aset by lia.
      destruct (Z.eqb_spec i j); [lia|reflexivity]. }
  rewrite (filter_ext_in (fun i => negb (aget (aset result j true) i))
             (fun i => negb (aget result i)) (range (j + 1) (w * h))).
  2:{ intros i Hi. apply in_range in Hi. rewrite aget_aset by lia.
      destruct (Z.eqb_spec i j); [lia|reflexivity]. }
  lia.
Qed.

Lemma inGrid_bounds w h nx ny :
  inGrid w h nx ny = true <-> 0 <= nx < w /\ 0 <= ny < h.
Proof. unfold inGrid. rewrite !andb_true_iff. lia. Qed.

Lemma inGrid_index w h nx ny :
  inGrid w h nx ny = true -> 0 <= ny * w + nx < w * h.
Proof. intros H. apply inGrid_bounds in H. nia. Qed.

(** Visiting a neighbour keeps [queue length + falsy cells] as it is, and
    never turns a cell false. *)
Lemma visit_measure w h result queue n :
  let '(result', queue') := visit w h (result, queue) n in
  (length queue' + falsy result' w h = length queue + falsy result w h)%nat
  /\ (forall i, aget result i = true -> aget result' i = true).
Proof.
  destruct n as [nx ny]. unfold visit.
  destruct (inGrid w h nx ny) eqn:Hg; [|split; [reflexivity|auto]].
  pose proof (inGrid_index w h nx ny Hg) as Hidx.
  destruct (aget result (ny * w + nx)) eqn:Hr; simpl; [split; [reflexivity|auto]|].
  split.
  - rewrite length_app. simpl.
    pose proof (falsy_aset result w h (ny * w + nx) Hidx Hr). lia.
  - intros i Hi. rewrite aget_aset by lia.
    destruct (Z.eqb_spec i (ny * w + nx)); [reflexivity|assumption].
Qed.

Lemma visits_measure w h ns : forall result queue,
  let '(result', queue') := fold_left (visit w h) ns (result, queue) in
  (length queue' + falsy result' w h = length queue + falsy result w h)%nat
  /\ (forall i, aget result i = true -> aget result' i = true).
Proof.
  induction ns as [|n ns IH]; intros result queue; cbn [fold_left];
    [split; [reflexivity|auto]|].
  pose proof (visit_measure w h result queue n) as H1.
  destruct (visit w h (result, queue) n) as [r1 q1].
  specialize (IH r1 q1).
  destruct (fold_left (visit w h) ns (r1, q1)) as [r2 q2] eqn:E2.
  cbv beta iota in H1, IH.
  destruct H1 as [H1 H1'], IH as [H2 H2']. split; [lia|auto].
Qed.

(** With fuel for the queue and for every falsy cell the loop ends, and it
    only ever adds to the mask. *)
Lemma floodLoop_total w h : forall fuel result queue,
  (length queue + falsy result w h <= fuel)%nat ->
  exists r, floodLoop fuel w h result queue = Some r
            /\ (forall i, aget result i = true -> aget r i = true).
Proof.
  induction fuel as [|fuel IH]; intros result queue Hf.
  - destruct queue as [|idx queue]; simpl in *; [|lia].
    exists result. split; [reflexivity|auto].
  - destruct queue as [|idx queue]; cbn [floodLoop].
    + exists result. split; [reflexivity|auto].
    + pose proof (visits_measure w h (neighbors4 (Z.rem idx w) (idx / w))
                    result queue) as H.
      destruct (fold_left (visit w h) (neighbors4 (Z.rem idx w) (idx / w))
                  (result, queue)) as [r1 q1].
      cbv beta iota in H. destruct H as [H H'].
      destruct (IH r1 q1) as (r & Hr & Hmono); [simpl in Hf; lia|].
      exists r. split; [assumption|auto].
Qed.

(** The flood fill returns, and what it returns contains the mask it was
    given. *)
Lemma floodFillBackground_total mask w h :
  exists r, floodFillBackground mask w h = Some r
            /\ (forall i, aget mask i = true -> aget r i = true).
Proof.
  unfold floodFillBackground, floodFuel. apply floodLoop_total.
  pose proof (falsy_bound mask w h). lia.
Qed.

(** *** The claim about connectivity *)

Definition onBorder (w h x y : Z) : Prop :=
  0 <= x < w /\ 0 <= y < h /\ (x = 0 \/ x = w - 1 \/ y = 0 \/ y = h - 1).

Definition adjacent (p q : Z * Z) : Prop :=
  In q (neighbors4 (fst p) (snd p)).

(** [(x, y)] is connected to the border of the image through pixels the
    initial mask marks as background, itself included. *)
Inductive bgConnected (mask : list bool) (w h : Z) : Z * Z -> Prop :=
| bg_border x y :
    onBorder w h x y -> aget mask (y * w + x) = true ->
    bgConnected mask w h (x, y)
| bg_step p x y :
    bgConnected mask w h p -> adjacent p (x, y) ->
    0 <= x < w -> 0 <= y < h -> aget mask (y * w + x) = true ->
    bgConnected mask w h (x, y).

Lemma bgConnected_marked mask w h x y :
  bgConnected mask w h (x, y) -> aget mask (y * w + x) = true.
Proof. intros H. inversion H; assumption. Qed.

(** A 3x3 mask with the top-left corner marked and nothing else. *)
Definition cornerOnly : list bool :=
  [true; false; false; false; false; false; false; false; false].

(** C1: the flood fill does not stay within the background-marked pixels.
    From the single marked corner of [cornerOnly] it turns the whole image
    true, the centre included, which the initial mask does not mark and
    which therefore is not connected to the border through marked pixels. *)
Theorem flood_fill_leaves_background :
  floodFillBackground cornerOnly 3 3 = Some (repeat true 9)
  /\ aget cornerOnly (1 * 3 + 1) = false
  /\ ~ bgConnected cornerOnly 3 3 (1, 1).
Proof.
  split; [reflexivity|]. split; [reflexivity|].
  intros H. apply bgConnected_marked in H. discriminate.
Qed.

(** A marked pixel in the middle of the image stays in the result although
    no marked pixel connects it to the border: the result starts as a copy
    of the initial mask. *)
Lemma flood_fill_keeps_islands :
  let island := [false; false; false; false; true; false; false; false; false] in
  floodFillBackground island 3 3 = Some island
  /\ ~ bgConnected island 3 3 (1, 1).
Proof.
  split; [reflexivity|]. intros H.
  assert (G : forall p, bgConnected
                [false; false; false; false; true; false; false; false; false]
                3 3 p -> False).
  { clear. intros p Hp. induction Hp as [x y (Hx & Hy & Hb) Hm|p x y _ IH]; [|exact IH].
    assert (Hc : (x = 0 \/ x = 1 \/ x = 2) /\ (y = 0 \/ y = 1 \/ y = 2)) by lia.
    destruct Hc as [[-> | [-> | ->]] [-> | [-> | ->]]];
      try discriminate Hm; lia. }
  exact (G _ H).
Qed.

(** *** The forced border *)

Lemma refineCompositeMask_final initialMask skinMask clothingMask imageData w h :
  exists m0,
    refineCompositeMask initialMask skinMask clothingMask imageData w h
    = Some (ensureEdgesRemoved m0 w h).
Proof.
  unfold refineCompositeMask.
  destruct (floodFillBackground_total initialMask w h) as (ff & -> & _).
  eexists. reflexivity.
Qed.

(** C6: the compositor returns a mask, and in it every pixel within
    [edgeWidth] (5) of an edge of the image is true, whatever the masks and
    the buffer it was given. *)
Theorem border_always_removed
    (initialMask skinMask clothingMask : list bool) (imageData : list Z)
    (w h x y : Z) :
  0 <= x < w -> 0 <= y < h ->
  x < edgeWidth \/ x >= w - edgeWidth \/ y < edgeWidth \/ y >= h - edgeWidth ->
  exists finalMask,
    refineCompositeMask initialMask skinMask clothingMask imageData w h
    = Some finalMask
    /\ aget finalMask (y * w + x) = true.
Proof.
  intros Hx Hy Hband.
  destruct (refineCompositeMask_final initialMask skinMask clothingMask
              imageData w h) as (m0 & ->).
  eexists. split; [reflexivity|].
  rewrite ensureEdgesRemoved_get by nia.
  rewrite index_mod, index_div by assumption.
  assert (Hb : inBand w h x y = true).
  { unfold inBand. rewrite !orb_true_iff, !Z.ltb_lt, !Z.geb_le. lia. }
  rewrite Hb.
  destruct (Z.ltb_spec 0 w), (Z.ltb_spec y h); try lia. reflexivity.
Qed.

Lemma border_always_removed_witness :
  exists finalMask,
    refineCompositeMask (repeat false 144) (repeat false 144) (repeat true 144)
      [] 12 12 = Some finalMask
    /\ aget finalMask (4 * 12 + 7) = true.
Proof.
  apply (border_always_removed _ _ _ _ 12 12 7 4); unfold edgeWidth; lia.
Defined.

End Compositor.

(* ================================================================== *)
(** ** Properties of the clusterer and of the mask initializer *)
(* ================================================================== *)

Module Clusterer.
Import Js JsFacts Color.
Local Open Scope js_scope.

(** Every two colours of [cs] are within the threshold of each other. *)
Definition pairwiseClose (cs : list color) : bool :=
  forallb (fun c1 =>
    forallb (fun c2 => perceptualColorDistance c1 c2 <? clusterThreshold) cs) cs.

Definition opaque (r g b : Z) : color :=
  {| r := #r; g := #g; b := #b; a := #255 |}.

Lemma share_of_all n : (0 < n)%Z -> (#n / #n >=? Flt 0.08) = true.
Proof.
  intros Hn. unfold div.
  destruct (Z.eqb_spec n 0) as [|_]; [lia|].
  rewrite Z.mod_same, Z.div_same by lia. reflexivity.
Qed.

(** C4, as stated, fails: these three colours are pairwise within the
    threshold (the distances are about 0.94, 19.28 and 19.99), but the
    rounded average (101, 101, 0) of the first two is 20.04 away from the
    third, which starts a second cluster. *)
Lemma pairwise_close_yet_two_clusters :
  let samples := [opaque 101 100 0; opaque 100 101 0; opaque 97 75 0] in
  pairwiseClose samples = true
  /\ findDominantColors samples = [opaque 101 101 0; opaque 97 75 0].
Proof. split; vm_compute; reflexivity. Qed.

(** Nor is the representative of a single cluster the average of its
    members: for the reds 0, 1, 0 it is 1, the average is 1/3. *)
Lemma running_average_drifts :
  findDominantColors [opaque 0 0 0; opaque 1 0 0; opaque 0 0 0] = [opaque 1 0 0].
Proof. vm_compute. reflexivity. Qed.

(** *** One colour only *)

Lemma byte_distance_zero r g b a1 a2 :
  perceptualColorDistance {| r := #r; g := #g; b := #b; a := a1 |}
                          {| r := #r; g := #g; b := #b; a := a2 |}
  = Flt 0.
Proof.
  unfold perceptualColorDistance. cbn [Color.r Color.g Color.b sub].
  rewrite !Z.sub_diag. reflexivity.
Qed.

Lemma average_same x n : (0 < n)%Z -> average #x #x #n = #x.
Proof.
  intros Hn. unfold average. cbn [sub mul add].
  replace (x * (n - 1) + x)%Z with (x * n)%Z by lia.
  unfold div. destruct (Z.eqb_spec n 0) as [|_]; [lia|].
  rewrite Z.mod_mul, Z.div_mul by lia. reflexivity.
Qed.

(** A group all of whose members are the colour [c]. *)
Definition copies (c : color) (n : nat) : group :=
  {| representative := c; colors := repeat c n; count := Z.of_nat n |}.

Lemma merge_copies r g b a n :
  (0 < n)%nat ->
  let c := {| r := #r; g := #g; b := #b; a := #a |} in
  merge (copies c n) c = copies c (S n).
Proof.
  intros Hn c. unfold merge, copies. cbn [representative colors count].
  rewrite length_app, repeat_length. cbn [length].
  assert (Hpos : (0 < Z.of_nat (n + 1))%Z) by lia.
  subst c. cbn [Color.r Color.g Color.b Color.a].
  rewrite !average_same by assumption.
  f_equal.
  - change [ {| r := #r; g := #g; b := #b; a := #a |} ]
      with (repeat {| r := #r; g := #g; b := #b; a := #a |} 1).
    rewrite <- repeat_app. f_equal. lia.
  - lia.
Qed.

Lemma groupColors_copies r g b a : forall m n,
  (0 < n)%nat ->
  let c := {| r := #r; g := #g; b := #b; a := #a |} in
  fold_left (fun colorGroups c => place c colorGroups) (repeat c m) [copies c n]
  = [copies c (m + n)].
Proof.
  induction m as [|m IH]; intros n Hn c; [reflexivity|].
  cbn [repeat fold_left place].
  unfold copies at 1. cbn [representative].
  subst c. rewrite byte_distance_zero.
  change (Flt 0 <? clusterThreshold) with true. cbv iota.
  change {| representative := {| r := #r; g := #g; b := #b; a := #a |};
            colors := repeat {| r := #r; g := #g; b := #b; a := #a |} n;
            count := Z.of_nat n |}
    with (copies {| r := #r; g := #g; b := #b; a := #a |} n).
  rewrite (merge_copies r g b a n Hn).
  rewrite (IH (S n)) by lia. do 2 f_equal. lia.
Qed.

(** If the valid samples are all one and the same colour, that colour is the
    one dominant colour. *)
Lemma findDominantColors_one_color r g b a (samples : list color) :
  (exists c, In c samples /\ isValid c = true) ->
  (forall c, In c samples ->
     isValid c = true -> c = {| r := #r; g := #g; b := #b; a := #a |}) ->
  findDominantColors samples = [ {| r := #r; g := #g; b := #b; a := #a |} ].
Proof.
  intros (c1 & Hin & Hv1) Hall.
  set (c := {| r := #r; g := #g; b := #b; a := #a |}) in *.
  assert (Hf : exists n, filter isValid samples = repeat c (S n)).
  { assert (G : forall l, (forall x, In x l -> isValid x = true -> x = c) ->
                filter isValid l = repeat c (length (filter isValid l))).
    { induction l as [|x l IH]; intros Hl; [reflexivity|].
      simpl. destruct (isValid x) eqn:Ex.
      - simpl. rewrite <- IH by (intros z Hz; apply Hl; now right).
        f_equal. apply Hl; [now left|assumption].
      - apply IH. intros z Hz. apply Hl. now right. }
    destruct (length (filter isValid samples)) as [|n] eqn:El.
    - exfalso. assert (Hc1 : In c1 (filter isValid samples)).
      { apply filter_In. now split. }
      destruct (filter isValid samples); [contradiction|discriminate].
    - exists n. rewrite <- El. now apply G. }
  destruct Hf as (n & Hf).
  unfold findDominantColors. rewrite Hf.
  cbn [repeat]. unfold groupColors. cbn [fold_left place].
  change {| representative := c; colors := [c]; count := 1 |} with (copies c 1).
  subst c. rewrite (groupColors_copies r g b a n 1) by lia.
  cbn [sortByCount fold_left insertByCount filter copies count].
  cbn [length]. rewrite repeat_length.
  replace (Z.of_nat (n + 1)) with (Z.of_nat (S n)) by lia.
  rewrite share_of_all by lia. reflexivity.
Qed.

(** *** No valid sample *)

Lemma findDominantColors_none (samples : list color) :
  forallb (fun c => negb (isValid c)) samples = true ->
  findDominantColors samples = [].
Proof.
  intros H. unfold findDominantColors.
  assert (E : filter isValid samples = []).
  { induction samples as [|c l IH]; [reflexivity|].
    simpl in *. apply andb_true_iff in H as [Hc Hl].
    apply negb_true_iff in Hc. rewrite Hc. now apply IH. }
  now rewrite E.
Qed.

Lemma createInitialBackgroundMask_empty (imageData : list Z) (w h : Z) :
  createInitialBackgroundMask imageData w h [] = repeat false (Z.to_nat (w * h)).
Proof. reflexivity. Qed.

End Clusterer.

(* ================================================================== *)
(** ** Byte buffers *)
(* ================================================================== *)

Module BufferFacts.
Import Js JsFacts.

Lemma length_dset d i v : length (dset d i v) = length d.
Proof.
  unfold dset. destruct (i <? 0); [reflexivity|].
  destruct (Nat.ltb_spec (Z.to_nat i) (length d)); [|reflexivity].
  rewrite length_app, length_firstn. cbn [length]. rewrite length_skipn. lia.
Qed.

Lemma nth_error_dset {A} (d : list A) n v k :
  (n < length d)%nat ->
  nth_error (firstn n d ++ v :: skipn (S n) d) k
  = if (k =? n)%nat then Some v else nth_error d k.
Proof.
  intros Hn.
  destruct (Nat.eqb_spec k n) as [->|Hne].
  - rewrite nth_error_app2; rewrite length_firstn; [|lia].
    replace (n - Nat.min n (length d))%nat with 0%nat by lia. reflexivity.
  - destruct (Nat.lt_ge_cases k n) as [Hk|Hk].
    + rewrite nth_error_app1 by (rewrite length_firstn; lia).
      rewrite nth_error_firstn.
      destruct (Nat.ltb_spec k n); [reflexivity|lia].
    + rewrite nth_error_app2 by (rewrite length_firstn; lia).
      rewrite length_firstn.
      replace (Nat.min n (length d)) with n by lia.
      destruct (k - n)%nat as [|j] eqn:Ej; [lia|]. cbn [nth_error].
      rewrite nth_error_skipn. f_equal. lia.
Qed.

Lemma dget_dset d i v j :
  dget (dset d i v) j
  = if (j =? i) && (0 <=? i) && (i <? Z.of_nat (length d)) then Int v
    else dget d j.
Proof.
  unfold dset.
  destruct (Z.ltb_spec i 0) as [Hi|Hi].
  { destruct (Z.leb_spec 0 i); [lia|]. now rewrite andb_false_r. }
  destruct (Z.leb_spec 0 i); [|lia]. rewrite andb_true_r.
  destruct (Nat.ltb_spec (Z.to_nat i) (length d)) as [Hlt|Hge].
  - destruct (Z.ltb_spec i (Z.of_nat (length d))); [|lia]. rewrite andb_true_r.
    unfold dget. destruct (Z.ltb_spec j 0) as [Hj|Hj].
    + destruct (Z.eqb_spec j i); [lia|reflexivity].
    + rewrite nth_error_dset by assumption.
      destruct (Nat.eqb_spec (Z.to_nat j) (Z.to_nat i)), (Z.eqb_spec j i);
        try reflexivity; lia.
  - destruct (Z.ltb_spec i (Z.of_nat (length d))); [lia|].
    now rewrite andb_false_r.
Qed.

Lemma dget_outside d j :
  j < 0 \/ Z.of_nat (length d) <= j -> dget d j = undef.
Proof.
  intros H. unfold dget. destruct (Z.ltb_spec j 0); [reflexivity|].
  assert (E : nth_error d (Z.to_nat j) = None) by (apply nth_error_None; lia).
  now rewrite E.
Qed.

End BufferFacts.

(** Case analysis on every integer comparison of the goal. *)
Ltac zcases :=
  repeat match goal with
    | |- context [Z.eqb ?a ?b] => destruct (Z.eqb_spec a b)
    | |- context [Z.ltb ?a ?b] => destruct (Z.ltb_spec a b)
    | |- context [Z.leb ?a ?b] => destruct (Z.leb_spec a b)
    | |- context [Z.geb ?a ?b] => rewrite (Z.geb_leb a b)
    end;
  cbn [andb orb negb].

(* ================================================================== *)
(** ** Applying the mask; the pipeline never fails *)
(* ================================================================== *)

Module Removal.
Import Js JsFacts BufferFacts Color Detect Compose Pipeline Compositor Clusterer.

(** The buffer after the mask was applied, byte by byte. *)
Lemma applyMask_get (m : list bool) (d : list Z) :
  length (applyMask m d) = length d
  /\ forall j, dget (applyMask m d) j
     = if (j mod 4 =? 3) && aget m (j / 4) && (0 <=? j) && (j <? Z.of_nat (length d))
       then Int 0 else dget d j.
Proof.
  unfold applyMask.
  set (K := (Z.of_nat (length d) + 3) / 4).
  assert (HK : 0 <= K) by (subst K; Z.div_mod_to_equations; lia).
  assert (G : length (forZ 0 K (fun k data =>
                 let i := 4 * k in
                 if aget m (i / 4) then dset data (i + 3) 0 else data) d) = length d
            /\ forall j, dget (forZ 0 K (fun k data =>
                 let i := 4 * k in
                 if aget m (i / 4) then dset data (i + 3) 0 else data) d) j
               = if (j mod 4 =? 3) && aget m (j / 4) && (0 <=? j)
                    && (j <? Z.of_nat (length d)) && (j / 4 <? K)
                 then Int 0 else dget d j).
  { apply (forZ_ind (fun k s => length s = length d /\ forall j, dget s j
             = if (j mod 4 =? 3) && aget m (j / 4) && (0 <=? j)
                  && (j <? Z.of_nat (length d)) && (j / 4 <? k)
               then Int 0 else dget d j)); [assumption| |].
    - split; [reflexivity|]. intros j.
      destruct (Z.ltb_spec (j / 4) 0) as [H|H].
      + destruct (Z.leb_spec 0 j); [Z.div_mod_to_equations; lia|].
        now rewrite !andb_false_r.
      + now rewrite !andb_false_r.
    - intros k s Hk [Hlen IH]. cbv zeta.
      replace (4 * k / 4) with k by (Z.div_mod_to_equations; lia).
      destruct (aget m k) eqn:Em.
      + split; [now rewrite length_dset|]. intros j.
        rewrite dget_dset, IH, Hlen.
        destruct (Z.eqb_spec j (4 * k + 3)) as [->|Hne].
        * replace ((4 * k + 3) mod 4) with 3 by (Z.div_mod_to_equations; lia).
          replace ((4 * k + 3) / 4) with k by (Z.div_mod_to_equations; lia).
          rewrite Em. zcases; try reflexivity; lia.
        * cbn [andb].
          destruct (Z.eqb_spec (j mod 4) 3); cbn [andb]; [|reflexivity].
          destruct (aget m (j / 4)) eqn:Ej; cbn [andb]; [|reflexivity].
          zcases; try reflexivity; exfalso; Z.div_mod_to_equations; lia.
      + split; [assumption|]. intros j. rewrite IH.
        destruct (Z.eqb_spec (j mod 4) 3); cbn [andb]; [|reflexivity].
        destruct (aget m (j / 4)) eqn:Ej; cbn [andb]; [|reflexivity].
        zcases; try reflexivity; exfalso.
        all: assert (j / 4 = k) by lia; congruence. }
  destruct G as [G1 G2]. split; [assumption|]. intros j. rewrite G2.
  destruct (Z.eqb_spec (j mod 4) 3); cbn [andb]; [|reflexivity].
  destruct (aget m (j / 4)); cbn [andb]; [|reflexivity].
  subst K. zcases; try reflexivity; exfalso; Z.div_mod_to_equations; lia.
Qed.

Lemma improvedBackgroundDetection_total (imageData : list Z) (w h : Z) :
  exists m, improvedBackgroundDetection imageData w h = Some m.
Proof.
  unfold improvedBackgroundDetection.
  destruct (refineCompositeMask_final
              (createInitialBackgroundMask imageData w h
                 (findDominantColors (sampleEdgesOnly imageData w h)))
              (detectSkinTones imageData w h) (detectClothing imageData w h)
              imageData w h) as (m0 & E).
  eexists. exact E.
Qed.

Lemma removeBackground_total (data : list Z) (w h : Z) :
  exists out, removeBackground data w h = Some out.
Proof.
  unfold removeBackground.
  destruct (improvedBackgroundDetection_total data w h) as (m & ->).
  eexists. reflexivity.
Qed.

(** An 11x11 image, transparent black everywhere but for one opaque black
    pixel in the middle. *)
Definition opaqueDot : list Z :=
  concat (repeat [0; 0; 0; 0] 60) ++ [0; 0; 0; 255]
  ++ concat (repeat [0; 0; 0; 0] 60).

(** C5, as stated, fails in its conclusion: with no valid sample at all the
    removal is not a no-op.  On [opaqueDot] the border samples are all fully
    transparent, and yet the opaque pixel in the middle (alpha byte 243) is
    made transparent. *)
Lemma no_signal_is_not_a_noop :
  forallb (fun c => negb (isValid c)) (sampleEdgesOnly opaqueDot 11 11) = true
  /\ dget opaqueDot 243 = Int 255
  /\ exists out, removeBackground opaqueDot 11 11 = Some out
                 /\ dget out 243 = Int 0.
Proof.
  split; [vm_compute; reflexivity|]. split; [reflexivity|].
  destruct (removeBackground opaqueDot 11 11) as [out|] eqn:E.
  - exists out. split; [reflexivity|].
    revert E. vm_compute. intros E. injection E as <-. reflexivity.
  - revert E. vm_compute. discriminate.
Qed.

End Removal.

(* ================================================================== *)
(** ** Uniform images *)
(* ================================================================== *)

Module Uniform.
Import Js JsFacts BufferFacts Color Detect Compose Pipeline Morph MorphFacts.
Import Refiner Compositor Clusterer Removal.
Local Open Scope js_scope.

(** An image of [n] pixels, all of them [(r, g, b, a)]. *)
Definition uniformImage (r g b a : Z) (n : nat) : list Z :=
  concat (repeat [r; g; b; a] n).

Section OneColor.

Variables vr vg vb va : Z.
Variable n : nat.

Let img : list Z := uniformImage vr vg vb va n.
Let c : color := {| r := #vr; g := #vg; b := #vb; a := #va |}.

Lemma length_uniform : length img = (4 * n)%nat.
Proof.
  subst img. unfold uniformImage. induction n as [|k IH]; [reflexivity|].
  cbn [repeat concat]. rewrite length_app, IH. simpl. lia.
Qed.

Lemma dget_uniform i k :
  (0 <= i < Z.of_nat n)%Z -> (0 <= k < 4)%Z ->
  dget img (4 * i + k)%Z = Int (nth (Z.to_nat k) [vr; vg; vb; va] 0%Z).
Proof.
  intros Hi Hk. unfold dget.
  destruct (Z.ltb_spec (4 * i + k) 0); [lia|].
  replace (Z.to_nat (4 * i + k)) with (4 * Z.to_nat i + Z.to_nat k)%nat by lia.
  assert (Hi' : (Z.to_nat i < n)%nat) by lia.
  assert (Hk' : (Z.to_nat k < 4)%nat) by lia.
  generalize dependent (Z.to_nat k). generalize dependent (Z.to_nat i).
  clear. subst img. unfold uniformImage.
  induction n as [|m IH]; intros i Hi k Hk; [lia|].
  cbn [repeat concat].
  destruct i as [|i].
  - rewrite nth_error_app1 by (simpl; lia).
    simpl. now rewrite (nth_error_nth' [vr; vg; vb; va] 0%Z) by (simpl; lia).
  - rewrite nth_error_app2 by (simpl; lia).
    replace (4 * S i + k - length [vr; vg; vb; va])%nat with (4 * i + k)%nat
      by (simpl; lia).
    apply IH; lia.
Qed.

Lemma pixelAt_uniform i : (0 <= i < Z.of_nat n)%Z -> pixelAt img i = c.
Proof.
  intros Hi. unfold pixelAt. cbv zeta.
  replace (i * 4)%Z with (4 * i + 0)%Z by lia.
  replace (4 * i + 0 + 1)%Z with (4 * i + 1)%Z by lia.
  replace (4 * i + 0 + 2)%Z with (4 * i + 2)%Z by lia.
  replace (4 * i + 0 + 3)%Z with (4 * i + 3)%Z by lia.
  rewrite !dget_uniform by lia. reflexivity.
Qed.

Lemma getPixelColor_uniform x y w :
  (0 <= y * w + x < Z.of_nat n)%Z -> getPixelColor img #x #y w = c.
Proof.
  intros H. unfold getPixelColor. cbn [mul add dgetN asIndex].
  replace ((y * w + x) * 4)%Z with (4 * (y * w + x) + 0)%Z by lia.
  replace (4 * (y * w + x) + 0 + 1)%Z with (4 * (y * w + x) + 1)%Z by lia.
  replace (4 * (y * w + x) + 0 + 2)%Z with (4 * (y * w + x) + 2)%Z by lia.
  replace (4 * (y * w + x) + 0 + 3)%Z with (4 * (y * w + x) + 3)%Z by lia.
  rewrite !dget_uniform by lia. reflexivity.
Qed.

(** Whatever position is sampled, the sample is the colour of the image or
    it is not valid. *)
Lemma sample_uniform (x y : num) w :
  let s := getPixelColor img x y w in s = c \/ isValid s = false.
Proof.
  cbv zeta. destruct x as [xz|xf], y as [yz|yf].
  2,3,4: right; reflexivity.
  destruct (Z.lt_ge_cases (yz * w + xz) 0) as [Hneg|Hpos].
  { right. unfold getPixelColor, isValid. cbn [mul add dgetN asIndex Color.a].
    rewrite dget_outside by lia. reflexivity. }
  destruct (Z.lt_ge_cases (yz * w + xz) (Z.of_nat n)) as [Hin|Hout].
  - left. apply getPixelColor_uniform. lia.
  - right. unfold getPixelColor, isValid. cbn [mul add dgetN asIndex Color.a].
    rewrite dget_outside; [reflexivity|]. rewrite length_uniform. lia.
Qed.

Lemma edge_invariant (P : list color -> Prop) extent depth at_ acc :
  P acc -> (forall l pos d, P l -> P (l ++ [at_ pos d])) ->
  P (edge extent depth at_ acc).
Proof.
  intros H0 Hstep. unfold edge.
  apply forZ_inv; [assumption|]. intros i t _ Ht.
  apply forZ_inv; [assumption|]. intros d t' _ Ht'. now apply Hstep.
Qed.

Lemma edge_first extent depth at_ acc :
  (1 <= bound depth)%Z ->
  In (at_ #0 0%Z) (edge extent depth at_ acc).
Proof.
  intros Hd. unfold edge.
  rewrite (forZ_cons 0 samplesPerEdge) by (unfold samplesPerEdge; lia).
  assert (Hpos : floor (#extent * (#0 / #(samplesPerEdge - 1))) = #0).
  { unfold samplesPerEdge. cbn. now rewrite Z.mul_0_r. }
  apply forZ_inv.
  - cbv zeta. rewrite Hpos. rewrite (forZ_cons 0 (bound depth)) by lia.
    apply forZ_inv.
    + apply in_or_app. right. now left.
    + intros d t _ Ht. apply in_or_app. now left.
  - intros i t _ Ht. apply forZ_inv; [assumption|].
    intros d t' _ Ht'. apply in_or_app. now left.
Qed.

Lemma edgeDepth_min w h d : edgeDepth w h = #d -> (5 <= d)%Z.
Proof.
  unfold edgeDepth, Js.max.
  destruct (floor (#(Z.min w h) * Flt 0.03)) as [z|f].
  - cbn [isNaN orb lt]. destruct (Z.ltb_spec 5 z); intros E; injection E; lia.
  - destruct (isNaN #5 || isNaN (Flt f)); [discriminate|].
    destruct (#5 <? Flt f); [discriminate|]. intros E; injection E; lia.
Qed.

Hypothesis a_pos : (0 < va)%Z.

Lemma isValid_c : isValid c = true.
Proof. unfold isValid, c. cbn. now apply Z.ltb_lt. Qed.

(** The sampler sees one colour, and the clusterer returns it. *)
Lemma dominant_uniform w h d :
  (0 < n)%nat -> edgeDepth w h = #d ->
  findDominantColors (sampleEdgesOnly img w h) = [c].
Proof.
  intros Hn Hd. pose proof (edgeDepth_min w h d Hd) as Hd5.
  apply findDominantColors_one_color.
  - exists c. split; [|apply isValid_c].
    unfold sampleEdgesOnly. rewrite Hd.
    do 3 (apply edge_invariant;
          [|intros l pos k Hl; apply in_or_app; now left]).
    replace c with (getPixelColor img #0 #0 w)
      by (apply getPixelColor_uniform; lia).
    apply (edge_first w #d (fun x k => getPixelColor img x #k w)).
    cbn [bound]. lia.
  - assert (G : Forall (fun s => isValid s = true -> s = c)
                  (sampleEdgesOnly img w h)).
    { unfold sampleEdgesOnly.
      do 4 (apply edge_invariant;
            [|intros l pos k Hl; apply Forall_app; split; [assumption|];
              constructor; [|constructor];
              intros Hv;
              match goal with
              | |- getPixelColor img ?x ?y w = c =>
                  destruct (sample_uniform x y w) as [E|E];
                  [exact E|rewrite E in Hv; discriminate]
              end]).
      constructor. }
    rewrite Forall_forall in G. exact G.
Qed.

(** From here on the image is [w] by [h]. *)
Variables w h : Z.
Hypothesis size : Z.of_nat n = (w * h)%Z.

Lemma distance_c : perceptualColorDistance c c = Flt 0.
Proof. unfold c. apply byte_distance_zero. Qed.

Lemma minDistance_c : (minDistance c [c] <? #25) = true.
Proof.
  unfold minDistance. cbn [fold_left]. unfold c.
  rewrite byte_distance_zero. reflexivity.
Qed.

Lemma a_nonzero : (Color.a c =? #0) = false.
Proof. unfold c. cbn. apply Z.eqb_neq. lia. Qed.

(** The initial mask marks every pixel. *)
Lemma initialMask_uniform i :
  (0 <= i < w * h)%Z ->
  aget (createInitialBackgroundMask img w h [c]) i = true.
Proof.
  intros Hi. unfold createInitialBackgroundMask.
  assert (G : forall j, (0 <= j < w * h)%Z ->
     aget (forZ 0 (w * h) (fun i mask =>
             let pixelColor := pixelAt img i in
             if Color.a pixelColor =? #0 then aset mask i true
             else if minDistance pixelColor [c] <? #25 then aset mask i true
                  else mask) (newArray (w * h) false)) j = true).
  { apply (forZ_ind (fun k s => forall j, (0 <= j < k)%Z -> aget s j = true));
      [lia| |].
    - intros j Hj. lia.
    - intros k s Hk IH j Hj. cbv zeta.
      rewrite pixelAt_uniform by lia.
      rewrite a_nonzero, minDistance_c, aget_aset by lia.
      destruct (Z.eqb_spec j k); [reflexivity|]. apply IH. lia. }
  now apply G.
Qed.

Hypothesis not_skin : isSkinTone #vr #vg #vb = false.

(** No pixel is taken for skin. *)
Lemma rawSkinMask_uniform : rawSkinMask img w h = newArray (w * h) false.
Proof.
  unfold rawSkinMask. apply (forZ_inv (fun s => s = newArray (w * h) false));
    [reflexivity|].
  intros i t Hi ->. cbv zeta. rewrite pixelAt_uniform by lia.
  rewrite a_nonzero. unfold c. cbn [Color.r Color.g Color.b].
  now rewrite not_skin.
Qed.

Hypothesis w_pos : (0 < w)%Z.
Hypothesis bytes : (0 <= vr <= 255 /\ 0 <= vg <= 255 /\ 0 <= vb <= 255)%Z.
Hypothesis not_bright : (vr + vg + vb <= 540)%Z.

(** The brightness every pixel has. *)
Let beta : num := #(vr + vg + vb) / #3.

Lemma brightness_uniform x y :
  (0 <= y * w + x < w * h)%Z -> getPixelBrightness img x y w = beta.
Proof.
  intros H. unfold getPixelBrightness. cbv zeta.
  replace ((y * w + x) * 4)%Z with (4 * (y * w + x) + 0)%Z by lia.
  replace (4 * (y * w + x) + 0 + 1)%Z with (4 * (y * w + x) + 1)%Z by lia.
  replace (4 * (y * w + x) + 0 + 2)%Z with (4 * (y * w + x) + 2)%Z by lia.
  rewrite !dget_uniform by lia. reflexivity.
Qed.

Lemma beta_not_bright : (beta >? #180) = false.
Proof.
  assert (E : forallb (fun s => negb (#s / #3 >? #180)) (range 0 541) = true)
    by (vm_compute; reflexivity).
  apply negb_true_iff. apply (enumerate _ _ _ E). lia.
Qed.

Lemma beta_no_contrast : (abs (beta - beta) >? #50) = false.
Proof.
  assert (E : forallb (fun s => negb (abs (#s / #3 - #s / #3) >? #50))
                (range 0 766) = true) by (vm_compute; reflexivity).
  apply negb_true_iff. apply (enumerate _ _ _ E). lia.
Qed.

Lemma neighborhood_inImage rad x y p :
  In p (neighborhood rad w h x y) ->
  (0 <= snd p * w + fst p < w * h)%Z.
Proof.
  unfold neighborhood. intros H. apply filter_In in H as [_ H].
  destruct p as [nx ny]. unfold inImage in H.
  rewrite !andb_true_iff in H. simpl. nia.
Qed.

Lemma length_neighborhood2 x y : (length (neighborhood 2 w h x y) <= 24)%nat.
Proof.
  unfold neighborhood.
  etransitivity; [apply filter_length_le|]. rewrite length_map. reflexivity.
Qed.

Lemma index_of_pixel i :
  (0 <= i < w * h)%Z -> (i / w * w + Z.rem i w = i)%Z.
Proof.
  intros Hi. rewrite Z.rem_mod_nonneg by lia.
  pose proof (Z.div_mod i w). lia.
Qed.

(** The average of at most 24 distances that are all zero is not above 5
    (it is zero, or NaN when there was no neighbour at all). *)
Lemma flat_average_low (vs : num) (k : Z) :
  (0 <= k < 25)%Z -> vs = #0 \/ vs = Flt 0 -> (vs / #k >? #5) = false.
Proof.
  intros Hk Hvs.
  assert (E : forallb (fun k => negb (#0 / #k >? #5) && negb (Flt 0 / #k >? #5))
                (range 0 25) = true) by (vm_compute; reflexivity).
  pose proof (enumerate _ _ _ E k Hk) as Ek. cbv beta in Ek.
  apply andb_true_iff in Ek as [H0 H1]. apply negb_true_iff in H0, H1.
  now destruct Hvs as [-> | ->].
Qed.

Lemma not_textured i :
  (0 <= i < w * h)%Z -> isTexturedRegion i img w h = false.
Proof.
  intros Hi. unfold isTexturedRegion. cbv zeta.
  rewrite getPixelColor_uniform by (rewrite index_of_pixel; lia).
  assert (G : forall L vs sc,
             (forall p, In p L -> (0 <= snd p * w + fst p < w * h)%Z) ->
             vs = #0 \/ vs = Flt 0 ->
             exists vs',
               fold_left (fun '(varianceSum, sampleCount) '(nx, ny) =>
                   (varianceSum
                    + perceptualColorDistance c (getPixelColor img #nx #ny w),
                    (sampleCount + 1)%Z)) L (vs, sc)
               = (vs', (sc + Z.of_nat (length L))%Z)
               /\ (vs' = #0 \/ vs' = Flt 0)).
  { induction L as [|[nx ny] L IH]; intros vs sc HL Hvs.
    - exists vs. cbn [fold_left length]. rewrite Z.add_0_r. now split.
    - cbn [fold_left].
      rewrite getPixelColor_uniform by (rewrite size; apply (HL (nx, ny)); now left).
      rewrite distance_c.
      destruct (IH (vs + Flt 0) (sc + 1)%Z) as (vs' & E & Hvs').
      + intros p Hp. apply HL. now right.
      + right. destruct Hvs as [-> | ->]; reflexivity.
      + exists vs'. rewrite E. split; [|assumption].
        f_equal. cbn [length]. lia. }
  destruct (G (neighborhood 2 w h (Z.rem i w) (i / w)) #0 0%Z) as (vs' & E & Hvs').
  { intros p Hp. now apply neighborhood_inImage in Hp. }
  { now left. }
  rewrite E. cbn [Z.add].
  pose proof (length_neighborhood2 (Z.rem i w) (i / w)) as Hlen.
  rewrite flat_average_low; [reflexivity|lia|assumption].
Qed.

Lemma not_high_contrast i :
  (0 <= i < w * h)%Z -> isHighContrastArea i img w h = false.
Proof.
  intros Hi. unfold isHighContrastArea. cbv zeta.
  rewrite brightness_uniform by (rewrite index_of_pixel; lia).
  assert (G : forall L k,
             (forall p, In p L -> (0 <= snd p * w + fst p < w * h)%Z) ->
             fold_left (fun highContrastCount '(nx, ny) =>
                 if abs (beta - getPixelBrightness img nx ny w) >? #50
                 then (highContrastCount + 1)%Z else highContrastCount) L k
             = k).
  { induction L as [|[nx ny] L IH]; intros k HL; [reflexivity|].
    cbn [fold_left].
    rewrite brightness_uniform by (apply (HL (nx, ny)); now left).
    rewrite beta_no_contrast. apply IH. intros p Hp. apply HL. now right. }
  rewrite G; [reflexivity|].
  intros p Hp. now apply neighborhood_inImage in Hp.
Qed.

(** No pixel is taken for clothing. *)
Lemma rawClothingMask_uniform : rawClothingMask img w h = newArray (w * h) false.
Proof.
  unfold rawClothingMask.
  apply (forZ_inv (fun s => s = newArray (w * h) false)); [reflexivity|].
  intros i t Hi ->. unfold isClothing. cbv zeta.
  rewrite pixelAt_uniform by lia. rewrite a_nonzero.
  destruct ((Z.rem i w <? 5)%Z || (Z.rem i w >=? w - 5)%Z
            || (i / w <? 5)%Z || (i / w >=? h - 5)%Z); [reflexivity|].
  unfold c. cbn [Color.r Color.g Color.b add].
  fold beta. rewrite beta_not_bright, not_textured, not_high_contrast by lia.
  reflexivity.
Qed.

End OneColor.

(** *** Masks without a true pixel *)

Definition allFalse (m : list bool) : Prop := forall i, aget m i = false.

Lemma allFalse_newArray k : allFalse (newArray k false).
Proof. intros i. unfold newArray. now rewrite aget_repeat. Qed.

Lemma aget_negative m i : (i < 0)%Z -> aget m i = false.
Proof. intros H. unfold aget. destruct (Z.ltb_spec i 0); [reflexivity|lia]. Qed.

Lemma allFalse_erode m w h : allFalse m -> allFalse (erode m w h).
Proof.
  intros Hm i.
  destruct (Z.lt_ge_cases i 0) as [Hi|Hi]; [now apply aget_negative|].
  rewrite erode_get by lia.
  destruct (inner w h (i mod w) (i / w)); [|reflexivity].
  cbn [andb]. unfold allBackground, window3. cbn [forallb].
  now rewrite !Hm.
Qed.

Lemma allFalse_dilate m w h : allFalse m -> allFalse (dilate m w h).
Proof.
  intros Hm i.
  destruct (Z.lt_ge_cases i 0) as [Hi|Hi]; [now apply aget_negative|].
  rewrite dilate_get by lia.
  destruct (inner w h (i mod w) (i / w)); [|apply Hm].
  unfold anyBackground, window3. cbn [existsb].
  now rewrite !Hm.
Qed.

Lemma allFalse_cleanup m w h : allFalse m -> allFalse (cleanup m w h).
Proof.
  intros Hm. unfold cleanup.
  now apply allFalse_erode, allFalse_dilate, allFalse_dilate,
    allFalse_erode, allFalse_dilate.
Qed.

(** *** Masks that are true on a box *)

(** [m] is true on every cell at least [k] away from the four edges. *)
Definition trueIn (m : list bool) (w h k : Z) : Prop :=
  forall x y, (k <= x < w - k)%Z -> (k <= y < h - k)%Z ->
              aget m (y * w + x)%Z = true.

Lemma trueIn_dilate m w h k :
  (0 <= k)%Z -> trueIn m w h k -> trueIn (dilate m w h) w h k.
Proof.
  intros Hk Hm x y Hx Hy. rewrite dilate_at by lia.
  destruct (inner w h x y); [|now apply Hm].
  apply anyBackground_true. exists 0%Z, 0%Z.
  split; [apply in_window3; lia|]. split; [apply in_window3; lia|].
  rewrite !Z.add_0_r. now apply Hm.
Qed.

Lemma trueIn_erode m w h k :
  (0 <= k)%Z -> trueIn m w h k -> trueIn (erode m w h) w h (k + 1).
Proof.
  intros Hk Hm x y Hx Hy. rewrite erode_at by lia.
  apply andb_true_iff. split.
  - apply inner_bounds. lia.
  - apply allBackground_true. intros dx dy Hdx Hdy.
    apply in_window3 in Hdx, Hdy. apply Hm; lia.
Qed.

(** The last five steps of the compositor on a mask that is true everywhere. *)
Lemma final_steps_true m w h :
  (0 < w)%Z -> trueIn m w h 0 ->
  trueIn (ensureEdgesRemoved
            (dilate (erode (erode (dilate m w h) w h) w h) w h) w h) w h 0.
Proof.
  intros Hw Hm x y Hx Hy.
  rewrite ensureEdgesRemoved_get by nia.
  rewrite index_mod, index_div by lia.
  destruct (Z.ltb_spec 0 w); [|lia]. destruct (Z.ltb_spec y h); [|lia].
  cbn [andb]. destruct (inBand w h x y) eqn:Hb; [reflexivity|].
  unfold inBand, edgeWidth in Hb. rewrite !orb_false_iff in Hb.
  rewrite !Z.ltb_ge, !Z.geb_leb, !Z.leb_gt in Hb.
  assert (H2 : trueIn (dilate (erode (erode (dilate m w h) w h) w h) w h) w h 2).
  { apply trueIn_dilate; [lia|].
    apply (trueIn_erode _ w h 1); [lia|].
    apply (trueIn_erode _ w h 0); [lia|].
    apply trueIn_dilate; [lia|assumption]. }
  apply H2; lia.
Qed.

Lemma composite_get (f : Z -> bool) N m0 j :
  (0 <= j < N)%Z ->
  aget (forZ 0 N (fun i m => aset m i (f i)) m0) j = f j.
Proof.
  intros Hj.
  assert (G : forall j, (0 <= j < N)%Z ->
              aget (forZ 0 N (fun i m => aset m i (f i)) m0) j = f j).
  { apply (forZ_ind (fun k s => forall j, (0 <= j < k)%Z -> aget s j = f j));
      [lia| |].
    - intros j' Hj'. lia.
    - intros k s Hk IH j' Hj'. rewrite aget_aset by lia.
      destruct (Z.eqb_spec j' k) as [->|Hne]; [reflexivity|]. apply IH. lia. }
  now apply G.
Qed.

(** C3, as stated, fails: the 11x11 image that is opaque white everywhere
    (border depth 5, so 11 = 2 * 5 + 1) has its centre pixel protected by
    the clothing detector; the final mask is false there and the alpha of
    that pixel (byte 243) stays 255. *)
Lemma white_image_keeps_its_centre :
  let img := uniformImage 255 255 255 255 121 in
  edgeDepth 11 11 = #5
  /\ improvedBackgroundDetection img 11 11
     = Some (aset (repeat true 121) 60 false)
  /\ removeBackground img 11 11
     = Some (uniformImage 255 255 255 0 60 ++ [255; 255; 255; 255]%Z
             ++ uniformImage 255 255 255 0 60).
Proof. cbv zeta. split; [|split]; vm_compute; reflexivity. Qed.

(** The same happens to an image of one skin tone, protected by the skin
    detector: all of the 11x11 image is removed but its centre pixel. *)
Lemma skin_image_keeps_its_centre :
  isSkinTone #224 #172 #135 = true
  /\ improvedBackgroundDetection (uniformImage 224 172 135 255 121) 11 11
     = Some (aset (repeat true 121) 60 false).
Proof. split; vm_compute; reflexivity. Qed.

(** A fully transparent image yields no valid sample; when it is 23x23 the
    3x3 block in its middle is left out of the final mask. *)
Lemma transparent_image_keeps_its_centre :
  option_map (fun m => (countTrue everywhere m 23 23, aget m (11 * 23 + 11)%Z))
    (improvedBackgroundDetection (uniformImage 7 7 7 0 529) 23 23)
  = Some (520%nat, false).
Proof. vm_compute. reflexivity. Qed.

(** C3 (amended): for every uniform image whose one colour is not fully
    transparent, is not classified as a skin tone and has brightness
    [(r + g + b) / 3] at most 180, and whose width and height are both at
    least [2 * borderDepth + 1], the final mask is true at every pixel and
    the alpha byte of every pixel of the output buffer is 0. *)
Theorem uniform_image_removed (vr vg vb va w h d : Z) :
  (0 <= vr <= 255)%Z -> (0 <= vg <= 255)%Z -> (0 <= vb <= 255)%Z ->
  (0 < va <= 255)%Z ->
  edgeDepth w h = #d -> (2 * d + 1 <= w)%Z -> (2 * d + 1 <= h)%Z ->
  isSkinTone #vr #vg #vb = false ->
  (vr + vg + vb <= 540)%Z ->
  let img := uniformImage vr vg vb va (Z.to_nat (w * h)) in
  exists finalMask out,
    improvedBackgroundDetection img w h = Some finalMask
    /\ (forall i, (0 <= i < w * h)%Z -> aget finalMask i = true)
    /\ removeBackground img w h = Some out
    /\ (forall i, (0 <= i < w * h)%Z -> dget out (4 * i + 3)%Z = #0).
Proof.
  intros Hr Hg Hb Ha Hd Hw Hh Hskin Hdim img.
  pose proof (edgeDepth_min w h d Hd) as Hd5.
  assert (Hsize : Z.of_nat (Z.to_nat (w * h)) = (w * h)%Z) by nia.
  assert (Hn : (0 < Z.to_nat (w * h))%nat) by nia.
  assert (Hwpos : (0 < w)%Z) by lia.
  set (c := {| r := #vr; g := #vg; b := #vb; a := #va |}).
  assert (Hdom : findDominantColors (sampleEdgesOnly img w h) = [c]).
  { apply (dominant_uniform vr vg vb va (Z.to_nat (w * h))) with (d := d);
      [lia|assumption..]. }
  assert (Hskinmask : allFalse (detectSkinTones img w h)).
  { unfold detectSkinTones. apply allFalse_cleanup.
    subst img. rewrite rawSkinMask_uniform by (assumption || lia).
    apply allFalse_newArray. }
  assert (Hcloth : allFalse (detectClothing img w h)).
  { unfold detectClothing. apply allFalse_cleanup.
    subst img. rewrite rawClothingMask_uniform by (assumption || lia).
    apply allFalse_newArray. }
  assert (Hfinal : exists finalMask,
             improvedBackgroundDetection img w h = Some finalMask
             /\ forall i, (0 <= i < w * h)%Z -> aget finalMask i = true).
  { unfold improvedBackgroundDetection, refineCompositeMask. rewrite Hdom.
    destruct (floodFillBackground_total
                (createInitialBackgroundMask img w h [c]) w h) as (ff & -> & Hff).
    eexists. split; [reflexivity|].
    intros i Hi.
    assert (Hcell : (i / w * w + i mod w = i)%Z)
      by (pose proof (Z.div_mod i w); lia).
    rewrite <- Hcell.
    pose proof (Z.mod_pos_bound i w Hwpos) as Hx.
    assert (Hy : (0 <= i / w < h)%Z).
    { split; [apply Z.div_pos; lia|]. apply Z.div_lt_upper_bound; lia. }
    apply final_steps_true; try lia.
    intros x y Hx' Hy'. rewrite composite_get by nia.
    unfold combine. rewrite Hskinmask, Hcloth. cbn [orb].
    rewrite Hff; [reflexivity|].
    subst img. apply initialMask_uniform; [lia|assumption|nia]. }
  destruct Hfinal as (finalMask & Hm & Htrue).
  exists finalMask, (applyMask finalMask img).
  split; [assumption|]. split; [assumption|]. split.
  - unfold removeBackground. now rewrite Hm.
  - intros i Hi. destruct (applyMask_get finalMask img) as [_ Hget].
    rewrite Hget.
    replace ((4 * i + 3) mod 4)%Z with 3%Z by (Z.div_mod_to_equations; lia).
    replace ((4 * i + 3) / 4)%Z with i by (Z.div_mod_to_equations; lia).
    rewrite Htrue by assumption.
    subst img. rewrite length_uniform.
    destruct (Z.leb_spec 0 (4 * i + 3)); [|lia].
    destruct (Z.ltb_spec (4 * i + 3) (Z.of_nat (4 * Z.to_nat (w * h)))); [|lia].
    reflexivity.
Qed.

Lemma uniform_image_removed_witness :
  exists finalMask out,
    improvedBackgroundDetection (uniformImage 100 100 100 255 121) 11 11
    = Some finalMask
    /\ (forall i, (0 <= i < 11 * 11)%Z -> aget finalMask i = true)
    /\ removeBackground (uniformImage 100 100 100 255 121) 11 11 = Some out
    /\ (forall i, (0 <= i < 11 * 11)%Z -> dget out (4 * i + 3)%Z = #0).
Proof.
  apply (uniform_image_removed 100 100 100 255 11 11 5);
    try lia; vm_compute; reflexivity.
Defined.

End Uniform.

(* ================================================================== *)
(** ** The post-processor writes alpha bytes only *)
(* ================================================================== *)

Module PostProcessFacts.
Import Js JsFacts BufferFacts PostProcess.
Local Open Scope js_scope.
Local Open Scope Z_scope.

(** *** Only alpha bytes are written *)

(** [d'] has the length of [d] and the same bytes outside the alpha
    channel. *)
Definition sameRGB (d d' : list Z) : Prop :=
  length d' = length d /\ forall j, j mod 4 <> 3 -> dget d' j = dget d j.

Lemma sameRGB_refl d : sameRGB d d.
Proof. split; reflexivity. Qed.

Lemma sameRGB_trans d1 d2 d3 : sameRGB d1 d2 -> sameRGB d2 d3 -> sameRGB d1 d3.
Proof.
  intros [L1 H1] [L2 H2]. split; [congruence|].
  intros j Hj. now rewrite H2, H1.
Qed.

Lemma sameRGB_alpha d d' k v :
  sameRGB d d' -> sameRGB d (dset d' (k * 4 + 3) v).
Proof.
  intros [L H]. split; [now rewrite length_dset|].
  intros j Hj. rewrite dget_dset.
  destruct (Z.eqb_spec j (k * 4 + 3)) as [->|_]; [|now apply H].
  exfalso. apply Hj. Z.div_mod_to_equations. lia.
Qed.

Lemma applyMaskToImage_sameRGB mask data w h :
  sameRGB data (applyMaskToImage mask data w h).
Proof.
  unfold applyMaskToImage. apply forZ_inv; [apply sameRGB_refl|].
  intros i t _ Ht. cbv zeta.
  destruct (Js.eq (dget mask i) (Int 0)); [now apply sameRGB_alpha|assumption].
Qed.

Lemma flip_region_sameRGB d region v : forall d',
  sameRGB d d' ->
  sameRGB d (fold_left (fun data idx =>
                          let pixelIdx := idx * 4 in dset data (pixelIdx + 3) v)
                       region d').
Proof.
  induction region as [|q region IH]; intros d' H; [assumption|].
  cbn [fold_left]. apply IH. cbv zeta. now apply sameRGB_alpha.
Qed.

Lemma processPixel_sameRGB T w h i d V d' V'' d'' :
  sameRGB d d' ->
  processPixel T w h i (V, d') = Some (V'', d'') -> sameRGB d d''.
Proof.
  intros H. unfold processPixel.
  destruct (truthy (dget V i)); [intros E; injection E as <- <-; assumption|].
  destruct (growRegion _ _ _ _ _ _ _ _ _) as [[[V1 R] t]|]; [|discriminate].
  destruct (negb t && _); intros E; injection E as <- <-; [|assumption].
  now apply flip_region_sameRGB.
Qed.

Lemma removeSmallRegions_sameRGB T data w h out :
  removeSmallRegions T data w h = Some out -> sameRGB data out.
Proof.
  unfold removeSmallRegions.
  set (loop := forZ 0 (w * h) _ _).
  assert (G : match loop with
              | Some (_, d') => sameRGB data d'
              | None => True
              end).
  { subst loop. apply forZ_inv; [apply sameRGB_refl|].
    intros i [[V d']|] _ Ht; [|exact I].
    destruct (processPixel T w h i (V, d')) as [[V'' d'']|] eqn:E; [|exact I].
    now apply (processPixel_sameRGB T w h i data V d' V'' d''). }
  destruct loop as [[V d']|]; [|discriminate].
  cbn. intros E. injection E as <-. assumption.
Qed.

Lemma smoothEdges_sameRGB data w h : sameRGB data (smoothEdges data w h).
Proof.
  unfold smoothEdges. cbv zeta.
  apply forZ_inv; [apply sameRGB_refl|]. intros y t _ Ht.
  apply forZ_inv; [assumption|]. intros x t' _ Ht'.
  destruct (negb _); [assumption|].
  destruct (fold_left _ _ _) as [sum count]. now apply sameRGB_alpha.
Qed.

Lemma brushRemove_sameRGB maskData data : sameRGB data (brushRemove maskData data).
Proof.
  unfold brushRemove. apply forZ_inv; [apply sameRGB_refl|].
  intros k t _ Ht. cbv zeta.
  destruct (Js.lt _ _); [|assumption].
  replace (4 * k + 3) with (k * 4 + 3) by lia. now apply sameRGB_alpha.
Qed.

End PostProcessFacts.

(* ================================================================== *)
(** ** Connected regions of uniform transparency *)
(* ================================================================== *)

Module Regions.
Import Js JsFacts BufferFacts PostProcess PostProcessFacts.
Local Open Scope Z_scope.

(** Pixel [q] is transparent according to the mask. *)
Definition isT (T : list Z) (q : Z) : bool := Js.eq (dget T q) (Int 1).

Definition vis (V : list Z) (q : Z) : bool := truthy (dget V q).

Definition onEdge (w h q : Z) : bool :=
  let x := q mod w in
  let y := q / w in
  (x =? 0) || (x =? w - 1) || (y =? 0) || (y =? h - 1).

(** The region has a pixel on the border of the image. *)
Definition touches (w h : Z) (R : list Z) : bool := existsb (onEdge w h) R.

(** [q'] is one of the four neighbours of [q] inside the image. *)
Definition adj (w h q q' : Z) : Prop :=
  exists dx dy, In (dx, dy) directions
    /\ 0 <= q mod w + dx < w /\ 0 <= q / w + dy < h
    /\ q' = (q / w + dy) * w + (q mod w + dx).

(** [q] is reached from [p] through 4-neighbours that are all as
    transparent as [p]. *)
Inductive conn (T : list Z) (w h p : Z) : Z -> Prop :=
| conn_refl : conn T w h p p
| conn_step q q' :
    conn T w h p q -> adj w h q q' -> isT T q' = isT T p -> conn T w h p q'.

(** [R] lists, without repetition, the 4-connected region of [p]. *)
Definition isComponent (T : list Z) (w h p : Z) (R : list Z) : Prop :=
  NoDup R /\ forall q, In q R <-> conn T w h p q.

(** The pixels not yet visited. *)
Definition unseen (V : list Z) (n : Z) : nat :=
  length (filter (fun q => negb (vis V q)) (range 0 n)).

Section Grid.

Variables (T : list Z) (w h : Z).
Hypothesis w_pos : 0 < w.
Hypothesis h_pos : 0 < h.
Hypothesis T_bits :
  forall q, 0 <= q < w * h -> dget T q = Int 0 \/ dget T q = Int 1.

Lemma in_directions dx dy :
  In (dx, dy) directions <->
  (dx = 1 /\ dy = 0) \/ (dx = -1 /\ dy = 0) \/ (dx = 0 /\ dy = 1)
  \/ (dx = 0 /\ dy = -1).
Proof.
  unfold directions. simpl. split.
  - intros [E|[E|[E|[E|[]]]]]; injection E; lia.
  - intros [[-> ->]|[[-> ->]|[[-> ->]|[-> ->]]]]; auto.
Qed.

Lemma cell_bounds q : 0 <= q < w * h -> 0 <= q mod w < w /\ 0 <= q / w < h.
Proof.
  intros Hq. split; [now apply Z.mod_pos_bound|]. split.
  - apply Z.div_pos; lia.
  - apply Z.div_lt_upper_bound; lia.
Qed.

Lemma cell_index q : (q / w) * w + q mod w = q.
Proof. pose proof (Z.div_mod q w). lia. Qed.

Lemma adj_inGrid q q' : adj w h q q' -> 0 <= q' < w * h.
Proof. intros (dx & dy & _ & Hx & Hy & ->). nia. Qed.

Lemma adj_sym q q' : 0 <= q < w * h -> adj w h q q' -> adj w h q' q.
Proof.
  intros Hq (dx & dy & Hd & Hx & Hy & ->).
  exists (- dx), (- dy).
  rewrite index_mod, index_div by assumption.
  pose proof (cell_bounds q Hq) as [Hqx Hqy].
  split; [apply in_directions; apply in_directions in Hd; lia|].
  split; [lia|]. split; [lia|].
  replace (q / w + dy + - dy) with (q / w) by lia.
  replace (q mod w + dx + - dx) with (q mod w) by lia.
  now rewrite cell_index.
Qed.

Lemma conn_inGrid p q : 0 <= p < w * h -> conn T w h p q -> 0 <= q < w * h.
Proof.
  intros Hp H. induction H as [|q q' _ _ Hadj _]; [assumption|].
  now apply adj_inGrid in Hadj.
Qed.

Lemma conn_label p q : conn T w h p q -> isT T q = isT T p.
Proof. intros H. destruct H; [reflexivity|assumption]. Qed.

Lemma conn_trans p q r : conn T w h p q -> conn T w h q r -> conn T w h p r.
Proof.
  intros Hpq Hqr. induction Hqr as [|r r' _ IH Hadj Hl]; [assumption|].
  apply (conn_step T w h p r r'); [assumption..|].
  rewrite Hl. now apply conn_label.
Qed.

Lemma conn_sym p q : 0 <= p < w * h -> conn T w h p q -> conn T w h q p.
Proof.
  intros Hp H. induction H as [|q q' Hpq IH Hadj Hl]; [constructor|].
  apply (conn_trans q' q p); [|assumption].
  apply (conn_step T w h q' q' q); [constructor| |].
  - apply adj_sym; [|assumption]. now apply (conn_inGrid p).
  - rewrite Hl. now apply conn_label.
Qed.

(** *** The visited flags *)

Lemma vis_dset V i q :
  vis (dset V i 1) q
  = ((q =? i) && (0 <=? i) && (i <? Z.of_nat (length V))) || vis V q.
Proof.
  unfold vis. rewrite dget_dset.
  destruct ((q =? i) && (0 <=? i) && (i <? Z.of_nat (length V))); reflexivity.
Qed.

Lemma filter_flip (f g : Z -> bool) n j :
  0 <= j < n -> f j = true -> g j = false ->
  (forall q, q <> j -> g q = f q) ->
  (length (filter g (range 0 n)) + 1 = length (filter f (range 0 n)))%nat.
Proof.
  intros Hj Hf Hg Hsame.
  rewrite (range_app 0 j n) by lia.
  rewrite (range_cons j) by lia.
  rewrite !filter_app. cbn [filter]. rewrite Hf, Hg.
  rewrite !length_app. cbn [length].
  rewrite (filter_ext_in g f (range 0 j)).
  2:{ intros q Hq. apply in_range in Hq. apply Hsame. lia. }
  rewrite (filter_ext_in g f (range (j + 1) n)).
  2:{ intros q Hq. apply in_range in Hq. apply Hsame. lia. }
  lia.
Qed.

Lemma unseen_dset V i :
  0 <= i < w * h -> Z.of_nat (length V) = w * h -> vis V i = false ->
  (unseen (dset V i 1) (w * h) + 1 = unseen V (w * h))%nat.
Proof.
  intros Hi HV Hv. unfold unseen. apply (filter_flip _ _ (w * h) i Hi).
  - now rewrite Hv.
  - rewrite vis_dset, Z.eqb_refl, HV.
    destruct (Z.leb_spec 0 i), (Z.ltb_spec i (w * h)); try lia; reflexivity.
  - intros q Hq. rewrite vis_dset.
    destruct (Z.eqb_spec q i); [contradiction|reflexivity].
Qed.

Lemma unseen_bound V : (unseen V (w * h) <= Z.to_nat (w * h))%nat.
Proof.
  unfold unseen. etransitivity; [apply filter_length_le|].
  rewrite length_range. lia.
Qed.

(** On a 0/1 mask the test of the source compares transparency. *)
Lemma accept_label (b : bool) q :
  0 <= q < w * h ->
  Js.eq (dget T q) (Int (if b then 1 else 0)) = Bool.eqb (isT T q) b.
Proof.
  intros Hq. unfold isT.
  destruct (T_bits q Hq) as [-> | ->]; destruct b; reflexivity.
Qed.

(** What one neighbour does to [(visited, queue)]. *)
Lemma expand_cases b x y V Q dx dy :
  let ni := (y + dy) * w + (x + dx) in
  (0 <= x + dx < w /\ 0 <= y + dy < h /\ vis V ni = false /\ isT T ni = b
   /\ expand T w h b x y (V, Q) (dx, dy) = (dset V ni 1, Q ++ [ni]))
  \/ (expand T w h b x y (V, Q) (dx, dy) = (V, Q)
      /\ (0 <= x + dx < w -> 0 <= y + dy < h -> isT T ni = b -> vis V ni = true)).
Proof.
  cbv zeta. unfold expand.
  destruct ((x + dx <? 0) || (x + dx >=? w) || (y + dy <? 0) || (y + dy >=? h))
    eqn:Hout.
  - right. split; [reflexivity|]. intros Hx Hy _. exfalso.
    rewrite !orb_true_iff, !Z.ltb_lt, !Z.geb_le in Hout. lia.
  - rewrite !orb_false_iff, !Z.ltb_ge, !Z.geb_leb, !Z.leb_gt in Hout.
    rewrite accept_label by nia. fold (vis V ((y + dy) * w + (x + dx))).
    destruct (vis V ((y + dy) * w + (x + dx))) eqn:Hv; cbn [negb andb].
    + right. split; [reflexivity|]. auto.
    + destruct (Bool.eqb (isT T ((y + dy) * w + (x + dx))) b) eqn:Hl.
      * left. apply eqb_prop in Hl. repeat split; try lia; assumption.
      * right. split; [reflexivity|]. intros _ _ E. rewrite E in Hl.
        now rewrite eqb_reflx in Hl.
Qed.

(** *** The search from one pixel *)

(** The state of the search started at [i], [V0] being the flags before it:
    the region found so far is [R], the queue is [Q], the flags are [V]. *)
Record searching (i : Z) (V0 Q V R : list Z) : Prop := {
  s_len : Z.of_nat (length V) = w * h;
  s_seen : forall q, In q (R ++ Q) ->
             0 <= q < w * h /\ conn T w h i q /\ vis V0 q = false;
  s_nodup : NoDup (R ++ Q);
  s_vis : forall q, vis V q = true <-> vis V0 q = true \/ In q (R ++ Q)
}.

(** Every neighbour of a pixel of [R] that is as transparent as [i] has been
    visited. *)
Definition closedOn (i : Z) (V R : list Z) : Prop :=
  forall q q', In q R -> adj w h q q' -> isT T q' = isT T i -> vis V q' = true.

Lemma NoDup_snoc {A} (l : list A) x : NoDup l -> ~ In x l -> NoDup (l ++ [x]).
Proof.
  intros Hl Hx. induction l as [|a l IH]; simpl.
  - constructor; [intros []|constructor].
  - inversion Hl as [|? ? Ha Hl']; subst. constructor.
    + rewrite in_app_iff. simpl. intros [H|[H|[]]]; [contradiction|].
      subst. apply Hx. now left.
    + apply IH; [assumption|]. intros H. apply Hx. now right.
Qed.

Lemma expand_searching i V0 Q V R cur dx dy :
  searching i V0 Q V R -> In cur R -> In (dx, dy) directions ->
  forall V' Q',
  expand T w h (isT T i) (cur mod w) (cur / w) (V, Q) (dx, dy) = (V', Q') ->
  searching i V0 Q' V' R
  /\ (forall q, vis V q = true -> vis V' q = true)
  /\ (length Q' + unseen V' (w * h) = length Q + unseen V (w * h))%nat
  /\ (0 <= cur mod w + dx < w -> 0 <= cur / w + dy < h ->
      isT T ((cur / w + dy) * w + (cur mod w + dx)) = isT T i ->
      vis V' ((cur / w + dy) * w + (cur mod w + dx)) = true).
Proof.
  intros S Hcur Hd V' Q' E.
  destruct (expand_cases (isT T i) (cur mod w) (cur / w) V Q dx dy)
    as [(Hx & Hy & Hv & Hl & E')|(E' & Hdone)];
    rewrite E' in E; injection E as <- <-.
  2:{ repeat split; try assumption; try apply S; auto. }
  set (ni := (cur / w + dy) * w + (cur mod w + dx)) in *.
  assert (Hni : 0 <= ni < w * h) by (subst ni; nia).
  assert (Hnew : ~ In ni (R ++ Q)).
  { intros H. assert (vis V ni = true) by (apply (s_vis _ _ _ _ _ S); now right).
    congruence. }
  destruct (s_seen _ _ _ _ _ S cur) as (Hcg & Hcc & _);
    [apply in_or_app; now left|].
  assert (Hin : forall q, In q (R ++ Q ++ [ni]) <-> In q (R ++ Q) \/ q = ni).
  { intros q. rewrite app_assoc, in_app_iff. simpl. intuition. }
  split; [|split; [|split]].
  - constructor.
    + rewrite length_dset. apply S.
    + intros q Hq. apply Hin in Hq as [Hq| ->]; [now apply S|].
      split; [assumption|]. split.
      * apply (conn_step T w h i cur ni); [assumption| |assumption].
        exists dx, dy. repeat split; try assumption; lia.
      * destruct (vis V0 ni) eqn:E0; [|reflexivity].
        assert (vis V ni = true) by (apply (s_vis _ _ _ _ _ S); now left).
        congruence.
    + rewrite app_assoc. apply NoDup_snoc; [apply S|assumption].
    + intros q. rewrite vis_dset, (s_len _ _ _ _ _ S), Hin, orb_true_iff.
      rewrite (s_vis _ _ _ _ _ S q).
      destruct (Z.eqb_spec q ni) as [->|Hne].
      * destruct (Z.leb_spec 0 ni), (Z.ltb_spec ni (w * h)); try lia;
          cbn [andb]; intuition congruence.
      * cbn [andb]. intuition congruence.
  - intros q Hq. rewrite vis_dset, Hq. apply orb_true_r.
  - rewrite length_app. cbn [length].
    pose proof (unseen_dset V ni Hni (s_len _ _ _ _ _ S) Hv). lia.
  - intros _ _ _. rewrite vis_dset, Z.eqb_refl, (s_len _ _ _ _ _ S).
    destruct (Z.leb_spec 0 ni), (Z.ltb_spec ni (w * h)); try lia; reflexivity.
Qed.

Lemma expands_searching i V0 R cur : forall ds Q V V' Q',
  incl ds directions ->
  searching i V0 Q V R -> In cur R ->
  fold_left (expand T w h (isT T i) (cur mod w) (cur / w)) ds (V, Q) = (V', Q') ->
  searching i V0 Q' V' R
  /\ (forall q, vis V q = true -> vis V' q = true)
  /\ (length Q' + unseen V' (w * h) = length Q + unseen V (w * h))%nat
  /\ (forall dx dy, In (dx, dy) ds ->
      0 <= cur mod w + dx < w -> 0 <= cur / w + dy < h ->
      isT T ((cur / w + dy) * w + (cur mod w + dx)) = isT T i ->
      vis V' ((cur / w + dy) * w + (cur mod w + dx)) = true).
Proof.
  induction ds as [|[dx dy] ds IH]; intros Q V V' Q' Hds S Hcur E.
  - cbn in E. injection E as <- <-.
    split; [assumption|]. split; [auto|]. split; [reflexivity|].
    intros ? ? [].
  - cbn [fold_left] in E.
    destruct (expand T w h (isT T i) (cur mod w) (cur / w) (V, Q) (dx, dy))
      as [V1 Q1] eqn:E1.
    destruct (expand_searching i V0 Q V R cur dx dy S Hcur
                (Hds _ (or_introl eq_refl)) V1 Q1 E1) as (S1 & M1 & U1 & N1).
    destruct (IH Q1 V1 V' Q' (fun d Hd => Hds d (or_intror Hd)) S1 Hcur E)
      as (S2 & M2 & U2 & N2).
    split; [assumption|]. split; [auto|]. split; [lia|].
    intros dx' dy' [Hd|Hd] Hx Hy Hl.
    + injection Hd as <- <-. apply M2. now apply N1.
    + now apply N2.
Qed.

Lemma touches_snoc R q :
  touches w h (R ++ [q]) = (if onEdge w h q then true else touches w h R).
Proof.
  unfold touches. rewrite existsb_app. cbn [existsb]. rewrite orb_false_r.
  destruct (onEdge w h q), (existsb (onEdge w h) R); reflexivity.
Qed.

(** The search ends within its fuel, and it ends with the whole state in
    order, nothing left to expand, and every queued pixel in the region. *)
Lemma growRegion_searching i V0 : forall fuel Q V R,
  searching i V0 Q V R -> closedOn i V R ->
  (length Q + unseen V (w * h) <= fuel)%nat ->
  exists V' R',
    growRegion fuel T w h (isT T i) Q V R (touches w h R)
    = Some (V', R', touches w h R')
    /\ searching i V0 [] V' R' /\ closedOn i V' R'
    /\ (forall q, In q (R ++ Q) -> In q R').
Proof.
  induction fuel as [|fuel IH]; intros Q V R S C Hf.
  - destruct Q as [|cur Q]; [|simpl in Hf; lia].
    exists V, R. split; [reflexivity|]. split; [assumption|].
    split; [assumption|]. intros q Hq. now rewrite app_nil_r in Hq.
  - destruct Q as [|cur Q].
    { exists V, R. split; [reflexivity|]. split; [assumption|].
      split; [assumption|]. intros q Hq. now rewrite app_nil_r in Hq. }
    cbn [growRegion].
    destruct (s_seen _ _ _ _ _ S cur) as (Hcg & Hcc & Hc0);
      [apply in_or_app; right; now left|].
    rewrite Z.rem_mod_nonneg by lia.
    assert (S1 : searching i V0 Q V (R ++ [cur])).
    { destruct S as [L Sn Nd Vs]. constructor; [assumption|..].
      - intros q Hq. apply Sn. rewrite <- app_assoc in Hq. exact Hq.
      - now rewrite <- app_assoc.
      - intros q. rewrite <- app_assoc. apply Vs. }
    destruct (fold_left (expand T w h (isT T i) (cur mod w) (cur / w))
                directions (V, Q)) as [V1 Q1] eqn:E.
    assert (Hin : In cur (R ++ [cur])) by (apply in_or_app; right; now left).
    destruct (expands_searching i V0 (R ++ [cur]) cur directions Q V V1 Q1
                (incl_refl _) S1 Hin E)
      as (S2 & M2 & U2 & N2).
    assert (C2 : closedOn i V1 (R ++ [cur])).
    { intros q q' Hq Hadj Hl. apply in_app_iff in Hq as [Hq|[<-|[]]].
      - apply M2. now apply (C q q').
      - destruct Hadj as (dx & dy & Hd & Hx & Hy & ->). now apply N2. }
    destruct (IH Q1 V1 (R ++ [cur]) S2 C2) as (V' & R' & Eg & S' & C' & K').
    { simpl in Hf. lia. }
    exists V', R'. split; [|split; [assumption|split; [assumption|]]].
    + rewrite <- Eg. f_equal. rewrite touches_snoc. unfold onEdge. reflexivity.
    + intros q Hq. apply K'.
      assert (Hv : vis V q = true) by (apply (s_vis _ _ _ _ _ S); now right).
      apply M2 in Hv. apply (s_vis _ _ _ _ _ S2) in Hv as [Hv|Hv]; [|assumption].
      destruct (s_seen _ _ _ _ _ S q Hq) as (_ & _ & H0). congruence.
Qed.

(** Flags closed under same-transparency neighbours. *)
Definition closedFlags (V : list Z) : Prop :=
  forall q q', 0 <= q < w * h -> vis V q = true -> adj w h q q' ->
               isT T q' = isT T q -> vis V q' = true.

(** When the search from [i] has ended, [R] is the region of [i]. *)
Lemma searching_done i V0 V R :
  0 <= i < w * h -> closedFlags V0 -> vis V0 i = false -> vis V i = true ->
  searching i V0 [] V R -> closedOn i V R ->
  isComponent T w h i R
  /\ (forall q, vis V q = true <-> vis V0 q = true \/ conn T w h i q).
Proof.
  intros Hi C0 Hi0 HiV S C.
  assert (Hsound : forall q, In q R -> conn T w h i q).
  { intros q Hq. apply (s_seen _ _ _ _ _ S). now rewrite app_nil_r. }
  assert (Hcomplete : forall q, conn T w h i q -> In q R).
  { intros q Hq. induction Hq as [|q q' Hq IH Hadj Hl].
    - apply (s_vis _ _ _ _ _ S) in HiV as [H|H]; [congruence|].
      now rewrite app_nil_r in H.
    - assert (Hv : vis V q' = true) by now apply (C q q').
      apply (s_vis _ _ _ _ _ S) in Hv as [Hv|Hv]; [|now rewrite app_nil_r in Hv].
      exfalso.
      destruct (s_seen _ _ _ _ _ S q) as (Hqg & _ & Hq0);
        [rewrite app_nil_r; assumption|].
      assert (vis V0 q = true).
      { apply (C0 q' q); [now apply adj_inGrid in Hadj|assumption| |].
        - now apply adj_sym.
        - rewrite Hl. now apply conn_label. }
      congruence. }
  split.
  - split.
    + pose proof (s_nodup _ _ _ _ _ S) as H. now rewrite app_nil_r in H.
    + intros q. split; auto.
  - intros q. rewrite (s_vis _ _ _ _ _ S q), app_nil_r.
    split; intros [H|H]; auto.
Qed.

(** *** The outer loop *)

Lemma flip_region_get v : forall R d p,
  (forall q, In q R -> 0 <= q /\ q * 4 + 3 < Z.of_nat (length d)) ->
  let d' := fold_left (fun data idx =>
                         let pixelIdx := idx * 4 in dset data (pixelIdx + 3) v)
                      R d in
  length d' = length d
  /\ (In p R -> dget d' (p * 4 + 3) = Int v)
  /\ (~ In p R -> dget d' (p * 4 + 3) = dget d (p * 4 + 3)).
Proof.
  induction R as [|q R IH]; intros d p HR; cbn [fold_left].
  - split; [reflexivity|]. split; [intros []|reflexivity].
  - destruct (HR q (or_introl eq_refl)) as [Hq0 Hq1].
    destruct (IH (dset d (q * 4 + 3) v) p) as (L & Hin & Hout).
    { intros q' Hq'. rewrite length_dset. apply HR. now right. }
    cbv zeta in *. rewrite length_dset in L.
    split; [assumption|]. split.
    + intros [->|Hp].
      * destruct (in_dec Z.eq_dec p R) as [Hp|Hp]; [now apply Hin|].
        rewrite Hout by assumption. rewrite dget_dset, Z.eqb_refl.
        destruct (Z.leb_spec 0 (p * 4 + 3)),
          (Z.ltb_spec (p * 4 + 3) (Z.of_nat (length d))); try lia; reflexivity.
      * now apply Hin.
    + intros Hp. rewrite Hout by (intros H; apply Hp; now right).
      rewrite dget_dset.
      destruct (Z.eqb_spec (p * 4 + 3) (q * 4 + 3)) as [E|_]; [|reflexivity].
      exfalso. apply Hp. left. lia.
Qed.

Variable data : list Z.
Hypothesis data_len : Z.of_nat (length data) = 4 * (w * h).

(** The alpha of pixel [p] once its region [R] has been examined. *)
Definition outcome (R : list Z) (p : Z) : num :=
  if negb (touches w h R) && (Z.of_nat (length R) <? threshold (isT T p))
  then Int (flipped (isT T p)) else dget data (p * 4 + 3).

(** The state of the outer loop when the pixels below [k] have been
    considered. *)
Record swept (k : Z) (V d : list Z) : Prop := {
  o_len : Z.of_nat (length V) = w * h;
  o_below : forall q, 0 <= q < k -> q < w * h -> vis V q = true;
  o_closed : closedFlags V;
  o_data : length d = length data;
  o_done : forall p, 0 <= p < w * h -> vis V p = true ->
             exists R, isComponent T w h p R /\ dget d (p * 4 + 3) = outcome R p;
  o_todo : forall p, 0 <= p < w * h -> vis V p = false ->
             dget d (p * 4 + 3) = dget data (p * 4 + 3)
}.

Lemma vis_newBytes q : vis (newBytes (w * h)) q = false.
Proof.
  unfold vis, newBytes.
  destruct (Z.lt_ge_cases q 0) as [Hq|Hq].
  { rewrite dget_outside by lia. reflexivity. }
  destruct (Z.lt_ge_cases q (w * h)) as [Hq'|Hq'].
  - unfold dget. destruct (Z.ltb_spec q 0); [lia|].
    rewrite nth_error_repeat by lia. reflexivity.
  - rewrite dget_outside; [reflexivity|]. rewrite repeat_length. lia.
Qed.

Lemma swept_start : swept 0 (newBytes (w * h)) data.
Proof.
  constructor.
  - unfold newBytes. rewrite repeat_length. nia.
  - intros q Hq. lia.
  - intros q q' _ Hv. now rewrite vis_newBytes in Hv.
  - reflexivity.
  - intros p _ Hv. now rewrite vis_newBytes in Hv.
  - reflexivity.
Qed.

Lemma processPixel_swept k V d :
  0 <= k < w * h -> swept k V d ->
  exists V' d', processPixel T w h k (V, d) = Some (V', d')
                /\ swept (k + 1) V' d'.
Proof.
  intros Hk O. unfold processPixel.
  destruct (truthy (dget V k)) eqn:Hvk.
  { exists V, d. split; [reflexivity|].
    destruct O as [L B C D Dn Td]. constructor; try assumption.
    intros q Hq Hq'. destruct (Z.eq_dec q k) as [->|]; [exact Hvk|].
    apply B; lia. }
  fold (vis V k) in Hvk. fold (isT T k).
  (* the search *)
  assert (S0 : searching k V [k] (dset V k 1) []).
  { constructor.
    - rewrite length_dset. apply O.
    - intros q [<-|[]]. repeat split; try lia; [constructor|assumption].
    - constructor; [intros []|constructor].
    - intros q. rewrite vis_dset, (o_len _ _ _ O), orb_true_iff. cbn [app In].
      destruct (Z.eqb_spec q k) as [->|Hne].
      + destruct (Z.leb_spec 0 k), (Z.ltb_spec k (w * h)); try lia;
          cbn [andb]; intuition congruence.
      + cbn [andb]. intuition congruence. }
  assert (C0 : closedOn k (dset V k 1) []) by (intros q q' []).
  destruct (growRegion_searching k V (Z.to_nat (w * h)) [k] (dset V k 1) []
              S0 C0) as (V' & R & Eg & S & C & K).
  { pose proof (unseen_dset V k Hk (o_len _ _ _ O) Hvk).
    pose proof (unseen_bound V). cbn [length]. lia. }
  change (touches w h []) with false in Eg. rewrite Eg.
  assert (HkV' : vis V' k = true).
  { apply (s_vis _ _ _ _ _ S). right. rewrite app_nil_r. apply K. now left. }
  destruct (searching_done k V V' R Hk (o_closed _ _ _ O) Hvk HkV' S C)
    as (Hcomp & Hvis).
  assert (HR : forall q, In q R -> 0 <= q < w * h /\ vis V q = false).
  { intros q Hq. destruct (s_seen _ _ _ _ _ S q) as (? & ? & ?);
      [rewrite app_nil_r; assumption|]. now split. }
  set (small := negb (touches w h R)
                && (Z.of_nat (length R) <? threshold (isT T k))).
  set (d' := if small
             then fold_left (fun data idx =>
                     dset data (idx * 4 + 3) (flipped (isT T k))) R d
             else d).
  exists V', d'. split.
  { subst d' small. destruct (negb (touches w h R)
                              && (Z.of_nat (length R) <? threshold (isT T k)));
      reflexivity. }
  destruct (flip_region_get (flipped (isT T k)) R d) with (p := 0)
    as (Lflip & _ & _).
  { intros q Hq. destruct (HR q Hq) as [Hq' _].
    rewrite (o_data _ _ _ O). lia. }
  cbv zeta in Lflip.
  constructor.
  - apply S.
  - intros q Hq Hq'. apply Hvis.
    destruct (Z.eq_dec q k) as [->|Hne]; [right; constructor|].
    left. apply (o_below _ _ _ O); lia.
  - intros q q' Hq Hv Hadj Hl. apply Hvis. apply Hvis in Hv as [Hv|Hv].
    + left. now apply (o_closed _ _ _ O q q').
    + right. apply (conn_step T w h k q q'); [assumption..|].
      rewrite Hl. now apply conn_label.
  - subst d'. destruct small; [|apply O]. rewrite Lflip. apply O.
  - intros p Hp Hv.
    destruct (flip_region_get (flipped (isT T k)) R d p) as (_ & Hin & Hout).
    { intros q Hq. destruct (HR q Hq) as [Hq' _].
      rewrite (o_data _ _ _ O). lia. }
    cbv zeta in Hin, Hout.
    destruct (in_dec Z.eq_dec p R) as [HpR|HpR].
    + (* [p] belongs to the region just found *)
      assert (Hkp : conn T w h k p) by now apply Hcomp.
      exists R. split.
      * split; [apply Hcomp|]. intros q. rewrite (proj2 Hcomp q). split.
        -- intros Hq. apply (conn_trans p k q); [|assumption].
           now apply conn_sym.
        -- intros Hq. now apply (conn_trans k p q).
      * unfold outcome. rewrite (conn_label k p Hkp). fold small.
        subst d'. destruct small; [now apply Hin|].
        apply (o_todo _ _ _ O); [assumption|]. now apply HR.
    + (* [p] was visited before *)
      assert (Hvp : vis V p = true).
      { apply Hvis in Hv as [Hv|Hv]; [assumption|].
        exfalso. apply HpR. now apply Hcomp. }
      destruct (o_done _ _ _ O p Hp Hvp) as (Rp & Hc & Hd).
      exists Rp. split; [assumption|].
      subst d'. destruct small; [|assumption]. now rewrite Hout.
  - intros p Hp Hv.
    assert (Hvp : vis V p = false).
    { destruct (vis V p) eqn:E; [|reflexivity].
      assert (vis V' p = true) by (apply Hvis; now left). congruence. }
    assert (HpR : ~ In p R).
    { intros H. assert (vis V' p = true) by (apply Hvis; right; now apply Hcomp).
      congruence. }
    destruct (flip_region_get (flipped (isT T k)) R d p) as (_ & _ & Hout).
    { intros q Hq. destruct (HR q Hq) as [Hq' _].
      rewrite (o_data _ _ _ O). lia. }
    cbv zeta in Hout. subst d'. destruct small.
    + rewrite Hout by assumption. now apply (o_todo _ _ _ O).
    + now apply (o_todo _ _ _ O).
Qed.

(** [removeSmallRegions] returns, and every pixel ends as its region
    decides. *)
Lemma removeSmallRegions_swept :
  exists V out,
    removeSmallRegions T data w h = Some out /\ swept (w * h) V out.
Proof.
  unfold removeSmallRegions.
  assert (G : exists V out,
             forZ 0 (w * h) (fun i st =>
               match st with
               | None => None
               | Some st => processPixel T w h i st
               end) (Some (newBytes (w * h), data)) = Some (V, out)
             /\ swept (w * h) V out).
  { apply (forZ_ind (fun k st => exists V out, st = Some (V, out) /\ swept k V out));
      [nia| |].
    - exists (newBytes (w * h)), data. split; [reflexivity|apply swept_start].
    - intros k st Hk (V & d & -> & O).
      destruct (processPixel_swept k V d Hk O) as (V' & d' & E & O').
      exists V', d'. now split. }
  destruct G as (V & out & -> & O). exists V, out. now split.
Qed.

End Grid.

End Regions.

(* ================================================================== *)
(** ** Properties of the alpha post-processor *)
(* ================================================================== *)

Module PostProcessor.
Import Js JsFacts BufferFacts PostProcess PostProcessFacts Regions.
Import Pipeline Removal.
Local Open Scope Z_scope.

(** The mask of [postProcessResult], pixel by pixel. *)
Lemma transparentMaskOf_get data w h q :
  0 <= q < w * h ->
  dget (transparentMaskOf data w h) q
  = Int (if Js.eq (dget data (q * 4 + 3)) (Int 0) then 1 else 0).
Proof.
  intros Hq. unfold transparentMaskOf. cbv zeta.
  assert (G : Z.of_nat (length (forZ 0 (w * h) (fun i tm =>
                 dset tm i (if Js.eq (dget data (i * 4 + 3)) (Int 0) then 1 else 0))
                 (newBytes (w * h)))) = w * h
              /\ forall q, 0 <= q < w * h ->
                 dget (forZ 0 (w * h) (fun i tm =>
                   dset tm i (if Js.eq (dget data (i * 4 + 3)) (Int 0) then 1 else 0))
                   (newBytes (w * h))) q
                 = Int (if Js.eq (dget data (q * 4 + 3)) (Int 0) then 1 else 0)).
  { apply (forZ_ind (fun k s => Z.of_nat (length s) = w * h
             /\ forall q, 0 <= q < k ->
                dget s q
                = Int (if Js.eq (dget data (q * 4 + 3)) (Int 0) then 1 else 0)));
      [lia| |].
    - split; [unfold newBytes; rewrite repeat_length; lia|]. intros q' Hq'. lia.
    - intros k s Hk [L IH]. split; [now rewrite length_dset|].
      intros q' Hq'. rewrite dget_dset, L.
      destruct (Z.eqb_spec q' k) as [->|Hne].
      + destruct (Z.leb_spec 0 k), (Z.ltb_spec k (w * h)); try lia; reflexivity.
      + apply IH. lia. }
  now apply G.
Qed.

Lemma transparentMaskOf_bits data w h q :
  0 <= q < w * h ->
  dget (transparentMaskOf data w h) q = Int 0
  \/ dget (transparentMaskOf data w h) q = Int 1.
Proof.
  intros Hq. rewrite transparentMaskOf_get by assumption.
  destruct (Js.eq (dget data (q * 4 + 3)) (Int 0)); auto.
Qed.

Lemma isT_transparentMaskOf data w h q :
  0 <= q < w * h ->
  isT (transparentMaskOf data w h) q = Js.eq (dget data (q * 4 + 3)) (Int 0).
Proof.
  intros Hq. unfold isT. rewrite transparentMaskOf_get by assumption.
  destruct (Js.eq (dget data (q * 4 + 3)) (Int 0)); reflexivity.
Qed.

(** [removeSmallRegions], run on the transparency mask of the buffer,
    returns, and every pixel has its region in that mask: what the loop
    does, in the terms of the loop. *)
Lemma removeSmallRegions_regions (data : list Z) (w h : Z) :
  0 < w -> 0 < h -> Z.of_nat (length data) = 4 * (w * h) ->
  let T := transparentMaskOf data w h in
  exists out,
    removeSmallRegions T data w h = Some out
    /\ forall p, 0 <= p < w * h ->
       isT T p = Js.eq (dget data (p * 4 + 3)) (Int 0)
       /\ exists R,
            isComponent T w h p R
            /\ dget out (p * 4 + 3)
               = if negb (touches w h R)
                    && (Z.of_nat (length R) <? threshold (isT T p))
                 then Int (flipped (isT T p))
                 else dget data (p * 4 + 3).
Proof.
  intros Hw Hh Hlen T.
  destruct (removeSmallRegions_swept T w h Hw Hh
              (transparentMaskOf_bits data w h) data Hlen) as (V & out & E & O).
  exists out. split; [assumption|]. intros p Hp.
  split; [now apply isT_transparentMaskOf|].
  apply (o_done _ _ _ _ _ _ _ O p Hp).
  apply (o_below _ _ _ _ _ _ _ O); lia.
Qed.

(** A 5x5 opaque image with a transparent pixel in the middle. *)
Definition pinhole : list Z :=
  concat (repeat [10; 20; 30; 255] 12) ++ [10; 20; 30; 0]
  ++ concat (repeat [10; 20; 30; 255] 12).

(** On [pinhole] the hole is closed and nothing else changes. *)
Lemma pinhole_closed :
  removeSmallRegions (transparentMaskOf pinhole 5 5) pinhole 5 5
  = Some (concat (repeat [10; 20; 30; 255] 25)).
Proof. vm_compute. reflexivity. Qed.

(** *** Only alpha changes *)

Lemma applyMask_sameRGB m data : sameRGB data (applyMask m data).
Proof.
  destruct (applyMask_get m data) as [L H]. split; [assumption|].
  intros j Hj. rewrite H.
  destruct (Z.eqb_spec (j mod 4) 3); [contradiction|reflexivity].
Qed.

(** C8: background removal leaves the length of the buffer and every red,
    green and blue byte as they were.  This holds for [removeBackground]
    (detection, then the mask applied), for the mask application and
    post-processing of src/main.js whatever mask they are given, and for
    the remove mode of the manual brush; the restore mode is the one loop
    that writes the colour bytes. *)
Theorem removal_keeps_rgb (data mask maskData : list Z) (w h : Z) :
  0 < w -> 0 < h -> Z.of_nat (length data) = 4 * (w * h) ->
  (exists out, removeBackground data w h = Some out /\ sameRGB data out)
  /\ (exists out,
        postProcessResult (applyMaskToImage mask data w h) w h = Some out
        /\ sameRGB data out)
  /\ sameRGB data (brushRemove maskData data).
Proof.
  intros Hw Hh Hlen. split; [|split].
  - unfold removeBackground.
    destruct (improvedBackgroundDetection_total data w h) as (m & ->).
    eexists. split; [reflexivity|apply applyMask_sameRGB].
  - pose proof (applyMaskToImage_sameRGB mask data w h) as Hm.
    set (d1 := applyMaskToImage mask data w h) in *.
    assert (Hlen1 : Z.of_nat (length d1) = 4 * (w * h))
      by (destruct Hm as [L _]; now rewrite L).
    destruct (removeSmallRegions_swept (transparentMaskOf d1 w h) w h Hw Hh
                (transparentMaskOf_bits d1 w h) d1 Hlen1) as (V & d2 & E & _).
    unfold postProcessResult. rewrite E. eexists. split; [reflexivity|].
    apply (sameRGB_trans data d1); [assumption|].
    apply (sameRGB_trans d1 d2);
      [exact (removeSmallRegions_sameRGB _ d1 w h d2 E)|apply smoothEdges_sameRGB].
  - apply brushRemove_sameRGB.
Qed.

Lemma removal_keeps_rgb_witness :
  (exists out, removeBackground pinhole 5 5 = Some out /\ sameRGB pinhole out)
  /\ (exists out,
        postProcessResult (applyMaskToImage (repeat 0 25) pinhole 5 5) 5 5
        = Some out
        /\ sameRGB pinhole out)
  /\ sameRGB pinhole (brushRemove pinhole pinhole).
Proof.
  apply (removal_keeps_rgb pinhole (repeat 0 25) pinhole 5 5);
    [lia|lia|reflexivity].
Defined.

(** The restore mode copies all four bytes of a pixel under the stroke. *)
Lemma restore_rewrites_rgb :
  brushRestore [0; 0; 0; 0] [1; 2; 3; 4] [9; 9; 9; 9] = [1; 2; 3; 4].
Proof. reflexivity. Qed.

End PostProcessor.

(* ================================================================== *)
(** ** Masks: lengths and extensionality *)
(* ================================================================== *)

Module MaskFacts.
Import Js Morph JsFacts MorphFacts Refiner.

(** Two masks of the same length that read the same everywhere are equal. *)
Lemma aget_ext (m m' : list bool) :
  length m = length m' -> (forall i, 0 <= i -> aget m i = aget m' i) -> m = m'.
Proof.
  intros Hl H. apply (nth_ext m m' false false Hl). intros n Hn.
  specialize (H (Z.of_nat n) (Zle_0_nat n)). unfold aget in H.
  destruct (Z.ltb_spec (Z.of_nat n) 0); [lia|]. now rewrite Nat2Z.id in H.
Qed.

Lemma length_aset_inside m i v :
  0 <= i < Z.of_nat (length m) -> length (aset m i v) = length m.
Proof. intros H. rewrite length_aset by lia. lia. Qed.

(** Painting cells of the grid keeps the length of a mask that covers the
    grid. *)
Lemma length_paint w h ylo yhi xlo xhi g r :
  0 <= xlo -> xhi <= w -> 0 <= ylo -> yhi <= h ->
  w * h <= Z.of_nat (length r) ->
  length (paint w ylo yhi xlo xhi g r) = length r.
Proof.
  intros Hx0 Hx1 Hy0 Hy1 Hlen. unfold paint.
  apply (forZ_inv (fun s => length s = length r)); [reflexivity|].
  intros y t Hy Ht.
  apply (forZ_inv (fun s => length s = length r)); [assumption|].
  intros x t' Hx Ht'. destruct (g x y); [|assumption].
  rewrite length_aset_inside; [assumption|]. rewrite Ht'. nia.
Qed.

Lemma length_erode mask w h :
  w * h <= Z.of_nat (length mask) -> length (erode mask w h) = length mask.
Proof.
  intros H. rewrite erode_paint.
  rewrite (length_paint w h); rewrite ?repeat_length; try lia.
Qed.

Lemma length_dilate mask w h :
  w * h <= Z.of_nat (length mask) -> length (dilate mask w h) = length mask.
Proof.
  intros H. rewrite dilate_paint. rewrite (length_paint w h); lia.
Qed.

Lemma length_ensureEdgesRemoved mask w h :
  w * h <= Z.of_nat (length mask) ->
  length (ensureEdgesRemoved mask w h) = length mask.
Proof.
  intros H. rewrite ensureEdgesRemoved_paint. rewrite (length_paint w h); lia.
Qed.

End MaskFacts.

(* ================================================================== *)
(** ** Laws of erosion, dilation and the forced border *)
(* ================================================================== *)

Module MorphLaws.
Import Js Morph JsFacts MorphFacts Refiner MaskFacts.

(** X1: erosion only clears pixels and dilation only sets them.  For
    every mask, all dimensions and every index, a pixel that is set in
    [erode mask] is set in [mask], and a pixel that is set in [mask] is set
    in [dilate mask]. *)
Theorem erode_below_dilate_above (mask : list bool) (w h i : Z) :
  (aget (erode mask w h) i = true -> aget mask i = true)
  /\ (aget mask i = true -> aget (dilate mask w h) i = true).
Proof.
  destruct (Z.ltb_spec i 0) as [Hneg|Hpos].
  { rewrite !Uniform.aget_negative by assumption. split; discriminate. }
  rewrite erode_get, dilate_get by assumption.
  destruct (inner w h (i mod w) (i / w)) eqn:Ein; cbn [andb];
    [|split; [discriminate|trivial]].
  apply inner_bounds in Ein.
  assert (Hc : (i / w + 0) * w + (i mod w + 0) = i)
    by (pose proof (Z.div_mod i w); lia).
  split.
  - intros Hall. rewrite allBackground_true in Hall.
    specialize (Hall 0 0). rewrite Hc in Hall.
    apply Hall; apply in_window3; lia.
  - intros Hm. apply anyBackground_true. exists 0, 0.
    rewrite Hc. repeat split; try assumption; apply in_window3; lia.
Qed.

(** X2: [erode] and [dilate] are monotone.  If every pixel set in [m]
    is set in [m'], then every pixel set in the erosion of [m] is set in the
    erosion of [m'], and every pixel set in the dilation of [m] is set in the
    dilation of [m']. *)
Theorem erode_dilate_monotone (m m' : list bool) (w h : Z) :
  (forall i, aget m i = true -> aget m' i = true) ->
  forall i,
    (aget (erode m w h) i = true -> aget (erode m' w h) i = true)
    /\ (aget (dilate m w h) i = true -> aget (dilate m' w h) i = true).
Proof.
  intros Hsub i.
  destruct (Z.ltb_spec i 0) as [Hneg|Hpos].
  { rewrite !Uniform.aget_negative by assumption. split; discriminate. }
  rewrite !erode_get, !dilate_get by assumption.
  destruct (inner w h (i mod w) (i / w)); cbn [andb];
    [|split; [discriminate|apply Hsub]].
  split.
  - rewrite !allBackground_true. intros H dx dy Hx Hy. auto.
  - rewrite !anyBackground_true. intros (dx & dy & Hx & Hy & H).
    exists dx, dy. auto.
Qed.

Lemma erode_dilate_monotone_witness :
  aget (erode (repeat true 10) 3 3) 4 = true
  /\ aget (dilate (repeat true 10) 3 3) 4 = true.
Proof.
  assert (H : forall i, aget (repeat true 9) i = true ->
                        aget (repeat true 10) i = true).
  { intros i. rewrite !aget_repeat. cbn [andb]. intros H.
    apply andb_true_iff in H. destruct H as [H1 H2]. rewrite H1. cbn [andb].
    apply Z.ltb_lt in H2. apply Z.ltb_lt. cbn in *. lia. }
  split.
  - apply (proj1 (erode_dilate_monotone (repeat true 9) (repeat true 10) 3 3 H 4)).
    reflexivity.
  - apply (proj2 (erode_dilate_monotone (repeat true 9) (repeat true 10) 3 3 H 4)).
    reflexivity.
Defined.

(** X3: [ensureEdgesRemoved] touches the band of width 5 and nothing
    else.  On a mask with an entry for every pixel it keeps the length of
    the mask, leaves every pixel outside the band as it was, and a second
    run changes nothing more. *)
Theorem ensureEdgesRemoved_only_band (mask : list bool) (w h : Z) :
  w * h <= Z.of_nat (length mask) ->
  length (ensureEdgesRemoved mask w h) = length mask
  /\ (forall x y, 0 <= x < w -> 0 <= y < h -> inBand w h x y = false ->
        aget (ensureEdgesRemoved mask w h) (y * w + x) = aget mask (y * w + x))
  /\ ensureEdgesRemoved (ensureEdgesRemoved mask w h) w h
     = ensureEdgesRemoved mask w h.
Proof.
  intros Hlen. split; [now apply length_ensureEdgesRemoved|]. split.
  - intros x y Hx Hy Hb. rewrite ensureEdgesRemoved_get by nia.
    rewrite index_mod, index_div by assumption. rewrite Hb.
    now rewrite !andb_false_r.
  - apply aget_ext.
    + rewrite !length_ensureEdgesRemoved; try reflexivity; try assumption.
      now rewrite length_ensureEdgesRemoved.
    + intros i Hi. rewrite (ensureEdgesRemoved_get (ensureEdgesRemoved mask w h)) by assumption.
      rewrite (ensureEdgesRemoved_get mask) by assumption.
      destruct ((0 <? w) && (i / w <? h) && inBand w h (i mod w) (i / w));
        reflexivity.
Qed.

Lemma ensureEdgesRemoved_only_band_witness :
  aget (ensureEdgesRemoved (repeat false 144) 12 12) (6 * 12 + 6) = false.
Proof.
  rewrite (proj1 (proj2 (ensureEdgesRemoved_only_band (repeat false 144) 12 12
             ltac:(cbn; lia))) 6 6 ltac:(lia) ltac:(lia) ltac:(reflexivity)).
  reflexivity.
Defined.

End MorphLaws.

(* ================================================================== *)
(** ** What the removal returns *)
(* ================================================================== *)

Module PipelineFacts.
Import Js Morph Color Detect Compose Pipeline JsFacts MorphFacts MaskFacts
       Compositor Removal BufferFacts.

Lemma length_fill n (f : Z -> bool) :
  length (forZ 0 n (fun i m => aset m i (f i)) (newArray n false))
  = Z.to_nat n.
Proof.
  apply (forZ_inv (fun m => length m = Z.to_nat n)).
  - apply repeat_length.
  - intros i t Hi Ht. rewrite length_aset_inside; [assumption|]. lia.
Qed.

Lemma length_refineCompositeMask initialMask skinMask clothingMask imageData w h :
  exists finalMask,
    refineCompositeMask initialMask skinMask clothingMask imageData w h
    = Some finalMask
    /\ length finalMask = Z.to_nat (w * h).
Proof.
  unfold refineCompositeMask.
  destruct (floodFillBackground_total initialMask w h) as (r & -> & _).
  eexists. split; [reflexivity|].
  set (c := forZ 0 (w * h) _ _).
  assert (Hc : length c = Z.to_nat (w * h)) by apply length_fill.
  assert (Hw : forall m : list bool,
             length m = Z.to_nat (w * h) -> w * h <= Z.of_nat (length m))
    by (intros m ->; lia).
  assert (Hd : forall m : list bool, length m = Z.to_nat (w * h) ->
                 length (dilate m w h) = Z.to_nat (w * h))
    by (intros m Hm; rewrite length_dilate; auto).
  assert (He : forall m : list bool, length m = Z.to_nat (w * h) ->
                 length (erode m w h) = Z.to_nat (w * h))
    by (intros m Hm; rewrite length_erode; auto).
  rewrite length_ensureEdgesRemoved; auto 10.
Qed.

(** X4: what the automatic removal returns.  For every buffer and all
    dimensions that are not negative, [improvedBackgroundDetection] returns
    a mask with one entry per pixel and [removeBackground] returns a buffer
    of the length of the input; byte [j] of the output is 0 when [j] is the
    alpha byte of a pixel that the mask marks, and the byte of the input
    otherwise. *)
Theorem removal_alpha_exact (data : list Z) (w h : Z) :
  0 <= w -> 0 <= h ->
  exists mask out,
    improvedBackgroundDetection data w h = Some mask
    /\ removeBackground data w h = Some out
    /\ length mask = Z.to_nat (w * h)
    /\ length out = length data
    /\ forall j,
         dget out j
         = if (j mod 4 =? 3) && aget mask (j / 4)
              && (0 <=? j) && (j <? Z.of_nat (length data))
           then Int 0 else dget data j.
Proof.
  intros _ _. unfold removeBackground, improvedBackgroundDetection.
  destruct (length_refineCompositeMask
              (createInitialBackgroundMask data w h
                 (findDominantColors (sampleEdgesOnly data w h)))
              (detectSkinTones data w h) (detectClothing data w h)
              data w h) as (m & E & Hm).
  rewrite E. exists m, (applyMask m data).
  destruct (applyMask_get m data) as [L G].
  repeat split; try assumption; try reflexivity.
Qed.

Lemma removal_alpha_exact_witness :
  exists mask out,
    improvedBackgroundDetection [10; 20; 30; 255] 1 1 = Some mask
    /\ removeBackground [10; 20; 30; 255] 1 1 = Some out
    /\ length mask = Z.to_nat (1 * 1)
    /\ length out = length [10; 20; 30; 255]
    /\ forall j,
         dget out j
         = if (j mod 4 =? 3) && aget mask (j / 4)
              && (0 <=? j) && (j <? Z.of_nat (length [10; 20; 30; 255]))
           then Int 0 else dget [10; 20; 30; 255] j.
Proof.
  apply (removal_alpha_exact [10; 20; 30; 255] 1 1); lia.
Defined.

End PipelineFacts.

(* ================================================================== *)
(** ** The manual brush *)
(* ================================================================== *)

Module Brush.
Import Js PostProcess JsFacts BufferFacts.

(** Two byte arrays that read the same at every index are equal. *)
Lemma dget_ext (d d' : list Z) :
  (forall j, 0 <= j -> dget d j = dget d' j) -> d = d'.
Proof.
  intros H. apply nth_error_ext. intros n.
  specialize (H (Z.of_nat n) (Zle_0_nat n)). unfold dget in H.
  destruct (Z.ltb_spec (Z.of_nat n) 0); [lia|]. rewrite Nat2Z.id in H.
  destruct (nth_error d n), (nth_error d' n); try reflexivity;
    try (unfold undef in H; discriminate).
  now inversion H.
Qed.

Definition isByte (v : Z) : Prop := 0 <= v <= 255.

Lemma toByte_byte d j :
  Forall isByte d -> 0 <= j < Z.of_nat (length d) -> Int (toByte (dget d j)) = dget d j.
Proof.
  intros Hb Hj. unfold dget. destruct (Z.ltb_spec j 0); [lia|].
  destruct (nth_error d (Z.to_nat j)) eqn:E.
  - apply nth_error_In in E. rewrite Forall_forall in Hb. apply Hb in E.
    unfold isByte in E. cbn [toByte]. f_equal. lia.
  - apply nth_error_None in E. lia.
Qed.

(** The bytes of the buffer after the restore loop. *)
Lemma brushRestore_get (maskData origData data : list Z) :
  length (brushRestore maskData origData data) = length data
  /\ forall j,
       dget (brushRestore maskData origData data) j
       = if (0 <=? j) && (j <? Z.of_nat (length data))
            && Js.lt (dget maskData (4 * (j / 4) + 3)) (Int 128)
         then Int (toByte (dget origData j)) else dget data j.
Proof.
  unfold brushRestore.
  set (K := (Z.of_nat (length data) + 3) / 4).
  assert (HK : 0 <= K) by (subst K; Z.div_mod_to_equations; lia).
  set (body := fun (k : Z) (data : list Z) => _).
  assert (G : length (forZ 0 K body data) = length data
    /\ forall j, dget (forZ 0 K body data) j
       = if (0 <=? j) && (j <? Z.of_nat (length data)) && (j / 4 <? K)
            && Js.lt (dget maskData (4 * (j / 4) + 3)) (Int 128)
         then Int (toByte (dget origData j)) else dget data j).
  { apply (forZ_ind (fun k s => length s = length data /\ forall j, dget s j
       = if (0 <=? j) && (j <? Z.of_nat (length data)) && (j / 4 <? k)
            && Js.lt (dget maskData (4 * (j / 4) + 3)) (Int 128)
         then Int (toByte (dget origData j)) else dget data j)); [assumption| |].
    - split; [reflexivity|]. intros j.
      destruct (Z.leb_spec 0 j); cbn [andb]; [|reflexivity].
      destruct (Z.ltb_spec (j / 4) 0); [Z.div_mod_to_equations; lia|].
      now rewrite andb_false_r.
    - intros k s Hk [Hlen IH]. subst body. cbv beta zeta.
      destruct (Js.lt (dget maskData (4 * k + 3)) (Int 128)) eqn:Em.
      + split; [now rewrite !length_dset|]. intros j.
        rewrite !dget_dset, !length_dset, IH, Hlen.
        assert (Hq : forall c, 0 <= c < 4 -> (4 * k + c) / 4 = k)
          by (intros; Z.div_mod_to_equations; lia).
        destruct (Z.eqb_spec j (4 * k + 3)) as [->|N3].
        { rewrite (Hq 3) by lia. rewrite Em. zcases; try reflexivity; lia. }
        destruct (Z.eqb_spec j (4 * k + 2)) as [->|N2].
        { rewrite (Hq 2) by lia. rewrite Em. zcases; try reflexivity; lia. }
        destruct (Z.eqb_spec j (4 * k + 1)) as [->|N1].
        { rewrite (Hq 1) by lia. rewrite Em. zcases; try reflexivity; lia. }
        destruct (Z.eqb_spec j (4 * k)) as [->|N0].
        { replace (4 * k / 4) with k by (Z.div_mod_to_equations; lia).
          rewrite Em. zcases; try reflexivity; lia. }
        cbn [andb].
        assert (j / 4 <> k) by (Z.div_mod_to_equations; lia).
        destruct (Z.leb_spec 0 j); cbn [andb]; [|reflexivity].
        destruct (Z.ltb_spec j (Z.of_nat (length data))); cbn [andb]; [|reflexivity].
        destruct (Z.ltb_spec (j / 4) k), (Z.ltb_spec (j / 4) (k + 1));
          try reflexivity; lia.
      + split; [assumption|]. intros j. rewrite IH.
        destruct (Z.leb_spec 0 j); cbn [andb]; [|reflexivity].
        destruct (Z.ltb_spec j (Z.of_nat (length data))); cbn [andb]; [|reflexivity].
        destruct (Z.ltb_spec (j / 4) k), (Z.ltb_spec (j / 4) (k + 1));
          try reflexivity; try lia.
        assert (j / 4 = k) by lia. cbn [andb].
        replace (4 * (j / 4) + 3) with (4 * k + 3) by lia. now rewrite Em. }
  destruct G as [G1 G2]. split; [assumption|]. intros j. rewrite G2.
  destruct (Z.leb_spec 0 j); cbn [andb]; [|reflexivity].
  destruct (Z.ltb_spec j (Z.of_nat (length data))); cbn [andb]; [|reflexivity].
  destruct (Z.ltb_spec (j / 4) K); [reflexivity|].
  exfalso. subst K. Z.div_mod_to_equations. lia.
Qed.

(** The bytes of the buffer after the remove loop. *)
Lemma brushRemove_get (maskData data : list Z) :
  length (brushRemove maskData data) = length data
  /\ forall j,
       dget (brushRemove maskData data) j
       = if (j mod 4 =? 3) && (0 <=? j) && (j <? Z.of_nat (length data))
            && Js.lt (dget maskData j) (Int 128)
         then Int 0 else dget data j.
Proof.
  unfold brushRemove.
  set (K := (Z.of_nat (length data) + 3) / 4).
  assert (HK : 0 <= K) by (subst K; Z.div_mod_to_equations; lia).
  set (body := fun (k : Z) (data : list Z) => _).
  assert (G : length (forZ 0 K body data) = length data
    /\ forall j, dget (forZ 0 K body data) j
       = if (j mod 4 =? 3) && (0 <=? j) && (j <? Z.of_nat (length data))
            && (j / 4 <? K) && Js.lt (dget maskData j) (Int 128)
         then Int 0 else dget data j).
  { apply (forZ_ind (fun k s => length s = length data /\ forall j, dget s j
       = if (j mod 4 =? 3) && (0 <=? j) && (j <? Z.of_nat (length data))
            && (j / 4 <? k) && Js.lt (dget maskData j) (Int 128)
         then Int 0 else dget data j)); [assumption| |].
    - split; [reflexivity|]. intros j.
      destruct (Z.eqb_spec (j mod 4) 3); cbn [andb]; [|reflexivity].
      destruct (Z.leb_spec 0 j); cbn [andb]; [|reflexivity].
      destruct (Z.ltb_spec (j / 4) 0); [Z.div_mod_to_equations; lia|].
      now rewrite andb_false_r.
    - intros k s Hk [Hlen IH]. subst body. cbv beta zeta.
      destruct (Js.lt (dget maskData (4 * k + 3)) (Int 128)) eqn:Em.
      + split; [now rewrite !length_dset|]. intros j.
        rewrite !dget_dset, IH, Hlen.
        destruct (Z.eqb_spec j (4 * k + 3)) as [->|N3].
        { replace ((4 * k + 3) mod 4) with 3 by (Z.div_mod_to_equations; lia).
          replace ((4 * k + 3) / 4) with k by (Z.div_mod_to_equations; lia).
          rewrite Em. zcases; try reflexivity; lia. }
        cbn [andb].
        destruct (Z.eqb_spec (j mod 4) 3); cbn [andb]; [|reflexivity].
        assert (j / 4 <> k) by (Z.div_mod_to_equations; lia).
        destruct (Z.leb_spec 0 j); cbn [andb]; [|reflexivity].
        destruct (Z.ltb_spec j (Z.of_nat (length data))); cbn [andb]; [|reflexivity].
        destruct (Z.ltb_spec (j / 4) k), (Z.ltb_spec (j / 4) (k + 1));
          try reflexivity; lia.
      + split; [assumption|]. intros j. rewrite IH.
        destruct (Z.eqb_spec (j mod 4) 3); cbn [andb]; [|reflexivity].
        destruct (Z.leb_spec 0 j); cbn [andb]; [|reflexivity].
        destruct (Z.ltb_spec j (Z.of_nat (length data))); cbn [andb]; [|reflexivity].
        destruct (Z.ltb_spec (j / 4) k), (Z.ltb_spec (j / 4) (k + 1));
          try reflexivity; try lia.
        assert (j = 4 * k + 3) by (Z.div_mod_to_equations; lia). subst j.
        cbn [andb]. now rewrite Em. }
  destruct G as [G1 G2]. split; [assumption|]. intros j. rewrite G2.
  destruct (Z.eqb_spec (j mod 4) 3); cbn [andb]; [|reflexivity].
  destruct (Z.leb_spec 0 j); cbn [andb]; [|reflexivity].
  destruct (Z.ltb_spec j (Z.of_nat (length data))); cbn [andb]; [|reflexivity].
  destruct (Z.ltb_spec (j / 4) K); [reflexivity|].
  exfalso. subst K. Z.div_mod_to_equations. lia.
Qed.

(** X5: the restore stroke of the manual brush undoes the remove
    stroke.  When the original image holds bytes, running the remove loop on
    it and then the restore loop on the result, with the same mask and the
    same original, gives the original image back. *)
Theorem restore_undoes_remove (maskData origData : list Z) :
  Forall isByte origData ->
  brushRestore maskData origData (brushRemove maskData origData) = origData.
Proof.
  intros Hb. apply dget_ext. intros j Hj.
  destruct (brushRestore_get maskData origData (brushRemove maskData origData))
    as [L1 G1].
  destruct (brushRemove_get maskData origData) as [L2 G2].
  rewrite G1, L2, G2.
  destruct (Z.leb_spec 0 j); [|lia]. cbn [andb].
  destruct (Z.ltb_spec j (Z.of_nat (length origData))) as [Hin|Hout]; cbn [andb].
  - destruct (Js.lt (dget maskData (4 * (j / 4) + 3)) (Int 128)) eqn:Em.
    + apply toByte_byte; [assumption|lia].
    + rewrite andb_true_r.
      destruct (Z.eqb_spec (j mod 4) 3) as [E3|]; cbn [andb]; [|reflexivity].
      replace j with (4 * (j / 4) + 3) at 1 by (Z.div_mod_to_equations; lia).
      now rewrite Em.
  - now rewrite !andb_false_r.
Qed.

Lemma restore_undoes_remove_witness :
  brushRestore [0; 0; 0; 0; 0; 0; 0; 255] [1; 2; 3; 4; 5; 6; 7; 8]
    (brushRemove [0; 0; 0; 0; 0; 0; 0; 255] [1; 2; 3; 4; 5; 6; 7; 8])
  = [1; 2; 3; 4; 5; 6; 7; 8].
Proof.
  apply restore_undoes_remove.
  repeat constructor; unfold isByte; lia.
Defined.

End Brush.

(* ================================================================== *)
(** ** The dominant-colour clusterer as a partition *)
(* ================================================================== *)

Module Groups.
Import Js Color JsFacts NumAgreement.
Local Open Scope js_scope.

(** A group as the clusterer keeps it: [count] is the number of member
    colours, and there is at least one. *)
Definition wellFormed (grp : group) : Prop :=
  count grp = Z.of_nat (length (colors grp)) /\ colors grp <> [].

Definition members (colorGroups : list group) : list color :=
  concat (map colors colorGroups).

Lemma place_partition c : forall colorGroups,
  Forall wellFormed colorGroups ->
  Forall wellFormed (place c colorGroups)
  /\ Permutation (members (place c colorGroups)) (members colorGroups ++ [c])
  /\ (length colorGroups <= length (place c colorGroups) <= S (length colorGroups))%nat.
Proof.
  induction colorGroups as [|grp rest IH]; intros Hwf.
  - cbn. split; [|split; [reflexivity|lia]].
    constructor; [|constructor]. split; [reflexivity|discriminate].
  - cbn [place].
    destruct (perceptualColorDistance c (representative grp) <? clusterThreshold).
    + inversion Hwf as [|? ? [Hc Hn] Hrest]; subst. split; [|split].
      * constructor; [|assumption]. unfold merge, wellFormed. cbn.
        split; [rewrite length_app; cbn; lia|].
        intros E. apply app_eq_nil in E. destruct E; discriminate.
      * unfold members. cbn [map concat merge colors].
        rewrite <- !app_assoc. apply Permutation_app_head.
        apply Permutation_app_comm.
      * cbn. lia.
    + inversion Hwf as [|? ? Hg Hrest]; subst.
      destruct (IH Hrest) as (W & P & L). split; [|split].
      * now constructor.
      * unfold members in *. cbn [map concat]. rewrite <- app_assoc.
        now apply Permutation_app_head.
      * cbn. lia.
Qed.

Lemma groupColors_partition_from : forall cs colorGroups,
  Forall wellFormed colorGroups ->
  let gs := fold_left (fun colorGroups c => place c colorGroups) cs colorGroups in
  Forall wellFormed gs
  /\ Permutation (members gs) (members colorGroups ++ cs)
  /\ (length gs <= length colorGroups + length cs)%nat.
Proof.
  induction cs as [|c cs IH]; intros gs0 Hwf; cbn [fold_left].
  - rewrite app_nil_r. split; [assumption|]. split; [reflexivity|lia].
  - destruct (place_partition c gs0 Hwf) as (W & P & L).
    destruct (IH (place c gs0) W) as (W' & P' & L'). cbv zeta in *.
    split; [assumption|]. split.
    + rewrite P'. rewrite P. now rewrite <- app_assoc.
    + cbn [length]. lia.
Qed.

Lemma insertByCount_perm grp : forall sorted,
  Permutation (insertByCount grp sorted) (grp :: sorted).
Proof.
  induction sorted as [|h t IH]; cbn [insertByCount]; [reflexivity|].
  destruct (count h <? count grp)%Z; [reflexivity|].
  rewrite IH. apply perm_swap.
Qed.

Lemma sortByCount_perm l : Permutation (sortByCount l) l.
Proof.
  unfold sortByCount.
  assert (G : forall l acc,
             Permutation (fold_left (fun sorted grp => insertByCount grp sorted) l acc)
                         (acc ++ l)).
  { clear l. induction l as [|x l IH]; intros acc; cbn [fold_left].
    - now rewrite app_nil_r.
    - rewrite IH, insertByCount_perm. apply Permutation_middle. }
  apply (G l []).
Qed.

(** X6: [findDominantColors] partitions the valid samples.  In the
    groups it builds, the count of a group is the number of its members and
    no group is empty; the members of all groups, taken together, are the
    valid samples, each once; every dominant colour returned is the
    representative of one of the groups; and there are at most as many
    dominant colours as valid samples. *)
Theorem groupColors_partition (sampledColors : list color) :
  let validColors := filter isValid sampledColors in
  Forall wellFormed (groupColors validColors)
  /\ Permutation (members (groupColors validColors)) validColors
  /\ (forall c, In c (findDominantColors sampledColors) ->
        exists grp, In grp (groupColors validColors) /\ representative grp = c)
  /\ (length (findDominantColors sampledColors) <= length validColors)%nat.
Proof.
  intros validColors.
  destruct (groupColors_partition_from validColors [] (Forall_nil _))
    as (W & P & L).
  split; [exact W|]. split; [exact P|].
  unfold findDominantColors. fold validColors.
  destruct validColors as [|v vs] eqn:Ev; [split; [intros c []|cbn; lia]|].
  rewrite <- Ev in *. split.
  - intros c Hc. apply in_map_iff in Hc. destruct Hc as (grp & Hr & Hin).
    apply filter_In in Hin. destruct Hin as [Hin _].
    exists grp. split; [|assumption].
    apply (Permutation_in _ (sortByCount_perm _)). exact Hin.
  - rewrite length_map.
    etransitivity; [apply filter_length_le|].
    rewrite (Permutation_length (sortByCount_perm _)). exact L.
Qed.

End Groups.

(* ================================================================== *)
(** ** The perceptual colour distance *)
(* ================================================================== *)

Module Distance.
Import Js Color JsFacts NumAgreement.

(** One weighted square of [perceptualColorDistance], on a difference [d]
    of two bytes. *)
Definition weighted (weight : num) (d : Z) : num := (weight * #d * #d)%js.

Lemma weighted_even weight d :
  In weight [rWeight; gWeight; bWeight] -> -255 <= d <= 255 ->
  weighted weight (- d) = weighted weight d.
Proof.
  intros Hw Hd.
  assert (G : forall f, In f [0.299%float; 0.587%float; 0.114%float] ->
            PrimFloat.mul (PrimFloat.mul f (ofZ (- d))) (ofZ (- d))
            = PrimFloat.mul (PrimFloat.mul f (ofZ d)) (ofZ d)).
  { intros f Hf. apply sameFloat_eq.
    revert d Hd. 
    assert (E : forall d, -255 <= d < 256 ->
              sameFloat (PrimFloat.mul (PrimFloat.mul f (ofZ (- d))) (ofZ (- d)))
                        (PrimFloat.mul (PrimFloat.mul f (ofZ d)) (ofZ d)) = true).
    { apply enumerate.
      destruct Hf as [<-|[<-|[<-|[]]]]; vm_compute; reflexivity. }
    intros d Hd. apply E. lia. }
  unfold weighted.
  destruct Hw as [<-|[<-|[<-|[]]]]; cbn [mul toF rWeight gWeight bWeight];
    f_equal; apply G; cbn; auto.
Qed.

(** X7: [perceptualColorDistance] does not depend on the order of its
    arguments and is 0 between a colour and itself, for all colours whose
    channels are bytes, whatever their alpha. *)
Theorem perceptualColorDistance_symmetric (r1 g1 b1 r2 g2 b2 : Z) (a1 a2 : num) :
  0 <= r1 <= 255 -> 0 <= g1 <= 255 -> 0 <= b1 <= 255 ->
  0 <= r2 <= 255 -> 0 <= g2 <= 255 -> 0 <= b2 <= 255 ->
  let c1 := {| r := #r1; g := #g1; b := #b1; a := a1 |}%js in
  let c2 := {| r := #r2; g := #g2; b := #b2; a := a2 |}%js in
  perceptualColorDistance c1 c2 = perceptualColorDistance c2 c1
  /\ perceptualColorDistance c1 c1 = Flt 0.
Proof.
  intros Hr1 Hg1 Hb1 Hr2 Hg2 Hb2 c1 c2. split.
  - unfold perceptualColorDistance, c1, c2.
    cbn [Color.r Color.g Color.b sub].
    change (sqrt (weighted rWeight (r1 - r2) + weighted gWeight (g1 - g2)
                  + weighted bWeight (b1 - b2))%js
            = sqrt (weighted rWeight (r2 - r1) + weighted gWeight (g2 - g1)
                    + weighted bWeight (b2 - b1))%js).
    replace (r2 - r1) with (- (r1 - r2)) by lia.
    replace (g2 - g1) with (- (g1 - g2)) by lia.
    replace (b2 - b1) with (- (b1 - b2)) by lia.
    rewrite !weighted_even; try reflexivity; try lia; cbn; auto.
  - apply Clusterer.byte_distance_zero.
Qed.

Lemma perceptualColorDistance_symmetric_witness :
  perceptualColorDistance {| r := #10; g := #200; b := #30; a := #255 |}%js
                          {| r := #90; g := #20; b := #35; a := #0 |}%js
  = perceptualColorDistance {| r := #90; g := #20; b := #35; a := #0 |}%js
                            {| r := #10; g := #200; b := #30; a := #255 |}%js.
Proof.
  apply (perceptualColorDistance_symmetric 10 200 30 90 20 35 (Int 255) (Int 0));
    lia.
Defined.

End Distance.

(* ================================================================== *)
(** ** The colour distance of src/main.js and its thresholds *)
(* ================================================================== *)

Module Thresholds.
Import Js Segment JsFacts.

(** The sum of squares [getColorDistance] takes the root of. *)
Definition squaredDistance (r1 g1 b1 r2 g2 b2 : Z) : Z :=
  (r1 - r2) * (r1 - r2) + (g1 - g2) * (g1 - g2) + (b1 - b2) * (b1 - b2).

Definition agrees (s : Z) : bool :=
  let d := sqrt (Int s) in
  Bool.eqb (lt d (Int 20)) (s <? 400)
  && Bool.eqb (lt d (Int 25)) (s <? 625)
  && Bool.eqb (lt d (Int 30)) (s <? 900)
  && Bool.eqb (gt d (Int 60)) (3600 <? s).

(** [P] on every integer of [lo, lo + p), by halving the interval. *)
Fixpoint allIn (P : Z -> bool) (lo : Z) (p : positive) : bool :=
  match p with
  | xH => P lo
  | xO q => allIn P lo q && allIn P (lo + Z.pos q) q
  | xI q => P lo && allIn P (lo + 1) q && allIn P (lo + 1 + Z.pos q) q
  end.

Lemma allIn_spec P : forall p lo,
  allIn P lo p = true -> forall s, lo <= s < lo + Z.pos p -> P s = true.
Proof.
  induction p as [q IH|q IH|]; intros lo H s Hs; cbn [allIn] in H.
  - rewrite !andb_true_iff in H. destruct H as [[H0 H1] H2].
    destruct (Z.eq_dec s lo) as [->|]; [assumption|].
    destruct (Z.lt_ge_cases s (lo + 1 + Z.pos q)).
    + apply (IH (lo + 1)); [assumption|lia].
    + apply (IH (lo + 1 + Z.pos q)); [assumption|lia].
  - rewrite andb_true_iff in H. destruct H as [H1 H2].
    destruct (Z.lt_ge_cases s (lo + Z.pos q)).
    + apply (IH lo); [assumption|lia].
    + apply (IH (lo + Z.pos q)); [assumption|lia].
  - assert (s = lo) by lia. now subst.
Qed.

Lemma root_agrees s : 0 <= s < 195076 -> agrees s = true.
Proof.
  intros Hs. apply (allIn_spec agrees 195076 0); [|lia].
  vm_compute. reflexivity.
Qed.

(** X8: the square root in [getColorDistance] never decides a
    threshold wrongly.  For colours whose channels are bytes, the four tests
    the program makes on the distance (below 20, below 25, below 30, above
    60) are the tests on the integer sum of the squared differences (below
    400, below 625, below 900, above 3600). *)
Theorem getColorDistance_thresholds (r1 g1 b1 r2 g2 b2 : Z) :
  0 <= r1 <= 255 -> 0 <= g1 <= 255 -> 0 <= b1 <= 255 ->
  0 <= r2 <= 255 -> 0 <= g2 <= 255 -> 0 <= b2 <= 255 ->
  let d := getColorDistance {| r := Int r1; g := Int g1; b := Int b1 |}
                            {| r := Int r2; g := Int g2; b := Int b2 |} in
  let s := squaredDistance r1 g1 b1 r2 g2 b2 in
  lt d (Int 20) = (s <? 400)
  /\ lt d (Int 25) = (s <? 625)
  /\ lt d (Int 30) = (s <? 900)
  /\ gt d (Int 60) = (3600 <? s).
Proof.
  intros Hr1 Hg1 Hb1 Hr2 Hg2 Hb2 d s.
  assert (Hsq : forall x y, 0 <= x <= 255 -> 0 <= y <= 255 ->
                 0 <= (x - y) * (x - y) <= 65025).
  { intros x y Hx Hy. assert (Hd : -255 <= x - y <= 255) by lia.
    revert Hd. generalize (x - y). intros e He. nia. }
  assert (Hs : 0 <= s < 195076).
  { subst s. unfold squaredDistance.
    pose proof (Hsq r1 r2 Hr1 Hr2). pose proof (Hsq g1 g2 Hg1 Hg2).
    pose proof (Hsq b1 b2 Hb1 Hb2). lia. }
  pose proof (root_agrees s Hs) as H. unfold agrees in H.
  change (sqrt (Int s)) with d in H.
  rewrite !andb_true_iff in H. destruct H as (((H1 & H2) & H3) & H4).
  apply eqb_prop in H1, H2, H3, H4. auto.
Qed.

Lemma getColorDistance_thresholds_witness :
  lt (getColorDistance {| r := Int 10; g := Int 20; b := Int 30 |}
                       {| r := Int 20; g := Int 40; b := Int 50 |}) (Int 30)
  = (squaredDistance 10 20 30 20 40 50 <? 900).
Proof.
  apply (getColorDistance_thresholds 10 20 30 20 40 50); lia.
Defined.

End Thresholds.

(* ================================================================== *)
(** ** clusterColors as a partition *)
(* ================================================================== *)

Module Clusters.
Import Js Segment JsFacts.

(** A cluster as [clusterColors] keeps it: [count] is the number of member
    colours, and there is at least one. *)
Definition consistent (cl : cluster) : Prop :=
  count cl = Z.of_nat (length (colors cl)) /\ colors cl <> [].

Definition allMembers (clusters : list cluster) : list rgb :=
  concat (map colors clusters).

Lemma assign_partition threshold color : forall clusters,
  Forall consistent clusters ->
  Forall consistent (assign threshold color clusters)
  /\ Permutation (allMembers (assign threshold color clusters))
                 (allMembers clusters ++ [color])
  /\ (length clusters <= length (assign threshold color clusters)
      <= S (length clusters))%nat
  /\ assign threshold color clusters <> [].
Proof.
  induction clusters as [|cl rest IH]; intros Hc.
  - cbn. split; [|split; [reflexivity|split; [lia|discriminate]]].
    constructor; [|constructor]. split; [reflexivity|discriminate].
  - cbn [assign].
    destruct (lt (getColorDistance color (center cl)) threshold).
    + inversion Hc as [|? ? [Hn Hne] Hrest]; subst.
      split; [|split; [|split; [cbn; lia|discriminate]]].
      * constructor; [|assumption]. unfold addToCluster, consistent. cbn.
        split; [rewrite length_app; cbn; lia|].
        intros E. apply app_eq_nil in E. destruct E; discriminate.
      * unfold allMembers. cbn [map concat addToCluster colors].
        rewrite <- !app_assoc. apply Permutation_app_head.
        apply Permutation_app_comm.
    + inversion Hc as [|? ? Hg Hrest]; subst.
      destruct (IH Hrest) as (W & P & L & _).
      split; [|split; [|split; [cbn; lia|discriminate]]].
      * now constructor.
      * unfold allMembers in *. cbn [map concat]. rewrite <- app_assoc.
        now apply Permutation_app_head.
Qed.

Lemma assignAll_partition_from threshold : forall cols clusters,
  Forall consistent clusters ->
  let cls := fold_left (fun clusters color => assign threshold color clusters)
                       cols clusters in
  Forall consistent cls
  /\ Permutation (allMembers cls) (allMembers clusters ++ cols)
  /\ (length clusters <= length cls <= length clusters + length cols)%nat.
Proof.
  induction cols as [|c cs IH]; intros cls0 Hc; cbn [fold_left].
  - rewrite app_nil_r. split; [assumption|]. split; [reflexivity|lia].
  - destruct (assign_partition threshold c cls0 Hc) as (W & P & L & _).
    destruct (IH (assign threshold c cls0) W) as (W' & P' & L'). cbv zeta in *.
    split; [assumption|]. split.
    + rewrite P'. rewrite P. now rewrite <- app_assoc.
    + cbn [length]. lia.
Qed.

Lemma insertCluster_perm cl : forall sorted,
  Permutation (insertCluster cl sorted) (cl :: sorted).
Proof.
  induction sorted as [|x t IH]; cbn [insertCluster]; [reflexivity|].
  destruct (count x <? count cl)%Z; [reflexivity|].
  rewrite IH. apply perm_swap.
Qed.

Lemma sortClusters_perm l : Permutation (sortClusters l) l.
Proof.
  unfold sortClusters.
  assert (G : forall l acc,
             Permutation (fold_left (fun sorted cl => insertCluster cl sorted) l acc)
                         (acc ++ l)).
  { clear l. induction l as [|x l IH]; intros acc; cbn [fold_left].
    - now rewrite app_nil_r.
    - rewrite IH, insertCluster_perm. apply Permutation_middle. }
  apply (G l []).
Qed.

(** X9: [clusterColors] partitions the colours it is given.  In the
    clusters it builds, the count of a cluster is the number of its members
    and no cluster is empty; the members of all clusters, taken together,
    are the given colours, each once; every centre returned is the centre of
    one of the clusters; for [maxClusters] not negative there are at most
    [maxClusters] centres, and at most as many as colours; no colour gives
    no centre, and a colour and a positive [maxClusters] give at least
    one. *)
Theorem clusterColors_partition (colors : list rgb) (threshold : num)
    (maxClusters : Z) :
  0 <= maxClusters ->
  let clusters := assignAll colors threshold in
  let centers := clusterColors colors threshold maxClusters in
  Forall consistent clusters
  /\ Permutation (allMembers clusters) colors
  /\ (forall c, In c centers -> exists cl, In cl clusters /\ center cl = c)
  /\ (length centers <= Z.to_nat maxClusters)%nat
  /\ (length centers <= length colors)%nat
  /\ (colors = [] -> centers = [])
  /\ (colors <> [] -> 0 < maxClusters -> centers <> []).
Proof.
  intros _ clusters centers.
  destruct (assignAll_partition_from threshold colors [] (Forall_nil _))
    as (W & P & L).
  fold (assignAll colors threshold) in W, P, L. fold clusters in W, P, L.
  cbn [allMembers map concat app length] in P, L.
  split; [exact W|]. split; [exact P|].
  assert (Hc : colors = [] /\ centers = []
               \/ colors <> [] /\
                  centers = map center (firstn (Z.to_nat maxClusters)
                                               (sortClusters clusters))).
  { subst centers clusters. unfold clusterColors.
    destruct colors; [left; now split|right; split; [discriminate|reflexivity]]. }
  destruct Hc as [[E0 E1]|[Hne E1]]; rewrite E1.
  { repeat split; try (cbn; lia); try assumption; try (intros c []).
    intros H; now elim H. }
  split; [|split; [|split; [|split]]].
  - intros c Hc. apply in_map_iff in Hc. destruct Hc as (cl & Hr & Hin).
    exists cl. split; [|exact Hr].
    apply (Permutation_in _ (sortClusters_perm _)).
    rewrite <- (firstn_skipn (Z.to_nat maxClusters) (sortClusters clusters)).
    apply in_or_app. left. exact Hin.
  - rewrite length_map, length_firstn. lia.
  - rewrite length_map, length_firstn.
    rewrite (Permutation_length (sortClusters_perm _)). lia.
  - intros E. now elim Hne.
  - intros _ Hm.
    assert (Hcl : clusters <> []).
    { intros E. apply Hne. rewrite E in P. cbn in P.
      now apply Permutation_nil in P. }
    assert (Hs : sortClusters clusters <> []).
    { intros E. apply Hcl. apply Permutation_nil.
      rewrite <- E. apply sortClusters_perm. }
    destruct (sortClusters clusters) as [|x t]; [now elim Hs|].
    destruct (Z.to_nat maxClusters) eqn:En; [lia|]. cbn. discriminate.
Qed.

Lemma clusterColors_partition_witness :
  (length (clusterColors [mkRgb (Int 10) (Int 20) (Int 30);
                          mkRgb (Int 200) (Int 20) (Int 30)] (Int 25) 1)
   <= Z.to_nat 1)%nat.
Proof.
  pose proof (clusterColors_partition
                [mkRgb (Int 10) (Int 20) (Int 30);
                 mkRgb (Int 200) (Int 20) (Int 30)] (Int 25) 1
                ltac:(lia)) as H.
  cbv zeta in H. exact (proj1 (proj2 (proj2 (proj2 H)))).
Defined.

End Clusters.

(* ================================================================== *)
(** ** Facts about byte arrays *)
(* ================================================================== *)

Module ByteFacts.
Import Js JsFacts BufferFacts PostProcess.

(** Writing to a byte array keeps what holds of all its entries. *)
Lemma Forall_dset (P : Z -> Prop) d i v :
  P v -> Forall P d -> Forall P (dset d i v).
Proof.
  intros Hv Hd. unfold dset. destruct (i <? 0); [assumption|].
  destruct (Z.to_nat i <? length d)%nat; [|assumption].
  rewrite <- (firstn_skipn (Z.to_nat i) d) in Hd.
  apply Forall_app in Hd. destruct Hd as [H1 H2].
  apply Forall_app. split; [assumption|].
  constructor; [assumption|].
  rewrite <- (firstn_skipn 1 (skipn (Z.to_nat i) d)) in H2.
  apply Forall_app in H2. rewrite skipn_skipn in H2. apply H2.
Qed.

Lemma dget_Forall (P : Z -> Prop) d i :
  Forall P d -> 0 <= i < Z.of_nat (length d) -> exists v, dget d i = Int v /\ P v.
Proof.
  intros Hd Hi. unfold dget. destruct (Z.ltb_spec i 0); [lia|].
  destruct (nth_error d (Z.to_nat i)) eqn:E.
  - exists z. split; [reflexivity|].
    rewrite Forall_forall in Hd. apply Hd. eapply nth_error_In. exact E.
  - apply nth_error_None in E. lia.
Qed.

Lemma dget_inside d i :
  0 <= i < Z.of_nat (length d) -> exists v, dget d i = Int v.
Proof.
  intros Hi. destruct (dget_Forall (fun _ => True) d i) as (v & E & _);
    [now apply Forall_forall|assumption|]. now exists v.
Qed.

(** Writing the value a cell already holds changes nothing. *)
Lemma dset_same d i v : dget d i = Int v -> dset d i v = d.
Proof.
  intros H. apply Brush.dget_ext. intros j _. rewrite dget_dset.
  destruct (Z.eqb_spec j i) as [->|]; [|reflexivity]. cbn [andb].
  destruct (0 <=? i), (i <? Z.of_nat (length d)); cbn [andb]; congruence.
Qed.

Lemma dget_newBytes n q :
  dget (newBytes n) q = if (0 <=? q) && (q <? n) then Int 0 else undef.
Proof.
  unfold newBytes.
  destruct (Z.leb_spec 0 q); cbn [andb].
  - destruct (Z.ltb_spec q n).
    + unfold dget. destruct (Z.ltb_spec q 0); [lia|].
      rewrite nth_error_repeat by lia. reflexivity.
    + apply dget_outside. rewrite repeat_length. lia.
  - apply dget_outside. lia.
Qed.

(** A loop over the cells [0 .. n) that rewrites cell [i] from what it
    holds. *)
Lemma sweep_get (f : Z -> num -> option Z) n m :
  let out := forZ 0 n (fun i m =>
               match f i (dget m i) with Some v => dset m i v | None => m end) m in
  length out = length m
  /\ forall q,
       dget out q
       = if (0 <=? q) && (q <? n) && (q <? Z.of_nat (length m))
         then match f q (dget m q) with Some v => Int v | None => dget m q end
         else dget m q.
Proof.
  cbv zeta.
  destruct (Z.le_gt_cases 0 n) as [Hn|Hn].
  2:{ rewrite forZ_nil by lia. split; [reflexivity|]. intros q.
      destruct (Z.leb_spec 0 q), (Z.ltb_spec q n); cbn [andb]; try reflexivity; lia. }
  apply (forZ_ind (fun k s => length s = length m /\ forall q, dget s q
           = if (0 <=? q) && (q <? k) && (q <? Z.of_nat (length m))
             then match f q (dget m q) with Some v => Int v | None => dget m q end
             else dget m q)); [assumption| |].
  - split; [reflexivity|]. intros q.
    destruct (Z.leb_spec 0 q), (Z.ltb_spec q 0); cbn [andb]; try reflexivity; lia.
  - intros k s Hk [Hl IH].
    assert (Ek : dget s k = dget m k).
    { rewrite IH. destruct (Z.leb_spec 0 k), (Z.ltb_spec k k); cbn [andb];
        try reflexivity; lia. }
    rewrite Ek. destruct (f k (dget m k)) as [v|] eqn:Ef.
    + split; [now rewrite length_dset|]. intros q.
      rewrite dget_dset, Hl, IH.
      destruct (Z.eqb_spec q k) as [->|Hne]; cbn [andb].
      * rewrite Ef.
        destruct (Z.leb_spec 0 k), (Z.ltb_spec k (Z.of_nat (length m))),
          (Z.ltb_spec k k), (Z.ltb_spec k (k + 1)); cbn [andb];
          try reflexivity; lia.
      * destruct (Z.leb_spec 0 q); cbn [andb]; [|reflexivity].
        destruct (Z.ltb_spec q k), (Z.ltb_spec q (k + 1)); try reflexivity; lia.
    + split; [assumption|]. intros q. rewrite IH.
      destruct (Z.leb_spec 0 q); cbn [andb]; [|reflexivity].
      destruct (Z.ltb_spec q k), (Z.ltb_spec q (k + 1)); cbn [andb];
        try reflexivity; try lia.
      assert (q = k) as -> by lia. rewrite Ef.
      now destruct (k <? Z.of_nat (length m)).
Qed.

(** A double loop that writes cell [(x, y)] of a byte array when [g x y]
    says so. *)
Definition paintBytes (w ylo yhi xlo xhi : Z) (g : Z -> Z -> option Z)
    (r : list Z) : list Z :=
  forZ ylo yhi (fun y r =>
    forZ xlo xhi (fun x r =>
      match g x y with Some v => dset r (y * w + x) v | None => r end) r) r.

Lemma paintBytes_row_get (base xlo xhi : Z) (g : Z -> option Z) r :
  let out := forZ xlo xhi (fun x r =>
               match g x with Some v => dset r (base + x) v | None => r end) r in
  length out = length r
  /\ forall i,
       dget out i
       = if (xlo <=? i - base) && (i - base <? xhi)
            && (0 <=? i) && (i <? Z.of_nat (length r))
         then match g (i - base) with Some v => Int v | None => dget r i end
         else dget r i.
Proof.
  cbv zeta.
  destruct (Z.le_gt_cases xlo xhi) as [Hle|Hgt].
  2:{ rewrite forZ_nil by lia. split; [reflexivity|]. intros i.
      destruct (Z.leb_spec xlo (i - base)), (Z.ltb_spec (i - base) xhi);
        cbn [andb]; try reflexivity; lia. }
  apply (forZ_ind (fun k s => length s = length r /\ forall i, dget s i =
           if (xlo <=? i - base) && (i - base <? k)
              && (0 <=? i) && (i <? Z.of_nat (length r))
           then match g (i - base) with Some v => Int v | None => dget r i end
           else dget r i)); [assumption| |].
  - split; [reflexivity|]. intros i.
    destruct (Z.leb_spec xlo (i - base)), (Z.ltb_spec (i - base) xlo);
      cbn [andb]; try reflexivity; lia.
  - intros k t Hk [Hl IH].
    destruct (g k) as [v|] eqn:Eg.
    + split; [now rewrite length_dset|]. intros i.
      rewrite dget_dset, Hl, IH.
      destruct (Z.eqb_spec i (base + k)) as [->|Hne]; cbn [andb].
      * replace (base + k - base) with k by lia. rewrite Eg.
        destruct (Z.leb_spec xlo k), (Z.ltb_spec k (k + 1)), (Z.ltb_spec k k),
          (Z.leb_spec 0 (base + k)),
          (Z.ltb_spec (base + k) (Z.of_nat (length r))); cbn [andb];
          try reflexivity; lia.
      * destruct (Z.leb_spec xlo (i - base)); cbn [andb]; [|reflexivity].
        destruct (Z.ltb_spec (i - base) k), (Z.ltb_spec (i - base) (k + 1));
          try reflexivity; lia.
    + split; [assumption|]. intros i. rewrite IH.
      destruct (Z.leb_spec xlo (i - base)); cbn [andb]; [|reflexivity].
      destruct (Z.ltb_spec (i - base) k), (Z.ltb_spec (i - base) (k + 1));
        cbn [andb]; try reflexivity; try lia.
      assert (i - base = k) as -> by lia. rewrite Eg.
      now destruct ((0 <=? i) && (i <? Z.of_nat (length r))).
Qed.

(** What a cell holds after the double loop. *)
Lemma paintBytes_get w ylo yhi xlo xhi g r :
  0 <= xlo -> xhi <= w -> 0 <= ylo ->
  length (paintBytes w ylo yhi xlo xhi g r) = length r
  /\ forall i,
       dget (paintBytes w ylo yhi xlo xhi g r) i
       = if (ylo <=? i / w) && (i / w <? yhi) && (xlo <=? i mod w)
            && (i mod w <? xhi) && (0 <=? i) && (i <? Z.of_nat (length r))
         then match g (i mod w) (i / w) with Some v => Int v | None => dget r i end
         else dget r i.
Proof.
  intros Hx0 Hxw Hy0. unfold paintBytes.
  destruct (Z.le_gt_cases xhi xlo) as [Hempty|Hne].
  { assert (E : forall n s, forZ ylo n (fun y r0 => forZ xlo xhi (fun x r1 =>
                  match g x y with Some v => dset r1 (y * w + x) v | None => r1 end)
                  r0) s = s).
    { intros n s. unfold forZ at 1. revert s.
      induction (range ylo n) as [|a l IH]; intros s; [reflexivity|].
      cbn [fold_left]. rewrite forZ_nil by assumption. apply IH. }
    rewrite E. split; [reflexivity|]. intros i.
    destruct (Z.leb_spec xlo (i mod w)), (Z.ltb_spec (i mod w) xhi);
      rewrite ?andb_false_r; cbn [andb]; try reflexivity; lia. }
  assert (Hw : 0 < w) by lia.
  destruct (Z.le_gt_cases ylo yhi) as [Hle|Hgt].
  2:{ rewrite forZ_nil by lia. split; [reflexivity|]. intros i.
      destruct (Z.leb_spec ylo (i / w)), (Z.ltb_spec (i / w) yhi);
        cbn [andb]; try reflexivity; lia. }
  apply (forZ_ind (fun k s => length s = length r /\ forall i, dget s i =
           if (ylo <=? i / w) && (i / w <? k) && (xlo <=? i mod w)
              && (i mod w <? xhi) && (0 <=? i) && (i <? Z.of_nat (length r))
           then match g (i mod w) (i / w) with Some v => Int v | None => dget r i end
           else dget r i)); [assumption| |].
  - split; [reflexivity|]. intros i.
    destruct (Z.leb_spec ylo (i / w)), (Z.ltb_spec (i / w) ylo);
      cbn [andb]; try reflexivity; lia.
  - intros k t Hk [Hl IH].
    destruct (paintBytes_row_get (k * w) xlo xhi (fun x => g x k) t) as [Lr Gr].
    cbv zeta in Lr, Gr. split; [congruence|]. intros i.
    rewrite Gr, Hl, IH.
    pose proof (row_of_index w i k Hw) as Hrow.
    pose proof (col_of_index w i Hw) as Hcol.
    destruct (Z.eq_dec (i / w) k) as [E|E].
    + assert (Hik : i - k * w = i mod w) by (rewrite Hcol, E; reflexivity).
      rewrite Hik, E.
      destruct (Z.leb_spec ylo k), (Z.ltb_spec k k), (Z.ltb_spec k (k + 1));
        try lia. cbn [andb].
      reflexivity.
    + assert (Hout : ~ (0 <= i - k * w < w)) by (intros H; now apply Hrow in H).
      destruct (Z.leb_spec xlo (i - k * w)), (Z.ltb_spec (i - k * w) xhi);
        cbn [andb]; try lia;
        destruct (Z.leb_spec ylo (i / w)); cbn [andb]; try reflexivity;
        destruct (Z.ltb_spec (i / w) k), (Z.ltb_spec (i / w) (k + 1));
        cbn [andb]; try reflexivity; lia.
Qed.

End ByteFacts.

(* ================================================================== *)
(** ** refineSegmentation and the voting pass *)
(* ================================================================== *)

Module Refinement.
Import Js JsFacts BufferFacts PostProcess Segment ByteFacts Morph.

(** The three labels of the mask, and the two that are final. *)
Definition label (v : Z) : Prop := v = 0 \/ v = 2 \/ v = 3.
Definition definite (v : Z) : Prop := v = 0 \/ v = 3.

Lemma Forall_dget (P : Z -> Prop) d :
  (forall q v, dget d q = Int v -> P v) -> Forall P d.
Proof.
  intros H. apply Forall_forall. intros v Hv.
  apply In_nth_error in Hv. destruct Hv as [n Hn].
  apply (H (Z.of_nat n)). unfold dget.
  destruct (Z.ltb_spec (Z.of_nat n) 0); [lia|]. now rewrite Nat2Z.id, Hn.
Qed.

(** The distance to the nearest colour of a model. *)
Definition nearest (color : rgb) (clusters : list rgb) : num :=
  fold_left (fun m cluster => min m (getColorDistance color cluster))
            clusters infinity.

(** The label [settle] gives a probable pixel. *)
Definition settled (fgClusters bgClusters : list rgb) (data : list Z) (i : Z) : Z :=
  if lt (nearest (colorAt data (i * 4)) fgClusters)
        (nearest (colorAt data (i * 4)) bgClusters)
  then 3 else 0.

Lemma settle_get fg bg mask data w h :
  length (settle fg bg mask data w h) = length mask
  /\ forall q,
       dget (settle fg bg mask data w h) q
       = if (0 <=? q) && (q <? w * h) && (q <? Z.of_nat (length mask))
            && Js.eq (dget mask q) (Int 2)
         then Int (settled fg bg data q) else dget mask q.
Proof.
  unfold settle. cbv zeta.
  rewrite (forZ_ext 0 (w * h) _
    (fun i m => match (fun i v => if negb (Js.eq v (Int 2)) then None
                                  else Some (settled fg bg data i)) i (dget m i)
                with Some v => dset m i v | None => m end)).
  2:{ intros i t _. cbv beta. destruct (negb (Js.eq (dget t i) (Int 2)));
        [reflexivity|]. unfold settled, nearest.
      destruct (lt _ _); reflexivity. }
  destruct (sweep_get (fun i v => if negb (Js.eq v (Int 2)) then None
                                  else Some (settled fg bg data i)) (w * h) mask)
    as [L G].
  cbv zeta in L, G. split; [exact L|]. intros q. rewrite G.
  destruct ((0 <=? q) && (q <? w * h) && (q <? Z.of_nat (length mask)));
    cbn [andb]; [|reflexivity].
  destruct (Js.eq (dget mask q) (Int 2)); reflexivity.
Qed.

Lemma inner_cell w h x y :
  1 <= x < w - 1 -> 1 <= y < h - 1 ->
  inner w h ((y * w + x) mod w) ((y * w + x) / w) = true.
Proof.
  intros Hx Hy. rewrite index_mod, index_div by lia.
  apply Refiner.inner_bounds. lia.
Qed.

(** The voting pass, cell by cell. *)
Lemma coherence_cells (mask data : list Z) (w h : Z) :
  let out := applySpatialCoherence mask data w h in
  length out = length mask
  /\ forall q,
       (Js.eq (dget mask q) (Int 3) || Js.eq (dget mask q) (Int 0) = true
        \/ inner w h (q mod w) (q / w) = false ->
        dget out q = dget mask q)
       /\ (dget out q = dget mask q \/ dget out q = Int 0 \/ dget out q = Int 3).
Proof.
  cbv zeta. unfold applySpatialCoherence. cbv zeta.
  apply (forZ_inv (fun s => length s = length mask /\ forall q,
           (Js.eq (dget mask q) (Int 3) || Js.eq (dget mask q) (Int 0) = true
            \/ inner w h (q mod w) (q / w) = false -> dget s q = dget mask q)
           /\ (dget s q = dget mask q \/ dget s q = Int 0 \/ dget s q = Int 3))).
  { split; [reflexivity|]. intros q. split; auto. }
  intros y t Hy IHy.
  apply (forZ_inv (fun s => length s = length mask /\ forall q,
           (Js.eq (dget mask q) (Int 3) || Js.eq (dget mask q) (Int 0) = true
            \/ inner w h (q mod w) (q / w) = false -> dget s q = dget mask q)
           /\ (dget s q = dget mask q \/ dget s q = Int 0 \/ dget s q = Int 3)));
    [assumption|].
  intros x s Hx [Hl IH].
  destruct (Js.eq (dget mask (y * w + x)) (Int 3)
            || Js.eq (dget mask (y * w + x)) (Int 0)) eqn:Edef;
    [now split|].
  assert (Step : forall v, v = 0 \/ v = 3 ->
            length (dset s (y * w + x) v) = length mask /\ forall q,
            (Js.eq (dget mask q) (Int 3) || Js.eq (dget mask q) (Int 0) = true
             \/ inner w h (q mod w) (q / w) = false ->
             dget (dset s (y * w + x) v) q = dget mask q)
            /\ (dget (dset s (y * w + x) v) q = dget mask q
                \/ dget (dset s (y * w + x) v) q = Int 0
                \/ dget (dset s (y * w + x) v) q = Int 3)).
  { intros v Hv. split; [now rewrite length_dset|]. intros q.
    rewrite dget_dset.
    destruct (Z.eqb_spec q (y * w + x)) as [->|Hne]; cbn [andb]; [|apply IH].
    destruct ((0 <=? y * w + x) && (y * w + x <? Z.of_nat (length s)));
      [|apply IH].
    split.
    - intros [Hd|Hin]; [congruence|]. rewrite inner_cell in Hin by lia.
      discriminate.
    - destruct Hv as [-> | ->]; auto. }
  destruct (fold_left _ _ (0, 0)) as [fgCount bgCount].
  destruct (fgCount >? bgCount); [apply Step; auto|].
  destruct (bgCount >? fgCount); [apply Step; auto|].
  destruct (fold_left _ _ (Int 0, Int 0)) as [fgSimilarity bgSimilarity].
  destruct (gt fgSimilarity bgSimilarity); apply Step; auto.
Qed.

(** X10: [applySpatialCoherence] only decides pixels that are still
    open.  It keeps the length of the mask; a cell that holds 3 or 0, or that
    lies on the one-pixel frame or outside the image, is left as it was; and
    a cell that changes becomes 0 or 3. *)
Theorem coherence_rewrites_probable_only (mask data : list Z) (w h : Z) :
  let out := applySpatialCoherence mask data w h in
  length out = length mask
  /\ forall q,
       (Js.eq (dget mask q) (Int 3) || Js.eq (dget mask q) (Int 0) = true
        \/ inner w h (q mod w) (q / w) = false ->
        dget out q = dget mask q)
       /\ (dget out q = dget mask q \/ dget out q = Int 0 \/ dget out q = Int 3).
Proof. exact (coherence_cells mask data w h). Qed.

(** Without a probable cell the voting pass is the identity. *)
Lemma coherence_identity mask data w h :
  (forall q v, dget mask q = Int v -> definite v) ->
  applySpatialCoherence mask data w h = mask.
Proof.
  intros Hd. apply Brush.dget_ext. intros q _.
  destruct (coherence_cells mask data w h) as [L G].
  cbv zeta in G. destruct (G q) as [Gq _].
  destruct (Z.lt_ge_cases q (Z.of_nat (length mask))) as [Hin|Hout].
  - destruct (Z.lt_ge_cases q 0) as [Hneg|Hpos].
    { rewrite !dget_outside by lia. reflexivity. }
    destruct (dget_inside mask q) as [v Ev]; [lia|].
    apply Gq. left. rewrite Ev. destruct (Hd q v Ev) as [-> | ->]; reflexivity.
  - rewrite !dget_outside; [reflexivity|lia|].
    cbv zeta in L. rewrite L. lia.
Qed.



End Refinement.

(* ================================================================== *)
(** ** fillHoles, region by region *)
(* ================================================================== *)

Module HoleFacts.
Import Js JsFacts BufferFacts PostProcess Segment ByteFacts Regions.

(** The mask as [fillHoles] reads it: a cell either holds 0 or it does
    not. *)
Definition zeroLabels (mask : list Z) (w h : Z) : list Z :=
  map (fun q => if Js.eq (dget mask q) (Int 0) then 0 else 1) (range 0 (w * h)).

Lemma nth_error_range lo hi k :
  (k < Z.to_nat (hi - lo))%nat -> nth_error (range lo hi) k = Some (lo + Z.of_nat k).
Proof.
  intros Hk. unfold range.
  rewrite nth_error_map, nth_error_seq.
  apply Nat.ltb_lt in Hk. rewrite Hk. reflexivity.
Qed.

Lemma dget_zeroLabels mask w h q :
  0 <= q < w * h ->
  dget (zeroLabels mask w h) q
  = Int (if Js.eq (dget mask q) (Int 0) then 0 else 1).
Proof.
  intros Hq. unfold dget at 1, zeroLabels.
  destruct (Z.ltb_spec q 0); [lia|].
  rewrite nth_error_map, nth_error_range by lia.
  cbn [option_map]. rewrite Z2Nat.id by lia. reflexivity.
Qed.

Lemma zeroLabels_bits mask w h q :
  0 <= q < w * h ->
  dget (zeroLabels mask w h) q = Int 0 \/ dget (zeroLabels mask w h) q = Int 1.
Proof.
  intros Hq. rewrite dget_zeroLabels by assumption.
  destruct (Js.eq (dget mask q) (Int 0)); auto.
Qed.

Lemma isT_zeroLabels mask w h q :
  0 <= q < w * h ->
  isT (zeroLabels mask w h) q = negb (Js.eq (dget mask q) (Int 0)).
Proof.
  intros Hq. unfold isT. rewrite dget_zeroLabels by assumption.
  destruct (Js.eq (dget mask q) (Int 0)); reflexivity.
Qed.

(** [m] and [T] tell the same cells to be 0 among those not yet visited. *)
Definition agree (m T V : list Z) (w h : Z) : Prop :=
  forall q, 0 <= q < w * h -> vis V q = false ->
            Js.eq (dget m q) (Int 0) = Js.eq (dget T q) (Int 0).

Lemma holeExpand_expand m T w h x y V Q d :
  agree m T V w h ->
  holeExpand m w h x y (V, Q) d = expand T w h false x y (V, Q) d
  /\ agree m T (fst (expand T w h false x y (V, Q) d)) w h.
Proof.
  intros Ha. destruct d as [dx dy]. unfold holeExpand, expand.
  destruct ((x + dx <? 0) || (x + dx >=? w) || (y + dy <? 0) || (y + dy >=? h))
    eqn:Eout; [now split|].
  rewrite !orb_false_iff in Eout. destruct Eout as [[[E1 E2] E3] E4].
  rewrite Z.geb_leb in E2, E4.
  apply Z.ltb_ge in E1, E3. apply Z.leb_gt in E2, E4.
  assert (Hni : 0 <= (y + dy) * w + (x + dx) < w * h) by nia.
  destruct (truthy (dget V ((y + dy) * w + (x + dx)))) eqn:Ev; cbn [negb andb];
    [now split|].
  rewrite (Ha _ Hni Ev).
  destruct (Js.eq (dget T ((y + dy) * w + (x + dx))) (Int 0)); [|now split].
  split; [reflexivity|]. cbn [fst]. intros q Hq Hv.
  rewrite vis_dset in Hv. apply orb_false_iff in Hv. now apply Ha.
Qed.

Lemma holeExpands_expands m T w h x y : forall ds V Q,
  agree m T V w h ->
  fold_left (holeExpand m w h x y) ds (V, Q)
  = fold_left (expand T w h false x y) ds (V, Q)
  /\ agree m T (fst (fold_left (expand T w h false x y) ds (V, Q))) w h.
Proof.
  induction ds as [|d ds IH]; intros V Q Ha; cbn [fold_left]; [now split|].
  destruct (holeExpand_expand m T w h x y V Q d Ha) as [E A].
  rewrite E. destruct (expand T w h false x y (V, Q) d) as [V1 Q1].
  now apply IH.
Qed.

(** The search of [fillHoles] is the search of [removeSmallRegions] for an
    opaque region, run on the labels. *)
Lemma holeLoop_growRegion m T w h : forall fuel Q V R te,
  agree m T V w h ->
  holeLoop fuel m w h Q V R te = growRegion fuel T w h false Q V R te.
Proof.
  induction fuel as [|fuel IH]; intros Q V R te Ha;
    destruct Q as [|cur Q]; try reflexivity.
  cbn [holeLoop growRegion].
  destruct (holeExpands_expands m T w h (Z.rem cur w) (cur / w) directions V Q Ha)
    as [E A].
  rewrite E.
  destruct (fold_left (expand T w h false (Z.rem cur w) (cur / w)) directions (V, Q))
    as [V1 Q1].
  now apply IH.
Qed.

Lemma fill_region_get : forall R m p,
  (forall q, In q R -> 0 <= q < Z.of_nat (length m)) ->
  let m' := fold_left (fun mask idx => dset mask idx 2) R m in
  length m' = length m
  /\ (In p R -> dget m' p = Int 2)
  /\ (~ In p R -> dget m' p = dget m p).
Proof.
  induction R as [|q R IH]; intros m p HR; cbn [fold_left].
  - split; [reflexivity|]. split; [intros []|reflexivity].
  - pose proof (HR q (or_introl eq_refl)) as Hq.
    destruct (IH (dset m q 2) p) as (L & Hin & Hout).
    { intros q' Hq'. rewrite length_dset. apply HR. now right. }
    cbv zeta in *. rewrite length_dset in L.
    split; [assumption|]. split.
    + intros [->|Hp].
      * destruct (in_dec Z.eq_dec p R) as [Hp|Hp]; [now apply Hin|].
        rewrite Hout by assumption. rewrite dget_dset, Z.eqb_refl.
        destruct (Z.leb_spec 0 p), (Z.ltb_spec p (Z.of_nat (length m)));
          try lia; reflexivity.
      * now apply Hin.
    + intros Hp. rewrite Hout by (intros H; apply Hp; now right).
      rewrite dget_dset.
      destruct (Z.eqb_spec p q) as [E|_]; [|reflexivity].
      exfalso. apply Hp. now left.
Qed.

Section Holes.

Variables (mask0 : list Z) (w h : Z).
Hypothesis w_pos : 0 < w.
Hypothesis h_pos : 0 < h.

Let T := zeroLabels mask0 w h.

Let T_bits : forall q, 0 <= q < w * h -> dget T q = Int 0 \/ dget T q = Int 1.
Proof. intros q Hq. now apply zeroLabels_bits. Qed.

(** The label of pixel [p] once its region [R] has been examined. *)
Definition holeOutcome (R : list Z) (p : Z) : num :=
  if negb (touches w h R) && (Z.of_nat (length R) <? 1000)
  then Int 2 else dget mask0 p.

(** The state of the outer loop when the pixels below [k] have been
    considered. *)
Record holed (k : Z) (V m : list Z) : Prop := {
  h_len : Z.of_nat (length V) = w * h;
  h_below : forall q, 0 <= q < k -> q < w * h ->
              vis V q = true \/ isT T q = true;
  h_closed : closedFlags T w h V;
  h_zero : forall q, 0 <= q < w * h -> vis V q = true -> isT T q = false;
  h_mlen : length m = length mask0;
  h_done : forall p, 0 <= p < w * h -> vis V p = true ->
             exists R, isComponent T w h p R /\ dget m p = holeOutcome R p;
  h_todo : forall p, vis V p = false -> dget m p = dget mask0 p
}.

Lemma holed_start : holed 0 (newBytes (w * h)) mask0.
Proof.
  constructor.
  - unfold newBytes. rewrite repeat_length. nia.
  - intros q Hq. lia.
  - intros q q' _ Hv. now rewrite (vis_newBytes w h w_pos h_pos []) in Hv.
  - intros q _ Hv. now rewrite (vis_newBytes w h w_pos h_pos []) in Hv.
  - reflexivity.
  - intros p _ Hv. now rewrite (vis_newBytes w h w_pos h_pos []) in Hv.
  - reflexivity.
Qed.

Lemma holed_agree k V m : holed k V m -> agree m T V w h.
Proof.
  intros O q Hq Hv. rewrite (h_todo _ _ _ O q Hv).
  unfold T. rewrite dget_zeroLabels by assumption.
  destruct (Js.eq (dget mask0 q) (Int 0)); reflexivity.
Qed.

Lemma fillFrom_holed k V m :
  0 <= k < w * h -> holed k V m ->
  exists V' m', fillFrom w h k (V, m) = Some (V', m')
                /\ holed (k + 1) V' m'.
Proof.
  intros Hk O. unfold fillFrom.
  destruct (truthy (dget V k)) eqn:Hvk; cbn [orb].
  { exists V, m. split; [reflexivity|].
    destruct O as [L B C Z0 D Dn Td]. constructor; try assumption.
    intros q Hq Hq'. destruct (Z.eq_dec q k) as [->|]; [now left|].
    apply B; lia. }
  fold (vis V k) in Hvk.
  assert (Em : dget m k = dget mask0 k) by now apply (h_todo _ _ _ O).
  destruct (Js.eq (dget m k) (Int 0)) eqn:Ez; cbn [negb].
  2:{ exists V, m. split; [reflexivity|].
      destruct O as [L B C Z0 D Dn Td]. constructor; try assumption.
      intros q Hq Hq'. destruct (Z.eq_dec q k) as [->|]; [|apply B; lia].
      right. unfold T. rewrite isT_zeroLabels by assumption.
      now rewrite <- Em, Ez. }
  assert (Hlab : isT T k = false).
  { unfold T. rewrite isT_zeroLabels by assumption. now rewrite <- Em, Ez. }
  (* the search *)
  assert (Ha : agree m T (dset V k 1) w h).
  { intros q Hq Hv. rewrite vis_dset in Hv. apply orb_false_iff in Hv.
    now apply (holed_agree k V m O). }
  rewrite (holeLoop_growRegion m T w h _ _ _ _ _ Ha).
  assert (S0 : searching T w h k V [k] (dset V k 1) []).
  { constructor.
    - rewrite length_dset. apply O.
    - intros q [<-|[]]. repeat split; try lia; [constructor|assumption].
    - constructor; [intros []|constructor].
    - intros q. rewrite vis_dset, (h_len _ _ _ O), orb_true_iff. cbn [app In].
      destruct (Z.eqb_spec q k) as [->|Hne].
      + destruct (Z.leb_spec 0 k), (Z.ltb_spec k (w * h)); try lia;
          cbn [andb]; intuition congruence.
      + cbn [andb]. intuition congruence. }
  assert (C0 : closedOn T w h k (dset V k 1) []) by (intros q q' []).
  destruct (growRegion_searching T w h w_pos T_bits k V (Z.to_nat (w * h)) [k]
              (dset V k 1) [] S0 C0) as (V' & R & Eg & S & C & K).
  { pose proof (unseen_dset w h V k Hk (h_len _ _ _ O) Hvk).
    pose proof (unseen_bound w h V). cbn [length]. lia. }
  rewrite Hlab in Eg. change (touches w h []) with false in Eg. rewrite Eg.
  assert (HkV' : vis V' k = true).
  { apply (s_vis _ _ _ _ _ _ _ _ S). right. rewrite app_nil_r. apply K. now left. }
  destruct (searching_done T w h w_pos k V V' R Hk (h_closed _ _ _ O) Hvk HkV' S C)
    as (Hcomp & Hvis).
  assert (HR : forall q, In q R ->
                 0 <= q < w * h /\ vis V q = false /\ isT T q = false).
  { intros q Hq. destruct (s_seen _ _ _ _ _ _ _ _ S q) as (? & Hc & ?);
      [rewrite app_nil_r; assumption|]. repeat split; try assumption; try lia.
    rewrite (conn_label T w h _ _ Hc). exact Hlab. }
  assert (HRm : forall q, In q R -> 0 <= q < Z.of_nat (length m)).
  { intros q Hq. destruct (HR q Hq) as (Hq1 & Hq2 & Hq3).
    split; [lia|]. rewrite (h_mlen _ _ _ O).
    unfold T in Hq3. rewrite isT_zeroLabels in Hq3 by assumption.
    destruct (Z.lt_ge_cases q (Z.of_nat (length mask0))); [assumption|].
    rewrite dget_outside in Hq3 by lia. discriminate. }
  set (small := negb (touches w h R) && (Z.of_nat (length R) <? 1000)).
  set (m' := if small
             then fold_left (fun mask idx => dset mask idx 2) R m
             else m).
  exists V', m'. split.
  { subst m' small.
    destruct (negb (touches w h R) && (Z.of_nat (length R) <? 1000));
      reflexivity. }
  destruct (fill_region_get R m 0 HRm) as (Lfill & _ & _).
  cbv zeta in Lfill.
  constructor.
  - apply S.
  - intros q Hq Hq'.
    destruct (Z.eq_dec q k) as [->|Hne]; [now left|].
    destruct (h_below _ _ _ O q) as [Hv|Hv]; try lia; [|now right].
    left. apply Hvis. now left.
  - intros q q' Hq Hv Hadj Hl. apply Hvis. apply Hvis in Hv as [Hv|Hv].
    + left. now apply (h_closed _ _ _ O q q').
    + right. apply (conn_step T w h k q q'); [assumption..|].
      rewrite Hl. now apply (conn_label T w h).
  - intros q Hq Hv. apply Hvis in Hv as [Hv|Hv].
    + now apply (h_zero _ _ _ O).
    + rewrite (conn_label T w h _ _ Hv). exact Hlab.
  - subst m'. destruct small; [|apply O]. rewrite Lfill. apply O.
  - intros p Hp Hv.
    destruct (fill_region_get R m p HRm) as (_ & Hin & Hout).
    cbv zeta in Hin, Hout.
    destruct (in_dec Z.eq_dec p R) as [HpR|HpR].
    + assert (Hkp : conn T w h k p) by now apply Hcomp.
      exists R. split.
      * split; [apply Hcomp|]. intros q. rewrite (proj2 Hcomp q). split.
        -- intros Hq. apply (conn_trans _ _ _ p k q); [|assumption].
           now apply conn_sym.
        -- intros Hq. now apply (conn_trans _ _ _ k p q).
      * unfold holeOutcome. fold small.
        subst m'. destruct small; [now apply Hin|].
        apply (h_todo _ _ _ O). now apply HR.
    + assert (Hvp : vis V p = true).
      { apply Hvis in Hv as [Hv|Hv]; [assumption|].
        exfalso. apply HpR. now apply Hcomp. }
      destruct (h_done _ _ _ O p Hp Hvp) as (Rp & Hc & Hd).
      exists Rp. split; [assumption|].
      subst m'. destruct small; [|assumption]. now rewrite Hout.
  - intros p Hv.
    assert (Hvp : vis V p = false).
    { destruct (vis V p) eqn:E; [|reflexivity].
      assert (vis V' p = true) by (apply Hvis; now left). congruence. }
    assert (HpR : ~ In p R).
    { intros H. assert (vis V' p = true) by (apply Hvis; right; now apply Hcomp).
      congruence. }
    destruct (fill_region_get R m p HRm) as (_ & _ & Hout).
    cbv zeta in Hout. subst m'. destruct small.
    + rewrite Hout by assumption. now apply (h_todo _ _ _ O).
    + now apply (h_todo _ _ _ O).
Qed.

(** [fillHoles] returns, and every pixel ends as its region decides. *)
Lemma fillHoles_holed :
  exists V out,
    fillHoles mask0 w h = Some out /\ holed (w * h) V out.
Proof.
  unfold fillHoles.
  assert (G : exists V out,
             forZ 0 (w * h) (fun i st =>
               match st with
               | None => None
               | Some st => fillFrom w h i st
               end) (Some (newBytes (w * h), mask0)) = Some (V, out)
             /\ holed (w * h) V out).
  { apply (forZ_ind (fun k st => exists V out, st = Some (V, out) /\ holed k V out));
      [nia| |].
    - exists (newBytes (w * h)), mask0. split; [reflexivity|apply holed_start].
    - intros k st Hk (V & d & -> & O).
      destruct (fillFrom_holed k V d Hk O) as (V' & d' & E & O').
      exists V', d'. now split. }
  destruct G as (V & out & -> & O). exists V, out. now split.
Qed.

(** [fillHoles], cell by cell. *)
Lemma fillHoles_cells :
  exists out,
    fillHoles mask0 w h = Some out
    /\ length out = length mask0
    /\ forall p,
         if (0 <=? p) && (p <? w * h) && Js.eq (dget mask0 p) (Int 0)
         then exists R, isComponent T w h p R
                /\ dget out p
                   = if negb (touches w h R) && (Z.of_nat (length R) <? 1000)
                     then Int 2 else Int 0
         else dget out p = dget mask0 p.
Proof.
  destruct fillHoles_holed as (V & out & E & O).
  exists out. split; [exact E|]. split; [apply O|]. intros p.
  destruct (Z.leb_spec 0 p) as [Hp0|Hp0]; cbn [andb].
  2:{ rewrite !dget_outside by lia. reflexivity. }
  destruct (Z.ltb_spec p (w * h)) as [Hp1|Hp1]; cbn [andb].
  2:{ apply (h_todo _ _ _ O). unfold vis. rewrite dget_outside; [reflexivity|].
      rewrite (h_len _ _ _ O). lia. }
  destruct (Js.eq (dget mask0 p) (Int 0)) eqn:Ez.
  - destruct (h_below _ _ _ O p) as [Hv|Hv]; try lia.
    + destruct (h_done _ _ _ O p) as (R & Hc & Hd); [lia|assumption|].
      exists R. split; [assumption|]. rewrite Hd. unfold holeOutcome.
      destruct (negb (touches w h R) && (Z.of_nat (length R) <? 1000));
        [reflexivity|].
      destruct (dget mask0 p) as [z|f] eqn:Ed; cbn [Js.eq] in Ez.
      * apply Z.eqb_eq in Ez. now subst.
      * exfalso. clear -Ez Ed Hp0. unfold dget in Ed.
        destruct (p <? 0); [|destruct (nth_error mask0 (Z.to_nat p))];
          try discriminate; unfold undef in Ed; injection Ed as <-;
          vm_compute in Ez; discriminate.
    + unfold T in Hv. rewrite isT_zeroLabels in Hv by lia. rewrite Ez in Hv.
      discriminate.
  - apply (h_todo _ _ _ O). destruct (vis V p) eqn:Ev; [|reflexivity].
    pose proof (h_zero _ _ _ O p ltac:(lia) Ev) as Hz.
    unfold T in Hz. rewrite isT_zeroLabels in Hz by lia. rewrite Ez in Hz.
    discriminate.
Qed.

End Holes.

End HoleFacts.

(* ================================================================== *)
(** ** connectForegroundRegions, cell by cell *)
(* ================================================================== *)

Module ConnectFacts.
Import Js JsFacts BufferFacts PostProcess Segment ByteFacts Regions Morph HoleFacts.

(** Writing one value to a list of cells. *)
Lemma stamp_get v : forall ts m p,
  let m' := fold_left (fun m t => dset m t v) ts m in
  length m' = length m
  /\ dget m' p = if existsb (Z.eqb p) ts && (0 <=? p) && (p <? Z.of_nat (length m))
                 then Int v else dget m p.
Proof.
  induction ts as [|t ts IH]; intros m p; cbn [fold_left existsb].
  - split; reflexivity.
  - destruct (IH (dset m t v) p) as [L G]. cbv zeta in *.
    rewrite length_dset in L, G. split; [exact L|]. rewrite G, dget_dset.
    destruct (Z.eqb_spec p t) as [->|Hne]; cbn [orb andb].
    + destruct (existsb (Z.eqb t) ts); cbn [andb];
        destruct ((0 <=? t) && (t <? Z.of_nat (length m))); reflexivity.
    + reflexivity.
Qed.

(** A double loop that writes [v] to the cells [targets x y]. *)
Definition scatter (ylo yhi xlo xhi : Z) (targets : Z -> Z -> list Z) (v : Z)
    (m : list Z) : list Z :=
  forZ ylo yhi (fun y m =>
    forZ xlo xhi (fun x m => fold_left (fun m t => dset m t v) (targets x y) m) m) m.

Definition hit (ylo yhi xlo xhi : Z) (targets : Z -> Z -> list Z) (p : Z) : bool :=
  existsb (fun y => existsb (fun x => existsb (Z.eqb p) (targets x y))
                            (range xlo xhi)) (range ylo yhi).

Lemma existsb_snoc {A} (f : A -> bool) l x :
  existsb f (l ++ [x]) = existsb f l || f x.
Proof. rewrite existsb_app. cbn. now rewrite orb_false_r. Qed.

Lemma scatter_get ylo yhi xlo xhi targets v m p :
  length (scatter ylo yhi xlo xhi targets v m) = length m
  /\ dget (scatter ylo yhi xlo xhi targets v m) p
     = if hit ylo yhi xlo xhi targets p && (0 <=? p) && (p <? Z.of_nat (length m))
       then Int v else dget m p.
Proof.
  unfold scatter, hit.
  destruct (Z.le_gt_cases ylo yhi) as [Hy|Hy].
  2:{ rewrite forZ_nil, (range_nil ylo yhi) by lia. now split. }
  apply (forZ_ind (fun k s => length s = length m /\ dget s p
     = if existsb (fun y => existsb (fun x => existsb (Z.eqb p) (targets x y))
                        (range xlo xhi)) (range ylo k)
          && (0 <=? p) && (p <? Z.of_nat (length m))
       then Int v else dget m p)); [assumption| |].
  - rewrite (range_nil ylo ylo) by lia. now split.
  - intros y s Hyk [Ls Gs].
    rewrite (range_snoc ylo y) by lia. rewrite existsb_snoc.
    destruct (Z.le_gt_cases xlo xhi) as [Hx|Hx].
    2:{ rewrite forZ_nil by lia. cbv beta.
        replace (existsb (fun x => existsb (Z.eqb p) (targets x y)) (range xlo xhi))
          with false by (now rewrite (range_nil xlo xhi) by lia).
        rewrite orb_false_r. now split. }
    assert (G : length (forZ xlo xhi (fun x m =>
                    fold_left (fun m t => dset m t v) (targets x y) m) s) = length m
      /\ dget (forZ xlo xhi (fun x m =>
                    fold_left (fun m t => dset m t v) (targets x y) m) s) p
         = if existsb (fun x => existsb (Z.eqb p) (targets x y)) (range xlo xhi)
              && (0 <=? p) && (p <? Z.of_nat (length m))
           then Int v else dget s p).
    { apply (forZ_ind (fun k t => length t = length m /\ dget t p
         = if existsb (fun x => existsb (Z.eqb p) (targets x y)) (range xlo k)
              && (0 <=? p) && (p <? Z.of_nat (length m))
           then Int v else dget s p)); [assumption| |].
      - rewrite (range_nil xlo xlo) by lia. now split.
      - intros x t Hxk [Lt Gt].
        rewrite (range_snoc xlo x) by lia. rewrite existsb_snoc.
        destruct (stamp_get v (targets x y) t p) as [L G]. cbv zeta in L, G.
        split; [congruence|]. rewrite G, Gt, Lt.
        destruct (existsb (Z.eqb p) (targets x y)),
          (existsb (fun x0 => existsb (Z.eqb p) (targets x0 y)) (range xlo x)),
          (0 <=? p), (p <? Z.of_nat (length m)); reflexivity. }
    destruct G as [LG GG]. split; [exact LG|]. rewrite GG, Gs. cbv beta.
    destruct (existsb (fun y0 => existsb (fun x => existsb (Z.eqb p) (targets x y0))
                                  (range xlo xhi)) (range ylo y)),
      (existsb (fun x => existsb (Z.eqb p) (targets x y)) (range xlo xhi)),
      (0 <=? p), (p <? Z.of_nat (length m)); reflexivity.
Qed.

Lemma fold_left_same {A B} (f g : A -> B -> A) l : forall a,
  (forall a b, In b l -> f a b = g a b) -> fold_left f l a = fold_left g l a.
Proof.
  induction l as [|b l IH]; intros a H; cbn [fold_left]; [reflexivity|].
  rewrite H by now left. apply IH. intros a' b' Hb. apply H. now right.
Qed.

Lemma fold_filter_map {A} (c : A -> bool) (f : A -> Z) v ds : forall m,
  fold_left (fun m d => if c d then dset m (f d) v else m) ds m
  = fold_left (fun m t => dset m t v) (map f (filter c ds)) m.
Proof.
  induction ds as [|d ds IH]; intros m; cbn [fold_left filter map];
    [reflexivity|].
  destruct (c d); cbn [map fold_left]; apply IH.
Qed.

(** The cells the pixel [(x, y)] marks in [connectForegroundRegions]. *)
Definition marked (tempMask : list Z) (w h x y : Z) : list Z :=
  if Js.eq (dget tempMask (y * w + x)) (Int 3)
  then map (fun '(dx, dy) => (y + dy) * w + (x + dx))
           (filter (fun '(dx, dy) =>
                      negb ((x + dx <? 0) || (x + dx >=? w)
                            || (y + dy <? 0) || (y + dy >=? h))
                      && negb (Js.eq (dget tempMask ((y + dy) * w + (x + dx)))
                                     (Int 0)))
                   directions)
  else [].

(** The mask [connectForegroundRegions] hands to [fillHoles]. *)
Definition spread (mask : list Z) (w h : Z) : list Z :=
  scatter 1 (h - 1) 1 (w - 1) (marked mask w h) 2 mask.

Lemma connect_spread mask w h :
  connectForegroundRegions mask w h = fillHoles (spread mask w h) w h.
Proof.
  unfold connectForegroundRegions, spread, scatter. cbv zeta. f_equal.
  apply forZ_ext. intros y m _. apply forZ_ext. intros x m' _.
  unfold marked. destruct (Js.eq (dget mask (y * w + x)) (Int 3)); cbn [negb];
    [|reflexivity].
  rewrite <- fold_filter_map. apply fold_left_same.
  intros a [dx dy] _.
  destruct ((x + dx <? 0) || (x + dx >=? w) || (y + dy <? 0) || (y + dy >=? h));
    cbn [negb andb]; [reflexivity|].
  now destruct (Js.eq (dget mask ((y + dy) * w + (x + dx))) (Int 0)).
Qed.

(** Pixel [p] has a 4-neighbour inside the frame that is definite
    foreground. *)
Definition besideForeground (mask : list Z) (w h p : Z) : bool :=
  existsb (fun '(dx, dy) =>
             let x := p mod w + dx in
             let y := p / w + dy in
             inner w h x y && Js.eq (dget mask (y * w + x)) (Int 3))
          directions.

Lemma directions_opposite dx dy :
  In (dx, dy) directions -> In (- dx, - dy) directions.
Proof.
  intros H. apply in_directions in H. apply in_directions.
  destruct H as [[-> ->]|[[-> ->]|[[-> ->]|[-> ->]]]]; cbn; lia.
Qed.

Lemma hit_marked mask w h p :
  0 < w -> 0 <= p < w * h ->
  hit 1 (h - 1) 1 (w - 1) (marked mask w h) p
  = negb (Js.eq (dget mask p) (Int 0)) && besideForeground mask w h p.
Proof.
  intros Hw Hp. apply eq_iff_eq_true. unfold hit, besideForeground.
  rewrite andb_true_iff, negb_true_iff, !existsb_exists. split.
  - intros (y & Hy & H). apply existsb_exists in H. destruct H as (x & Hx & H).
    apply existsb_exists in H. destruct H as (t & Ht & Hpt).
    apply Z.eqb_eq in Hpt. subst t. apply in_range in Hy, Hx.
    unfold marked in Ht.
    destruct (Js.eq (dget mask (y * w + x)) (Int 3)) eqn:E3; [|destruct Ht].
    apply in_map_iff in Ht. destruct Ht as ([dx dy] & Ep & Hd).
    apply filter_In in Hd. destruct Hd as [Hd Hc].
    rewrite andb_true_iff, !negb_true_iff, !orb_false_iff in Hc.
    destruct Hc as [[[[C1 C2] C3] C4] C5].
    rewrite Z.geb_leb in C2, C4.
    apply Z.ltb_ge in C1, C3. apply Z.leb_gt in C2, C4.
    assert (Hm : p mod w = x + dx) by (rewrite <- Ep; apply index_mod; lia).
    assert (Hq : p / w = y + dy) by (rewrite <- Ep; apply index_div; lia).
    split; [now rewrite <- Ep|].
    exists (- dx, - dy). split; [now apply directions_opposite|].
    cbv zeta. rewrite Hm, Hq.
    replace (x + dx + - dx) with x by lia. replace (y + dy + - dy) with y by lia.
    rewrite E3, andb_true_r. apply Refiner.inner_bounds. lia.
  - intros (Hz & [dx dy] & Hd & H). cbv zeta in H.
    rewrite andb_true_iff in H. destruct H as [Hin E3].
    apply Refiner.inner_bounds in Hin.
    exists (p / w + dy). split; [apply in_range; lia|].
    apply existsb_exists. exists (p mod w + dx). split; [apply in_range; lia|].
    apply existsb_exists. exists p. split; [|apply Z.eqb_refl].
    unfold marked. rewrite E3. apply in_map_iff.
    exists (- dx, - dy).
    pose proof (Z.mod_pos_bound p w Hw) as Hpm.
    assert (Hpd : 0 <= p / w < h).
    { split; [apply Z.div_pos; lia|]. apply Z.div_lt_upper_bound; lia. }
    assert (Ecell : (p / w + dy + - dy) * w + (p mod w + dx + - dx) = p).
    { replace (p / w + dy + - dy) with (p / w) by lia.
      replace (p mod w + dx + - dx) with (p mod w) by lia.
      pose proof (Z.div_mod p w). lia. }
    split; [exact Ecell|].
    apply filter_In. split; [now apply directions_opposite|].
    rewrite Ecell, Hz. cbn [negb]. rewrite andb_true_r.
    rewrite negb_true_iff, !orb_false_iff, Z.geb_leb, Z.geb_leb.
    repeat split; try (apply Z.ltb_ge; lia); apply Z.leb_gt; lia.
Qed.

Lemma spread_get mask w h p :
  0 < w -> 0 <= p < w * h -> Z.of_nat (length mask) = w * h ->
  dget (spread mask w h) p
  = if negb (Js.eq (dget mask p) (Int 0)) && besideForeground mask w h p
    then Int 2 else dget mask p.
Proof.
  intros Hw Hp Hl. unfold spread.
  rewrite (proj2 (scatter_get _ _ _ _ _ _ _ p)), hit_marked by assumption.
  destruct (Z.leb_spec 0 p), (Z.ltb_spec p (Z.of_nat (length mask))); try lia.
  now rewrite !andb_true_r.
Qed.

Lemma zeroLabels_spread mask w h :
  0 < w -> Z.of_nat (length mask) = w * h ->
  zeroLabels (spread mask w h) w h = zeroLabels mask w h.
Proof.
  intros Hw Hl. unfold zeroLabels. apply map_ext_in. intros q Hq.
  apply in_range in Hq. rewrite spread_get by (assumption || lia).
  destruct (Js.eq (dget mask q) (Int 0)) eqn:E; cbn [negb andb];
    [now rewrite E|].
  destruct (besideForeground mask w h q); [reflexivity|now rewrite E].
Qed.

(** [connectForegroundRegions], cell by cell. *)
Lemma connect_cells (mask : list Z) (w h : Z) :
  0 < w -> 0 < h -> Z.of_nat (length mask) = w * h ->
  exists out,
    connectForegroundRegions mask w h = Some out
    /\ length out = length mask
    /\ forall p, 0 <= p < w * h ->
         (Js.eq (dget mask p) (Int 0) = false ->
          dget out p
          = if besideForeground mask w h p then Int 2 else dget mask p)
         /\ (Js.eq (dget mask p) (Int 0) = true ->
             exists R, isComponent (zeroLabels mask w h) w h p R
               /\ dget out p
                  = if negb (touches w h R) && (Z.of_nat (length R) <? 1000)
                    then Int 2 else Int 0).
Proof.
  intros Hw Hh Hl. rewrite connect_spread.
  destruct (fillHoles_cells (spread mask w h) w h Hw Hh) as (out & E & L & G).
  exists out. split; [exact E|].
  assert (Ls : length (spread mask w h) = length mask)
    by apply (proj1 (scatter_get _ _ _ _ _ _ _ 0)).
  split; [congruence|]. intros p Hp. specialize (G p).
  rewrite zeroLabels_spread in G by assumption.
  rewrite spread_get in G by assumption.
  destruct (Z.leb_spec 0 p), (Z.ltb_spec p (w * h)); try lia. cbn [andb] in G.
  destruct (Js.eq (dget mask p) (Int 0)) eqn:Ez; cbn [negb andb] in G.
  - rewrite Ez in G. split; [discriminate|]. intros _. exact G.
  - split; [|discriminate]. intros _.
    destruct (besideForeground mask w h p); cbn [Js.eq Z.eqb] in G.
    + exact G.
    + rewrite Ez in G. exact G.
Qed.

End ConnectFacts.

(* ================================================================== *)
(** ** createInitialMask and removeBackgroundPro *)
(* ================================================================== *)

Module InitialMask.
Import Js JsFacts BufferFacts PostProcess Segment ByteFacts Regions Morph
       HoleFacts ConnectFacts Refinement PostProcessFacts PostProcessor.

(** A mask of [n] labels. *)
Definition labelled (n : nat) (m : list Z) : Prop :=
  length m = n /\ Forall label m.

Lemma labelled_dset n m i v : label v -> labelled n m -> labelled n (dset m i v).
Proof.
  intros Hv [L F]. split; [now rewrite length_dset|now apply Forall_dset].
Qed.

Lemma fold_left_inv {A B} (P : A -> Prop) (f : A -> B -> A) l : forall a,
  P a -> (forall a b, P a -> P (f a b)) -> P (fold_left f l a).
Proof.
  induction l as [|b l IH]; intros a Ha H; cbn [fold_left]; [assumption|].
  apply IH; auto.
Qed.

Lemma labelled_newBytes n : labelled (Z.to_nat n) (newBytes n).
Proof.
  unfold newBytes. split; [apply repeat_length|].
  apply Forall_forall. intros v Hv. apply repeat_spec in Hv. subst. now left.
Qed.

Lemma connect_labelled m w h :
  0 < w -> 0 < h -> labelled (Z.to_nat (w * h)) m ->
  exists out, connectForegroundRegions m w h = Some out
              /\ labelled (Z.to_nat (w * h)) out.
Proof.
  intros Hw Hh [L F].
  assert (Hl : Z.of_nat (length m) = w * h) by (rewrite L; nia).
  destruct (connect_cells m w h Hw Hh Hl) as (out & E & Lo & G).
  exists out. split; [exact E|]. split; [congruence|].
  apply Forall_dget. intros q v Hv.
  destruct (Z.lt_ge_cases q 0) as [Hneg|Hpos].
  { rewrite dget_outside in Hv by lia. discriminate. }
  destruct (Z.lt_ge_cases q (w * h)) as [Hin|Hout].
  2:{ rewrite dget_outside in Hv by lia. discriminate. }
  destruct (G q (conj Hpos Hin)) as [G0 G1].
  destruct (Js.eq (dget m q) (Int 0)) eqn:Ez.
  - destruct (G1 eq_refl) as (R & _ & Ed). rewrite Ed in Hv.
    destruct (negb (touches w h R) && (Z.of_nat (length R) <? 1000));
      injection Hv as <-; unfold label; auto.
  - rewrite (G0 eq_refl) in Hv.
    destruct (besideForeground m w h q).
    + injection Hv as <-. unfold label. auto.
    + destruct (dget_Forall label m q F) as (u & Eu & Hu); [lia|].
      rewrite Eu in Hv. injection Hv as <-. exact Hu.
Qed.

Lemma detectClothingAndText_labelled m data w h :
  0 < w -> 0 < h -> labelled (Z.to_nat (w * h)) m ->
  exists out, detectClothingAndText m data w h = Some out
              /\ labelled (Z.to_nat (w * h)) out.
Proof.
  intros Hw Hh Hm. unfold detectClothingAndText. cbv zeta.
  apply connect_labelled; try assumption.
  apply forZ_inv.
  - apply forZ_inv; [assumption|]. intros y t _ Ht.
    apply forZ_inv; [assumption|]. intros x s _ Hs.
    destruct (Js.eq (dget s (y * w + x)) (Int 0)); [assumption|].
    destruct (existsb _ _); [|assumption].
    apply fold_left_inv.
    + apply labelled_dset; [unfold label; auto|assumption].
    + intros a [nx ny] Ha.
      destruct (negb (Js.eq (dget a (ny * w + nx)) (Int 3))); [|assumption].
      apply labelled_dset; [unfold label; auto|assumption].
  - intros y t _ Ht.
    apply forZ_inv; [assumption|]. intros x s _ Hs.
    destruct (Js.eq (dget s (y * w + x)) (Int 0)
              || Js.eq (dget s (y * w + x)) (Int 3)); [assumption|].
    destruct (isPartOfUniformRegion data x y w h); [|assumption].
    apply labelled_dset; [unfold label; auto|assumption].
Qed.

(** [createInitialMask] returns, with one label per pixel. *)
Lemma createInitialMask_labelled data w h :
  0 < w -> 0 < h ->
  exists mask, createInitialMask data w h = Some mask
               /\ labelled (Z.to_nat (w * h)) mask.
Proof.
  intros Hw Hh. unfold createInitialMask. cbv zeta.
  apply detectClothingAndText_labelled; try assumption.
  apply forZ_inv.
  - apply forZ_inv; [apply labelled_newBytes|]. intros y t _ Ht.
    apply forZ_inv; [assumption|]. intros x s _ Hs.
    destruct (_ || _); apply labelled_dset; unfold label; auto.
  - intros i t _ Ht.
    destruct (Js.eq (dget t i) (Int 0)); [assumption|].
    destruct (existsb _ _); [|assumption].
    apply labelled_dset; [unfold label; auto|assumption].
Qed.

(** X12: [createInitialMask] returns, for every buffer and all positive
    dimensions, a mask with one entry per pixel, each of them 0, 2 or 3. *)
Theorem createInitialMask_labels (data : list Z) (w h : Z) :
  0 < w -> 0 < h ->
  exists mask,
    createInitialMask data w h = Some mask
    /\ length mask = Z.to_nat (w * h)
    /\ Forall label mask.
Proof.
  intros Hw Hh.
  destruct (createInitialMask_labelled data w h Hw Hh) as (mask & E & L & F).
  now exists mask.
Qed.

Lemma createInitialMask_labels_witness :
  exists mask,
    createInitialMask (concat (repeat [10; 20; 30; 255] 6)) 3 2 = Some mask
    /\ length mask = Z.to_nat (3 * 2)
    /\ Forall label mask.
Proof.
  apply (createInitialMask_labels (concat (repeat [10; 20; 30; 255] 6)) 3 2); lia.
Defined.

(** X13: [removeBackgroundPro] returns on every buffer of four bytes
    per pixel (the searches inside it end), with the length and the red,
    green and blue bytes of the input unchanged. *)
Theorem removeBackgroundPro_keeps_rgb (data : list Z) (w h : Z) :
  0 < w -> 0 < h -> Z.of_nat (length data) = 4 * (w * h) ->
  exists out, removeBackgroundPro data w h = Some out /\ sameRGB data out.
Proof.
  intros Hw Hh Hlen. unfold removeBackgroundPro.
  destruct (createInitialMask_labelled data w h Hw Hh) as (mask & -> & _).
  cbv zeta.
  set (mask' := refineSegmentation mask data w h).
  pose proof (applyMaskToImage_sameRGB mask' data w h) as Hm.
  set (d1 := applyMaskToImage mask' data w h) in *.
  assert (Hlen1 : Z.of_nat (length d1) = 4 * (w * h))
    by (destruct Hm as [L _]; now rewrite L).
  destruct (removeSmallRegions_swept (transparentMaskOf d1 w h) w h Hw Hh
              (transparentMaskOf_bits d1 w h) d1 Hlen1) as (V & d2 & E & _).
  unfold postProcessResult. rewrite E. eexists. split; [reflexivity|].
  apply (sameRGB_trans data d1); [assumption|].
  apply (sameRGB_trans d1 d2);
    [exact (removeSmallRegions_sameRGB _ d1 w h d2 E)|apply smoothEdges_sameRGB].
Qed.

Lemma removeBackgroundPro_keeps_rgb_witness :
  exists out,
    removeBackgroundPro (concat (repeat [10; 20; 30; 255] 6)) 3 2 = Some out
    /\ sameRGB (concat (repeat [10; 20; 30; 255] 6)) out.
Proof.
  apply (removeBackgroundPro_keeps_rgb (concat (repeat [10; 20; 30; 255] 6)) 3 2);
    try lia. reflexivity.
Defined.

End InitialMask.

(* ================================================================== *)
(** ** Regions of an image of one label *)
(* ================================================================== *)

Module EdgeReach.
Import Js JsFacts BufferFacts PostProcess Regions.

(** In a row of one label, every pixel is connected to the first of the
    row. *)
Lemma walk_left T w h p :
  0 < w -> 0 <= p < w * h ->
  (forall q, 0 <= q < w * h -> isT T q = isT T p) ->
  forall k : nat, Z.of_nat k <= p mod w -> conn T w h p (p - Z.of_nat k).
Proof.
  intros Hw Hp Hsame. induction k as [|k IH]; intros Hk.
  - replace (p - Z.of_nat 0) with p by lia. constructor.
  - assert (Hk' : Z.of_nat k <= p mod w) by lia. specialize (IH Hk').
    pose proof (Z.div_mod p w ltac:(lia)) as Hdm.
    pose proof (Z.mod_pos_bound p w Hw) as Hmb.
    assert (Hrow : 0 <= p / w < h).
    { split; [apply Z.div_pos; lia|]. apply Z.div_lt_upper_bound; lia. }
    set (q := p - Z.of_nat k) in *.
    assert (Eq : q = (p / w) * w + (p mod w - Z.of_nat k)) by (subst q; lia).
    assert (Hqm : q mod w = p mod w - Z.of_nat k)
      by (rewrite Eq; apply index_mod; lia).
    assert (Hqd : q / w = p / w) by (rewrite Eq; apply index_div; lia).
    apply (conn_step T w h p q).
    + exact IH.
    + exists (-1), 0. split; [apply in_directions; lia|].
      rewrite Hqm, Hqd. repeat split; try lia.
    + apply Hsame. nia.
Qed.

(** A region that is the whole image touches the edge. *)
Lemma whole_image_touches T w h p R :
  0 < w -> 0 <= p < w * h ->
  (forall q, 0 <= q < w * h -> isT T q = isT T p) ->
  isComponent T w h p R -> touches w h R = true.
Proof.
  intros Hw Hp Hsame [_ HR].
  pose proof (Z.mod_pos_bound p w Hw) as Hmb.
  pose proof (walk_left T w h p Hw Hp Hsame (Z.to_nat (p mod w))) as Hc.
  rewrite Z2Nat.id in Hc by lia. specialize (Hc (Z.le_refl _)).
  unfold touches. apply existsb_exists. exists (p - p mod w).
  split; [now apply HR|].
  unfold onEdge.
  replace (p - p mod w) with ((p / w) * w + 0)
    by (pose proof (Z.div_mod p w ltac:(lia)); lia).
  rewrite index_mod by lia. reflexivity.
Qed.

End EdgeReach.

(* ================================================================== *)
(** ** applyMaskToImage and smoothEdges, byte by byte *)
(* ================================================================== *)

Module AlphaFacts.
Import Js JsFacts BufferFacts PostProcess Segment ByteFacts Regions
       PostProcessFacts.

(** [applyMaskToImage], byte by byte. *)
Lemma applyMaskToImage_get mask data w h :
  length (applyMaskToImage mask data w h) = length data
  /\ forall j,
       dget (applyMaskToImage mask data w h) j
       = if (j mod 4 =? 3) && (0 <=? j) && (j <? Z.of_nat (length data))
            && (j / 4 <? w * h) && Js.eq (dget mask (j / 4)) (Int 0)
         then Int 0 else dget data j.
Proof.
  unfold applyMaskToImage. cbv zeta.
  destruct (Z.le_gt_cases 0 (w * h)) as [Hn|Hn].
  2:{ rewrite forZ_nil by lia. split; [reflexivity|]. intros j.
      destruct (Z.eqb_spec (j mod 4) 3); cbn [andb]; [|reflexivity].
      destruct (Z.leb_spec 0 j); cbn [andb]; [|reflexivity].
      destruct (Z.ltb_spec (j / 4) (w * h));
        [exfalso; Z.div_mod_to_equations; lia|].
      now rewrite andb_false_r. }
  apply (forZ_ind (fun k s => length s = length data /\ forall j, dget s j
       = if (j mod 4 =? 3) && (0 <=? j) && (j <? Z.of_nat (length data))
            && (j / 4 <? k) && Js.eq (dget mask (j / 4)) (Int 0)
         then Int 0 else dget data j)); [assumption| |].
  - split; [reflexivity|]. intros j.
    destruct (Z.eqb_spec (j mod 4) 3); cbn [andb]; [|reflexivity].
    destruct (Z.leb_spec 0 j); cbn [andb]; [|reflexivity].
    destruct (Z.ltb_spec (j / 4) 0); [exfalso; Z.div_mod_to_equations; lia|].
    now rewrite andb_false_r.
  - intros k s Hk [Hl IH].
    destruct (Js.eq (dget mask k) (Int 0)) eqn:Em.
    + split; [now rewrite length_dset|]. intros j.
      rewrite dget_dset, Hl, IH.
      destruct (Z.eqb_spec j (k * 4 + 3)) as [->|Hne]; cbn [andb].
      * replace ((k * 4 + 3) mod 4) with 3 by (Z.div_mod_to_equations; lia).
        replace ((k * 4 + 3) / 4) with k by (Z.div_mod_to_equations; lia).
        rewrite Em.
        destruct (Z.leb_spec 0 (k * 4 + 3)),
          (Z.ltb_spec (k * 4 + 3) (Z.of_nat (length data))),
          (Z.ltb_spec k k), (Z.ltb_spec k (k + 1)); cbn [andb];
          try reflexivity; lia.
      * destruct (Z.eqb_spec (j mod 4) 3); cbn [andb]; [|reflexivity].
        assert (j / 4 <> k) by (Z.div_mod_to_equations; lia).
        destruct (Z.ltb_spec (j / 4) k), (Z.ltb_spec (j / 4) (k + 1));
          try reflexivity; lia.
    + split; [assumption|]. intros j. rewrite IH.
      destruct (Z.ltb_spec (j / 4) k), (Z.ltb_spec (j / 4) (k + 1));
        try reflexivity; try lia.
      assert (j / 4 = k) as -> by lia. rewrite Em.
      now rewrite !andb_false_r.
Qed.

(** The alpha of pixel [q], as a byte. *)
Definition alphaByte (data : list Z) (q : Z) : Z := toByte (dget data (q * 4 + 3)).

(** Pixel [q] has a neighbour on the other side of transparency. *)
Definition atEdge (data : list Z) (w h q : Z) : bool :=
  existsb (fun '(nx, ny) =>
             let ni := ny * w + nx in
             ((alphaByte data q =? 0) && (0 <? alphaByte data ni))
             || ((0 <? alphaByte data q) && (alphaByte data ni =? 0)))
          (Detect.neighborhood 1 w h (q mod w) (q / w)).

(** The copy of the alpha channel [smoothEdges] reads. *)
Definition tempAlphaOf (data : list Z) (w h : Z) : list Z :=
  forZ 0 (w * h) (fun i tempAlpha =>
    dset tempAlpha i (toByte (dget data (i * 4 + 3)))) (newBytes (w * h)).

Lemma tempAlphaOf_get data w h q :
  0 <= q < w * h -> dget (tempAlphaOf data w h) q = Int (alphaByte data q).
Proof.
  intros Hq. unfold tempAlphaOf.
  destruct (sweep_get (fun i _ => Some (toByte (dget data (i * 4 + 3))))
              (w * h) (newBytes (w * h))) as [_ G].
  cbv zeta in G. rewrite G. unfold newBytes at 1. rewrite repeat_length.
  destruct (Z.leb_spec 0 q), (Z.ltb_spec q (w * h)),
    (Z.ltb_spec q (Z.of_nat (Z.to_nat (w * h)))); try lia. reflexivity.
Qed.

Lemma existsb_same_in {A} (f g : A -> bool) l :
  (forall x, In x l -> f x = g x) -> existsb f l = existsb g l.
Proof.
  induction l as [|x l IH]; intros H; cbn [existsb]; [reflexivity|].
  rewrite H by now left. rewrite IH; [reflexivity|].
  intros y Hy. apply H. now right.
Qed.

Lemma neighborhood_coordinates rad w h x y nx ny :
  In (nx, ny) (Detect.neighborhood rad w h x y) -> 0 <= nx < w /\ 0 <= ny < h.
Proof.
  unfold Detect.neighborhood. intros H. apply filter_In in H.
  destruct H as [_ H]. unfold Detect.inImage in H.
  rewrite !andb_true_iff in H. destruct H as [[[H1 H2] H3] H4].
  apply Z.leb_le in H1, H3. apply Z.ltb_lt in H2, H4. lia.
Qed.

(** [smoothEdges] leaves the alpha of a pixel that is not at an edge of
    transparency. *)
Lemma smoothEdges_flat data w h :
  0 < w -> 0 < h ->
  sameRGB data (smoothEdges data w h)
  /\ forall q, 0 <= q < w * h -> atEdge data w h q = false ->
       dget (smoothEdges data w h) (q * 4 + 3) = dget data (q * 4 + 3).
Proof.
  intros Hw Hh. split; [apply smoothEdges_sameRGB|].
  unfold smoothEdges. cbv zeta. fold (tempAlphaOf data w h).
  apply (forZ_inv (fun s => forall q, 0 <= q < w * h -> atEdge data w h q = false ->
                     dget s (q * 4 + 3) = dget data (q * 4 + 3))); [reflexivity|].
  intros y t Hy Ht.
  apply (forZ_inv (fun s => forall q, 0 <= q < w * h -> atEdge data w h q = false ->
                     dget s (q * 4 + 3) = dget data (q * 4 + 3))); [assumption|].
  intros x s Hx Hs.
  assert (Hi : 0 <= y * w + x < w * h) by nia.
  assert (E : existsb (fun '(nx, ny) =>
                (Js.eq (dget (tempAlphaOf data w h) (y * w + x)) (Int 0)
                 && Js.gt (dget (tempAlphaOf data w h) (ny * w + nx)) (Int 0))
                || (Js.gt (dget (tempAlphaOf data w h) (y * w + x)) (Int 0)
                    && Js.eq (dget (tempAlphaOf data w h) (ny * w + nx)) (Int 0)))
              (Detect.neighborhood 1 w h x y)
            = atEdge data w h (y * w + x)).
  { unfold atEdge. rewrite index_mod, index_div by lia.
    apply existsb_same_in. intros [nx ny] Hn.
    apply neighborhood_coordinates in Hn. cbv zeta.
    rewrite !tempAlphaOf_get by nia. reflexivity. }
  rewrite E. destruct (atEdge data w h (y * w + x)) eqn:Ee; cbn [negb];
    [|assumption].
  destruct (fold_left _ _ _) as [sum count].
  intros q Hq Hf. rewrite dget_dset.
  destruct (Z.eqb_spec (q * 4 + 3) ((y * w + x) * 4 + 3)) as [Eq|_];
    [|now apply Hs].
  assert (q = y * w + x) by lia. congruence.
Qed.

End AlphaFacts.

(* ================================================================== *)
(** ** Images at most twenty pixels wide or high *)
(* ================================================================== *)

Module SmallImages.
Import Js JsFacts BufferFacts PostProcess Segment ByteFacts Regions
       PostProcessFacts PostProcessor HoleFacts ConnectFacts Refinement
       EdgeReach AlphaFacts.

Lemma edgeWidth_small m :
  1 <= m < 21 -> max (Int 10) (floor (Js.mul (Int m) (Flt 0.03))) = Int 10.
Proof.
  intros Hm.
  assert (E : forall m, 1 <= m < 21 ->
            match max (Int 10) (floor (Js.mul (Int m) (Flt 0.03))) with
            | Int 10 => true
            | _ => false
            end = true) by (apply enumerate; vm_compute; reflexivity).
  specialize (E m Hm).
  destruct (max (Int 10) (floor (Js.mul (Int m) (Flt 0.03)))) as [z|f];
    [|discriminate].
  destruct z as [|p|p]; try discriminate.
  do 4 (destruct p as [p|p|]; try discriminate). reflexivity.
Qed.

Section Small.

Variables (data : list Z) (w h : Z).
Hypothesis w_pos : 0 < w.
Hypothesis h_pos : 0 < h.
Hypothesis small : w <= 20 \/ h <= 20.

Let zeros := newBytes (w * h).

Lemma zeros_get q : 0 <= q < w * h -> dget zeros q = Int 0.
Proof.
  intros Hq. unfold zeros. rewrite dget_newBytes.
  destruct (Z.leb_spec 0 q), (Z.ltb_spec q (w * h)); try lia. reflexivity.
Qed.

Lemma zeros_length : Z.of_nat (length zeros) = w * h.
Proof. unfold zeros, newBytes. rewrite repeat_length. nia. Qed.

Lemma zeros_only q v : dget zeros q = Int v -> v = 0.
Proof.
  unfold zeros. rewrite dget_newBytes.
  destruct ((0 <=? q) && (q <? w * h)); [congruence|discriminate].
Qed.

Lemma equals_zeros m :
  length m = length zeros -> (forall q, 0 <= q < w * h -> dget m q = Int 0) ->
  m = zeros.
Proof.
  intros Hl H. apply Brush.dget_ext. intros q Hq.
  destruct (Z.lt_ge_cases q (w * h)).
  - rewrite H, zeros_get by lia. reflexivity.
  - pose proof zeros_length. rewrite !dget_outside by lia. reflexivity.
Qed.

Lemma connect_zeros : connectForegroundRegions zeros w h = Some zeros.
Proof.
  destruct (connect_cells zeros w h w_pos h_pos zeros_length)
    as (out & E & L & G).
  rewrite E. f_equal. apply equals_zeros; [exact L|]. intros q Hq.
  destruct (G q Hq) as [_ G1].
  destruct G1 as (R & HR & Ed); [now rewrite zeros_get|].
  rewrite Ed.
  rewrite (whole_image_touches (zeroLabels zeros w h) w h q R w_pos Hq);
    [reflexivity| |exact HR].
  intros q' Hq'. rewrite !isT_zeroLabels by assumption.
  now rewrite !zeros_get.
Qed.

Lemma detectClothingAndText_zeros :
  detectClothingAndText zeros data w h = Some zeros.
Proof.
  unfold detectClothingAndText. cbv zeta.
  assert (E1 : forZ 1 (h - 1) (fun y mask =>
      forZ 1 (w - 1) (fun x mask =>
        if Js.eq (dget mask (y * w + x)) (Int 0) then mask
        else
          if existsb (fun '(nx, ny) =>
               Js.gt (getColorDistance (colorAt data ((y * w + x) * 4))
                                       (colorAt data ((ny * w + nx) * 4))) (Int 60))
               (Detect.neighborhood 1 w h x y)
          then
            fold_left (fun mask '(nx, ny) =>
                if negb (Js.eq (dget mask (ny * w + nx)) (Int 3))
                then dset mask (ny * w + nx) 2 else mask)
              (Detect.neighborhood 2 w h x y) (dset mask (y * w + x) 3)
          else mask) mask) zeros = zeros).
  { apply (forZ_inv (fun s => s = zeros)); [reflexivity|]. intros y t Hy ->.
    apply (forZ_inv (fun s => s = zeros)); [reflexivity|]. intros x s Hx ->.
    now rewrite zeros_get by nia. }
  rewrite E1.
  assert (E2 : forZ 0 h (fun y mask =>
      forZ 0 w (fun x mask =>
        if Js.eq (dget mask (y * w + x)) (Int 0)
           || Js.eq (dget mask (y * w + x)) (Int 3) then mask
        else if isPartOfUniformRegion data x y w h
             then dset mask (y * w + x) 3 else mask) mask) zeros = zeros).
  { apply (forZ_inv (fun s => s = zeros)); [reflexivity|]. intros y t Hy ->.
    apply (forZ_inv (fun s => s = zeros)); [reflexivity|]. intros x s Hx ->.
    now rewrite zeros_get by nia. }
  rewrite E2. apply connect_zeros.
Qed.

Lemma createInitialMask_zeros : createInitialMask data w h = Some zeros.
Proof.
  unfold createInitialMask. cbv zeta.
  rewrite edgeWidth_small by lia. fold zeros.
  assert (E1 : forZ 0 h (fun y mask =>
      forZ 0 w (fun x mask =>
        if Js.lt (Int x) (Int 10) || Js.ge (Int x) (Js.sub (Int w) (Int 10))
           || Js.lt (Int y) (Int 10) || Js.ge (Int y) (Js.sub (Int h) (Int 10))
        then dset mask (y * w + x) 0 else dset mask (y * w + x) 2) mask) zeros
      = zeros).
  { apply (forZ_inv (fun s => s = zeros)); [reflexivity|]. intros y t Hy ->.
    apply (forZ_inv (fun s => s = zeros)); [reflexivity|]. intros x s Hx ->.
    cbn [Js.lt Js.ge Js.le Js.sub].
    replace ((x <? 10) || (w - 10 <=? x) || (y <? 10) || (h - 10 <=? y))
      with true.
    - apply dset_same. apply zeros_get. nia.
    - symmetry. rewrite !orb_true_iff.
      destruct (Z.ltb_spec x 10), (Z.leb_spec (w - 10) x),
        (Z.ltb_spec y 10), (Z.leb_spec (h - 10) y); auto; lia. }
  rewrite E1.
  assert (E2 : forall edgeColors, forZ 0 (w * h) (fun i mask =>
      if Js.eq (dget mask i) (Int 0) then mask
      else if existsb (fun edgeColor =>
                 Js.lt (getColorDistance (colorAt data (i * 4)) edgeColor) (Int 30))
                edgeColors
           then dset mask i 0 else mask) zeros = zeros).
  { intros edgeColors.
    apply (forZ_inv (fun s => s = zeros)); [reflexivity|]. intros i t Hi ->.
    now rewrite zeros_get by lia. }
  rewrite E2. apply detectClothingAndText_zeros.
Qed.

Lemma refineSegmentation_zeros : refineSegmentation zeros data w h = zeros.
Proof.
  unfold refineSegmentation.
  destruct (colorModels zeros data w h) as [fgColors bgColors].
  set (fg := clusterColors fgColors (Int 25) 10).
  set (bg := clusterColors bgColors (Int 25) 10).
  destruct (settle_get fg bg zeros data w h) as [L G].
  assert (E : settle fg bg zeros data w h = zeros).
  { apply equals_zeros; [exact L|]. intros q Hq. rewrite G, zeros_get by lia.
    cbn [Js.eq Z.eqb]. now rewrite andb_false_r. }
  rewrite E. apply coherence_identity.
  intros q v Hv. apply zeros_only in Hv. subst. now left.
Qed.

Hypothesis data_len : Z.of_nat (length data) = 4 * (w * h).

(** An image at most 20 pixels wide or high loses every pixel. *)
Lemma removeBackgroundPro_small :
  exists out,
    removeBackgroundPro data w h = Some out
    /\ sameRGB data out
    /\ forall p, 0 <= p < w * h -> dget out (p * 4 + 3) = Int 0.
Proof.
  unfold removeBackgroundPro. rewrite createInitialMask_zeros. cbv zeta.
  rewrite refineSegmentation_zeros.
  pose proof (applyMaskToImage_sameRGB zeros data w h) as Hm.
  destruct (applyMaskToImage_get zeros data w h) as [_ G1].
  set (d1 := applyMaskToImage zeros data w h) in *.
  assert (Hlen1 : Z.of_nat (length d1) = 4 * (w * h))
    by (destruct Hm as [L _]; now rewrite L).
  assert (A1 : forall p, 0 <= p < w * h -> dget d1 (p * 4 + 3) = Int 0).
  { intros p Hp. rewrite G1.
    replace ((p * 4 + 3) mod 4) with 3 by (Z.div_mod_to_equations; lia).
    replace ((p * 4 + 3) / 4) with p by (Z.div_mod_to_equations; lia).
    rewrite zeros_get by assumption.
    destruct (Z.leb_spec 0 (p * 4 + 3)),
      (Z.ltb_spec (p * 4 + 3) (Z.of_nat (length data))),
      (Z.ltb_spec p (w * h)); try lia. reflexivity. }
  set (T := transparentMaskOf d1 w h).
  destruct (removeSmallRegions_swept T w h w_pos h_pos
              (transparentMaskOf_bits d1 w h) d1 Hlen1) as (V & d2 & E & O).
  unfold postProcessResult. fold T. rewrite E. eexists. split; [reflexivity|].
  pose proof (removeSmallRegions_sameRGB _ d1 w h d2 E) as H12.
  assert (A2 : forall p, 0 <= p < w * h -> dget d2 (p * 4 + 3) = Int 0).
  { intros p Hp.
    assert (Hv : vis V p = true) by (apply (o_below _ _ _ _ _ _ _ O); lia).
    destruct (o_done _ _ _ _ _ _ _ O p Hp Hv) as (R & HR & Ed).
    rewrite Ed. unfold outcome.
    rewrite (whole_image_touches T w h p R w_pos Hp); [now apply A1| |exact HR].
    intros q Hq. unfold T. rewrite !isT_transparentMaskOf by assumption.
    now rewrite !A1. }
  destruct (smoothEdges_flat d2 w h w_pos h_pos) as [H23 G3].
  split.
  - apply (sameRGB_trans data d1); [assumption|].
    now apply (sameRGB_trans d1 d2).
  - intros p Hp. rewrite G3; [now apply A2|assumption|].
    unfold atEdge. apply not_true_is_false. intros Hex.
    apply existsb_exists in Hex. destruct Hex as ([nx ny] & Hn & Hc).
    apply neighborhood_coordinates in Hn. cbv zeta in Hc. unfold alphaByte in Hc.
    rewrite !A2 in Hc by (assumption || nia). discriminate.
Qed.

End Small.

End SmallImages.

(* ================================================================== *)
(** ** Images inside the forced border *)
(* ================================================================== *)

Module NarrowImages.
Import Js Morph Compose Pipeline JsFacts MorphFacts Compositor Removal.

(** X14: an image at most ten pixels wide or at most ten pixels high
    lies inside the forced border altogether: whatever its content, the
    final mask of [improvedBackgroundDetection] marks every pixel, and
    [removeBackground] sets every alpha byte of the buffer to 0. *)
Theorem narrow_image_removed (data : list Z) (w h : Z) :
  0 < w -> 0 < h -> w <= 2 * edgeWidth \/ h <= 2 * edgeWidth ->
  exists mask out,
    improvedBackgroundDetection data w h = Some mask
    /\ removeBackground data w h = Some out
    /\ (forall p, 0 <= p < w * h -> aget mask p = true)
    /\ (forall p, 0 <= p < w * h -> p * 4 + 3 < Z.of_nat (length data) ->
          dget out (p * 4 + 3) = Int 0).
Proof.
  intros Hw Hh Hsmall. unfold removeBackground, improvedBackgroundDetection.
  destruct (refineCompositeMask_final
              (Color.createInitialBackgroundMask data w h
                 (Color.findDominantColors (Color.sampleEdgesOnly data w h)))
              (Detect.detectSkinTones data w h) (Detect.detectClothing data w h)
              data w h) as (m0 & E).
  rewrite E. eexists. eexists. split; [reflexivity|]. split; [reflexivity|].
  assert (Hall : forall p, 0 <= p < w * h ->
                   aget (ensureEdgesRemoved m0 w h) p = true).
  { intros p Hp. rewrite ensureEdgesRemoved_get by lia.
    pose proof (Z.mod_pos_bound p w Hw) as Hm.
    assert (Hd : 0 <= p / w < h).
    { split; [apply Z.div_pos; lia|]. apply Z.div_lt_upper_bound; lia. }
    replace ((0 <? w) && (p / w <? h) && inBand w h (p mod w) (p / w)) with true;
      [reflexivity|].
    symmetry. rewrite !andb_true_iff. repeat split.
    - apply Z.ltb_lt. lia.
    - apply Z.ltb_lt. lia.
    - unfold inBand, edgeWidth in *. rewrite !Z.geb_leb, !orb_true_iff.
      destruct (Z.ltb_spec (p mod w) 5), (Z.leb_spec (w - 5) (p mod w)),
        (Z.ltb_spec (p / w) 5), (Z.leb_spec (h - 5) (p / w)); auto; lia. }
  split; [exact Hall|]. intros p Hp Hlen.
  rewrite (proj2 (applyMask_get _ data)).
  replace ((p * 4 + 3) mod 4) with 3 by (Z.div_mod_to_equations; lia).
  replace ((p * 4 + 3) / 4) with p by (Z.div_mod_to_equations; lia).
  rewrite Hall by assumption.
  destruct (Z.leb_spec 0 (p * 4 + 3)),
    (Z.ltb_spec (p * 4 + 3) (Z.of_nat (length data))); try lia. reflexivity.
Qed.

Lemma narrow_image_removed_witness :
  exists mask out,
    improvedBackgroundDetection [10; 20; 30; 255; 40; 50; 60; 255] 2 1 = Some mask
    /\ removeBackground [10; 20; 30; 255; 40; 50; 60; 255] 2 1 = Some out
    /\ (forall p, 0 <= p < 2 * 1 -> aget mask p = true)
    /\ (forall p, 0 <= p < 2 * 1 -> p * 4 + 3 < 8 ->
          dget out (p * 4 + 3) = Int 0).
Proof.
  apply (narrow_image_removed [10; 20; 30; 255; 40; 50; 60; 255] 2 1);
    unfold edgeWidth; lia.
Defined.

End NarrowImages.

(* ================================================================== *)
(** ** The flood fill of the compositor, exactly *)
(* ================================================================== *)

Module FloodFacts.
Import Js Morph Compose JsFacts Compositor Regions.

Section Flood.

Variables (m : list bool) (w h : Z).
Hypothesis w_pos : 0 < w.
Hypothesis h_pos : 0 < h.

(** A pixel the fill starts from: on the edge of the image and marked. *)
Definition isSeed (s : Z) : Prop :=
  0 <= s < w * h /\ onEdge w h s = true /\ aget m s = true.

(** The pixels the fill reaches: unmarked, and linked to a seed by a path
    of unmarked pixels, each next to the one before. *)
Inductive floods : Z -> Prop :=
| floods_seed s q :
    isSeed s -> adj w h s q -> aget m q = false -> floods q
| floods_step c q :
    floods c -> adj w h c q -> aget m q = false -> floods q.

Lemma floods_unmarked q : floods q -> aget m q = false /\ 0 <= q < w * h.
Proof.
  intros H. destruct H as [s q _ Ha Hm|c q _ Ha Hm];
    (split; [assumption|now apply (adj_inGrid w h w_pos) in Ha]).
Qed.

Lemma in_snoc {A} (l : list A) x y : In y (l ++ [x]) <-> In y l \/ y = x.
Proof.
  rewrite in_app_iff. cbn. intuition.
Qed.

Lemma in_push (b : bool) (Q : list Z) x s :
  In s (if b then Q ++ [x] else Q) <-> In s Q \/ (b = true /\ s = x).
Proof.
  destruct b; [rewrite in_snoc|]; intuition congruence.
Qed.

(** The seeds of row 0 and row [h - 1], then those of column 0 and column
    [w - 1]. *)
Lemma seeds_members s :
  In s (seeds m w h) <->
  (exists x, 0 <= x < w /\ ((aget m x = true /\ s = x)
             \/ (aget m ((h - 1) * w + x) = true /\ s = (h - 1) * w + x)))
  \/ (exists y, 0 <= y < h /\ ((aget m (y * w) = true /\ s = y * w)
             \/ (aget m (y * w + w - 1) = true /\ s = y * w + w - 1))).
Proof.
  unfold seeds. cbv zeta.
  set (top := forZ 0 w _ []).
  assert (Htop : forall s, In s top <->
            exists x, 0 <= x < w /\ ((aget m x = true /\ s = x)
             \/ (aget m ((h - 1) * w + x) = true /\ s = (h - 1) * w + x))).
  { subst top.
    apply (forZ_ind (fun k Q => forall s, In s Q <->
              exists x, 0 <= x < k /\ ((aget m x = true /\ s = x)
                \/ (aget m ((h - 1) * w + x) = true /\ s = (h - 1) * w + x))));
      [lia| |].
    - intros s'. split; [intros []|]. intros (x & Hx & _). lia.
    - intros k Q Hk IH s'. cbv zeta. rewrite !in_push, IH. split.
      + intros [[(x & Hx & H)|H]|H].
        * exists x. split; [lia|exact H].
        * exists k. split; [lia|now left].
        * exists k. split; [lia|now right].
      + intros (x & Hx & H). destruct (Z.eq_dec x k) as [->|Hne].
        * destruct H as [H|H]; [left; now right|now right].
        * left. left. exists x. split; [lia|exact H]. }
  apply (forZ_ind (fun k Q => forall s, In s Q <->
            (exists x, 0 <= x < w /\ ((aget m x = true /\ s = x)
               \/ (aget m ((h - 1) * w + x) = true /\ s = (h - 1) * w + x)))
            \/ (exists y, 0 <= y < k /\ ((aget m (y * w) = true /\ s = y * w)
               \/ (aget m (y * w + w - 1) = true /\ s = y * w + w - 1)))));
    [lia| |].
  - intros s'. rewrite Htop. split; [now left|].
    intros [H|(y & Hy & _)]; [assumption|lia].
  - intros k Q Hk IH s'. cbv zeta. rewrite !in_push, IH. split.
    + intros [[[H|(y & Hy & H)]|H]|H].
      * now left.
      * right. exists y. split; [lia|exact H].
      * right. exists k. split; [lia|now left].
      * right. exists k. split; [lia|now right].
    + intros [H|(y & Hy & H)]; [left; left; now left|].
      destruct (Z.eq_dec y k) as [->|Hne].
      * destruct H as [H|H]; [left; now right|now right].
      * left. left. right. exists y. split; [lia|exact H].
Qed.

Lemma seeds_spec s : In s (seeds m w h) <-> isSeed s.
Proof.
  rewrite seeds_members. unfold isSeed, onEdge. split.
  - intros [(x & Hx & [[Hm ->]|[Hm ->]])|(y & Hy & [[Hm ->]|[Hm ->]])].
    + split; [nia|]. split; [|assumption].
      replace x with (0 * w + x) by lia.
      rewrite index_mod, index_div by lia. cbn. now rewrite orb_true_r.
    + split; [nia|]. split; [|assumption].
      rewrite index_mod, index_div by lia. rewrite (Z.eqb_refl (h - 1)).
      now rewrite !orb_true_r.
    + split; [nia|]. split; [|assumption].
      replace (y * w) with (y * w + 0) by lia.
      rewrite index_mod by lia. reflexivity.
    + split; [nia|]. split; [|assumption].
      replace (y * w + w - 1) with (y * w + (w - 1)) by lia.
      rewrite index_mod by lia. rewrite (Z.eqb_refl (w - 1)).
      now rewrite orb_true_r.
  - intros (Hs & He & Hm).
    pose proof (Z.div_mod s w ltac:(lia)) as Hdm.
    pose proof (Z.mod_pos_bound s w w_pos) as Hmb.
    assert (Hrow : 0 <= s / w < h).
    { split; [apply Z.div_pos; lia|]. apply Z.div_lt_upper_bound; lia. }
    rewrite !orb_true_iff in He. destruct He as [[[He|He]|He]|He];
      apply Z.eqb_eq in He.
    + right. exists (s / w). split; [assumption|]. left.
      assert (E : s / w * w = s) by lia. rewrite E. now split.
    + right. exists (s / w). split; [assumption|]. right.
      assert (E : s / w * w + w - 1 = s) by lia. rewrite E. now split.
    + left. exists (s mod w). split; [assumption|]. left.
      assert (E : s mod w = s) by (rewrite He in Hdm; lia). rewrite E. now split.
    + left. exists (s mod w). split; [assumption|]. right.
      assert (E : (h - 1) * w + s mod w = s) by (rewrite He in Hdm; lia).
      rewrite E. now split.
Qed.

Lemma adj_neighbors c q :
  adj w h c q <->
  exists nx ny, In (nx, ny) (neighbors4 (c mod w) (c / w))
                /\ inGrid w h nx ny = true /\ q = ny * w + nx.
Proof.
  unfold adj, neighbors4. split.
  - intros (dx & dy & Hd & Hx & Hy & ->).
    exists (c mod w + dx), (c / w + dy). split; [|split; [|reflexivity]].
    + apply in_directions in Hd. cbn [In].
      destruct Hd as [[-> ->]|[[-> ->]|[[-> ->]|[-> ->]]]];
        rewrite ?Z.add_0_r; auto 6.
    + apply inGrid_bounds. lia.
  - intros (nx & ny & Hn & Hg & ->). apply inGrid_bounds in Hg.
    cbn [In] in Hn.
    destruct Hn as [Hn|[Hn|[Hn|[Hn|[]]]]]; injection Hn as <- <-.
    + exists 1, 0. rewrite in_directions. repeat split; try lia.
    + exists (-1), 0. rewrite in_directions. repeat split; try lia.
    + exists 0, 1. rewrite in_directions. repeat split; try lia.
    + exists 0, (-1). rewrite in_directions. repeat split; try lia.
Qed.

(** The state of the fill: what is true is marked or reached, and what is
    queued will flood its neighbours. *)
Record flooding (r : list bool) (Q : list Z) : Prop := {
  f_mono : forall q, aget m q = true -> aget r q = true;
  f_sound : forall q, aget r q = true -> aget m q = true \/ floods q;
  f_queue : forall c, In c Q -> 0 <= c < w * h /\ (isSeed c \/ floods c);
  f_closed : forall c, isSeed c \/ (floods c /\ aget r c = true) ->
               ~ In c Q -> forall q, adj w h c q -> aget r q = true
}.

Lemma visit_flooding c r Q n :
  (isSeed c \/ floods c) ->
  In n (neighbors4 (c mod w) (c / w)) ->
  (forall q, aget m q = true -> aget r q = true) ->
  (forall q, aget r q = true -> aget m q = true \/ floods q) ->
  (forall c, In c Q -> 0 <= c < w * h /\ (isSeed c \/ floods c)) ->
  forall r' Q', visit w h (r, Q) n = (r', Q') ->
  (forall q, aget r' q = true -> aget m q = true \/ floods q)
  /\ (forall c, In c Q' -> 0 <= c < w * h /\ (isSeed c \/ floods c))
  /\ (forall q, aget r q = true -> aget r' q = true)
  /\ incl Q Q'
  /\ (forall q, aget r q = false -> aget r' q = true -> In q Q')
  /\ (inGrid w h (fst n) (snd n) = true -> aget r' (snd n * w + fst n) = true).
Proof.
  intros Hsrc Hn Hmono Hsound Hq r' Q' E. destruct n as [nx ny].
  unfold visit in E. cbn [fst snd].
  assert (Same : r' = r -> Q' = Q ->
            (inGrid w h nx ny = true -> aget r (ny * w + nx) = true) ->
            (forall q, aget r' q = true -> aget m q = true \/ floods q)
            /\ (forall c, In c Q' -> 0 <= c < w * h /\ (isSeed c \/ floods c))
            /\ (forall q, aget r q = true -> aget r' q = true)
            /\ incl Q Q'
            /\ (forall q, aget r q = false -> aget r' q = true -> In q Q')
            /\ (inGrid w h nx ny = true -> aget r' (ny * w + nx) = true)).
  { intros -> -> Hg. refine (conj _ (conj _ (conj _ (conj _ (conj _ _)))));
      auto using incl_refl. intros q H1 H2. congruence. }
  destruct (inGrid w h nx ny) eqn:Hg.
  2:{ injection E as <- <-. apply Same; auto. discriminate. }
  pose proof (inGrid_index w h nx ny Hg) as Hidx.
  destruct (aget r (ny * w + nx)) eqn:Hr; cbn [negb] in E.
  { injection E as <- <-. apply Same; auto. }
  injection E as <- <-. clear Same.
  assert (Hm : aget m (ny * w + nx) = false).
  { destruct (aget m (ny * w + nx)) eqn:Em; [|reflexivity].
    apply Hmono in Em. congruence. }
  assert (Hf : floods (ny * w + nx)).
  { assert (Ha : adj w h c (ny * w + nx)).
    { apply adj_neighbors. exists nx, ny. now repeat split. }
    destruct Hsrc as [Hs|Hs];
      [now apply (floods_seed c)|now apply (floods_step c)]. }
  refine (conj _ (conj _ (conj _ (conj _ (conj _ _))))).
  - intros q. rewrite aget_aset by lia.
    destruct (Z.eqb_spec q (ny * w + nx)) as [->|]; [now right|apply Hsound].
  - intros c' H. apply in_snoc in H. destruct H as [H| ->]; [now apply Hq|].
    split; [lia|now right].
  - intros q Hq'. rewrite aget_aset by lia.
    destruct (Z.eqb_spec q (ny * w + nx)); [reflexivity|assumption].
  - intros q Hq'. apply in_or_app. now left.
  - intros q H1 H2. rewrite aget_aset in H2 by lia.
    destruct (Z.eqb_spec q (ny * w + nx)) as [->|]; [|congruence].
    apply in_or_app. right. now left.
  - intros _. rewrite aget_aset by lia. now rewrite Z.eqb_refl.
Qed.

Lemma visits_flooding c : forall ns r Q,
  (isSeed c \/ floods c) ->
  incl ns (neighbors4 (c mod w) (c / w)) ->
  (forall q, aget m q = true -> aget r q = true) ->
  (forall q, aget r q = true -> aget m q = true \/ floods q) ->
  (forall c, In c Q -> 0 <= c < w * h /\ (isSeed c \/ floods c)) ->
  forall r' Q', fold_left (visit w h) ns (r, Q) = (r', Q') ->
  (forall q, aget r' q = true -> aget m q = true \/ floods q)
  /\ (forall c, In c Q' -> 0 <= c < w * h /\ (isSeed c \/ floods c))
  /\ (forall q, aget r q = true -> aget r' q = true)
  /\ incl Q Q'
  /\ (forall q, aget r q = false -> aget r' q = true -> In q Q')
  /\ (forall nx ny, In (nx, ny) ns -> inGrid w h nx ny = true ->
        aget r' (ny * w + nx) = true).
Proof.
  induction ns as [|n ns IH]; intros r Q Hsrc Hincl Hmono Hsound Hq r' Q' E;
    cbn [fold_left] in E.
  - injection E as <- <-.
    refine (conj _ (conj _ (conj _ (conj _ (conj _ _)))));
      auto using incl_refl.
    all: try (intros q H1 H2; congruence).
    all: try (intros nx ny []).
  - destruct (visit w h (r, Q) n) as [r1 Q1] eqn:E1.
    destruct (visit_flooding c r Q n Hsrc (Hincl n (or_introl eq_refl))
                Hmono Hsound Hq r1 Q1 E1) as (S1 & K1 & M1 & I1 & N1 & T1).
    destruct (IH r1 Q1 Hsrc (fun x Hx => Hincl x (or_intror Hx))
                (fun q Hq' => M1 q (Hmono q Hq')) S1 K1 r' Q' E)
      as (S2 & K2 & M2 & I2 & N2 & T2).
    refine (conj _ (conj _ (conj _ (conj _ (conj _ _))))); auto.
    + intros q Hq'. apply I2. now apply I1.
    + intros q H1 H2. destruct (aget r1 q) eqn:Er1.
      * apply I2. now apply N1.
      * now apply N2.
    + intros nx ny [->|Hin] Hg.
      * apply M2. now apply T1.
      * now apply T2.
Qed.

Lemma floodLoop_flooding : forall fuel r Q,
  flooding r Q -> (length Q + falsy r w h <= fuel)%nat ->
  exists r', floodLoop fuel w h r Q = Some r' /\ flooding r' [].
Proof.
  induction fuel as [|fuel IH]; intros r Q F Hf.
  - destruct Q as [|c Q]; cbn in Hf; [|lia]. exists r. now split.
  - destruct Q as [|c Q]; [exists r; now split|]. cbn [floodLoop].
    destruct (f_queue _ _ F c (or_introl eq_refl)) as [Hc Hsrc].
    rewrite Z.rem_mod_nonneg by lia.
    pose proof (visits_measure w h (neighbors4 (c mod w) (c / w)) r Q) as Hms.
    destruct (fold_left (visit w h) (neighbors4 (c mod w) (c / w)) (r, Q))
      as [r1 Q1] eqn:E.
    cbv beta iota in Hms. destruct Hms as [Hms _].
    destruct (visits_flooding c (neighbors4 (c mod w) (c / w)) r Q Hsrc
                (incl_refl _) (f_mono _ _ F) (f_sound _ _ F)
                (fun x Hx => f_queue _ _ F x (or_intror Hx)) r1 Q1 E)
      as (S1 & K1 & M1 & I1 & N1 & T1).
    apply IH; [|cbn [length] in Hf; lia].
    constructor.
    + intros q Hq. apply M1. now apply (f_mono _ _ F).
    + exact S1.
    + exact K1.
    + intros c' Hc' Hnot q Ha.
      destruct (Z.eq_dec c' c) as [->|Hne].
      * apply adj_neighbors in Ha. destruct Ha as (nx & ny & Hn & Hg & ->).
        now apply T1.
      * apply M1. apply (f_closed _ _ F c'); [| |assumption].
        -- destruct Hc' as [Hs|[Hfl Hr']]; [now left|]. right.
           split; [assumption|]. destruct (aget r c') eqn:Er; [reflexivity|].
           exfalso. apply Hnot. now apply N1.
        -- intros [H|H]; [congruence|]. apply Hnot. now apply I1.
Qed.

(** [floodFillBackground] returns, and what it returns is the mask and the
    pixels the seeds flood. *)
Lemma floodFillBackground_floods :
  exists r, floodFillBackground m w h = Some r
            /\ forall q, aget r q = true <-> aget m q = true \/ floods q.
Proof.
  unfold floodFillBackground, floodFuel.
  destruct (floodLoop_flooding
              (length (seeds m w h) + Z.to_nat (w * h)) m (seeds m w h))
    as (r & E & F).
  - constructor.
    + auto.
    + auto.
    + intros c Hc. apply seeds_spec in Hc. split; [apply Hc|now left].
    + intros c [Hs|[Hfl Hr]] Hnot.
      * exfalso. apply Hnot. now apply seeds_spec.
      * apply floods_unmarked in Hfl. destruct Hfl. congruence.
  - pose proof (falsy_bound m w h). lia.
  - exists r. split; [exact E|]. intros q. split; [apply (f_sound _ _ F)|].
    intros [Hm|Hfl]; [now apply (f_mono _ _ F)|].
    induction Hfl as [s q Hs Ha Hm|c q Hc IH Ha Hm].
    + apply (f_closed _ _ F s); auto.
    + apply (f_closed _ _ F c); auto.
Qed.

End Flood.

End FloodFacts.

(* ================================================================== *)
(** ** isPartOfLargeRegion counts a region *)
(* ================================================================== *)

Module LargeRegion.
Import Js Morph Compose JsFacts BufferFacts PostProcess Compositor Regions
       ByteFacts HoleFacts.

(** The mask as a list of labels: 1 on a marked pixel, 0 elsewhere. *)
Definition markLabels (mask : list bool) (w h : Z) : list Z :=
  map (fun q => if aget mask q then 1 else 0) (range 0 (w * h)).

Lemma dget_markLabels mask w h q :
  0 <= q < w * h ->
  dget (markLabels mask w h) q = Int (if aget mask q then 1 else 0).
Proof.
  intros Hq. unfold dget at 1, markLabels.
  destruct (Z.ltb_spec q 0); [lia|].
  rewrite nth_error_map, nth_error_range by lia.
  cbn [option_map]. rewrite Z2Nat.id by lia. reflexivity.
Qed.

Lemma markLabels_bits mask w h q :
  0 <= q < w * h ->
  dget (markLabels mask w h) q = Int 0 \/ dget (markLabels mask w h) q = Int 1.
Proof.
  intros Hq. rewrite dget_markLabels by assumption.
  destruct (aget mask q); auto.
Qed.

Lemma isT_markLabels mask w h q :
  0 <= q < w * h -> isT (markLabels mask w h) q = aget mask q.
Proof.
  intros Hq. unfold isT. rewrite dget_markLabels by assumption.
  destruct (aget mask q); reflexivity.
Qed.

(** The search only ever appends to the region. *)
Lemma growRegion_extends T w h b : forall fuel Q V R te V' R' te',
  growRegion fuel T w h b Q V R te = Some (V', R', te') ->
  (length R + length Q <= length R' + length Q)%nat
  /\ (length R + (match Q with [] => 0 | _ => 1 end) <= length R')%nat.
Proof.
  induction fuel as [|fuel IH]; intros Q V R te V' R' te' E;
    destruct Q as [|cur Q]; cbn [growRegion] in E; try discriminate.
  - injection E as <- <- <-. lia.
  - injection E as <- <- <-. lia.
  - destruct (fold_left _ directions (V, Q)) as [V1 Q1].
    apply IH in E. rewrite length_app in E. cbn [length] in *. lia.
Qed.

Section Budget.

Variables (mask : list bool) (w h : Z).
Hypothesis w_pos : 0 < w.
Hypothesis h_pos : 0 < h.

Let T := markLabels mask w h.

Definition index (p : Z * Z) : Z := snd p * w + fst p.

(** The queue of coordinates, the queue of indices, and the two arrays of
    flags hold the same. *)
Definition paired (visited : list bool) (Qp : list (Z * Z)) (V Q : list Z)
    : Prop :=
  Q = map index Qp
  /\ (forall p, In p Qp -> 0 <= fst p < w /\ 0 <= snd p < h)
  /\ (forall q, 0 <= q < w * h -> aget visited q = vis V q)
  /\ Z.of_nat (length V) = w * h.

Definition look : list bool * list (Z * Z) -> Z * Z -> list bool * list (Z * Z) :=
  fun '(visited, queue) '(nx, ny) =>
    if inGrid w h nx ny then
      let neighborIdx := ny * w + nx in
      if negb (aget visited neighborIdx) && negb (aget mask neighborIdx)
      then (aset visited neighborIdx true, queue ++ [(nx, ny)])
      else (visited, queue)
    else (visited, queue).

Lemma look_expand x y visited Qp V Q dx dy :
  paired visited Qp V Q ->
  let '(visited', Qp') := look (visited, Qp) (x + dx, y + dy) in
  let '(V', Q') := expand T w h false x y (V, Q) (dx, dy) in
  paired visited' Qp' V' Q'.
Proof.
  intros P. pose proof P as (EQ & Hin & Hv & Hl).
  unfold look, expand, inGrid.
  destruct ((x + dx <? 0) || (x + dx >=? w) || (y + dy <? 0) || (y + dy >=? h))
    eqn:Eout.
  - replace ((0 <=? x + dx) && (x + dx <? w) && (0 <=? y + dy) && (y + dy <? h))
      with false; [exact P|].
    symmetry. rewrite !Z.geb_leb in Eout.
    destruct (Z.ltb_spec (x + dx) 0), (Z.leb_spec w (x + dx)),
      (Z.ltb_spec (y + dy) 0), (Z.leb_spec h (y + dy)); cbn in Eout;
      try discriminate;
      destruct (Z.leb_spec 0 (x + dx)), (Z.ltb_spec (x + dx) w),
        (Z.leb_spec 0 (y + dy)), (Z.ltb_spec (y + dy) h); cbn; try reflexivity;
        lia.
  - rewrite !orb_false_iff, !Z.geb_leb in Eout.
    destruct Eout as [[[E1 E2] E3] E4].
    apply Z.ltb_ge in E1, E3. apply Z.leb_gt in E2, E4.
    replace ((0 <=? x + dx) && (x + dx <? w) && (0 <=? y + dy) && (y + dy <? h))
      with true.
    2:{ symmetry. rewrite !andb_true_iff.
        repeat split; try (apply Z.leb_le; lia); apply Z.ltb_lt; lia. }
    assert (Hn : 0 <= (y + dy) * w + (x + dx) < w * h) by nia.
    rewrite (Hv _ Hn). fold (vis V ((y + dy) * w + (x + dx))).
    unfold T. rewrite dget_markLabels by assumption.
    destruct (vis V ((y + dy) * w + (x + dx))) eqn:Ev; cbn [negb andb];
      [exact P|].
    destruct (aget mask ((y + dy) * w + (x + dx))); cbn [negb Js.eq Z.eqb];
      [exact P|].
    split; [|split; [|split]].
    + rewrite EQ, map_app. reflexivity.
    + intros p Hp. apply in_app_iff in Hp. destruct Hp as [Hp|[<-|[]]];
        [now apply Hin|cbn; lia].
    + intros q Hq. rewrite aget_aset by lia. rewrite vis_dset, Hl.
      destruct (Z.eqb_spec q ((y + dy) * w + (x + dx))) as [->|Hne].
      * destruct (Z.leb_spec 0 ((y + dy) * w + (x + dx))),
          (Z.ltb_spec ((y + dy) * w + (x + dx)) (w * h)); try lia;
          reflexivity.
      * cbn [andb orb]. now apply Hv.
    + now rewrite length_dset.
Qed.

Lemma looks_expands x y : forall ds visited Qp V Q,
  paired visited Qp V Q ->
  let '(visited', Qp') :=
    fold_left look (map (fun '(dx, dy) => (x + dx, y + dy)) ds) (visited, Qp) in
  let '(V', Q') := fold_left (expand T w h false x y) ds (V, Q) in
  paired visited' Qp' V' Q'.
Proof.
  induction ds as [|[dx dy] ds IH]; intros visited Qp V Q P;
    cbn [map fold_left]; [exact P|].
  pose proof (look_expand x y visited Qp V Q dx dy P) as H.
  destruct (look (visited, Qp) (x + dx, y + dy)) as [v1 q1].
  destruct (expand T w h false x y (V, Q) (dx, dy)) as [V1 Q1].
  now apply IH.
Qed.

Lemma neighbors4_directions x y :
  neighbors4 x y = map (fun '(dx, dy) => (x + dx, y + dy)) directions.
Proof.
  unfold neighbors4, directions. cbn [map]. rewrite !Z.add_0_r. reflexivity.
Qed.

(** With the budget the loop of [isPartOfLargeRegion] counts the pixels the
    search would add to the region, up to the budget. *)
Lemma regionLoop_counts : forall fuel budget visited Qp V Q R te rs V' R' te',
  paired visited Qp V Q ->
  growRegion fuel T w h false Q V R te = Some (V', R', te') ->
  regionLoop budget mask w h visited Qp rs
  = rs + Z.min (Z.of_nat budget) (Z.of_nat (length R' - length R)).
Proof.
  induction fuel as [|fuel IH];
    intros budget visited Qp V Q R te rs V' R' te' P E.
  - destruct Q as [|cur Q]; cbn [growRegion] in E; [|discriminate].
    injection E as <- <- <-. destruct P as (EQ & _).
    destruct Qp; [|discriminate]. rewrite Nat.sub_diag.
    destruct budget; cbn [regionLoop]; lia.
  - destruct Q as [|cur Q]; cbn [growRegion] in E.
    + injection E as <- <- <-. destruct P as (EQ & _).
      destruct Qp; [|discriminate]. rewrite Nat.sub_diag.
      destruct budget; cbn [regionLoop]; lia.
    + destruct Qp as [|[cx cy] Qp]; [destruct P as (EQ & _); discriminate|].
      assert (Hc : 0 <= cx < w /\ 0 <= cy < h)
        by (apply (proj1 (proj2 P) (cx, cy)); now left).
      assert (Ecur : cur = cy * w + cx)
        by (destruct P as (EQ & _); now injection EQ).
      assert (Hx : Z.rem cur w = cx).
      { rewrite Z.rem_mod_nonneg by nia. rewrite Ecur. apply index_mod. lia. }
      assert (Hy : cur / w = cy) by (rewrite Ecur; apply index_div; lia).
      rewrite Hx, Hy in E.
      assert (P0 : paired visited Qp V Q).
      { destruct P as (EQ & Hin & Hv & Hl).
        refine (conj _ (conj _ (conj Hv Hl))).
        - now injection EQ.
        - intros p Hp. apply Hin. now right. }
      pose proof (looks_expands cx cy directions visited Qp V Q P0) as Hstep.
      rewrite <- neighbors4_directions in Hstep.
      destruct (fold_left (expand T w h false cx cy) directions (V, Q))
        as [V1 Q1].
      pose proof (growRegion_extends _ _ _ _ _ _ _ _ _ _ _ _ E) as [_ Hgrow].
      rewrite length_app in Hgrow. cbn [length] in Hgrow.
      destruct budget as [|budget]; cbn [regionLoop]; [lia|].
      match goal with
      | |- context [fold_left ?f (neighbors4 cx cy) (visited, Qp)] =>
          change f with look
      end.
      destruct (fold_left look (neighbors4 cx cy) (visited, Qp)) as [v1 q1].
      cbv beta iota zeta.
      rewrite (IH budget v1 q1 V1 Q1 _ _ (rs + 1) V' R' te' Hstep E).
      rewrite length_app. cbn [length]. lia.
Qed.

(** Two lists of the pixels of one region are equally long. *)
Lemma component_size p R R' :
  isComponent T w h p R -> isComponent T w h p R' -> length R = length R'.
Proof.
  intros [N1 H1] [N2 H2]. apply Permutation_length.
  apply NoDup_Permutation; try assumption.
  intros q. now rewrite H1, H2.
Qed.

(** [isPartOfLargeRegion] tells whether the region of unmarked pixels around
    [idx] has 100 pixels. *)
Lemma isPartOfLargeRegion_counts idx :
  0 <= idx < w * h -> aget mask idx = false ->
  exists R, isComponent T w h idx R
            /\ isPartOfLargeRegion idx mask w h = (100 <=? Z.of_nat (length R)).
Proof.
  intros Hidx Em. unfold isPartOfLargeRegion. rewrite Em.
  assert (Hlab : isT T idx = false)
    by (unfold T; rewrite isT_markLabels by assumption; exact Em).
  set (V0 := newBytes (w * h)).
  assert (HV0 : forall q, vis V0 q = false)
    by (intros q; apply (vis_newBytes w h w_pos h_pos [])).
  assert (LV0 : Z.of_nat (length V0) = w * h)
    by (unfold V0, newBytes; rewrite repeat_length; nia).
  assert (S0 : searching T w h idx V0 [idx] (dset V0 idx 1) []).
  { constructor.
    - now rewrite length_dset.
    - intros q [<-|[]]. repeat split; try lia; [constructor|apply HV0].
    - constructor; [intros []|constructor].
    - intros q. rewrite vis_dset, LV0, HV0, orb_false_r. cbn [app In].
      destruct (Z.eqb_spec q idx) as [->|Hne].
      + destruct (Z.leb_spec 0 idx), (Z.ltb_spec idx (w * h)); try lia;
          cbn [andb]; intuition congruence.
      + cbn [andb]. intuition congruence. }
  assert (C0 : closedOn T w h idx (dset V0 idx 1) []) by (intros q q' []).
  destruct (growRegion_searching T w h w_pos (markLabels_bits mask w h) idx V0
              (Z.to_nat (w * h)) [idx] (dset V0 idx 1) [] S0 C0)
    as (V' & R' & Eg & S & C & K).
  { pose proof (unseen_dset w h V0 idx Hidx LV0 (HV0 idx)).
    pose proof (unseen_bound w h V0). cbn [length]. lia. }
  rewrite Hlab in Eg.
  assert (HkV' : vis V' idx = true).
  { apply (s_vis _ _ _ _ _ _ _ _ S). right. rewrite app_nil_r. apply K. now left. }
  assert (CF : closedFlags T w h V0)
    by (intros q q' _ Hv; now rewrite HV0 in Hv).
  destruct (searching_done T w h w_pos idx V0 V' R' Hidx CF (HV0 idx) HkV' S C)
    as (Hcomp & _).
  assert (P : paired (aset (newArray (w * h) false) idx true)
                     [(Z.rem idx w, idx / w)] (dset V0 idx 1) [idx]).
  { rewrite Z.rem_mod_nonneg by lia.
    pose proof (Z.mod_pos_bound idx w w_pos) as Hmb.
    assert (Hrow : 0 <= idx / w < h).
    { split; [apply Z.div_pos; lia|]. apply Z.div_lt_upper_bound; lia. }
    split; [|split; [|split]].
    - cbn [map]. unfold index. cbn [fst snd].
      pose proof (Z.div_mod idx w ltac:(lia)). f_equal. lia.
    - intros p [<-|[]]. cbn [fst snd]. lia.
    - intros q Hq. rewrite aget_aset by lia. unfold newArray.
      rewrite aget_repeat. rewrite vis_dset, LV0, HV0, orb_false_r.
      destruct (Z.eqb_spec q idx) as [->|Hne].
      + destruct (Z.leb_spec 0 idx), (Z.ltb_spec idx (w * h)); try lia;
          reflexivity.
      + reflexivity.
    - now rewrite length_dset. }
  exists R'. split; [exact Hcomp|].
  rewrite (regionLoop_counts _ 500 _ _ _ _ _ _ 0 _ _ _ P Eg).
  cbn [length]. rewrite Nat.sub_0_r.
  rewrite Z.geb_leb. change (Z.of_nat 500) with 500.
  destruct (Z.leb_spec 100 (Z.of_nat (length R')));
    [apply Z.leb_le|apply Z.leb_gt]; lia.
Qed.

End Budget.

End LargeRegion.

(* ================================================================== *)
(** ** The background blur *)
(* ================================================================== *)

Module BlurFacts.
Import Js JsFacts BufferFacts PostProcess Blur.

(** X15: the loop of [blurBackground] takes the blurred colours exactly
    at the pixels whose alpha is below 200.  The result has the length of
    the original; every alpha byte is the original one; a colour byte of a
    pixel with alpha below 200 is the byte of the blurred rendering, and
    every other byte is the original one. *)
Theorem blur_keeps_foreground (originalData blurredData : list Z) :
  let out := combine originalData blurredData in
  length out = length originalData
  /\ forall j,
       dget out j
       = if negb (j mod 4 =? 3) && (0 <=? j) && (j <? Z.of_nat (length originalData))
            && Js.lt (dget originalData (4 * (j / 4) + 3)) (Int 200)
         then Int (toByte (dget blurredData j)) else dget originalData j.
Proof.
  cbv zeta. unfold combine. cbv zeta.
  set (K := (Z.of_nat (length originalData) + 3) / 4).
  assert (HK : 0 <= K) by (subst K; Z.div_mod_to_equations; lia).
  set (body := fun (k : Z) (data : list Z) => _).
  assert (G : length (forZ 0 K body originalData) = length originalData
    /\ forall j, dget (forZ 0 K body originalData) j
       = if negb (j mod 4 =? 3) && (0 <=? j)
            && (j <? Z.of_nat (length originalData)) && (j / 4 <? K)
            && Js.lt (dget originalData (4 * (j / 4) + 3)) (Int 200)
         then Int (toByte (dget blurredData j)) else dget originalData j).
  { apply (forZ_ind (fun k s => length s = length originalData
       /\ forall j, dget s j
       = if negb (j mod 4 =? 3) && (0 <=? j)
            && (j <? Z.of_nat (length originalData)) && (j / 4 <? k)
            && Js.lt (dget originalData (4 * (j / 4) + 3)) (Int 200)
         then Int (toByte (dget blurredData j)) else dget originalData j));
      [assumption| |].
    - split; [reflexivity|]. intros j.
      destruct (negb (j mod 4 =? 3)); cbn [andb]; [|reflexivity].
      destruct (Z.leb_spec 0 j); cbn [andb]; [|reflexivity].
      destruct (Z.ltb_spec (j / 4) 0); [Z.div_mod_to_equations; lia|].
      now rewrite andb_false_r.
    - intros k s Hk [Hlen IH]. subst body. cbv beta zeta.
      destruct (Js.lt (dget originalData (4 * k + 3)) (Int 200)) eqn:Em.
      + split; [now rewrite !length_dset|]. intros j.
        rewrite !dget_dset, !length_dset, IH, Hlen.
        assert (Hq : forall c, 0 <= c < 4 -> (4 * k + c) / 4 = k)
          by (intros; Z.div_mod_to_equations; lia).
        assert (Hm : forall c, 0 <= c < 4 -> (4 * k + c) mod 4 = c)
          by (intros; Z.div_mod_to_equations; lia).
        destruct (Z.eqb_spec j (4 * k + 2)) as [->|N2].
        { rewrite (Hq 2), (Hm 2) by lia. rewrite Em. cbn [Z.eqb negb andb].
          zcases; try reflexivity; lia. }
        destruct (Z.eqb_spec j (4 * k + 1)) as [->|N1].
        { rewrite (Hq 1), (Hm 1) by lia. rewrite Em. cbn [Z.eqb negb andb].
          zcases; try reflexivity; lia. }
        destruct (Z.eqb_spec j (4 * k)) as [->|N0].
        { replace (4 * k / 4) with k by (Z.div_mod_to_equations; lia).
          replace ((4 * k) mod 4) with 0 by (Z.div_mod_to_equations; lia).
          rewrite Em. cbn [Z.eqb negb andb]. zcases; try reflexivity; lia. }
        cbn [andb].
        destruct (Z.eqb_spec (j mod 4) 3); cbn [negb andb]; [reflexivity|].
        assert (j / 4 <> k) by (Z.div_mod_to_equations; lia).
        destruct (Z.leb_spec 0 j); cbn [andb]; [|reflexivity].
        destruct (Z.ltb_spec j (Z.of_nat (length originalData))); cbn [andb];
          [|reflexivity].
        destruct (Z.ltb_spec (j / 4) k), (Z.ltb_spec (j / 4) (k + 1));
          try reflexivity; lia.
      + split; [assumption|]. intros j. rewrite IH.
        destruct (negb (j mod 4 =? 3)); cbn [andb]; [|reflexivity].
        destruct (Z.leb_spec 0 j); cbn [andb]; [|reflexivity].
        destruct (Z.ltb_spec j (Z.of_nat (length originalData))); cbn [andb];
          [|reflexivity].
        destruct (Z.ltb_spec (j / 4) k), (Z.ltb_spec (j / 4) (k + 1));
          try reflexivity; try lia.
        assert (j / 4 = k) by lia. cbn [andb].
        replace (4 * (j / 4) + 3) with (4 * k + 3) by lia. now rewrite Em. }
  destruct G as [G1 G2]. split; [assumption|]. intros j. rewrite G2.
  destruct (negb (j mod 4 =? 3)); cbn [andb]; [|reflexivity].
  destruct (Z.leb_spec 0 j); cbn [andb]; [|reflexivity].
  destruct (Z.ltb_spec j (Z.of_nat (length originalData))); cbn [andb];
    [|reflexivity].
  destruct (Z.ltb_spec (j / 4) K); [reflexivity|].
  exfalso. subst K. Z.div_mod_to_equations. lia.
Qed.

End BlurFacts.

(* ================================================================== *)
(** ** The edge detector *)
(* ================================================================== *)

Module SobelFacts.
Import Js JsFacts Detect Sobel MaskFacts.

(** The Sobel test on a window of one brightness [s / 3]. *)
Definition flatResponse (s : Z) : bool :=
  let beta := Js.div (Int s) (Int 3) in
  let side := Js.add (Js.add beta (Js.mul (Int 2) beta)) beta in
  let gx := Js.sub side side in
  Js.gt (Js.sqrt (Js.add (Js.mul gx gx) (Js.mul gx gx))) (Int 30).

Lemma flatResponse_false s : 0 <= s < 766 -> flatResponse s = false.
Proof.
  intros Hs.
  assert (E : forall s, 0 <= s < 766 -> negb (flatResponse s) = true)
    by (apply enumerate; vm_compute; reflexivity).
  specialize (E s Hs). now destruct (flatResponse s).
Qed.

(** X16: [detectEdges] finds no edge in an image of one brightness: if
    the red, green and blue bytes of every pixel have the same sum, the
    result is the all-false array of one entry per pixel. *)
Theorem detectEdges_flat (imageData : list Z) (w h s : Z) :
  0 <= s <= 765 ->
  (forall p, 0 <= p < w * h ->
     Js.add (Js.add (dget imageData (p * 4)) (dget imageData (p * 4 + 1)))
            (dget imageData (p * 4 + 2)) = Int s) ->
  detectEdges imageData w h = newArray (w * h) false.
Proof.
  intros Hs Hflat. unfold detectEdges. cbv zeta.
  apply (forZ_inv (fun e => e = newArray (w * h) false)); [reflexivity|].
  intros y t Hy ->.
  apply (forZ_inv (fun e => e = newArray (w * h) false)); [reflexivity|].
  intros x e Hx ->.
  assert (B : forall nx ny, 0 <= nx < w -> 0 <= ny < h ->
            getPixelBrightness imageData nx ny w = Js.div (Int s) (Int 3)).
  { intros nx ny Hnx Hny. unfold getPixelBrightness. cbv zeta.
    rewrite (Hflat (ny * w + nx)) by nia. reflexivity. }
  rewrite !B by lia.
  change (Js.gt _ (Int 30)) with (flatResponse s).
  now rewrite flatResponse_false by lia.
Qed.

Lemma detectEdges_flat_witness :
  detectEdges (concat (repeat [10; 20; 30; 255] 9)) 3 3 = newArray (3 * 3) false.
Proof.
  apply (detectEdges_flat (concat (repeat [10; 20; 30; 255] 9)) 3 3 60); [lia|].
  intros p Hp.
  assert (E : forall p, 0 <= p < 9 ->
    match Js.add (Js.add (dget (concat (repeat [10; 20; 30; 255] 9)) (p * 4))
                         (dget (concat (repeat [10; 20; 30; 255] 9)) (p * 4 + 1)))
                 (dget (concat (repeat [10; 20; 30; 255] 9)) (p * 4 + 2)) with
    | Int 60 => true
    | _ => false
    end = true) by (apply enumerate; vm_compute; reflexivity).
  specialize (E p ltac:(lia)).
  destruct (Js.add _ _) as [z|f]; [|discriminate].
  destruct z as [|q|q]; try discriminate.
  do 6 (destruct q as [q|q|]; try discriminate). reflexivity.
Defined.

End SobelFacts.

(* ================================================================== *)
(** ** The majority tests *)
(* ================================================================== *)

Module Majority.
Import Js JsFacts Detect Compose Segment Thresholds ConnectFacts.

(** A loop that counts the cells of [l] that satisfy [p], and all of
    them. *)
Lemma count_fold {A} (p : A -> bool) (l : list A) : forall c t,
  fold_left (fun '(c, t) n => (if p n then c + 1 else c, t + 1)) l (c, t)
  = (c + Z.of_nat (length (filter p l)), t + Z.of_nat (length l)).
Proof.
  induction l as [|n l IH]; intros c t; cbn [fold_left filter length].
  - now rewrite !Z.add_0_r.
  - rewrite IH. destruct (p n); cbn [length]; f_equal; lia.
Qed.

Lemma length_neighborhood rad w h x y n :
  length (filter (fun '(dx, dy) => negb ((dx =? 0) && (dy =? 0))) (offsets rad))
  = n ->
  Z.of_nat (length (neighborhood rad w h x y)) <= Z.of_nat n.
Proof.
  intros <-. apply inj_le. unfold neighborhood.
  etransitivity; [apply filter_length_le|]. now rewrite length_map.
Qed.

(** Pairs [(c, t)] with [0 <= c <= t < n], packed in one integer. *)
Definition onPairs (n : Z) (P : Z -> Z -> bool) (k : Z) : bool :=
  let c := k mod n in
  let t := k / n in
  (t <? c) || P c t.

Lemma onPairs_spec n P :
  0 < n -> (forall k, 0 <= k < n * n -> onPairs n P k = true) ->
  forall c t, 0 <= c <= t -> t < n -> P c t = true.
Proof.
  intros Hn H c t Hc Ht. specialize (H (t * n + c) ltac:(nia)).
  unfold onPairs in H. rewrite index_mod, index_div in H by lia.
  destruct (Z.ltb_spec t c); [lia|]. exact H.
Qed.

Lemma seventy_percent c t :
  0 <= c <= t -> t < 25 ->
  Js.gt (Int c) (Js.mul (Int t) (Flt 0.7)) = (7 * t <? 10 * c).
Proof.
  intros Hc Ht. apply eqb_prop.
  apply (onPairs_spec 25 (fun c t =>
           Bool.eqb (Js.gt (Int c) (Js.mul (Int t) (Flt 0.7))) (7 * t <? 10 * c)));
    try lia.
  intros k Hk. apply (allIn_spec _ 625 0); [vm_compute; reflexivity|lia].
Qed.

Lemma sixty_percent c t :
  0 <= c <= t -> t < 49 ->
  Js.gt (Int c) (Js.mul (Int t) (Flt 0.6)) = (6 * t <? 10 * c).
Proof.
  intros Hc Ht. apply eqb_prop.
  apply (onPairs_spec 49 (fun c t =>
           Bool.eqb (Js.gt (Int c) (Js.mul (Int t) (Flt 0.6))) (6 * t <? 10 * c)));
    try lia.
  intros k Hk. apply (allIn_spec _ 2401 0); [vm_compute; reflexivity|lia].
Qed.

Lemma three_quarters c t :
  0 <= c <= t -> t < 121 ->
  (t >? 0) && Js.gt (Js.div (Int c) (Int t)) (Flt 0.75) = (3 * t <? 4 * c).
Proof.
  intros Hc Ht. apply eqb_prop.
  apply (onPairs_spec 121 (fun c t =>
           Bool.eqb ((t >? 0) && Js.gt (Js.div (Int c) (Int t)) (Flt 0.75))
                    (3 * t <? 4 * c))); try lia.
  intros k Hk. apply (allIn_spec _ 14641 0); [vm_compute; reflexivity|lia].
Qed.

(** X17: [isSurroundedByBackground] is the exact majority test.  Its
    comparison with [totalChecked * 0.7] in floating point holds exactly
    when [10 * backgroundCount > 7 * totalChecked], where [totalChecked]
    counts the pixels of the 5x5 window that lie in the image, the centre
    left out, and [backgroundCount] those of them that the mask marks. *)
Theorem isSurroundedByBackground_exact (idx : Z) (backgroundMask : list bool)
    (w h : Z) :
  let cells := neighborhood 2 w h (Z.rem idx w) (idx / w) in
  let backgroundCount :=
    Z.of_nat (length (filter (fun '(nx, ny) => aget backgroundMask (ny * w + nx))
                             cells)) in
  let totalChecked := Z.of_nat (length cells) in
  isSurroundedByBackground idx backgroundMask w h
  = (7 * totalChecked <? 10 * backgroundCount).
Proof.
  cbv zeta. unfold isSurroundedByBackground. cbv zeta.
  set (cells := neighborhood 2 w h (Z.rem idx w) (idx / w)).
  set (p := fun n : Z * Z => let '(nx, ny) := n in aget backgroundMask (ny * w + nx)).
  rewrite (fold_left_same _
             (fun '(c, t) n => (if p n then c + 1 else c, t + 1))).
  2:{ intros [c t] [nx ny] _. reflexivity. }
  rewrite count_fold. cbn [Z.add].
  apply seventy_percent.
  - split; [apply Nat2Z.is_nonneg|]. apply inj_le. apply filter_length_le.
  - pose proof (length_neighborhood 2 w h (Z.rem idx w) (idx / w) 24 eq_refl) as H.
    fold cells in H. clearbody cells. lia.
Qed.

(** X18: [isPartOfContinuousRegion] is the exact majority test.  It
    holds exactly when the centre is not darker than the threshold and
    [10 * similarCount > 6 * totalChecked], where [totalChecked] counts the
    pixels of the 7x7 window that lie in the image, the centre left out, and
    [similarCount] those of them whose brightness is within 30 of the
    centre's. *)
Theorem isPartOfContinuousRegion_exact (idx : Z) (imageData : list Z)
    (w h : Z) (brightnessThreshold : num) :
  let x := Z.rem idx w in
  let y := idx / w in
  let centerBrightness := getPixelBrightness imageData x y w in
  let cells := neighborhood 3 w h x y in
  let similarCount :=
    Z.of_nat (length (filter (fun '(nx, ny) =>
        Js.lt (Js.abs (Js.sub centerBrightness
                              (getPixelBrightness imageData nx ny w))) (Int 30))
      cells)) in
  let totalChecked := Z.of_nat (length cells) in
  isPartOfContinuousRegion idx imageData w h brightnessThreshold
  = negb (Js.lt centerBrightness brightnessThreshold)
    && (6 * totalChecked <? 10 * similarCount).
Proof.
  cbv zeta. unfold isPartOfContinuousRegion. cbv zeta.
  destruct (Js.lt (getPixelBrightness imageData (Z.rem idx w) (idx / w) w)
                  brightnessThreshold); [reflexivity|]. cbn [negb andb].
  set (cells := neighborhood 3 w h (Z.rem idx w) (idx / w)).
  set (p := fun n : Z * Z => let '(nx, ny) := n in
        Js.lt (Js.abs (Js.sub (getPixelBrightness imageData (Z.rem idx w) (idx / w) w)
                              (getPixelBrightness imageData nx ny w))) (Int 30)).
  rewrite (fold_left_same _
             (fun '(c, t) n => (if p n then c + 1 else c, t + 1))).
  2:{ intros [c t] [nx ny] _. reflexivity. }
  rewrite count_fold. cbn [Z.add].
  apply sixty_percent.
  - split; [apply Nat2Z.is_nonneg|]. apply inj_le. apply filter_length_le.
  - pose proof (length_neighborhood 3 w h (Z.rem idx w) (idx / w) 48 eq_refl) as H.
    fold cells in H. clearbody cells. lia.
Qed.

(** X19: [isPartOfUniformRegion] is the exact majority test.  Its
    comparison of the quotient [similarCount / totalChecked] with 0.75 holds
    exactly when [4 * similarCount > 3 * totalChecked], where [totalChecked]
    counts the pixels of the 11x11 window that lie in the image, the centre
    left out, and [similarCount] those of them whose colour is closer than
    20 to the centre's. *)
Theorem isPartOfUniformRegion_exact (data : list Z) (x y w h : Z) :
  let centerColor := colorAt data ((y * w + x) * 4) in
  let cells := neighborhood 5 w h x y in
  let similarCount :=
    Z.of_nat (length (filter (fun '(nx, ny) =>
        Js.lt (getColorDistance centerColor (colorAt data ((ny * w + nx) * 4)))
              (Int 20))
      cells)) in
  let totalChecked := Z.of_nat (length cells) in
  isPartOfUniformRegion data x y w h = (3 * totalChecked <? 4 * similarCount).
Proof.
  cbv zeta. unfold isPartOfUniformRegion. cbv zeta.
  set (cells := neighborhood 5 w h x y).
  set (p := fun n : Z * Z => let '(nx, ny) := n in
        Js.lt (getColorDistance (colorAt data ((y * w + x) * 4))
                                (colorAt data ((ny * w + nx) * 4))) (Int 20)).
  rewrite (fold_left_same _
             (fun '(c, t) n => (if p n then c + 1 else c, t + 1))).
  2:{ intros [c t] [nx ny] _. reflexivity. }
  rewrite count_fold. cbn [Z.add].
  apply three_quarters.
  - split; [apply Nat2Z.is_nonneg|]. apply inj_le. apply filter_length_le.
  - pose proof (length_neighborhood 5 w h x y 120 eq_refl) as H.
    fold cells in H. clearbody cells. lia.
Qed.

End Majority.

(* ================================================================== *)
(** ** The label-mask segmentation: its laws *)
(* ================================================================== *)

Module SegmentLaws.
Import Js JsFacts BufferFacts PostProcess Segment ByteFacts Regions Morph
       HoleFacts ConnectFacts PostProcessFacts AlphaFacts SmallImages.

(** X20: [fillHoles] fills the enclosed holes and nothing else.  It
    always returns a mask of the same length; a cell that does not hold 0
    is left as it was; a cell that holds 0 becomes 2 when its 4-connected
    region of zeros has no pixel on the frame of the image and fewer than
    1000 pixels, and stays 0 otherwise. *)
Theorem fillHoles_fills_enclosed (mask : list Z) (w h : Z) :
  0 < w -> 0 < h ->
  exists out,
    fillHoles mask w h = Some out
    /\ length out = length mask
    /\ (forall p, Js.eq (dget mask p) (Int 0) = false -> dget out p = dget mask p)
    /\ (forall p, 0 <= p < w * h -> Js.eq (dget mask p) (Int 0) = true ->
          exists R,
            isComponent (zeroLabels mask w h) w h p R
            /\ dget out p
               = if negb (touches w h R) && (Z.of_nat (length R) <? 1000)
                 then Int 2 else Int 0).
Proof.
  intros Hw Hh.
  destruct (fillHoles_cells mask w h Hw Hh) as (out & E & L & G).
  exists out. split; [exact E|]. split; [exact L|]. split.
  - intros p Hz. specialize (G p). rewrite Hz, andb_false_r in G. exact G.
  - intros p Hp Hz. specialize (G p). rewrite Hz in G.
    destruct (Z.leb_spec 0 p), (Z.ltb_spec p (w * h)); try lia. exact G.
Qed.

Definition ringMask : list Z :=
  [3; 3; 3; 3; 3;
   3; 2; 2; 2; 3;
   3; 2; 0; 2; 3;
   3; 2; 2; 2; 3;
   0; 3; 3; 3; 3].

Lemma fillHoles_fills_enclosed_witness :
  exists out,
    fillHoles ringMask 5 5 = Some out
    /\ length out = length ringMask
    /\ (forall p, Js.eq (dget ringMask p) (Int 0) = false ->
                  dget out p = dget ringMask p)
    /\ (forall p, 0 <= p < 5 * 5 -> Js.eq (dget ringMask p) (Int 0) = true ->
          exists R,
            isComponent (zeroLabels ringMask 5 5) 5 5 p R
            /\ dget out p
               = if negb (touches 5 5 R) && (Z.of_nat (length R) <? 1000)
                 then Int 2 else Int 0).
Proof.
  apply (fillHoles_fills_enclosed ringMask 5 5); lia.
Defined.

(** X21: [connectForegroundRegions], cell by cell.  On a mask with one
    entry per pixel it always returns a mask of the same length.  A cell
    that does not hold 0 becomes 2 when one of its four neighbours is a
    definite-foreground cell inside the frame (also when the cell held 3
    itself) and is left as it was otherwise; a cell that holds 0 is filled
    with 2 exactly when its region of zeros is an enclosed hole of fewer than
    1000 pixels. *)
Theorem connect_marks_then_fills (mask : list Z) (w h : Z) :
  0 < w -> 0 < h -> Z.of_nat (length mask) = w * h ->
  exists out,
    connectForegroundRegions mask w h = Some out
    /\ length out = length mask
    /\ forall p, 0 <= p < w * h ->
         (Js.eq (dget mask p) (Int 0) = false ->
          dget out p
          = if besideForeground mask w h p then Int 2 else dget mask p)
         /\ (Js.eq (dget mask p) (Int 0) = true ->
             exists R, isComponent (zeroLabels mask w h) w h p R
               /\ dget out p
                  = if negb (touches w h R) && (Z.of_nat (length R) <? 1000)
                    then Int 2 else Int 0).
Proof. exact (connect_cells mask w h). Qed.

Lemma connect_marks_then_fills_witness :
  exists out,
    connectForegroundRegions ringMask 5 5 = Some out
    /\ length out = length ringMask
    /\ forall p, 0 <= p < 5 * 5 ->
         (Js.eq (dget ringMask p) (Int 0) = false ->
          dget out p
          = if besideForeground ringMask 5 5 p then Int 2 else dget ringMask p)
         /\ (Js.eq (dget ringMask p) (Int 0) = true ->
             exists R, isComponent (zeroLabels ringMask 5 5) 5 5 p R
               /\ dget out p
                  = if negb (touches 5 5 R) && (Z.of_nat (length R) <? 1000)
                    then Int 2 else Int 0).
Proof.
  apply (connect_marks_then_fills ringMask 5 5); try lia. reflexivity.
Defined.

(** X22: [smoothEdges] changes alpha only at the edge of transparency.
    It never changes a colour byte or the length; the alpha of a pixel that
    has none of its eight neighbours on the other side (transparent beside
    visible) is left as it was; so an image that is transparent everywhere,
    or nowhere, comes back unchanged in its alpha. *)
Theorem smoothEdges_only_at_edges (data : list Z) (w h : Z) :
  0 < w -> 0 < h ->
  sameRGB data (smoothEdges data w h)
  /\ (forall q, 0 <= q < w * h -> atEdge data w h q = false ->
        dget (smoothEdges data w h) (q * 4 + 3) = dget data (q * 4 + 3))
  /\ ((forall q, 0 <= q < w * h -> 0 < alphaByte data q)
      \/ (forall q, 0 <= q < w * h -> alphaByte data q = 0) ->
      forall q, 0 <= q < w * h ->
        dget (smoothEdges data w h) (q * 4 + 3) = dget data (q * 4 + 3)).
Proof.
  intros Hw Hh. destruct (smoothEdges_flat data w h Hw Hh) as [S G].
  split; [exact S|]. split; [exact G|].
  intros Hall q Hq. apply G; [assumption|].
  unfold atEdge. apply not_true_is_false. intros Hex.
  apply existsb_exists in Hex. destruct Hex as ([nx ny] & Hn & Hc).
  apply neighborhood_coordinates in Hn. cbv zeta in Hc.
  assert (Hni : 0 <= ny * w + nx < w * h) by nia.
  destruct Hall as [Hpos|Hzero].
  - pose proof (Hpos q Hq) as H1. pose proof (Hpos _ Hni) as H2.
    destruct (Z.eqb_spec (alphaByte data q) 0),
      (Z.eqb_spec (alphaByte data (ny * w + nx)) 0); try lia;
      cbn [andb orb] in Hc; rewrite andb_false_r in Hc; discriminate.
  - rewrite (Hzero q Hq), (Hzero _ Hni) in Hc. discriminate.
Qed.

Lemma smoothEdges_only_at_edges_witness :
  sameRGB [1; 2; 3; 255; 4; 5; 6; 0] (smoothEdges [1; 2; 3; 255; 4; 5; 6; 0] 2 1).
Proof.
  apply (smoothEdges_only_at_edges [1; 2; 3; 255; 4; 5; 6; 0] 2 1); lia.
Defined.

(** X23: [removeBackgroundPro] erases every image at most twenty pixels
    wide or at most twenty pixels high.  Whatever the content,
    [createInitialMask] returns the all-zero mask, and the pipeline returns
    the input with its colours kept and every alpha byte set to 0. *)
Theorem small_image_erased (data : list Z) (w h : Z) :
  0 < w -> 0 < h -> w <= 20 \/ h <= 20 ->
  Z.of_nat (length data) = 4 * (w * h) ->
  createInitialMask data w h = Some (newBytes (w * h))
  /\ exists out,
       removeBackgroundPro data w h = Some out
       /\ sameRGB data out
       /\ forall p, 0 <= p < w * h -> dget out (p * 4 + 3) = Int 0.
Proof.
  intros Hw Hh Hs Hl. split.
  - now apply createInitialMask_zeros.
  - now apply removeBackgroundPro_small.
Qed.

Lemma small_image_erased_witness :
  exists out,
    removeBackgroundPro [1; 2; 3; 255; 4; 5; 6; 255] 2 1 = Some out
    /\ sameRGB [1; 2; 3; 255; 4; 5; 6; 255] out
    /\ forall p, 0 <= p < 2 * 1 -> dget out (p * 4 + 3) = Int 0.
Proof.
  apply (small_image_erased [1; 2; 3; 255; 4; 5; 6; 255] 2 1); try lia.
  reflexivity.
Defined.

End SegmentLaws.

(* ================================================================== *)
(** ** The two fills of the compositor: their laws *)
(* ================================================================== *)

Module FillLaws.
Import Js Morph Compose JsFacts Compositor Regions FloodFacts LargeRegion.

(** X24: [floodFillBackground], exactly.  It always returns; a pixel is
    set in the result exactly when it is set in the given mask or can be
    reached, in 4-connected steps through pixels that the mask does NOT
    mark, from a neighbour of a marked pixel of the image border; and with
    no marked pixel on the border the result is the given mask. *)
Theorem flood_fill_floods_unmarked (mask : list bool) (w h : Z) :
  0 < w -> 0 < h ->
  exists r,
    floodFillBackground mask w h = Some r
    /\ (forall q, aget r q = true <-> aget mask q = true \/ floods mask w h q)
    /\ ((forall s, ~ isSeed mask w h s) -> r = mask).
Proof.
  intros Hw Hh.
  destruct (floodFillBackground_floods mask w h Hw Hh) as (r & E & G).
  exists r. split; [exact E|]. split; [exact G|].
  intros Hno.
  assert (Hs : seeds mask w h = []).
  { destruct (seeds mask w h) as [|s l] eqn:Es; [reflexivity|].
    exfalso. apply (Hno s). apply (seeds_spec mask w h Hw Hh).
    rewrite Es. now left. }
  unfold floodFillBackground in E. rewrite Hs in E.
  destruct (floodFuel mask w h); cbn [floodLoop] in E; now injection E.
Qed.

Lemma flood_fill_floods_unmarked_witness :
  exists r,
    floodFillBackground [true; false; false; false] 2 2 = Some r
    /\ (forall q, aget r q = true <->
          aget [true; false; false; false] q = true
          \/ floods [true; false; false; false] 2 2 q)
    /\ ((forall s, ~ isSeed [true; false; false; false] 2 2 s) ->
        r = [true; false; false; false]).
Proof.
  apply (flood_fill_floods_unmarked [true; false; false; false] 2 2); lia.
Defined.

(** X25: [isPartOfLargeRegion] compares the size of a region with 100.
    On a marked pixel it answers false.  On an unmarked pixel it answers
    whether the 4-connected region of unmarked pixels around it has at least
    100 pixels; the search stops after 500 pixels, which never changes the
    answer. *)
Theorem large_region_counts_pixels (mask : list bool) (w h idx : Z) :
  0 < w -> 0 < h -> 0 <= idx < w * h ->
  (aget mask idx = true -> isPartOfLargeRegion idx mask w h = false)
  /\ (aget mask idx = false ->
      exists R,
        isComponent (markLabels mask w h) w h idx R
        /\ (forall R', isComponent (markLabels mask w h) w h idx R' ->
                       length R' = length R)
        /\ isPartOfLargeRegion idx mask w h = (100 <=? Z.of_nat (length R))).
Proof.
  intros Hw Hh Hidx. split.
  - intros Hm. unfold isPartOfLargeRegion. now rewrite Hm.
  - intros Hm.
    destruct (isPartOfLargeRegion_counts mask w h Hw Hh idx Hidx Hm)
      as (R & HR & E).
    exists R. split; [exact HR|]. split; [|exact E].
    intros R' HR'. now apply (component_size mask w h idx).
Qed.

Lemma large_region_counts_pixels_witness :
  isPartOfLargeRegion 0 [true; false; false; false] 2 2 = false.
Proof.
  apply (large_region_counts_pixels [true; false; false; false] 2 2 0); try lia.
  reflexivity.
Defined.

End FillLaws.

(* ================================================================== *)
(** ** The arrays erode and dilate return *)
(* ================================================================== *)

Module FreshMasks.
Import Js Morph Heap JsFacts MorphFacts HeapFacts Refiner MaskFacts.

(** Writing to a mask never shortens it. *)
Lemma length_aset_ge (m : list bool) i v : (length m <= length (aset m i v))%nat.
Proof.
  destruct (Z.ltb_spec i 0) as [Hneg|Hpos].
  - unfold aset. destruct (Z.ltb_spec i 0); [lia|lia].
  - rewrite length_aset by assumption. lia.
Qed.

Lemma length_paint_ge w ylo yhi xlo xhi g (r : list bool) :
  (length r <= length (paint w ylo yhi xlo xhi g r))%nat.
Proof.
  unfold paint.
  apply (forZ_inv (fun s : list bool => (length r <= length s)%nat)); [lia|].
  intros y t _ Ht.
  apply (forZ_inv (fun s : list bool => (length r <= length s)%nat)); [assumption|].
  intros x t' _ Ht'. destruct (g x y); [|assumption].
  pose proof (length_aset_ge t' (y * w + x) b). lia.
Qed.

(** An entry that is read inside the array is there. *)
Lemma aget_present (m : list bool) i :
  0 <= i < Z.of_nat (length m) ->
  nth_error m (Z.to_nat i) = Some (aget m i).
Proof.
  intros Hi. unfold aget. destruct (Z.ltb_spec i 0); [lia|].
  apply nth_error_nth'. lia.
Qed.

(** C10: [erode] and [dilate] each return a new array and leave every
    array of the caller, the input mask included, as it was.  The new array
    is at least as long as the mask, and exactly as long when the mask has an
    entry for every pixel.  On the whole 1-pixel frame of the image the
    result of [erode] holds false and the result of [dilate] holds what the
    input mask holds there, entry for entry. *)
Theorem erode_dilate_frame (s : store) (mask : loc) (w h : Z) :
  (mask < length s)%nat ->
  let re := fst (erodeH mask w h s) in
  let se := snd (erodeH mask w h s) in
  let rd := fst (dilateH mask w h s) in
  let sd := snd (dilateH mask w h s) in
  re <> mask /\ rd <> mask
  /\ (forall l, (l < length s)%nat -> sel se l = sel s l /\ sel sd l = sel s l)
  /\ (length (sel s mask) <= length (sel se re))%nat
  /\ (length (sel s mask) <= length (sel sd rd))%nat
  /\ (w * h <= Z.of_nat (length (sel s mask)) ->
      length (sel se re) = length (sel s mask)
      /\ length (sel sd rd) = length (sel s mask))
  /\ (forall x y, onFrame w h x y = true ->
        aget (sel se re) (y * w + x) = false
        /\ aget (sel sd rd) (y * w + x) = aget (sel s mask) (y * w + x)
        /\ (y * w + x < Z.of_nat (length (sel s mask)) ->
            nth_error (sel se re) (Z.to_nat (y * w + x)) = Some false
            /\ nth_error (sel sd rd) (Z.to_nat (y * w + x))
               = nth_error (sel s mask) (Z.to_nat (y * w + x)))).
Proof.
  intros Hm. rewrite erodeH_erode, dilateH_dilate by assumption. simpl.
  rewrite !sel_app_new.
  assert (Le : (length (sel s mask) <= length (erode (sel s mask) w h))%nat).
  { rewrite erode_paint.
    etransitivity; [|apply length_paint_ge]. now rewrite repeat_length. }
  assert (Ld : (length (sel s mask) <= length (dilate (sel s mask) w h))%nat).
  { rewrite dilate_paint. apply length_paint_ge. }
  split; [lia|]. split; [lia|]. split.
  { intros l Hl. now rewrite !sel_app_old. }
  split; [exact Le|]. split; [exact Ld|]. split.
  { intros Hc. split; [now apply length_erode|now apply length_dilate]. }
  intros x y Hf. apply onFrame_bounds in Hf as (Hx & Hy & Hin).
  assert (He : aget (erode (sel s mask) w h) (y * w + x) = false).
  { rewrite erode_at by lia. now rewrite Hin. }
  assert (Hd : aget (dilate (sel s mask) w h) (y * w + x)
               = aget (sel s mask) (y * w + x)).
  { rewrite dilate_at by lia. now rewrite Hin. }
  split; [exact He|]. split; [exact Hd|].
  intros Hlen. assert (0 <= y * w + x) by nia. split.
  - rewrite aget_present by lia. now rewrite He.
  - rewrite !aget_present by lia. now rewrite Hd.
Qed.

Lemma erode_dilate_frame_witness :
  let s := [[true; true; true; true; true; true; true; true; true]] in
  nth_error (sel (snd (erodeH 0%nat 3 3 s)) (fst (erodeH 0%nat 3 3 s))) 0
  = Some false
  /\ length (sel (snd (erodeH 0%nat 3 3 s)) (fst (erodeH 0%nat 3 3 s))) = 9%nat
  /\ sel (snd (erodeH 0%nat 3 3 s)) 0%nat = sel s 0%nat.
Proof.
  intros s.
  destruct (erode_dilate_frame s 0%nat 3 3)
    as (_ & _ & Hold & _ & _ & Hlen & Hframe).
  - simpl. lia.
  - split; [|split].
    + apply (Hframe 0 0); [reflexivity|]. simpl. lia.
    + apply Hlen. simpl. lia.
    + apply Hold. simpl. lia.
Defined.

End FreshMasks.

(* ================================================================== *)
(** ** Small regions, in terms of the buffer alone *)
(* ================================================================== *)

Module SmallRegions.
Import Js JsFacts BufferFacts PostProcess PostProcessFacts Regions PostProcessor.

(** Pixel [p] of the buffer is fully transparent: its alpha byte is 0. *)
Definition clear (data : list Z) (p : Z) : bool :=
  Js.eq (dget data (p * 4 + 3)) (Int 0).

(** [q] is the pixel to the right of [p], to its left, below it or above
    it, both in the image of [w] columns and [h] rows stored row by row. *)
Definition beside (w h p q : Z) : Prop :=
  0 <= p < w * h /\ 0 <= q < w * h
  /\ ((q = p + 1 /\ p mod w <> w - 1) \/ (q = p - 1 /\ p mod w <> 0)
      \/ q = p + w \/ q = p - w).

(** [q] is reached from [p] by steps to the right, to the left, down or up
    over pixels that are all as transparent as [p]. *)
Inductive joined (data : list Z) (w h p : Z) : Z -> Prop :=
| joined_refl : joined data w h p p
| joined_step q q' :
    joined data w h p q -> beside w h q q' -> clear data q' = clear data p ->
    joined data w h p q'.

(** [R] lists, without repetition, the pixels joined to [p]. *)
Definition isRegion (data : list Z) (w h p : Z) (R : list Z) : Prop :=
  NoDup R /\ forall q, In q R <-> joined data w h p q.

(** The region has a pixel in the first or last row or column. *)
Definition reachesBorder (w h : Z) (R : list Z) : bool :=
  existsb (fun q => (q mod w =? 0) || (q mod w =? w - 1)
                    || (q / w =? 0) || (q / w =? h - 1)) R.

Lemma adj_beside w h q q' :
  0 < w -> 0 <= q < w * h -> (adj w h q q' <-> beside w h q q').
Proof.
  intros Hw Hq.
  assert (Hm : 0 <= q mod w < w) by (apply Z.mod_pos_bound; lia).
  assert (Hd : 0 <= q / w < h).
  { split; [apply Z.div_pos; lia|apply Z.div_lt_upper_bound; lia]. }
  pose proof (Z.div_mod q w ltac:(lia)) as E.
  split.
  - intros (dx & dy & Hin & Hx & Hy & ->). unfold beside.
    split; [assumption|]. split; [nia|].
    apply in_directions in Hin.
    destruct Hin as [[-> ->]|[[-> ->]|[[-> ->]|[-> ->]]]].
    + left. split; lia.
    + right. left. split; lia.
    + right. right. left. lia.
    + right. right. right. lia.
  - intros (_ & Hq' & [[-> Hne]|[[-> Hne]|[->| ->]]]).
    + exists 1, 0. split; [apply in_directions; lia|]. lia.
    + exists (-1), 0. split; [apply in_directions; lia|]. lia.
    + exists 0, 1. split; [apply in_directions; lia|].
      assert (q / w + 1 < h) by nia. lia.
    + exists 0, (-1). split; [apply in_directions; lia|].
      assert (0 <= q / w - 1) by nia. lia.
Qed.

Section Buffer.

Variables (data : list Z) (w h : Z).
Hypothesis w_pos : 0 < w.
Hypothesis h_pos : 0 < h.

Let T := transparentMaskOf data w h.

Lemma isT_clear q : 0 <= q < w * h -> isT T q = clear data q.
Proof. intros Hq. unfold T. now apply isT_transparentMaskOf. Qed.

Lemma joined_inGrid p q : 0 <= p < w * h -> joined data w h p q -> 0 <= q < w * h.
Proof.
  intros Hp H. induction H as [|q q' _ _ (_ & Hq' & _) _]; assumption.
Qed.

Lemma conn_joined p q :
  0 <= p < w * h -> (conn T w h p q <-> joined data w h p q).
Proof.
  intros Hp. split.
  - intros H. induction H as [|q q' Hc IH Ha Hl]; [constructor|].
    assert (Hq : 0 <= q < w * h) by now apply (conn_inGrid T w h w_pos p).
    assert (Hq' : 0 <= q' < w * h) by now apply (adj_inGrid w h w_pos q).
    apply (joined_step data w h p q q'); [assumption| |].
    + now apply adj_beside.
    + now rewrite <- !isT_clear.
  - intros H. induction H as [|q q' Hj IH Hb Hl]; [constructor|].
    assert (Hq : 0 <= q < w * h) by now apply (joined_inGrid p).
    assert (Hq' : 0 <= q' < w * h) by (destruct Hb as (_ & ? & _); assumption).
    apply (conn_step T w h p q q'); [assumption| |].
    + now apply adj_beside.
    + now rewrite !isT_clear.
Qed.

Lemma component_region p R :
  0 <= p < w * h -> isComponent T w h p R -> isRegion data w h p R.
Proof.
  intros Hp [Hn Hin]. split; [assumption|].
  intros q. rewrite Hin. now apply conn_joined.
Qed.

End Buffer.

(** C9: [removeSmallRegions], run on the transparency mask of the buffer
    as [postProcessResult] builds it, returns, and for every pixel [p] the
    pixels joined to [p] by horizontal and vertical steps over pixels of the
    same transparency (alpha 0 or not) form a region [R] such that: when [p]
    is transparent, [R] has no pixel in the first or last row or column and
    fewer than 200 pixels, the alpha of [p] is now 255; when [p] is not
    transparent, [R] has no such pixel and fewer than 100 pixels, the alpha
    of [p] is now 0; in every other case the alpha of [p] is what it was. *)
Theorem small_regions_flipped (data : list Z) (w h : Z) :
  0 < w -> 0 < h -> Z.of_nat (length data) = 4 * (w * h) ->
  exists out,
    removeSmallRegions (transparentMaskOf data w h) data w h = Some out
    /\ forall p, 0 <= p < w * h ->
       exists R,
         isRegion data w h p R
         /\ dget out (p * 4 + 3)
            = if clear data p
              then if negb (reachesBorder w h R) && (Z.of_nat (length R) <? 200)
                   then Int 255 else dget data (p * 4 + 3)
              else if negb (reachesBorder w h R) && (Z.of_nat (length R) <? 100)
                   then Int 0 else dget data (p * 4 + 3).
Proof.
  intros Hw Hh Hlen.
  destruct (removeSmallRegions_regions data w h Hw Hh Hlen)
    as (out & E & G).
  exists out. split; [exact E|]. intros p Hp.
  destruct (G p Hp) as (HT & R & HR & Hout).
  exists R. split; [now apply component_region|].
  rewrite Hout. change (reachesBorder w h R) with (touches w h R).
  fold (clear data p) in HT. rewrite HT.
  destruct (clear data p); reflexivity.
Qed.

Lemma small_regions_flipped_witness :
  exists out,
    removeSmallRegions (transparentMaskOf pinhole 5 5) pinhole 5 5 = Some out
    /\ forall p, 0 <= p < 5 * 5 ->
       exists R,
         isRegion pinhole 5 5 p R
         /\ dget out (p * 4 + 3)
            = if clear pinhole p
              then if negb (reachesBorder 5 5 R) && (Z.of_nat (length R) <? 200)
                   then Int 255 else dget pinhole (p * 4 + 3)
              else if negb (reachesBorder 5 5 R) && (Z.of_nat (length R) <? 100)
                   then Int 0 else dget pinhole (p * 4 + 3).
Proof.
  apply (small_regions_flipped pinhole 5 5); [lia|lia|reflexivity].
Defined.

End SmallRegions.

(* ================================================================== *)
(** ** The removal without a background signal *)
(* ================================================================== *)

Module NoSignal.
Import Js Morph Color Detect Compose Pipeline JsFacts MorphFacts Refiner
       Compositor Clusterer Removal Regions EdgeReach LargeRegion Majority
       ConnectFacts MaskFacts.

(** *** The compositor on a blank flood fill *)

(** A mask that marks nothing. *)
Definition blank (m : list bool) : Prop := forall q, aget m q = false.

Lemma blank_repeat n : blank (repeat false n).
Proof. intros q. now rewrite aget_repeat. Qed.

Lemma seeds_blank m w h : blank m -> seeds m w h = [].
Proof.
  intros Hm. unfold seeds.
  apply (forZ_inv (fun queue : list Z => queue = [])).
  - apply (forZ_inv (fun queue : list Z => queue = [])); [reflexivity|].
    intros x t _ ->. now rewrite !Hm.
  - intros y t _ ->. now rewrite !Hm.
Qed.

(** With nothing to start from, the flood fill returns the mask. *)
Lemma floodFillBackground_blank m w h :
  blank m -> floodFillBackground m w h = Some m.
Proof.
  intros Hm. unfold floodFillBackground. rewrite (seeds_blank m w h Hm).
  destruct (floodFuel m w h); reflexivity.
Qed.

Lemma isSurroundedByBackground_blank idx m w h :
  blank m -> isSurroundedByBackground idx m w h = false.
Proof.
  intros Hm. unfold isSurroundedByBackground. cbv zeta.
  set (cells := neighborhood 2 w h (Z.rem idx w) (idx / w)).
  set (p := fun _ : Z * Z => false).
  rewrite (fold_left_same _
             (fun '(c, t) n => (if p n then c + 1 else c, t + 1))).
  2:{ intros [c t] [nx ny] _. now rewrite Hm. }
  rewrite count_fold. cbn [Z.add].
  assert (E : filter p cells = []).
  { clearbody cells. induction cells as [|c l IH]; [reflexivity|exact IH]. }
  rewrite E. cbn [length Z.of_nat].
  rewrite seventy_percent.
  - apply Z.ltb_ge. lia.
  - lia.
  - pose proof (length_neighborhood 2 w h (Z.rem idx w) (idx / w) 24 eq_refl) as H.
    fold cells in H. clearbody cells. lia.
Qed.

(** In a column of one label, every pixel is connected to the first of the
    column. *)
Lemma walk_up T w h p :
  0 < w -> 0 <= p < w * h ->
  (forall q, 0 <= q < w * h -> isT T q = isT T p) ->
  forall k : nat, Z.of_nat k <= p / w -> conn T w h p (p - Z.of_nat k * w).
Proof.
  intros Hw Hp Hsame. induction k as [|k IH]; intros Hk.
  - replace (p - Z.of_nat 0 * w) with p by lia. constructor.
  - assert (Hk' : Z.of_nat k <= p / w) by lia. specialize (IH Hk').
    pose proof (Z.div_mod p w ltac:(lia)) as Hdm.
    pose proof (Z.mod_pos_bound p w Hw) as Hmb.
    assert (Hrow : 0 <= p / w < h).
    { split; [apply Z.div_pos; lia|]. apply Z.div_lt_upper_bound; lia. }
    set (q := p - Z.of_nat k * w) in *.
    assert (Eq : q = (p / w - Z.of_nat k) * w + p mod w) by (subst q; lia).
    assert (Hqm : q mod w = p mod w) by (rewrite Eq; apply index_mod; lia).
    assert (Hqd : q / w = p / w - Z.of_nat k)
      by (rewrite Eq; apply index_div; lia).
    apply (conn_step T w h p q).
    + exact IH.
    + exists 0, (-1). split; [apply in_directions; lia|].
      rewrite Hqm, Hqd. repeat split; try lia.
    + apply Hsame. nia.
Qed.

(** An image of one label is one region. *)
Lemma one_region T w h p q :
  0 < w -> 0 <= p < w * h -> 0 <= q < w * h ->
  (forall a b, 0 <= a < w * h -> 0 <= b < w * h -> isT T a = isT T b) ->
  conn T w h p q.
Proof.
  intros Hw Hp Hq Hsame.
  assert (Corner : forall a, 0 <= a < w * h -> conn T w h a 0).
  { intros a Ha.
    pose proof (Z.div_mod a w ltac:(lia)) as Hdm.
    pose proof (Z.mod_pos_bound a w Hw) as Hmb.
    assert (Hrow : 0 <= a / w) by (apply Z.div_pos; lia).
    pose proof (walk_left T w h a Hw Ha (fun b Hb => Hsame b a Hb Ha)
                  (Z.to_nat (a mod w))) as H1.
    rewrite Z2Nat.id in H1 by lia. specialize (H1 (Z.le_refl _)).
    set (c := a - a mod w) in *.
    assert (Hc : 0 <= c < w * h) by (subst c; nia).
    assert (Ec : c / w = a / w).
    { subst c. replace (a - a mod w) with (a / w * w + 0) by lia.
      apply index_div. lia. }
    pose proof (walk_up T w h c Hw Hc (fun b Hb => Hsame b c Hb Hc)
                  (Z.to_nat (c / w))) as H2.
    rewrite Z2Nat.id in H2 by lia. specialize (H2 (Z.le_refl _)).
    replace (c - c / w * w) with 0 in H2 by (rewrite Ec; subst c; lia).
    exact (conn_trans T w h a c 0 H1 H2). }
  apply (conn_trans T w h p 0 q); [now apply Corner|].
  apply (conn_sym T w h Hw q 0 Hq). now apply Corner.
Qed.

Lemma NoDup_range lo hi : NoDup (range lo hi).
Proof.
  unfold range. generalize (Z.to_nat (hi - lo)) as n. generalize 0%nat as s.
  intros s n. revert s. induction n as [|n IH]; intros s; cbn [seq map].
  - constructor.
  - constructor; [|apply IH].
    rewrite in_map_iff. intros (k & Ek & Hk). apply in_seq in Hk. lia.
Qed.

(** On a blank mask of at least 100 pixels every pixel is part of a large
    region: the image. *)
Lemma isPartOfLargeRegion_blank idx m w h :
  0 < w -> 0 < h -> 100 <= w * h -> 0 <= idx < w * h -> blank m ->
  isPartOfLargeRegion idx m w h = true.
Proof.
  intros Hw Hh Hbig Hidx Hm.
  destruct (isPartOfLargeRegion_counts m w h Hw Hh idx Hidx (Hm idx))
    as (R & [Hnd HR] & ->).
  apply Z.leb_le.
  assert (Hincl : incl (range 0 (w * h)) R).
  { intros q Hq. apply in_range in Hq. apply HR.
    apply one_region; try assumption.
    intros a b Ha Hb. now rewrite !isT_markLabels, !Hm by assumption. }
  pose proof (NoDup_incl_length (NoDup_range 0 (w * h)) Hincl) as Hlen.
  rewrite length_range in Hlen. lia.
Qed.

(** *** Masks that stay near the edges *)

(** Pixel [i] is within [k] of an edge of the image. *)
Definition near (k w h i : Z) : bool :=
  (i mod w <? k) || (i mod w >=? w - k) || (i / w <? k) || (i / w >=? h - k).

(** The mask marks no pixel of the image that is [k] or more away from
    every edge. *)
Definition hugs (k w h : Z) (m : list bool) : Prop :=
  forall i, 0 <= i < w * h -> near k w h i = false -> aget m i = false.

Lemma near_false k w h i :
  near k w h i = false <->
  k <= i mod w < w - k /\ k <= i / w < h - k.
Proof.
  unfold near. rewrite !orb_false_iff, !Z.ltb_ge, !Z.geb_leb, !Z.leb_gt. lia.
Qed.

Lemma hugs_dilate k w h m :
  0 < w -> 0 <= k -> hugs k w h m -> hugs (k + 1) w h (dilate m w h).
Proof.
  intros Hw Hk Hm i Hi Hn. apply near_false in Hn. destruct Hn as [Hx Hy].
  rewrite dilate_get by lia.
  replace (inner w h (i mod w) (i / w)) with true
    by (symmetry; apply inner_bounds; lia).
  apply not_true_is_false. intros H.
  apply anyBackground_true in H. destruct H as (dx & dy & Hdx & Hdy & H).
  apply in_window3 in Hdx, Hdy.
  rewrite Hm in H; [discriminate|nia|].
  apply near_false. rewrite index_mod, index_div by lia. lia.
Qed.

Lemma hugs_erode k w h m :
  0 < w -> 0 <= k -> 2 * k + 3 <= w -> 2 * k + 3 <= h ->
  hugs (k + 1) w h m -> hugs k w h (erode m w h).
Proof.
  intros Hw Hk Hww Hhh Hm i Hi Hn. apply near_false in Hn.
  destruct Hn as [Hx Hy]. rewrite erode_get by lia.
  destruct (inner w h (i mod w) (i / w)); [|reflexivity]. cbn [andb].
  apply not_true_is_false. intros H. rewrite allBackground_true in H.
  set (dx := if i mod w <? k + 1 then 1
             else if w - k - 2 <? i mod w then -1 else 0).
  set (dy := if i / w <? k + 1 then 1
             else if h - k - 2 <? i / w then -1 else 0).
  assert (Hdx : In dx window3 /\ k + 1 <= i mod w + dx < w - (k + 1)).
  { subst dx. destruct (Z.ltb_spec (i mod w) (k + 1)),
      (Z.ltb_spec (w - k - 2) (i mod w)); rewrite in_window3; lia. }
  assert (Hdy : In dy window3 /\ k + 1 <= i / w + dy < h - (k + 1)).
  { subst dy. destruct (Z.ltb_spec (i / w) (k + 1)),
      (Z.ltb_spec (h - k - 2) (i / w)); rewrite in_window3; lia. }
  destruct Hdx as [Hdx Bx], Hdy as [Hdy By].
  specialize (H dx dy Hdx Hdy).
  rewrite Hm in H; [discriminate|nia|].
  apply near_false. rewrite index_mod, index_div by lia. lia.
Qed.

Lemma hugs_weaken k k' w h m : k <= k' -> hugs k w h m -> hugs k' w h m.
Proof.
  intros Hk Hm i Hi Hn. apply Hm; [assumption|].
  apply near_false in Hn. apply near_false. lia.
Qed.

Lemma hugs_ensureEdgesRemoved k w h m :
  edgeWidth <= k -> hugs k w h m -> hugs k w h (ensureEdgesRemoved m w h).
Proof.
  intros Hk Hm i Hi Hn. rewrite ensureEdgesRemoved_get by lia.
  pose proof Hn as Hn'. apply near_false in Hn'.
  replace (inBand w h (i mod w) (i / w)) with false.
  - rewrite andb_false_r. now apply Hm.
  - symmetry. unfold inBand. rewrite !orb_false_iff, !Z.ltb_ge, !Z.geb_leb, !Z.leb_gt.
    lia.
Qed.

(** The mask the compositor builds from a blank initial mask marks no pixel
    ten or more away from every edge, whatever the two protection masks
    hold. *)
Lemma refineCompositeMask_blank initialMask skinMask clothingMask imageData w h :
  23 <= w -> 23 <= h -> blank initialMask ->
  exists finalMask,
    refineCompositeMask initialMask skinMask clothingMask imageData w h
    = Some finalMask
    /\ hugs 10 w h finalMask.
Proof.
  intros Hw Hh Hb. unfold refineCompositeMask.
  rewrite (floodFillBackground_blank initialMask w h Hb).
  eexists. split; [reflexivity|].
  set (c := forZ 0 (w * h) _ _).
  assert (Hc : hugs 10 w h c).
  { intros i Hi Hn. unfold c. rewrite Uniform.composite_get by assumption.
    unfold combine.
    destruct (aget skinMask i || aget clothingMask i); [reflexivity|].
    rewrite (Hb i). cbv zeta.
    rewrite Z.rem_mod_nonneg by lia.
    unfold near in Hn. rewrite Hn.
    rewrite isSurroundedByBackground_blank by assumption.
    rewrite isPartOfLargeRegion_blank by (try assumption; nia).
    reflexivity. }
  apply (hugs_ensureEdgesRemoved 10); [unfold edgeWidth; lia|].
  apply (hugs_dilate 9); try lia.
  apply (hugs_erode 9); try lia.
  apply (hugs_erode 10); try lia.
  apply (hugs_dilate 10); try lia.
  exact Hc.
Qed.

(** A 21x21 image, transparent black everywhere but for one opaque black
    pixel in the middle, ten pixels away from every edge. *)
Definition farDot : list Z :=
  concat (repeat [0; 0; 0; 0] 220) ++ [0; 0; 0; 255]
  ++ concat (repeat [0; 0; 0; 0] 220).

(** In an image less than 23 pixels wide the part ten or more away from the
    edges is at most two pixels thick, and the first dilation closes it: on
    [farDot] there is no valid sample, and the opaque pixel in the middle
    (alpha byte 883) is made transparent. *)
Lemma far_pixel_removed_in_narrow_image :
  forallb (fun c => negb (isValid c)) (sampleEdgesOnly farDot 21 21) = true
  /\ dget farDot 883 = Int 255
  /\ exists out, removeBackground farDot 21 21 = Some out
                 /\ dget out 883 = Int 0.
Proof.
  split; [vm_compute; reflexivity|]. split; [reflexivity|].
  destruct (removeBackground farDot 21 21) as [out|] eqn:E.
  - exists out. split; [reflexivity|].
    revert E. vm_compute. intros E. injection E as <-. reflexivity.
  - revert E. vm_compute. discriminate.
Qed.

(** C5 (amended): when no sample is valid the clusterer returns the empty
    list and the initializer given that list returns the all-false mask,
    for every buffer; the compositor then returns a mask with one entry per
    pixel, whatever the two protection masks hold, and the removal run on
    the image the samples were taken from returns a buffer of the same
    length: nothing fails.  In an image at least 23 pixels wide and high
    the removal is a no-op on every pixel ten or more pixels away from every
    edge: the mask leaves it unmarked and its four bytes are unchanged.
    (Nearer to an edge, and in smaller images, it need not be.) *)
Theorem no_background_signal (samples : list color) (imageData : list Z)
    (skinMask clothingMask : list bool) (w h : Z) :
  0 <= w -> 0 <= h ->
  forallb (fun c => negb (isValid c)) samples = true ->
  findDominantColors samples = []
  /\ createInitialBackgroundMask imageData w h (findDominantColors samples)
     = repeat false (Z.to_nat (w * h))
  /\ (exists finalMask,
        refineCompositeMask
          (createInitialBackgroundMask imageData w h (findDominantColors samples))
          skinMask clothingMask imageData w h = Some finalMask
        /\ length finalMask = Z.to_nat (w * h)
        /\ (23 <= w -> 23 <= h ->
            forall x y, 10 <= x < w - 10 -> 10 <= y < h - 10 ->
              aget finalMask (y * w + x) = false))
  /\ (samples = sampleEdgesOnly imageData w h ->
      exists out,
        removeBackground imageData w h = Some out
        /\ length out = length imageData
        /\ (23 <= w -> 23 <= h ->
            forall x y, 10 <= x < w - 10 -> 10 <= y < h - 10 ->
            forall c, 0 <= c < 4 ->
              dget out ((y * w + x) * 4 + c)
              = dget imageData ((y * w + x) * 4 + c))).
Proof.
  intros Hw0 Hh0 H. rewrite (findDominantColors_none samples H).
  split; [reflexivity|]. split; [reflexivity|].
  assert (G : forall skin cloth,
    exists finalMask,
      refineCompositeMask (createInitialBackgroundMask imageData w h [])
        skin cloth imageData w h = Some finalMask
      /\ length finalMask = Z.to_nat (w * h)
      /\ (23 <= w -> 23 <= h ->
          forall x y, 10 <= x < w - 10 -> 10 <= y < h - 10 ->
            aget finalMask (y * w + x) = false)).
  { intros skin cloth.
    destruct (PipelineFacts.length_refineCompositeMask
                (createInitialBackgroundMask imageData w h [])
                skin cloth imageData w h) as (m & E & L).
    exists m. split; [exact E|]. split; [exact L|].
    intros Hw Hh x y Hx Hy.
    destruct (refineCompositeMask_blank
                (createInitialBackgroundMask imageData w h [])
                skin cloth imageData w h Hw Hh) as (m' & E' & Hm').
    { rewrite createInitialBackgroundMask_empty. apply blank_repeat. }
    rewrite E in E'. injection E' as <-.
    apply Hm'; [nia|]. apply near_false.
    rewrite index_mod, index_div by lia. lia. }
  split; [apply G|].
  intros ->. unfold removeBackground, improvedBackgroundDetection.
  rewrite (findDominantColors_none _ H).
  destruct (G (detectSkinTones imageData w h) (detectClothing imageData w h))
    as (m & E & L & Hm).
  rewrite E. eexists. split; [reflexivity|].
  destruct (applyMask_get m imageData) as [La Ga].
  split; [exact La|].
  intros Hw Hh x y Hx Hy c Hc. rewrite Ga.
  replace (((y * w + x) * 4 + c) / 4) with (y * w + x)
    by (Z.div_mod_to_equations; lia).
  rewrite (Hm Hw Hh x y Hx Hy). now rewrite andb_false_r.
Qed.

(** A 23x23 image, transparent black everywhere but for one opaque black
    pixel in the middle. *)
Definition keptDot : list Z :=
  concat (repeat [0; 0; 0; 0] 264) ++ [0; 0; 0; 255]
  ++ concat (repeat [0; 0; 0; 0] 264).

Lemma no_background_signal_witness :
  findDominantColors (sampleEdgesOnly keptDot 23 23) = []
  /\ exists out,
       removeBackground keptDot 23 23 = Some out
       /\ dget out ((11 * 23 + 11) * 4 + 3) = Int 255.
Proof.
  destruct (no_background_signal (sampleEdgesOnly keptDot 23 23) keptDot
              [] [] 23 23) as (H1 & _ & _ & H4).
  - lia.
  - lia.
  - vm_compute. reflexivity.
  - split; [exact H1|].
    destruct (H4 eq_refl) as (out & E & _ & K).
    exists out. split; [exact E|].
    rewrite (K ltac:(lia) ltac:(lia) 11 11 ltac:(lia) ltac:(lia) 3 ltac:(lia)).
    reflexivity.
Defined.

End NoSignal.

(* ================================================================== *)
(** ** Rounded quotients in binary64 *)
(* ================================================================== *)

(** [Math.round (a / n)] on two integers goes through the binary64 division.
    This section follows that division through its specification
    ([SpecFloat]) and shows that, for the sizes that occur, the rounding of
    the quotient to 53 bits never changes the integer it is rounded to. *)
Module Quotient.
Import Js.

(** *** Binary digits *)

(** Forget what a term is, so that linear arithmetic takes it as an
    unknown. *)
Ltac forget t :=
  let X := fresh "X" in
  let E := fresh "E" in
  remember t as X eqn:E; clear E.

Lemma digits2_bounds p :
  2 ^ (Zpos (digits2_pos p) - 1) <= Zpos p < 2 ^ Zpos (digits2_pos p).
Proof.
  induction p as [p IH|p IH|]; cbn [digits2_pos].
  - rewrite Pos2Z.inj_succ, Pos2Z.inj_xI.
    replace (Z.succ (Zpos (digits2_pos p)) - 1)
      with (Z.succ (Zpos (digits2_pos p) - 1)) by lia.
    rewrite !Z.pow_succ_r by lia.
    forget (2 ^ (Zpos (digits2_pos p) - 1)). forget (2 ^ Zpos (digits2_pos p)).
    lia.
  - rewrite Pos2Z.inj_succ. change (Zpos p~0) with (2 * Zpos p).
    replace (Z.succ (Zpos (digits2_pos p)) - 1)
      with (Z.succ (Zpos (digits2_pos p) - 1)) by lia.
    rewrite !Z.pow_succ_r by lia.
    forget (2 ^ (Zpos (digits2_pos p) - 1)). forget (2 ^ Zpos (digits2_pos p)).
    lia.
  - cbn. lia.
Qed.

Lemma digits2_unique p k :
  2 ^ (k - 1) <= Zpos p < 2 ^ k -> Zpos (digits2_pos p) = k.
Proof.
  intros [Hlo Hhi]. pose proof (digits2_bounds p) as [Blo Bhi].
  assert (Hk : 0 < k).
  { destruct (Z.lt_ge_cases 0 k) as [|Hk]; [assumption|].
    destruct (Z.eq_dec k 0) as [->|]; [cbn in Hhi; lia|].
    rewrite Z.pow_neg_r in Hhi by lia. lia. }
  assert (H1 : Zpos (digits2_pos p) - 1 < k).
  { apply (Z.pow_lt_mono_r_iff 2); lia. }
  assert (H2 : k - 1 < Zpos (digits2_pos p)).
  { apply (Z.pow_lt_mono_r_iff 2); lia. }
  lia.
Qed.

Lemma iter_xO p d : Zpos (Pos.iter xO p d) = Zpos p * 2 ^ Zpos d.
Proof.
  induction d as [|d IH] using Pos.peano_ind.
  - cbn [Pos.iter]. change (Zpos p~0) with (2 * Zpos p).
    change (2 ^ 1) with 2. lia.
  - rewrite Pos.iter_succ.
    change (Zpos (Pos.iter xO p d)~0) with (2 * Zpos (Pos.iter xO p d)).
    rewrite IH, Pos2Z.inj_succ. rewrite Z.pow_succ_r by lia. lia.
Qed.

(** *** Rounding a mantissa of 53 or 54 bits *)

Lemma fexp_normal e : -1021 <= e -> fexp prec emax e = e - 53.
Proof. intros H. unfold fexp, SpecFloat.emin, prec, emax. lia. Qed.

Lemma shr_fexp_53 m e l :
  Zpos (digits2_pos m) = 53 -> -1074 <= e ->
  shr_fexp prec emax (Zpos m) e l = (shr_record_of_loc (Zpos m) l, e).
Proof.
  intros Hd He. unfold shr_fexp. cbn [Zdigits2]. rewrite Hd.
  rewrite fexp_normal by lia.
  replace (53 + e - 53 - e) with 0 by lia. reflexivity.
Qed.

Lemma shr_fexp_54 m e l :
  Zpos (digits2_pos m) = 54 -> -1074 <= e ->
  shr_fexp prec emax (Zpos m) e l = (shr_1 (shr_record_of_loc (Zpos m) l), e + 1).
Proof.
  intros Hd He. unfold shr_fexp. cbn [Zdigits2]. rewrite Hd.
  rewrite fexp_normal by lia.
  replace (54 + e - 53 - e) with 1 by lia. reflexivity.
Qed.

Lemma shr_m_of_loc m l : shr_m (shr_record_of_loc m l) = m.
Proof. destruct l as [|[| |]]; reflexivity. Qed.

Lemma loc_of_shr_of_loc m l : loc_of_shr_record (shr_record_of_loc m l) = l.
Proof. destruct l as [|[| |]]; reflexivity. Qed.

(** The last step of [binary_round_aux]: a mantissa that the rounding
    carried to [2^53] is brought back to 53 bits. *)
Definition finish (m e : Z) : spec_float :=
  let '(mrs, e') := shr_fexp prec emax m e loc_Exact in
  match shr_m mrs with
  | Z0 => S754_zero false
  | Zpos m => if e' <=? emax - prec then S754_finite false m e'
              else S754_infinity false
  | Zneg _ => S754_nan
  end.

Lemma finish_spec m e :
  2 ^ 52 <= m <= 2 ^ 53 -> -1074 <= e <= 900 ->
  exists mf ef,
    finish m e = S754_finite false mf ef
    /\ e <= ef <= e + 1
    /\ Zpos mf * 2 ^ (ef - e) = m.
Proof.
  intros Hm He.
  destruct (Z.eq_dec m (2 ^ 53)) as [->|Hne].
  - exists 4503599627370496%positive, (e + 1). unfold finish.
    change (2 ^ 53) with (Zpos 9007199254740992).
    rewrite (shr_fexp_54 9007199254740992 e loc_Exact) by (try reflexivity; lia).
    cbn [shr_record_of_loc shr_1 shr_m].
    destruct (Z.leb_spec (e + 1) (emax - prec)) as [_|H];
      [|unfold emax, prec in H; lia].
    split; [reflexivity|]. split; [lia|].
    replace (e + 1 - e) with 1 by lia. reflexivity.
  - destruct m as [|p|p]; try lia.
    assert (Hd : Zpos (digits2_pos p) = 53) by (apply digits2_unique; lia).
    exists p, e. unfold finish. rewrite shr_fexp_53 by (try assumption; lia).
    cbn [shr_record_of_loc shr_m].
    destruct (Z.leb_spec e (emax - prec)) as [_|H];
      [|unfold emax, prec in H; lia].
    split; [reflexivity|]. split; [lia|].
    rewrite Z.sub_diag. cbn. lia.
Qed.

Lemma binary_round_aux_finish m e l :
  binary_round_aux prec emax false m e l
  = let '(mrs, e') := shr_fexp prec emax m e l in
    finish (round_nearest_even (shr_m mrs) (loc_of_shr_record mrs)) e'.
Proof.
  unfold binary_round_aux, finish.
  destruct (shr_fexp prec emax m e l) as [mrs e']. reflexivity.
Qed.

(** *** Where the exact quotient lies *)

(** The location [l] tells where [num / den] lies in [[0, 1)]: on 0, below
    one half, on it, or above it. *)
Definition locates (l : location) (num den : Z) : Prop :=
  match l with
  | loc_Exact => num = 0
  | loc_Inexact Lt => 0 < 2 * num < den
  | loc_Inexact Eq => 2 * num = den
  | loc_Inexact Gt => den < 2 * num
  end.

Lemma new_location_locates d r :
  0 < d -> 0 <= r < d -> locates (new_location d r) r d.
Proof.
  intros Hd Hr. unfold new_location, new_location_even, new_location_odd.
  destruct (Z.even d) eqn:Ev; destruct (Z.eqb_spec r 0) as [E0|N0];
    try (cbn [locates]; assumption).
  - destruct (Z.compare_spec (2 * r) d); cbn [locates]; lia.
  - assert (Hodd : Z.odd d = true) by (rewrite <- Z.negb_even, Ev; reflexivity).
    apply Z.odd_spec in Hodd. destruct Hodd as [k Hk].
    destruct (Z.compare_spec (2 * r + 1) d); cbn [locates]; lia.
Qed.

Lemma round_nearest_even_near m l num den :
  0 <= num < den -> locates l num den ->
  m <= round_nearest_even m l <= m + 1
  /\ - den <= 2 * (round_nearest_even m l * den - (m * den + num)) <= den.
Proof.
  intros Hn Hl.
  destruct l as [|[| |]]; cbn [locates round_nearest_even] in Hl |- *.
  - subst num. lia.
  - destruct (Z.even m); lia.
  - lia.
  - lia.
Qed.

Lemma half_xO p : Zpos p~0 / 2 = Zpos p /\ Zpos p~0 mod 2 = 0.
Proof. change (Zpos p~0) with (2 * Zpos p). Z.div_mod_to_equations. lia. Qed.

Lemma half_xI p : Zpos p~1 / 2 = Zpos p /\ Zpos p~1 mod 2 = 1.
Proof. change (Zpos p~1) with (2 * Zpos p + 1). Z.div_mod_to_equations. lia. Qed.

(** One shift to the right keeps track of the quotient. *)
Lemma shr_1_locates q l num den :
  0 <= num < den -> locates l num den ->
  let mrs := shr_1 (shr_record_of_loc (Zpos q) l) in
  shr_m mrs = Zpos q / 2
  /\ locates (loc_of_shr_record mrs) (Zpos q mod 2 * den + num) (2 * den).
Proof.
  intros Hn Hl. cbv zeta.
  destruct q as [p|p|].
  - destruct (half_xI p) as [-> ->].
    destruct l as [|[| |]];
      cbn [locates shr_1 shr_record_of_loc loc_of_shr_record shr_m orb] in Hl |- *;
      split; try reflexivity; lia.
  - destruct (half_xO p) as [-> ->].
    destruct l as [|[| |]];
      cbn [locates shr_1 shr_record_of_loc loc_of_shr_record shr_m orb] in Hl |- *;
      split; try reflexivity; lia.
  - change (1 / 2) with 0. change (1 mod 2) with 1.
    destruct l as [|[| |]];
      cbn [locates shr_1 shr_record_of_loc loc_of_shr_record shr_m orb] in Hl |- *;
      split; try reflexivity; lia.
Qed.

(** [binary_round_aux] on the quotient [q] and remainder [r] of a division
    by [D]: the mantissa it returns, at the exponent it returns, is within
    half a unit of the exact quotient [(q * D + r) / D]. *)
Lemma round_quotient (q : positive) (E D r : Z) :
  2 ^ 52 <= Zpos q < 2 ^ 54 -> -1074 <= E <= 800 -> 0 < D -> 0 <= r < D ->
  exists mf ef,
    binary_round_aux prec emax false (Zpos q) E (new_location D r)
    = S754_finite false mf ef
    /\ E <= ef <= E + 2
    /\ - (2 ^ (ef - E) * D)
       <= 2 * (Zpos mf * 2 ^ (ef - E) * D - (Zpos q * D + r))
       <= 2 ^ (ef - E) * D.
Proof.
  intros Hq HE HD Hr. rewrite binary_round_aux_finish.
  pose proof (new_location_locates D r HD Hr) as Hl.
  set (l := new_location D r) in *. clearbody l.
  destruct (Z.lt_ge_cases (Zpos q) (2 ^ 53)) as [Hlt|Hge].
  - assert (Hd : Zpos (digits2_pos q) = 53) by (apply digits2_unique; lia).
    rewrite shr_fexp_53 by (try assumption; lia).
    rewrite shr_m_of_loc, loc_of_shr_of_loc.
    destruct (round_nearest_even_near (Zpos q) l r D Hr Hl) as [Hm Hnear].
    set (m1 := round_nearest_even (Zpos q) l) in *. clearbody m1.
    destruct (finish_spec m1 E) as (mf & ef & -> & He & Hv); [lia|lia|].
    exists mf, ef. split; [reflexivity|]. split; [lia|].
    assert (Hcase : ef = E \/ ef = E + 1) by lia.
    destruct Hcase as [-> | ->].
    + rewrite Z.sub_diag in *. change (2 ^ 0) with 1 in *. nia.
    + replace (E + 1 - E) with 1 in * by lia. change (2 ^ 1) with 2 in *. nia.
  - assert (Hd : Zpos (digits2_pos q) = 54) by (apply digits2_unique; lia).
    rewrite shr_fexp_54 by (try assumption; lia).
    destruct (shr_1_locates q l r D Hr Hl) as [Hm Hl'].
    set (mrs := shr_1 (shr_record_of_loc (Zpos q) l)) in *. clearbody mrs.
    rewrite Hm.
    assert (Hb : 0 <= Zpos q mod 2 < 2) by (apply Z.mod_pos_bound; lia).
    pose proof (Z.div_mod (Zpos q) 2 ltac:(lia)) as Hdm.
    destruct (round_nearest_even_near (Zpos q / 2) (loc_of_shr_record mrs)
                (Zpos q mod 2 * D + r) (2 * D)) as [Hm1 Hnear];
      [nia|assumption|].
    set (m1 := round_nearest_even (Zpos q / 2) (loc_of_shr_record mrs)) in *.
    clearbody m1.
    destruct (finish_spec m1 (E + 1)) as (mf & ef & -> & He & Hv); [lia|lia|].
    exists mf, ef. split; [reflexivity|]. split; [lia|].
    assert (Hcase : ef = E + 1 \/ ef = E + 2) by lia.
    destruct Hcase as [-> | ->].
    + replace (E + 1 - (E + 1)) with 0 in * by lia.
      replace (E + 1 - E) with 1 in * by lia.
      change (2 ^ 0) with 1 in *. change (2 ^ 1) with 2 in *. nia.
    + replace (E + 2 - (E + 1)) with 1 in * by lia.
      replace (E + 2 - E) with 2 in * by lia.
      change (2 ^ 2) with 4 in *. change (2 ^ 1) with 2 in *. nia.
Qed.

(** *** The division of two integers *)

Lemma binary_round_aux_exact m e :
  Zpos (digits2_pos m) = 53 -> -1074 <= e <= 900 ->
  binary_round_aux prec emax false (Zpos m) e loc_Exact = S754_finite false m e.
Proof.
  intros Hd He. rewrite binary_round_aux_finish.
  rewrite shr_fexp_53 by (try assumption; lia).
  cbn [shr_record_of_loc shr_m loc_of_shr_record round_nearest_even].
  unfold finish. rewrite shr_fexp_53 by (try assumption; lia).
  cbn [shr_record_of_loc shr_m].
  destruct (Z.leb_spec e (emax - prec)) as [_|H];
    [reflexivity|unfold emax, prec in H; lia].
Qed.

(** A positive integer below [2^53] is a binary64 number: its mantissa is
    the integer, shifted to 53 bits. *)
Lemma ofZ_normal a :
  0 < a < 2 ^ 53 ->
  exists m e,
    Prim2SF (ofZ a) = S754_finite false m e
    /\ Zpos (digits2_pos m) = 53 /\ -52 <= e <= 0
    /\ Zpos m = a * 2 ^ (- e).
Proof.
  intros Ha. unfold ofZ. destruct (Z.ltb_spec a 0); [lia|].
  rewrite FloatAxioms.of_uint63_spec, Uint63.of_Z_spec.
  assert (HwB : Uint63Axioms.wB = 2 ^ 63) by reflexivity.
  rewrite Z.mod_small by (rewrite HwB; lia).
  destruct a as [|p|p]; try lia.
  cbn [binary_normalize]. unfold binary_round.
  pose proof (digits2_bounds p) as [Blo Bhi].
  assert (Hk : 1 <= Zpos (digits2_pos p) <= 53).
  { split; [lia|].
    assert (Zpos (digits2_pos p) - 1 < 53); [|lia].
    apply (Z.pow_lt_mono_r_iff 2); lia. }
  rewrite Z.add_0_r, fexp_normal by lia.
  unfold shl_align. rewrite Z.sub_0_r.
  destruct (Zpos (digits2_pos p) - 53) as [|d|d] eqn:Ed; try lia.
  - assert (Hd : Zpos (digits2_pos p) = 53) by lia.
    exists p, 0. rewrite binary_round_aux_exact by (try assumption; lia).
    split; [reflexivity|]. split; [assumption|]. split; [lia|].
    cbn. lia.
  - assert (Hm : Zpos (Pos.iter xO p d) = Zpos p * 2 ^ Zpos d) by apply iter_xO.
    assert (Hdd : Zpos d = 53 - Zpos (digits2_pos p)) by lia.
    assert (Hpow : 2 ^ (Zpos (digits2_pos p) - 1) * 2 ^ Zpos d = 2 ^ 52).
    { rewrite <- Z.pow_add_r by lia. f_equal. lia. }
    assert (Hpow' : 2 ^ Zpos (digits2_pos p) * 2 ^ Zpos d = 2 ^ 53).
    { rewrite <- Z.pow_add_r by lia. f_equal. lia. }
    assert (Hpos : 0 < 2 ^ Zpos d) by (apply Z.pow_pos_nonneg; lia).
    assert (Hd : Zpos (digits2_pos (Pos.iter xO p d)) = 53).
    { apply digits2_unique. rewrite Hm. change (53 - 1) with 52.
      forget (2 ^ Zpos d). forget (2 ^ (Zpos (digits2_pos p) - 1)).
      forget (2 ^ Zpos (digits2_pos p)). nia. }
    exists (Pos.iter xO p d), (Zneg d).
    rewrite binary_round_aux_exact by (try assumption; lia).
    split; [reflexivity|]. split; [assumption|]. split; [lia|].
    rewrite Hm. reflexivity.
Qed.

(** The binary64 quotient of two positive integers, against the exact
    one: at the exponent [e] of the result, its mantissa is within half a
    unit of [a * 2^(-e) / n]. *)
Lemma div_near a n :
  0 < a < 2 ^ 53 -> 0 < n < 2 ^ 53 -> a <= 255 * n ->
  exists m e,
    Prim2SF (PrimFloat.div (ofZ a) (ofZ n)) = S754_finite false m e
    /\ e <= -43
    /\ - n <= 2 * (Zpos m * n - a * 2 ^ (- e)) <= n.
Proof.
  intros Ha Hn Hbig.
  destruct (ofZ_normal a Ha) as (M1 & e1 & H1 & Hd1 & He1 & HM1).
  destruct (ofZ_normal n Hn) as (M2 & e2 & H2 & Hd2 & He2 & HM2).
  pose proof (digits2_bounds M1) as B1. rewrite Hd1 in B1.
  pose proof (digits2_bounds M2) as B2. rewrite Hd2 in B2.
  change (53 - 1) with 52 in B1, B2.
  (* the exponents are close *)
  assert (Hclose : e1 - e2 <= 8).
  { destruct (Z.le_gt_cases (e1 - e2) 8) as [|Hfar]; [assumption|exfalso].
    assert (Hp : 2 ^ (- e2) = 2 ^ (- e1) * 2 ^ (e1 - e2)).
    { rewrite <- Z.pow_add_r by lia. f_equal. lia. }
    assert (Hq : 2 ^ 9 <= 2 ^ (e1 - e2)) by (apply Z.pow_le_mono_r; lia).
    assert (Hr : 0 < 2 ^ (- e1)) by (apply Z.pow_pos_nonneg; lia).
    change (2 ^ 9) with 512 in Hq. change (2 ^ 52) with 4503599627370496 in *.
    change (2 ^ 53) with 9007199254740992 in *.
    rewrite Hp in HM2.
    forget (2 ^ (e1 - e2)). forget (2 ^ (- e1)). nia. }
  rewrite FloatAxioms.div_spec, H1, H2.
  unfold FloatAxioms.SF64div, SFdiv. cbn [xorb].
  unfold SFdiv_core_binary. cbn [Zdigits2]. rewrite Hd1, Hd2.
  rewrite fexp_normal by lia.
  replace (Z.min (53 + e1 - (53 + e2) - 53) (e1 - e2)) with (e1 - e2 - 53) by lia.
  replace (e1 - e2 - (e1 - e2 - 53)) with 53 by lia. cbv iota.
  rewrite Z.shiftl_mul_pow2 by lia.
  pose proof (Z.div_eucl_eq (Zpos M1 * 2 ^ 53) (Zpos M2) ltac:(lia)) as Hqr.
  pose proof (Z.mod_pos_bound (Zpos M1 * 2 ^ 53) (Zpos M2) ltac:(lia)) as Hr.
  unfold Z.modulo in Hr.
  destruct (Z.div_eucl (Zpos M1 * 2 ^ 53) (Zpos M2)) as [q r].
  change (2 ^ 52) with 4503599627370496 in *.
  change (2 ^ 53) with 9007199254740992 in *.
  change (2 ^ 54) with 18014398509481984 in *.
  assert (Hq : 4503599627370496 <= q < 18014398509481984) by nia.
  destruct q as [|qp|qp]; try lia.
  destruct (round_quotient qp (e1 - e2 - 53) (Zpos M2) r)
    as (mf & ef & E & Hef & Hnear); try lia.
  exists mf, ef. split; [exact E|]. split; [lia|].
  (* back to [a] and [n] *)
  set (P := 2 ^ (ef - (e1 - e2 - 53))) in *.
  assert (HP : 0 < P) by (apply Z.pow_pos_nonneg; lia).
  assert (HA : 0 < 2 ^ (- e2)) by (apply Z.pow_pos_nonneg; lia).
  assert (Hsplit : 2 ^ (- e1) * 9007199254740992 = P * 2 ^ (- ef) * 2 ^ (- e2)).
  { change 9007199254740992 with (2 ^ 53). unfold P.
    rewrite <- !Z.pow_add_r by lia. f_equal. lia. }
  assert (Hnum : Zpos qp * Zpos M2 + r = a * (P * 2 ^ (- ef)) * 2 ^ (- e2)).
  { rewrite Z.mul_comm, <- Hqr, HM1.
    rewrite <- !Z.mul_assoc. f_equal. rewrite Z.mul_assoc. exact Hsplit. }
  rewrite Hnum, HM2 in Hnear. clear Hnum Hsplit Hqr.
  clearbody P. forget (2 ^ (- e2)). forget (2 ^ (- ef)).
  assert (Hfac : 0 < P * X) by nia.
  split.
  - apply (Z.mul_le_mono_pos_r _ _ (P * X) Hfac). nia.
  - apply (Z.mul_le_mono_pos_r _ _ (P * X) Hfac). nia.
Qed.

(** *** Rounding the quotient to an integer *)

(** [a / n] rounded to the nearest integer, halves up. *)
Definition nearest (a n : Z) : Z := (2 * a + n) / (2 * n).

Lemma roundSF_near a n m e :
  0 < n -> 0 <= a -> e <= -1 -> n < 2 ^ (- e) ->
  - n <= 2 * (Zpos m * n - a * 2 ^ (- e)) <= n ->
  roundSF (S754_finite false m e) = Some (nearest a n).
Proof.
  intros Hn Ha He Hbig Hnear. unfold roundSF, nearest.
  destruct (Z.leb_spec 0 e); [lia|]. f_equal.
  replace (- e + 1) with (Z.succ (- e)) by lia.
  rewrite Z.pow_succ_r by lia.
  assert (Heven : 2 ^ (- e) = 2 * 2 ^ (- e - 1)).
  { rewrite <- Z.pow_succ_r by lia. f_equal. lia. }
  assert (Hhalf : 0 < 2 ^ (- e - 1)) by (apply Z.pow_pos_nonneg; lia).
  set (k := (2 * a + n) / (2 * n)).
  assert (Hk : k * (2 * n) <= 2 * a + n < (k + 1) * (2 * n)).
  { unfold k. pose proof (Z.div_mod (2 * a + n) (2 * n) ltac:(lia)).
    pose proof (Z.mod_pos_bound (2 * a + n) (2 * n) ltac:(lia)). lia. }
  clearbody k.
  rewrite Heven in *. forget (2 ^ (- e - 1)).
  symmetry. apply (Z.div_unique_pos _ _ k (2 * Zpos m + 2 * X - k * (2 * (2 * X))));
    [|lia].
  assert (L : (2 * k - 1) * X * n <= (Zpos m) * n + n) by nia.
  assert (U : (Zpos m) * n < (2 * k + 1) * X * n) by nia.
  assert (L' : (2 * k - 1) * X < Zpos m + 1).
  { apply (Z.mul_lt_mono_pos_r n); [assumption|]. nia. }
  assert (U' : Zpos m < (2 * k + 1) * X).
  { apply (Z.mul_lt_mono_pos_r n); [assumption|]. nia. }
  nia.
Qed.

(** [Math.round (a / n)] is the exact quotient rounded to the nearest
    integer, halves up: the rounding of the quotient to 53 bits does not show. *)
Lemma round_div_exact a n :
  1 <= n < 2 ^ 32 -> 0 <= a <= 255 * n ->
  Js.round (Js.div (Int a) (Int n)) = Int (nearest a n).
Proof.
  intros Hn Ha. unfold Js.div.
  destruct (Z.eqb_spec n 0) as [|_]; [lia|]. cbn [negb andb].
  destruct (Z.eqb_spec (a mod n) 0) as [Hdiv|Hrem].
  - cbn [Js.round]. f_equal. unfold nearest.
    pose proof (Z.div_mod a n ltac:(lia)) as Hdm. rewrite Hdiv in Hdm.
    apply (Z.div_unique_pos _ _ _ n); [lia|].
    forget (a / n). lia.
  - assert (Hpos : 0 < a).
    { destruct (Z.eq_dec a 0) as [->|]; [|lia]. now rewrite Z.mod_0_l in Hrem by lia. }
    change (2 ^ 32) with 4294967296 in Hn.
    destruct (div_near a n) as (m & e & E & He & Hnear).
    { change (2 ^ 53) with 9007199254740992. lia. }
    { change (2 ^ 53) with 9007199254740992. lia. }
    { lia. }
    cbn [Js.round]. rewrite E.
    rewrite (roundSF_near a n m e); try lia; [reflexivity|].
    assert (Hp : 2 ^ 43 <= 2 ^ (- e)) by (apply Z.pow_le_mono_r; lia).
    change (2 ^ 43) with 8796093022208 in Hp. lia.
Qed.

End Quotient.

(* ================================================================== *)
(** ** One cluster: samples in a small box *)
(* ================================================================== *)

Module OneCluster.
Import Js JsFacts Color Clusterer Quotient Thresholds Distance.

(** *** The statement, in integers *)

(** A sample as the image holds it: red, green, blue and alpha bytes. *)
Definition pixel : Type := Z * Z * Z * Z.

Definition ofPixel (p : pixel) : color :=
  let '(r, g, b, a) := p in {| r := Int r; g := Int g; b := Int b; a := Int a |}.

(** Bytes, and not fully transparent. *)
Definition valid (p : pixel) : Prop :=
  let '(r, g, b, a) := p in
  0 <= r <= 255 /\ 0 <= g <= 255 /\ 0 <= b <= 255 /\ 1 <= a <= 255.

(** The sample lies in the box [rlo..rhi] x [glo..ghi] x [blo..bhi]. *)
Definition inBox (rlo rhi glo ghi blo bhi : Z) (p : pixel) : Prop :=
  let '(r, g, b, _) := p in
  rlo <= r <= rhi /\ glo <= g <= ghi /\ blo <= b <= bhi.

(** [(rep * (n - 1) + c) / n], rounded to the nearest integer, halves up. *)
Definition roundedMean (rep n c : Z) : Z :=
  (2 * (rep * (n - 1) + c) + n) / (2 * n).

(** The representative after the colour [c] joined as the [n]-th member. *)
Definition meanStep (rep : pixel) (n : Z) (c : pixel) : pixel :=
  let '(r, g, b, a) := rep in
  let '(r', g', b', a') := c in
  (roundedMean r n r', roundedMean g n g', roundedMean b n b',
   roundedMean a n a').

(** The running rounded average of [rep], which stands for [n] colours, and
    the colours [cs] that join one after the other. *)
Fixpoint runningMean (rep : pixel) (n : Z) (cs : list pixel) : pixel :=
  match cs with
  | [] => rep
  | c :: cs => runningMean (meanStep rep (n + 1) c) (n + 1) cs
  end.

(** *** Colours of a small box are within the threshold *)

(** The test of [findDominantColors] on the differences of the channels. *)
Definition closeBy (dr dg db : Z) : bool :=
  Js.lt (Js.sqrt (Js.add (Js.add (weighted rWeight dr) (weighted gWeight dg))
                         (weighted bWeight db)))
        clusterThreshold.

Definition boxed (dr dg db : Z) : bool :=
  299 * (dr * dr) + 587 * (dg * dg) + 114 * (db * db) <? 400000.

(** The differences [(dr, dg, db)], none negative, packed in one integer. *)
Definition onTriples (k : Z) : bool :=
  let db := k mod 60 in
  let dg := (k / 60) mod 27 in
  let dr := k / 60 / 27 in
  if boxed dr dg db then closeBy dr dg db else true.

Lemma weighted_abs weight d :
  In weight [rWeight; gWeight; bWeight] -> -255 <= d <= 255 ->
  weighted weight d = weighted weight (Z.abs d).
Proof.
  intros Hw Hd. destruct (Z.abs_spec d) as [[_ ->]|[_ ->]]; [reflexivity|].
  symmetry. apply weighted_even; [assumption|lia].
Qed.

Lemma boxed_closeBy dr dg db : boxed dr dg db = true -> closeBy dr dg db = true.
Proof.
  intros Hb. pose proof Hb as Hb'. unfold boxed in Hb'. apply Z.ltb_lt in Hb'.
  assert (Hr : -36 <= dr <= 36) by nia.
  assert (Hg : -26 <= dg <= 26) by nia.
  assert (Hbl : -59 <= db <= 59) by nia.
  assert (E : forall k, 0 <= k < 0 + Z.pos 59940 -> onTriples k = true).
  { apply (allIn_spec onTriples 59940 0). vm_compute. reflexivity. }
  specialize (E ((Z.abs dr * 27 + Z.abs dg) * 60 + Z.abs db) ltac:(lia)).
  unfold onTriples in E. cbv zeta in E.
  rewrite (index_mod 60), (index_div 60) in E by lia.
  rewrite (index_mod 27), (index_div 27) in E by lia.
  assert (Hb2 : boxed (Z.abs dr) (Z.abs dg) (Z.abs db) = true).
  { unfold boxed. apply Z.ltb_lt. rewrite !Z.abs_square. lia. }
  rewrite Hb2 in E. unfold closeBy in E |- *.
  rewrite (weighted_abs rWeight dr), (weighted_abs gWeight dg),
    (weighted_abs bWeight db) by (cbn; auto; lia).
  exact E.
Qed.

(** Two colours whose channels differ by no more than the sides of a box
    with [299 dr^2 + 587 dg^2 + 114 db^2 < 400000] pass the test. *)
Lemma close_in_box rlo rhi glo ghi blo bhi (c rep : pixel) :
  299 * (rhi - rlo) ^ 2 + 587 * (ghi - glo) ^ 2 + 114 * (bhi - blo) ^ 2 < 400000 ->
  inBox rlo rhi glo ghi blo bhi c -> inBox rlo rhi glo ghi blo bhi rep ->
  Js.lt (perceptualColorDistance (ofPixel c) (ofPixel rep)) clusterThreshold = true.
Proof.
  destruct c as [[[r1 g1] b1] a1], rep as [[[r2 g2] b2] a2].
  intros Hbox (Hr1 & Hg1 & Hb1) (Hr2 & Hg2 & Hb2).
  change (closeBy (r1 - r2) (g1 - g2) (b1 - b2) = true).
  apply boxed_closeBy. unfold boxed. apply Z.ltb_lt.
  rewrite !Z.pow_2_r in Hbox. nia.
Qed.

(** *** The representative stays a pixel of the box *)

Lemma roundedMean_nearest rep n c :
  roundedMean rep n c = nearest (rep * (n - 1) + c) n.
Proof. reflexivity. Qed.

Lemma roundedMean_between lo hi rep n c :
  1 <= n -> lo <= rep <= hi -> lo <= c <= hi ->
  lo <= roundedMean rep n c <= hi.
Proof.
  intros Hn Hrep Hc. unfold roundedMean. split.
  - apply Z.div_le_lower_bound; [lia|]. nia.
  - assert ((2 * (rep * (n - 1) + c) + n) / (2 * n) < hi + 1); [|lia].
    apply Z.div_lt_upper_bound; [lia|]. nia.
Qed.

(** [average] on bytes is the rounded mean. *)
Lemma average_bytes rep c n :
  1 <= n < 2 ^ 32 -> 0 <= rep <= 255 -> 0 <= c <= 255 ->
  average (Int rep) (Int c) (Int n) = Int (roundedMean rep n c).
Proof.
  intros Hn Hrep Hc. unfold average. cbn [Js.sub Js.mul Js.add].
  rewrite round_div_exact; [reflexivity|assumption|nia].
Qed.

Lemma meanStep_valid rep n c :
  1 <= n -> valid rep -> valid c -> valid (meanStep rep n c).
Proof.
  destruct rep as [[[r g] b] a], c as [[[r' g'] b'] a'].
  intros Hn (Hr & Hg & Hb & Ha) (Hr' & Hg' & Hb' & Ha').
  cbn [meanStep valid].
  split; [|split; [|split]]; apply roundedMean_between; assumption.
Qed.

Lemma meanStep_inBox rlo rhi glo ghi blo bhi rep n c :
  1 <= n -> inBox rlo rhi glo ghi blo bhi rep -> inBox rlo rhi glo ghi blo bhi c ->
  inBox rlo rhi glo ghi blo bhi (meanStep rep n c).
Proof.
  destruct rep as [[[r g] b] a], c as [[[r' g'] b'] a'].
  intros Hn (Hr & Hg & Hb) (Hr' & Hg' & Hb').
  cbn [meanStep inBox].
  split; [|split]; apply roundedMean_between; assumption.
Qed.

(** A group whose members are pixels. *)
Definition groupOf (rep : pixel) (members : list pixel) : group :=
  {| representative := ofPixel rep;
     colors := map ofPixel members;
     count := Z.of_nat (length members) |}.

Lemma merge_pixels rep members c :
  Z.of_nat (length members) + 1 < 2 ^ 32 -> valid rep -> valid c ->
  merge (groupOf rep members) (ofPixel c)
  = groupOf (meanStep rep (Z.of_nat (length members) + 1) c) (members ++ [c]).
Proof.
  destruct rep as [[[r g] b] a], c as [[[r' g'] b'] a'].
  intros Hlen (Hr & Hg & Hb & Ha) (Hr' & Hg' & Hb' & Ha').
  unfold merge, groupOf. cbn [representative colors count ofPixel meanStep].
  rewrite length_app, length_map. cbn [length].
  replace (Z.of_nat (length members + 1)) with (Z.of_nat (length members) + 1)
    by lia.
  cbn [Color.r Color.g Color.b Color.a].
  rewrite !average_bytes by lia.
  f_equal.
  - now rewrite map_app.
  - rewrite length_app. cbn [length]. lia.
Qed.

(** The loop of [findDominantColors] over samples of one box keeps one
    group. *)
Lemma groupColors_box rlo rhi glo ghi blo bhi : forall rest rep members,
  299 * (rhi - rlo) ^ 2 + 587 * (ghi - glo) ^ 2 + 114 * (bhi - blo) ^ 2 < 400000 ->
  members <> [] ->
  Z.of_nat (length members + length rest) < 2 ^ 32 ->
  valid rep -> inBox rlo rhi glo ghi blo bhi rep ->
  Forall valid rest -> Forall (inBox rlo rhi glo ghi blo bhi) rest ->
  fold_left (fun colorGroups c => place c colorGroups) (map ofPixel rest)
            [groupOf rep members]
  = [groupOf (runningMean rep (Z.of_nat (length members)) rest)
             (members ++ rest)].
Proof.
  induction rest as [|c rest IH]; intros rep members Hbox Hne Hlen Hv Hb Hvs Hbs.
  - cbn. now rewrite app_nil_r.
  - inversion Hvs as [|? ? Hvc Hvs']; subst.
    inversion Hbs as [|? ? Hbc Hbs']; subst.
    cbn [map fold_left place length] in *.
    unfold groupOf at 1. cbn [representative].
    rewrite (close_in_box rlo rhi glo ghi blo bhi c rep Hbox Hbc Hb).
    fold (groupOf rep members).
    rewrite merge_pixels by (try assumption; lia).
    assert (Hn : 1 <= Z.of_nat (length members) + 1) by lia.
    rewrite IH; try assumption.
    + rewrite length_app. cbn [length].
      replace (Z.of_nat (length members + 1)) with (Z.of_nat (length members) + 1)
        by lia.
      now rewrite <- app_assoc.
    + intros E. apply app_eq_nil in E. destruct E as [_ E]. discriminate.
    + rewrite length_app. cbn [length]. lia.
    + now apply meanStep_valid.
    + now apply meanStep_inBox.
Qed.

Lemma isValid_pixel p : valid p -> isValid (ofPixel p) = true.
Proof.
  destruct p as [[[r g] b] a]. intros (_ & _ & _ & Ha).
  unfold isValid, ofPixel. cbn [Color.a Js.gt Js.lt]. apply Z.ltb_lt. lia.
Qed.

(** C4 (amended): the clusterer, run on a non-empty set of fewer than
    2^32 valid samples (bytes, alpha not 0) that lie in a box of the RGB
    cube with [0.299 dr^2 + 0.587 dg^2 + 0.114 db^2 < 400] for its sides
    [dr], [dg], [db], builds exactly one group, which holds every sample,
    and returns one dominant colour: the running rounded average, in which
    the [n]-th sample replaces each channel [rep] of the representative by
    [(rep * (n - 1) + c) / n] rounded to the nearest integer, halves up. *)
Theorem single_cluster (p0 : pixel) (rest : list pixel)
    (rlo rhi glo ghi blo bhi : Z) :
  Forall valid (p0 :: rest) ->
  Z.of_nat (length (p0 :: rest)) < 2 ^ 32 ->
  Forall (inBox rlo rhi glo ghi blo bhi) (p0 :: rest) ->
  299 * (rhi - rlo) ^ 2 + 587 * (ghi - glo) ^ 2 + 114 * (bhi - blo) ^ 2 < 400000 ->
  let samples := map ofPixel (p0 :: rest) in
  groupColors samples
  = [ {| representative := ofPixel (runningMean p0 1 rest);
         colors := samples;
         count := Z.of_nat (length samples) |} ]
  /\ findDominantColors samples = [ofPixel (runningMean p0 1 rest)].
Proof.
  intros Hv Hlen Hb Hbox samples.
  inversion Hv as [|? ? Hv0 Hvs]; subst. inversion Hb as [|? ? Hb0 Hbs]; subst.
  assert (Hg : groupColors samples
               = [groupOf (runningMean p0 1 rest) (p0 :: rest)]).
  { unfold samples, groupColors. cbn [map fold_left place].
    change {| representative := ofPixel p0; colors := [ofPixel p0]; count := 1 |}
      with (groupOf p0 [p0]).
    rewrite (groupColors_box rlo rhi glo ghi blo bhi rest p0 [p0]);
      try assumption; [reflexivity|discriminate]. }
  split.
  - rewrite Hg. unfold groupOf, samples. now rewrite length_map.
  - unfold findDominantColors.
    assert (Hf : filter isValid samples = samples).
    { apply forallb_filter_id. unfold samples. apply forallb_forall.
      intros c Hc. apply in_map_iff in Hc. destruct Hc as (p & <- & Hp).
      apply isValid_pixel. rewrite Forall_forall in Hv. now apply Hv. }
    rewrite Hf. unfold samples at 1. cbn [map]. fold samples. rewrite Hg.
    cbn [sortByCount fold_left insertByCount filter groupOf count].
    unfold samples at 1. rewrite length_map.
    rewrite share_of_all by (cbn [length]; lia). reflexivity.
Qed.

Lemma single_cluster_witness :
  findDominantColors
    (map ofPixel [(101, 100, 0, 255); (100, 101, 0, 255); (97, 90, 0, 255)])
  = [ofPixel (runningMean (101, 100, 0, 255) 1
                [(100, 101, 0, 255); (97, 90, 0, 255)])].
Proof.
  apply (single_cluster (101, 100, 0, 255)
           [(100, 101, 0, 255); (97, 90, 0, 255)] 97 101 90 101 0 0).
  - repeat constructor; lia.
  - cbn. lia.
  - repeat constructor; lia.
  - cbn. lia.
Defined.

End OneCluster.
